(** * BusTub storage substrate: LRU-K replacer, buffer pool manager,
      disk scheduler and persistent trie.

    Shallow embedding of
      - src/buffer/lru_k_replacer.cpp
      - src/buffer/buffer_pool_manager.cpp
      - src/storage/disk/disk_scheduler.cpp
      - src/primer/trie.cpp
    and the properties checked against it. *)

From stdpp Require Import gmap strings list fin_maps sorting.
From Stdlib Require Import ZArith Lia Ascii.

Local Open Scope Z_scope.

(** ** Outcomes of running a C++ member function *)

(** A call returns, leaves through a C++ exception, or runs into undefined
    behaviour (null dereference, [back()] of an empty list, an index outside
    an array).  The state after an exception is not modelled: no caller in
    these sources catches one. *)
Inductive result (A : Type) : Type :=
  | Ok (a : A)
  | Throw (msg : string)
  | Undefined (what : string).
Arguments Ok {A} a.
Arguments Throw {A} msg.
Arguments Undefined {A} what.

Global Instance result_ret : MRet result := λ A a, Ok a.
Global Instance result_bind : MBind result := λ A B f m,
  match m with
  | Ok a => f a
  | Throw msg => Throw msg
  | Undefined w => Undefined w
  end.
Global Instance result_fmap : FMap result := λ A B f m,
  match m with
  | Ok a => Ok (f a)
  | Throw msg => Throw msg
  | Undefined w => Undefined w
  end.

Definition is_Ok {A} (m : result A) : Prop := ∃ a, m = Ok a.

Lemma bind_Ok {A B} (f : A → result B) (m : result A) (b : B) :
  m ≫= f = Ok b → ∃ a, m = Ok a ∧ f a = Ok b.
Proof. destruct m; simpl; intros; eauto; discriminate. Qed.

Fixpoint mapR {A B} (f : A → result B) (l : list A) : result (list B) :=
  match l with
  | [] => Ok []
  | x :: l' => y ← f x; ys ← mapR f l'; Ok (y :: ys)
  end.

(** ** Fixed-width integers *)

Definition SIZE_MAX : Z := 2 ^ 64 - 1.

(** Conversion to, and arithmetic in, [size_t]: values wrap modulo 2^64. *)
Definition to_size_t (z : Z) : Z := z mod 2 ^ 64.

(** [static_cast<int>] of a [size_t]: the value modulo 2^32 that lies in the
    range of a 32-bit [int].  Values up to [INT_MAX] are unchanged. *)
Definition INT_MAX : Z := 2 ^ 31 - 1.
Definition to_int (z : Z) : Z := (z + 2 ^ 31) mod 2 ^ 32 - 2 ^ 31.

(** Modelled from the spec: frame ids and page ids are integers, frame ids
    lie in [0, pool_size), and one id outside the valid ones is reserved as
    the invalid id (common/config.h, which declares it, is not among the
    sources); it is taken as -1. *)
Definition INVALID_PAGE_ID : Z := -1.

(** ** What the C++ standard library leaves unspecified *)

(** A comparator handed to [std::sort] has to be a strict weak ordering. *)
Record StrictWeakOrder {A} (comp : A → A → bool) : Prop := {
  swo_irrefl : ∀ a, comp a a = false;
  swo_trans : ∀ a b c, comp a b = true → comp b c = true → comp a c = true;
  swo_neg_trans : ∀ a b c, comp a b = false → comp b c = false → comp a c = false
}.

(** The iteration order of a [std::unordered_map] and the order in which
    [std::sort] leaves equivalent elements are not fixed by the language.
    The model takes both as an interface; every theorem below holds for
    every implementation of it. *)
Class StdLib := {
  unordered_iter : ∀ {A}, gmap Z A → list (Z * A);
  unordered_iter_perm : ∀ A (m : gmap Z A), unordered_iter m ≡ₚ map_to_list m;
  std_sort : ∀ {A}, (A → A → bool) → list A → list A;
  std_sort_perm : ∀ A (comp : A → A → bool) l, std_sort comp l ≡ₚ l;
  std_sort_sorted : ∀ A (comp : A → A → bool) l,
    StrictWeakOrder comp →
    StronglySorted (λ a b, comp b a = false) (std_sort comp l)
}.

(** [std::stable_sort] is determined by its input: insertion from the right
    keeps equivalent elements in their input order. *)
Fixpoint stable_insert {A} (comp : A → A → bool) (x : A) (l : list A) : list A :=
  match l with
  | [] => [x]
  | y :: l' => if comp y x then y :: stable_insert comp x l' else x :: y :: l'
  end.

Fixpoint std_stable_sort {A} (comp : A → A → bool) (l : list A) : list A :=
  match l with
  | [] => []
  | x :: l' => stable_insert comp x (std_stable_sort comp l')
  end.

Section Sorting.
Context {A : Type} (comp : A → A → bool).

Lemma stable_insert_perm x l : stable_insert comp x l ≡ₚ x :: l.
Proof.
  induction l as [|y l IH]; simpl; [done|].
  destruct (comp y x); [|done].
  rewrite IH. apply Permutation_swap.
Qed.

Lemma std_stable_sort_perm l : std_stable_sort comp l ≡ₚ l.
Proof.
  induction l as [|x l IH]; simpl; [done|].
  by rewrite stable_insert_perm, IH.
Qed.

(** The relation that holds between an earlier and a later element of the
    output of a stable sort whose input was ordered by [Q]: the later one
    does not compare before the earlier one, and when they are equivalent
    they are still in input order. *)
Definition stable_order (Q : relation A) (a b : A) : Prop :=
  comp b a = false ∧ (comp a b = true ∨ Q a b).

Lemma swo_asym : StrictWeakOrder comp → ∀ a b, comp a b = true → comp b a = false.
Proof.
  intros Hs a b Hab. destruct (comp b a) eqn:Hba; [|done].
  rewrite <- (swo_irrefl comp Hs a). symmetry. by apply (swo_trans comp Hs a b a).
Qed.

Lemma stable_insert_sorted (Q : relation A) x l :
  StrictWeakOrder comp →
  Forall (Q x) l →
  StronglySorted (stable_order Q) l →
  StronglySorted (stable_order Q) (stable_insert comp x l).
Proof.
  intros Hs HQ Hl. induction Hl as [|y l Hl IH Hy]; simpl.
  - repeat constructor.
  - apply Forall_cons in HQ as [HQy HQl].
    destruct (comp y x) eqn:Hyx.
    + constructor; [by apply IH|].
      rewrite stable_insert_perm. constructor; [|done].
      split; [by apply swo_asym | by left].
    + constructor; [by constructor|].
      constructor; [split; [done | by right]|].
      rewrite Forall_forall in Hy, HQl |- *. intros z Hz. split.
      * destruct (Hy z Hz) as [Hzy _]. by apply (swo_neg_trans comp Hs z y x).
      * right. by apply HQl.
Qed.

Lemma std_stable_sort_stable (Q : relation A) l :
  StrictWeakOrder comp →
  StronglySorted Q l →
  StronglySorted (stable_order Q) (std_stable_sort comp l).
Proof.
  intros Hs Hl. induction Hl as [|x l Hl IH Hx]; simpl; [constructor|].
  apply stable_insert_sorted; [done| |done].
  by rewrite std_stable_sort_perm.
Qed.

Lemma std_stable_sort_sorted l :
  StrictWeakOrder comp →
  StronglySorted (λ a b, comp b a = false) (std_stable_sort comp l).
Proof.
  intros Hs.
  assert (StronglySorted (λ _ _ : A, True) l) as HT.
  { induction l; constructor; [done|]. by apply Forall_forall. }
  pose proof (std_stable_sort_stable _ l Hs HT) as Hsorted.
  revert Hsorted. generalize (std_stable_sort comp l). intros l'.
  induction 1 as [|x l0 Hl IH Hx]; constructor; [done|].
  eapply Forall_impl; [exact Hx|]. by intros a [? _].
Qed.

(** The first element that satisfies a test, in a list ordered by [R], is
    [R]-before every other element that satisfies it. *)
Lemma find_StronglySorted (R : relation A) (P : A → bool) l v :
  StronglySorted R l → find P l = Some v →
  v ∈ l ∧ P v = true ∧ ∀ x, x ∈ l → P x = true → x = v ∨ R v x.
Proof.
  induction 1 as [|y l Hl IH Hy]; simpl; [done|].
  destruct (P y) eqn:HPy.
  - intros [= ->]. split; [left|]. split; [done|].
    intros x Hx _. apply elem_of_cons in Hx as [->|Hx]; [by left|].
    right. rewrite Forall_forall in Hy. by apply Hy.
  - intros Hf. destruct (IH Hf) as (Hv & HPv & Hall).
    split; [by right|]. split; [done|].
    intros x Hx HPx. apply elem_of_cons in Hx as [->|Hx]; [congruence|].
    by apply Hall.
Qed.

Lemma find_is_Some (P : A → bool) l x :
  x ∈ l → P x = true → ∃ v, find P l = Some v.
Proof.
  induction 1 as [x l|x y l Hx IH]; simpl; intros HP.
  - rewrite HP. eauto.
  - destruct (P y); eauto.
Qed.
End Sorting.

(** The implementation used to run the model on concrete inputs: iteration
    in key order and a stable [std::sort]. *)
Global Instance reference_stdlib : StdLib :=
  Build_StdLib
    (λ A m, map_to_list m) (λ A m, reflexivity _)
    (λ A comp l, std_stable_sort comp l)
    (λ A comp l, std_stable_sort_perm comp l)
    (λ A comp l Hs, std_stable_sort_sorted comp l Hs).

(** ** LRU-K replacer (src/buffer/lru_k_replacer.cpp) *)

Module Node.
(** Modelled from the spec: [LRUKNode] is declared in
    buffer/lru_k_replacer.h, which is not among the sources.  The fields are
    the ones the member functions use; the history has the newest timestamp
    at the front, and a new node is not evictable. *)
Record t := mk {
  history_ : list Z;
  k_ : Z;
  fid_ : Z;
  is_evictable_ : bool
}.
(** [LRUKNode()] *)
Definition fresh : t := mk [] 0 0 false.
Definition set_history (h : list Z) (n : t) : t :=
  mk h (k_ n) (fid_ n) (is_evictable_ n).
Definition set_evictable (b : bool) (n : t) : t :=
  mk (history_ n) (k_ n) (fid_ n) b.
End Node.

Module LRUK.

Record LRUKReplacer := mk {
  node_store_ : gmap Z Node.t;
  evictable_node_ : gmap Z Node.t;
  current_timestamp_ : Z;
  curr_size_ : Z;
  replacer_size_ : Z;
  max_size_ : Z;
  k_ : Z
}.

(** [LRUKReplacer::LRUKReplacer(num_frames, k)].  The constructor sets
    [max_size_] and [k_]; the counters start at zero and the maps empty. *)
Definition new (num_frames k : Z) : LRUKReplacer :=
  mk ∅ ∅ 0 0 0 num_frames k.

(** [node_store_[f]] at a site where the key is known to be present (every
    use below comes after a [count] test or iterates over the map). *)
Definition node_at (r : LRUKReplacer) (f : Z) : Node.t :=
  default Node.fresh (node_store_ r !! f).

Definition with_nodes (ns : gmap Z Node.t) (r : LRUKReplacer) : LRUKReplacer :=
  mk ns (evictable_node_ r) (current_timestamp_ r) (curr_size_ r)
     (replacer_size_ r) (max_size_ r) (k_ r).

(** The comparator of both sorts: [lhs.second > rhs.second]. *)
Definition by_distance (lhs rhs : Z * Z) : bool := rhs.2 <? lhs.2.

(** The first loop of [Evict]: one pair per node, with the distance from
    the clock reading to [history_.back()] in [size_t] arithmetic.
    ([vector.reserve] before the loop only sets capacity aside.) *)
Definition distance_of (now : Z) (p : Z * Node.t) : result (Z * Z) :=
  match last (Node.history_ p.2) with
  | None => Undefined "history_.back() on an empty list"
  | Some t => Ok (p.1, to_size_t (now - t))
  end.

(** The second loop: frames whose history does not hold [k_] timestamps get
    the distance [SIZE_MAX]. *)
Definition mark_infinite (r : LRUKReplacer) (p : Z * Z) : Z * Z :=
  if decide (Z.of_nat (length (Node.history_ (node_at r p.1))) ≠ k_ r)
  then (p.1, SIZE_MAX) else p.

Definition erase_node (f : Z) (r : LRUKReplacer) : LRUKReplacer :=
  mk (delete f (node_store_ r)) (delete f (evictable_node_ r))
     (current_timestamp_ r)
     (to_size_t (curr_size_ r - 1)) (to_size_t (replacer_size_ r - 1))
     (max_size_ r) (k_ r).

Section Evict.
Context `{StdLib}.

Definition candidates (now : Z) (r : LRUKReplacer) : result (list (Z * Z)) :=
  vector ← mapR (distance_of now) (unordered_iter (node_store_ r));
  Ok (std_stable_sort by_distance
        (mark_infinite r <$> std_sort by_distance vector)).

(** [LRUKReplacer::Evict]; [now] is the clock reading it takes. *)
Definition Evict (now : Z) (r : LRUKReplacer) : result (option Z * LRUKReplacer) :=
  vector ← candidates now r;
  let result :=
    match find (λ p : Z * Z, Node.is_evictable_ (node_at r p.1)) vector with
    | Some p => p.1
    | None => INVALID_PAGE_ID
    end in
  if decide (result = INVALID_PAGE_ID) then Ok (None, r)
  else Ok (Some result, erase_node result r).
End Evict.

(** [LRUKReplacer::AddFrames] *)
Definition AddFrames (frame_id : Z) (r : LRUKReplacer) : LRUKReplacer :=
  let new_node := Node.mk [current_timestamp_ r] (k_ r) frame_id false in
  mk (<[frame_id := new_node]> (node_store_ r)) (evictable_node_ r)
     (current_timestamp_ r) (to_size_t (curr_size_ r + 1))
     (replacer_size_ r) (max_size_ r) (k_ r).

(** [push_front] followed by [pop_back] when more than [k_] are held *)
Definition push_history (k ts : Z) (h : list Z) : list Z :=
  let h' := ts :: h in
  if Z.of_nat (length h') >? k then removelast h' else h'.

(** [LRUKReplacer::RecordAccess]; [now] is the clock reading it takes. *)
Definition RecordAccess (now : Z) (frame_id : Z) (r : LRUKReplacer) : LRUKReplacer :=
  let r := mk (node_store_ r) (evictable_node_ r) (to_size_t now) (curr_size_ r)
              (replacer_size_ r) (max_size_ r) (k_ r) in
  if decide (curr_size_ r = 0 ∨ node_store_ r !! frame_id = None)
  then AddFrames frame_id r
  else
    let n := node_at r frame_id in
    with_nodes
      (<[frame_id := Node.set_history
                       (push_history (k_ r) (current_timestamp_ r) (Node.history_ n)) n]>
         (node_store_ r)) r.

(** [LRUKReplacer::EnableEvictable] *)
Definition EnableEvictable (frame_id : Z) (r : LRUKReplacer) : result LRUKReplacer :=
  let size := to_size_t (replacer_size_ r + 1) in
  if decide (size > max_size_ r) then Throw "too many evictable frames"
  else
    let n := Node.set_evictable true (node_at r frame_id) in
    Ok (mk (<[frame_id := n]> (node_store_ r)) (<[frame_id := n]> (evictable_node_ r))
           (current_timestamp_ r) (curr_size_ r) size (max_size_ r) (k_ r)).

(** [LRUKReplacer::DisableEvictable] *)
Definition DisableEvictable (frame_id : Z) (r : LRUKReplacer) : LRUKReplacer :=
  let n := Node.set_evictable false (node_at r frame_id) in
  mk (<[frame_id := n]> (node_store_ r)) (delete frame_id (evictable_node_ r))
     (current_timestamp_ r) (curr_size_ r) (to_size_t (replacer_size_ r - 1))
     (max_size_ r) (k_ r).

(** [LRUKReplacer::SetEvictable] *)
Definition SetEvictable (frame_id : Z) (set_evictable : bool) (r : LRUKReplacer)
  : result LRUKReplacer :=
  match node_store_ r !! frame_id with
  | None => Throw "frame id is invalid"
  | Some n =>
      let is_evictable := Node.is_evictable_ n in
      if decide (set_evictable = is_evictable) then Ok r
      else
        r1 ← (if set_evictable && negb is_evictable
              then EnableEvictable frame_id r else Ok r);
        Ok (if negb set_evictable && is_evictable
            then DisableEvictable frame_id r1 else r1)
  end.

(** [LRUKReplacer::Remove] *)
Definition Remove (frame_id : Z) (r : LRUKReplacer) : result LRUKReplacer :=
  match node_store_ r !! frame_id with
  | None => Ok r
  | Some n =>
      if negb (Node.is_evictable_ n) then Throw "non-evictable frame"
      else Ok (erase_node frame_id r)
  end.

(** [LRUKReplacer::Size] *)
Definition Size (r : LRUKReplacer) : Z := replacer_size_ r.

(** Calls a client of the replacer can make, and runs of them.  [RecordAccess]
    and [Evict] carry the clock reading they take. *)
Inductive Op :=
  | OpRecordAccess (now frame_id : Z)
  | OpSetEvictable (frame_id : Z) (set_evictable : bool)
  | OpRemove (frame_id : Z)
  | OpEvict (now : Z).

Section Runs.
Context `{StdLib}.

Definition step (o : Op) (r : LRUKReplacer) : result LRUKReplacer :=
  match o with
  | OpRecordAccess now frame_id => Ok (RecordAccess now frame_id r)
  | OpSetEvictable frame_id set_evictable => SetEvictable frame_id set_evictable r
  | OpRemove frame_id => Remove frame_id r
  | OpEvict now => '(_, r) ← Evict now r; Ok r
  end.

Fixpoint run (ops : list Op) (r : LRUKReplacer) : result LRUKReplacer :=
  match ops with
  | [] => Ok r
  | o :: ops' => r ← step o r; run ops' r
  end.
End Runs.

(** *** The LRU-K policy in the words of the specification *)

Inductive distance := Finite (d : Z) | Infinite.

(** Backward K-distance: the clock reading minus the timestamp of the K-th
    most recent access; infinite with fewer than K recorded accesses. *)
Definition backward_k_distance (now k : Z) (n : Node.t) : distance :=
  if decide (Z.of_nat (length (Node.history_ n)) < k) then Infinite
  else match Node.history_ n !! Z.to_nat (k - 1) with
       | Some t => Finite (now - t)
       | None => Infinite
       end.

(** Infinity counts as larger than any finite value. *)
Definition distance_le (a b : distance) : Prop :=
  match a, b with
  | _, Infinite => True
  | Finite x, Finite y => x ≤ y
  | Infinite, Finite _ => False
  end.

(** The oldest access a node still records. *)
Definition oldest_access (n : Node.t) : option Z := last (Node.history_ n).

(** States of the replacer at a clock reading [now]: frame ids are valid,
    every node records between one and K accesses, none of them later than
    [now], and [now] is below the largest [size_t]. *)
Definition node_ok (now k : Z) (f : Z) (n : Node.t) : Prop :=
  0 ≤ f ∧
  (0 < length (Node.history_ n))%nat ∧ Z.of_nat (length (Node.history_ n)) ≤ k ∧
  Forall (λ t, 0 ≤ t ≤ now) (Node.history_ n).

Definition well_formed (now : Z) (r : LRUKReplacer) : Prop :=
  now < SIZE_MAX ∧ map_Forall (node_ok now (k_ r)) (node_store_ r).

(** The evictable count agrees with the nodes. *)
Definition evictable_count (r : LRUKReplacer) : Z :=
  Z.of_nat (size (filter (λ p : Z * Node.t, Node.is_evictable_ p.2 = true) (node_store_ r))).

Definition size_consistent (r : LRUKReplacer) : Prop :=
  replacer_size_ r = evictable_count r ∧ evictable_count r ≤ SIZE_MAX.

(** Both counters agree with the nodes, and there is room for one more. *)
Definition counters_ok (r : LRUKReplacer) : Prop :=
  curr_size_ r = Z.of_nat (size (node_store_ r)) ∧
  replacer_size_ r = evictable_count r ∧
  Z.of_nat (size (node_store_ r)) < SIZE_MAX.

End LRUK.

(** The copy of lru_k_replacer.cpp that follows buffer_pool_manager.cpp in
    the sources is an earlier revision of the same file.  Its [Evict],
    [RecordAccess], [SetEvictable] and [Size] act on [node_store_] and on the
    counters as the ones above do; its [Remove] differs. *)
Module LRUKv0.
Import LRUK.

(** [LRUKReplacer::Remove], earlier revision: the history is cleared, the
    node and the counters stay. *)
Definition Remove (frame_id : Z) (r : LRUKReplacer) : result LRUKReplacer :=
  match node_store_ r !! frame_id with
  | None => Ok r
  | Some n =>
      if negb (Node.is_evictable_ n) then Throw "non-evictable frame"
      else Ok (with_nodes (<[frame_id := Node.set_history [] n]> (node_store_ r)) r)
  end.

End LRUKv0.

(** ** Buffer pool manager (src/buffer/buffer_pool_manager.cpp) *)

(** Readings of [std::chrono::system_clock]: the n-th reading a run takes.
    The model is parametric in them. *)
Class Clock := system_clock_now : nat → Z.

(** Modelled from the spec: the size of a page, a compile-time constant of
    the engine declared outside the sources. *)
Definition BUSTUB_PAGE_SIZE : nat := 4096.

Module Page.
(** Modelled from the spec: a frame is a fixed-size byte buffer plus the
    page id currently resident, a pin counter and a dirty flag ([Page] is
    declared in storage/page/page.h, which is not among the sources).  The
    pin count is taken as an unbounded integer; the reader/writer latch has
    no effect in a sequential run. *)
Record t := mk {
  data_ : list Byte.byte;
  page_id_ : Z;
  pin_count_ : Z;
  is_dirty_ : bool
}.
(** A frame after [ResetMemory] with cleared metadata *)
Definition blank : t := mk (replicate BUSTUB_PAGE_SIZE Byte.x00) INVALID_PAGE_ID 0 false.
Global Arguments blank : simpl never.
Definition set_data (d : list Byte.byte) (p : t) : t :=
  mk d (page_id_ p) (pin_count_ p) (is_dirty_ p).
Definition set_page_id (i : Z) (p : t) : t :=
  mk (data_ p) i (pin_count_ p) (is_dirty_ p).
Definition set_pin_count (c : Z) (p : t) : t :=
  mk (data_ p) (page_id_ p) c (is_dirty_ p).
Definition set_is_dirty (d : bool) (p : t) : t :=
  mk (data_ p) (page_id_ p) (pin_count_ p) d.
End Page.

Module BPM.

(** The pool, together with the two things outside it that its member
    functions act on: the pages held by the disk manager behind
    [disk_scheduler_], and the number of clock readings taken so far.
    A request handed to the scheduler is awaited by the pool right away
    ([future.get()]), so it is modelled as the disk manager call it leads to.
    Modelled from the spec: [next_page_id_] is a monotonically increasing
    counter (its declaration, in buffer/buffer_pool_manager.h, is not among
    the sources); it is taken as an unbounded integer starting at 0. *)
Record BufferPoolManager := mk {
  pool_size_ : Z;
  next_page_id_ : Z;
  pages_ : list Page.t;
  replacer_ : LRUK.LRUKReplacer;
  page_table_ : gmap Z Z;
  free_list_ : list Z;
  disk_ : gmap Z (list Byte.byte);
  clock_ : nat
}.

Definition with_next_page_id (x : Z) (b : BufferPoolManager) :=
  mk (pool_size_ b) x (pages_ b) (replacer_ b) (page_table_ b) (free_list_ b)
     (disk_ b) (clock_ b).
Definition with_pages (x : list Page.t) (b : BufferPoolManager) :=
  mk (pool_size_ b) (next_page_id_ b) x (replacer_ b) (page_table_ b) (free_list_ b)
     (disk_ b) (clock_ b).
Definition with_replacer (x : LRUK.LRUKReplacer) (b : BufferPoolManager) :=
  mk (pool_size_ b) (next_page_id_ b) (pages_ b) x (page_table_ b) (free_list_ b)
     (disk_ b) (clock_ b).
Definition with_page_table (x : gmap Z Z) (b : BufferPoolManager) :=
  mk (pool_size_ b) (next_page_id_ b) (pages_ b) (replacer_ b) x (free_list_ b)
     (disk_ b) (clock_ b).
Definition with_free_list (x : list Z) (b : BufferPoolManager) :=
  mk (pool_size_ b) (next_page_id_ b) (pages_ b) (replacer_ b) (page_table_ b) x
     (disk_ b) (clock_ b).
Definition with_disk (x : gmap Z (list Byte.byte)) (b : BufferPoolManager) :=
  mk (pool_size_ b) (next_page_id_ b) (pages_ b) (replacer_ b) (page_table_ b)
     (free_list_ b) x (clock_ b).
Definition with_clock (x : nat) (b : BufferPoolManager) :=
  mk (pool_size_ b) (next_page_id_ b) (pages_ b) (replacer_ b) (page_table_ b)
     (free_list_ b) (disk_ b) x.

(** [BufferPoolManager::BufferPoolManager(pool_size, disk_manager, replacer_k)].
    The loop puts [static_cast<int>(i)] into the free list for every [i]
    below [pool_size]: for a pool of more than [INT_MAX] + 1 frames the ids
    from the index 2^31 on are wrapped, the first of them to a negative
    number. *)
Definition new (pool_size replacer_k : Z) (disk : gmap Z (list Byte.byte)) : BufferPoolManager :=
  mk pool_size 0 (replicate (Z.to_nat pool_size) Page.blank)
     (LRUK.new pool_size replacer_k) ∅ (to_int <$> seqZ 0 pool_size) disk 0.

(** [pages_[frame_id]]; an index outside the array is undefined behaviour. *)
Definition page_at (frame_id : Z) (b : BufferPoolManager) : result Page.t :=
  if decide (0 ≤ frame_id) then
    match pages_ b !! Z.to_nat frame_id with
    | Some p => Ok p
    | None => Undefined "pages_ index out of range"
    end
  else Undefined "pages_ index out of range".

Definition set_page (frame_id : Z) (p : Page.t) (b : BufferPoolManager) : BufferPoolManager :=
  with_pages (<[Z.to_nat frame_id := p]> (pages_ b)) b.

(** Modelled from the spec: the disk gateway synchronously writes or reads
    one page at a given page id (the disk manager is not among the sources).
    A page that was never written leaves the buffer as it is. *)
Definition WritePage (page_id : Z) (data : list Byte.byte) (b : BufferPoolManager) :=
  with_disk (<[page_id := data]> (disk_ b)) b.
Definition ReadPage (page_id : Z) (buffer : list Byte.byte) (b : BufferPoolManager)
  : list Byte.byte :=
  default buffer (disk_ b !! page_id).

Section Operations.
Context `{StdLib} `{Clock}.

(** One reading of the clock *)
Definition tick (b : BufferPoolManager) : Z * BufferPoolManager :=
  (system_clock_now (clock_ b), with_clock (S (clock_ b)) b).

(** [replacer_->RecordAccess(frame_id)] *)
Definition record_access (frame_id : Z) (b : BufferPoolManager) : BufferPoolManager :=
  let '(now, b) := tick b in
  with_replacer (LRUK.RecordAccess now frame_id (replacer_ b)) b.

(** [replacer_->SetEvictable(frame_id, flag)] *)
Definition set_evictable (frame_id : Z) (flag : bool) (b : BufferPoolManager)
  : result BufferPoolManager :=
  rep ← LRUK.SetEvictable frame_id flag (replacer_ b);
  Ok (with_replacer rep b).

(** [BufferPoolManager::AllocatePage] *)
Definition AllocatePage (b : BufferPoolManager) : Z * BufferPoolManager :=
  (next_page_id_ b, with_next_page_id (next_page_id_ b + 1) b).

(** [BufferPoolManager::ResetFrame] *)
Definition ResetFrame (frame_id : Z) (b : BufferPoolManager) : result BufferPoolManager :=
  _ ← page_at frame_id b;
  Ok (set_page frame_id Page.blank b).

(** The first half of [NewFrame]: a frame from the free list, or else a
    victim of the replacer, written back when dirty and taken out of the
    page table. *)
Definition acquire_frame (b : BufferPoolManager) : result (option Z * BufferPoolManager) :=
  match free_list_ b with
  | frame_id :: rest => Ok (Some frame_id, with_free_list rest b)
  | [] =>
      let '(now, b) := tick b in
      '(get, rep) ← LRUK.Evict now (replacer_ b);
      let b := with_replacer rep b in
      match get with
      | None => Ok (None, b)
      | Some frame_id =>
          pg ← page_at frame_id b;
          let b := if Page.is_dirty_ pg
                   then WritePage (Page.page_id_ pg) (Page.data_ pg) b else b in
          Ok (Some frame_id, with_page_table (delete (Page.page_id_ pg) (page_table_ b)) b)
      end
  end.

(** [BufferPoolManager::NewFrame]; [None] stands for the result [false]. *)
Definition NewFrame (page_id : Z) (b : BufferPoolManager)
  : result (option Z * BufferPoolManager) :=
  '(got, b) ← acquire_frame b;
  match got with
  | None => Ok (None, b)
  | Some frame_id =>
      b ← ResetFrame frame_id b;
      let b := set_page frame_id (Page.set_page_id page_id Page.blank) b in
      Ok (Some frame_id, record_access frame_id b)
  end.

(** [pages_[frame_id].pin_count_++] *)
Definition pin (frame_id : Z) (b : BufferPoolManager) : result BufferPoolManager :=
  pg ← page_at frame_id b;
  Ok (set_page frame_id (Page.set_pin_count (Page.pin_count_ pg + 1) pg) b).

(** [BufferPoolManager::NewPage]; the result is the page id written through
    [page_id] and the frame whose page is returned, or [None] for [nullptr]. *)
Definition NewPage (b : BufferPoolManager) : result (option (Z * Z) * BufferPoolManager) :=
  let '(new_page_id, b) := AllocatePage b in
  '(get, b) ← NewFrame new_page_id b;
  match get with
  | None => Ok (None, b)
  | Some new_frame_id =>
      b ← pin new_frame_id b;
      let b := record_access new_frame_id b in
      b ← set_evictable new_frame_id false b;
      let b := with_page_table (<[new_page_id := new_frame_id]> (page_table_ b)) b in
      Ok (Some (new_page_id, new_frame_id), b)
  end.

(** The end of [FetchPage], common to a hit and a miss *)
Definition pin_and_record (frame_id : Z) (b : BufferPoolManager)
  : result (option Z * BufferPoolManager) :=
  b ← pin frame_id b;
  Ok (Some frame_id, record_access frame_id b).

(** [BufferPoolManager::FetchPage]; the result is the frame whose page is
    returned, or [None] for [nullptr]. *)
Definition FetchPage (page_id : Z) (b : BufferPoolManager)
  : result (option Z * BufferPoolManager) :=
  match page_table_ b !! page_id with
  | Some frame_id => pin_and_record frame_id b
  | None =>
      '(get, b) ← NewFrame page_id b;
      match get with
      | None => Ok (None, b)
      | Some frame_id =>
          b ← set_evictable frame_id false b;
          pg ← page_at frame_id b;
          let data := ReadPage (Page.page_id_ pg) (Page.data_ pg) b in
          let b := set_page frame_id (Page.set_data data pg) b in
          let b := with_page_table (<[page_id := frame_id]> (page_table_ b)) b in
          pin_and_record frame_id b
      end
  end.

(** [BufferPoolManager::UnpinPage] *)
Definition UnpinPage (page_id : Z) (is_dirty : bool) (b : BufferPoolManager)
  : result (bool * BufferPoolManager) :=
  match page_table_ b !! page_id with
  | None => Ok (false, b)
  | Some frame_id =>
      pg ← page_at frame_id b;
      if decide (Page.pin_count_ pg ≤ 0) then Ok (false, b)
      else
        let pg := Page.set_pin_count (Page.pin_count_ pg - 1) pg in
        let b := set_page frame_id pg b in
        b ← (if decide (Page.pin_count_ pg = 0)
             then set_evictable frame_id true b else Ok b);
        Ok (true, set_page frame_id (Page.set_is_dirty is_dirty pg) b)
  end.

(** [BufferPoolManager::FlushPage] *)
Definition FlushPage (page_id : Z) (b : BufferPoolManager)
  : result (bool * BufferPoolManager) :=
  if decide (page_id = INVALID_PAGE_ID) then Ok (false, b)
  else
    match page_table_ b !! page_id with
    | None => Ok (false, b)
    | Some frame_id =>
        pg ← page_at frame_id b;
        let b := WritePage (Page.page_id_ pg) (Page.data_ pg) b in
        Ok (true, set_page frame_id (Page.set_is_dirty false pg) b)
    end.

(** [BufferPoolManager::FlushAllPages] *)
Definition FlushAllPages (b : BufferPoolManager) : result BufferPoolManager :=
  foldl (λ acc (p : Z * Z), b ← acc; '(_, b) ← FlushPage p.1 b; Ok b)
        (Ok b) (unordered_iter (page_table_ b)).

(** [BufferPoolManager::DeletePage].  Modelled from the spec:
    [DeallocatePage], declared outside the sources, releases the page id to
    an allocator that never reuses ids; it does nothing to the pool. *)
Definition DeletePage (page_id : Z) (b : BufferPoolManager)
  : result (bool * BufferPoolManager) :=
  match page_table_ b !! page_id with
  | None => Ok (true, b)
  | Some frame_id =>
      pg ← page_at frame_id b;
      if decide (Page.pin_count_ pg > 0) then Ok (false, b)
      else
        let b := with_page_table (delete page_id (page_table_ b)) b in
        rep ← LRUK.Remove frame_id (replacer_ b);
        let b := with_replacer rep b in
        let b := with_free_list (free_list_ b ++ [frame_id]) b in
        b ← ResetFrame frame_id b;
        Ok (true, b)
  end.

(** Calls a client can make, and runs of them.  A run collects the page ids
    handed out by [NewPage]. *)
Inductive Op :=
  | OpNewPage
  | OpFetchPage (page_id : Z)
  | OpUnpinPage (page_id : Z) (is_dirty : bool)
  | OpFlushPage (page_id : Z)
  | OpFlushAllPages
  | OpDeletePage (page_id : Z).

Definition step (o : Op) (b : BufferPoolManager) : result (list Z * BufferPoolManager) :=
  match o with
  | OpNewPage =>
      '(got, b) ← NewPage b;
      Ok (match got with Some (page_id, _) => [page_id] | None => [] end, b)
  | OpFetchPage page_id => '(_, b) ← FetchPage page_id b; Ok ([], b)
  | OpUnpinPage page_id is_dirty => '(_, b) ← UnpinPage page_id is_dirty b; Ok ([], b)
  | OpFlushPage page_id => '(_, b) ← FlushPage page_id b; Ok ([], b)
  | OpFlushAllPages => b ← FlushAllPages b; Ok ([], b)
  | OpDeletePage page_id => '(_, b) ← DeletePage page_id b; Ok ([], b)
  end.

Fixpoint run (ops : list Op) (b : BufferPoolManager) : result (list Z * BufferPoolManager) :=
  match ops with
  | [] => Ok ([], b)
  | o :: ops' =>
      '(ids, b) ← step o b;
      '(ids', b) ← run ops' b;
      Ok (ids ++ ids', b)
  end.

(** The replacer after the two accesses recorded for frame [f] at the
    readings [n] and [n + 1] of the clock. *)
Definition two_accesses (n : nat) (f : Z) (r : LRUK.LRUKReplacer) : LRUK.LRUKReplacer :=
  LRUK.RecordAccess (system_clock_now (S n)) f
    (LRUK.RecordAccess (system_clock_now n) f r).

End Operations.

(** What the pool and the replacer say about a frame *)
Definition pin_count_of (frame_id : Z) (b : BufferPoolManager) : option Z :=
  Page.pin_count_ <$> pages_ b !! Z.to_nat frame_id.
Definition is_dirty_of (frame_id : Z) (b : BufferPoolManager) : option bool :=
  Page.is_dirty_ <$> pages_ b !! Z.to_nat frame_id.
Definition evictable_of (frame_id : Z) (b : BufferPoolManager) : option bool :=
  Node.is_evictable_ <$> LRUK.node_store_ (replacer_ b) !! frame_id.
Definition history_of (frame_id : Z) (r : LRUK.LRUKReplacer) : option (list Z) :=
  Node.history_ <$> LRUK.node_store_ r !! frame_id.

(** The pin invariant of the specification: a frame with a positive pin
    count is not evictable in the replacer. *)
Definition pinned_frames_not_evictable (b : BufferPoolManager) : Prop :=
  ∀ frame_id c, 0 ≤ frame_id → pin_count_of frame_id b = Some c → c > 0 →
                evictable_of frame_id b ≠ Some true.

End BPM.

(** ** Disk scheduler (src/storage/disk/disk_scheduler.cpp) *)

Module DiskRequest.
(** [DiskRequest]: [data_] is the address of the buffer, [callback_] the
    promise to resolve. *)
Record t := mk {
  is_write_ : bool;
  data_ : nat;
  page_id_ : Z;
  callback_ : nat
}.
End DiskRequest.

Module DiskScheduler.

(** What a worker acts on: the state of the disk manager, the buffers that
    requests point to, and the shared state of the promises (absent while a
    promise is unresolved). *)
Record World (Disk : Type) := mkWorld {
  disk : Disk;
  memory : gmap nat (list Byte.byte);
  promises : gmap nat bool
}.
Arguments mkWorld {Disk} _ _ _.
Arguments disk {Disk} _.
Arguments memory {Disk} _.
Arguments promises {Disk} _.

(** The disk manager is outside the sources.  A call of [WritePage] or
    [ReadPage] returns, or leaves through an exception. *)
Class DiskManager (Disk : Type) := {
  WritePage : Z → list Byte.byte → Disk → result Disk;
  ReadPage : Z → list Byte.byte → Disk → result (list Byte.byte * Disk)
}.

Section Worker.
Context {Disk : Type} `{DiskManager Disk}.

(** [std::promise<bool>::set_value]: a second call on the same promise
    throws [std::future_error]. *)
Definition set_value (p : nat) (v : bool) (w : World Disk) : result (World Disk) :=
  match promises w !! p with
  | Some _ => Throw "promise already satisfied"
  | None => Ok (mkWorld (disk w) (memory w) (<[p := v]> (promises w)))
  end.

(** The call of the disk manager for a request: [WritePage] from the buffer
    or [ReadPage] into it. *)
Definition disk_io (r : DiskRequest.t) (w : World Disk) : result (World Disk) :=
  let buffer := default [] (memory w !! DiskRequest.data_ r) in
  if DiskRequest.is_write_ r then
    d ← WritePage (DiskRequest.page_id_ r) buffer (disk w);
    Ok (mkWorld d (memory w) (promises w))
  else
    '(bytes, d) ← ReadPage (DiskRequest.page_id_ r) buffer (disk w);
    Ok (mkWorld d (<[DiskRequest.data_ r := bytes]> (memory w)) (promises w)).

(** The body of the worker for one request taken from the queue: the call
    of the disk manager, then [r->callback_.set_value(true)]. *)
Definition serve (r : DiskRequest.t) (w : World Disk) : result (World Disk) :=
  w ← disk_io r w;
  set_value (DiskRequest.callback_ r) true w.

(** How a run of the thread function ends: it returned, or it waits in
    [cv_.wait] / [request_queue_.Get] for an item that does not come. *)
Inductive worker_end := Returned | Waiting.

(** [DiskScheduler::StartWorkerThread] of the worker pool, as one worker
    thread runs it.  [taken] holds the items this worker takes from the
    shared queue, in the order it takes them; which items of the queue
    those are is up to the scheduling of the workers the constructor
    starts.  The worker serves the requests it takes until it takes the
    stop sentinel [std::nullopt] and returns; when nothing is left for it
    to take it waits.  An exception leaves the thread function.  The
    disk and the promises are acted on as the worker finds them: what
    other workers do in between is not part of the model. *)
Fixpoint StartWorkerThread (taken : list (option DiskRequest.t)) (w : World Disk)
  : result (worker_end * World Disk) :=
  match taken with
  | [] => Ok (Waiting, w)
  | None :: _ => Ok (Returned, w)
  | Some r :: rest => w ← serve r w; StartWorkerThread rest w
  end.

(** [DiskScheduler::StartWorkerThread] of the revision that starts one
    thread per request: the thread takes one item. *)
Definition StartWorkerThread_single (taken : list (option DiskRequest.t)) (w : World Disk)
  : result (worker_end * World Disk) :=
  match taken with
  | [] => Ok (Waiting, w)
  | None :: _ => Throw "Empty DiskRequest"
  | Some r :: _ => w ← serve r w; Ok (Returned, w)
  end.

(** The requests a worker of the pool serves, of the items it takes *)
Fixpoint served (queue : list (option DiskRequest.t)) : list DiskRequest.t :=
  match queue with
  | Some r :: rest => r :: served rest
  | _ => []
  end.


End Worker.

(** A disk manager that keeps pages in a map and never fails, and one whose
    every call fails. *)
Definition map_disk_manager : DiskManager (gmap Z (list Byte.byte)) :=
  {| WritePage page_id bytes d := Ok (<[page_id := bytes]> d);
     ReadPage page_id buffer d := Ok (default buffer (d !! page_id), d) |}.

Definition failing_disk_manager : DiskManager unit :=
  {| WritePage page_id bytes d := Throw "I/O error while writing";
     ReadPage page_id buffer d := Throw "I/O error while reading" |}.

End DiskScheduler.

(** ** Persistent trie (src/primer/trie.cpp) *)

Module Trie.

(** The value types the template functions are instantiated at, and a typed
    value.  [Integer] is [std::unique_ptr<uint32_t>]. *)
Inductive value_type := TUint32 | TUint64 | TString | TInteger.

Inductive value :=
  | Uint32 (n : Z)
  | Uint64 (n : Z)
  | String_ (s : string)
  | Integer (n : Z).

Definition type_of (v : value) : value_type :=
  match v with
  | Uint32 _ => TUint32
  | Uint64 _ => TUint64
  | String_ _ => TString
  | Integer _ => TInteger
  end.

Global Instance value_type_eq_dec : EqDecision value_type.
Proof. solve_decision. Defined.

(** Modelled from the spec: a trie node is either an interior node with a
    mapping from a character to a child node, or a value node with the same
    children plus a value of type T ([TrieNode] and [TrieNodeWithValue<T>]
    are declared in primer/trie.h, which is not among the sources).  Nodes
    live in a heap and are reached through pointers: [children_] maps a
    character to the address of the child; [is_value_node_] is set exactly
    in a [TrieNodeWithValue<T>], which carries the value. *)
Record TrieNode := mkNode {
  children_ : gmap ascii nat;
  is_value_node_ : bool;
  value_ : option value
}.

(** [TrieNode(children)] and [TrieNodeWithValue<T>(children, value)] *)
Definition plain (children : gmap ascii nat) : TrieNode := mkNode children false None.
Definition with_value (children : gmap ascii nat) (v : value) : TrieNode :=
  mkNode children true (Some v).
Definition set_children (children : gmap ascii nat) (n : TrieNode) : TrieNode :=
  mkNode children (is_value_node_ n) (value_ n).

(** The heap of nodes.  Addresses are handed out in sequence and never
    reused; the model does not reclaim nodes that became unreachable. *)
Record Heap := mkHeap {
  cells : gmap nat TrieNode;
  next_addr : nat
}.

Definition empty_heap : Heap := mkHeap ∅ 0.

(** [std::make_shared] and friends: a new node at a new address *)
Definition alloc (n : TrieNode) (h : Heap) : nat * Heap :=
  (next_addr h, mkHeap (<[next_addr h := n]> (cells h)) (S (next_addr h))).

(** [p->...] for a pointer that may be null *)
Definition deref (h : Heap) (p : option nat) : result TrieNode :=
  match p with
  | None => Undefined "null pointer dereference"
  | Some a =>
      match cells h !! a with
      | Some n => Ok n
      | None => Undefined "dangling pointer dereference"
      end
  end.

Global Arguments deref : simpl never.

(** Assignment to a member of the node at [a] *)
Definition store (a : nat) (n : TrieNode) (h : Heap) : Heap :=
  mkHeap (<[a := n]> (cells h)) (next_addr h).

(** [p->Clone()]: a copy of the node, children shared *)
Definition clone (h : Heap) (p : option nat) : result (nat * Heap) :=
  n ← deref h p; Ok (alloc n h).

(** [m.find(c)->second]; [find] of an absent key gives [end()] *)
Definition find_child (n : TrieNode) (c : ascii) : result nat :=
  match children_ n !! c with
  | Some a => Ok a
  | None => Undefined "dereference of end()"
  end.

(** [Trie]: a possibly null pointer to the root *)
Record t := mk { root_ : option nat }.

(** [dynamic_cast<const TrieNodeWithValue<T> *>] followed by [value_.get()] *)
Definition cast (T : value_type) (n : TrieNode) : option value :=
  match value_ n with
  | Some v => if decide (type_of v = T) then Some v else None
  | None => None
  end.

(** The loop of [Trie::Get], from the node [cur_node] on the rest of the key *)
Fixpoint get_walk (T : value_type) (h : Heap) (cur_node : nat) (key : list ascii)
  : result (option value) :=
  match key with
  | [] => Ok None
  | c :: rest =>
      cur ← deref h (Some cur_node);
      if decide (children_ cur = ∅) then Ok None
      else
        match children_ cur !! c with
        | None => Ok None
        | Some child =>
            match rest with
            | [] => result_ptr ← deref h (Some child); Ok (cast T result_ptr)
            | _ => get_walk T h child rest
            end
        end
  end.

(** [Trie::Get<T>] *)
Definition Get (T : value_type) (key : list ascii) (tr : t) (h : Heap)
  : result (option value) :=
  match key with
  | [] =>
      match root_ tr with
      | None => Ok None
      | Some r =>
          root ← deref h (Some r);
          if is_value_node_ root then Ok (cast T root) else Ok None
      end
  | _ =>
      match root_ tr with
      | None => Ok None
      | Some r =>
          root ← deref h (Some r);
          if decide (children_ root = ∅) then Ok None
          else get_walk T h r key
      end
  end.

(** One round of the first loop of [Trie::Put], which runs from the last
    character of the key to the first and builds the path to the new value
    node under [tmp_root]. *)
Definition chain_step (value_ptr : value) (is_last_char : bool) (c : ascii)
    (st : option nat * Heap) : result (option nat * Heap) :=
  let '(tmp_root, h) := st in
  '(new_child_ptr, h) ←
     (if is_last_char then Ok (alloc (with_value ∅ value_ptr) h)
      else old ← deref h tmp_root; Ok (alloc (plain (children_ old)) h));
  let '(new_root, h) := alloc (plain {[ c := new_child_ptr ]}) h in
  Ok (Some new_root, h).

Fixpoint chain_loop (value_ptr : value) (reversed_key : list ascii) (is_last_char : bool)
    (st : option nat * Heap) : result (option nat * Heap) :=
  match reversed_key with
  | [] => Ok st
  | c :: rest =>
      st ← chain_step value_ptr is_last_char c st;
      chain_loop value_ptr rest false st
  end.

(** [cur_node->children_[c] = tmp_root->children_.find(c)->second] *)
Definition graft (cur_node : nat) (cur : TrieNode) (c : ascii) (tmp_root : option nat)
    (h : Heap) : result Heap :=
  tmp ← deref h tmp_root;
  sub ← find_child tmp c;
  Ok (store cur_node (set_children (<[c := sub]> (children_ cur)) cur) h).

(** The second loop of [Trie::Put], from the clone [cur_node] on the rest of
    the key *)
Fixpoint put_walk (value_ptr : value) (key : list ascii) (cur_node : nat)
    (tmp_root : option nat) (h : Heap) : result Heap :=
  match key with
  | [] => Ok h
  | c :: rest =>
      cur ← deref h (Some cur_node);
      if decide (children_ cur = ∅) then graft cur_node cur c tmp_root h
      else
        match children_ cur !! c with
        | None => graft cur_node cur c tmp_root h
        | Some child =>
            '(new_child, h) ← clone h (Some child);
            new_child_node ← deref h (Some new_child);
            match rest with
            | [] =>
                let '(leaf_ptr, h) :=
                  alloc (with_value (children_ new_child_node) value_ptr) h in
                Ok (store cur_node (set_children (<[c := leaf_ptr]> (children_ cur)) cur) h)
            | _ =>
                let h := store cur_node (set_children (<[c := new_child]> (children_ cur)) cur) h in
                tmp ← deref h tmp_root;
                sub ← find_child tmp c;
                put_walk value_ptr rest new_child (Some sub) h
            end
        end
  end.

(** [Trie::Put<T>] *)
Definition Put (key : list ascii) (v : value) (tr : t) (h : Heap) : result (t * Heap) :=
  match key with
  | [] =>
      '(old_root, h) ← clone h (root_ tr);
      old ← deref h (Some old_root);
      let '(result_ptr, h) := alloc (with_value (children_ old) v) h in
      Ok (mk (Some result_ptr), h)
  | _ =>
      '(tmp_root, h) ← chain_loop v (reverse key) true (None, h);
      match root_ tr with
      | None => Ok (mk tmp_root, h)
      | Some r =>
          '(new_root, h) ← clone h (Some r);
          h ← put_walk v key new_root tmp_root h;
          Ok (mk (Some new_root), h)
      end
  end.

(** The loop of [Trie::Remove].  The result is [None] when the loop is left
    by [break] or runs out, and the root of the returned trie otherwise. *)
Fixpoint remove_walk (key : list ascii) (cur_node tmp_leaf : nat) (is_empty_trie : bool)
    (new_root : nat) (h : Heap) : result (option (option nat) * Heap) :=
  match key with
  | [] => Ok (None, h)
  | c :: rest =>
      cur ← deref h (Some cur_node);
      if decide (children_ cur = ∅) then Ok (None, h)
      else
        match children_ cur !! c with
        | None => Ok (None, h)
        | Some child =>
            let tmp_leaf :=
              if bool_decide (size (children_ cur) = 1%nat) && is_value_node_ cur
              then cur_node else tmp_leaf in
            let tmp_leaf :=
              if decide (size (children_ cur) ≠ 1%nat) then new_root else tmp_leaf in
            let is_empty_trie :=
              if bool_decide (size (children_ cur) ≠ 1%nat) || is_value_node_ cur
              then false else is_empty_trie in
            match rest with
            | [] =>
                '(hit_node, h) ← clone h (Some child);
                hit ← deref h (Some hit_node);
                if decide (children_ hit = ∅) then
                  let h := store cur_node (set_children (delete c (children_ cur)) cur) h in
                  h ← (if decide (tmp_leaf ≠ new_root)
                       then leaf ← deref h (Some tmp_leaf);
                            Ok (store tmp_leaf (set_children ∅ leaf) h)
                       else Ok h);
                  Ok (Some (if is_empty_trie then None else Some new_root), h)
                else
                  let '(p, h) := alloc (plain (children_ hit)) h in
                  Ok (Some (Some new_root),
                      store cur_node (set_children (<[c := p]> (children_ cur)) cur) h)
            | _ =>
                '(new_child, h) ← clone h (Some child);
                let h := store cur_node (set_children (<[c := new_child]> (children_ cur)) cur) h in
                remove_walk rest new_child tmp_leaf is_empty_trie new_root h
            end
        end
  end.

(** [Trie::Remove] *)
Definition Remove (key : list ascii) (tr : t) (h : Heap) : result (t * Heap) :=
  '(old_root, h) ← clone h (root_ tr);
  match key with
  | [] =>
      old ← deref h (Some old_root);
      let '(result_ptr, h) := alloc (plain (children_ old)) h in
      Ok (mk (Some result_ptr), h)
  | _ =>
      '(new_root, h) ← clone h (root_ tr);
      '(returned, h) ← remove_walk key new_root new_root true new_root h;
      match returned with
      | Some r => Ok (mk r, h)
      | None => Ok (tr, h)
      end
  end.

(** The node a key leads to *)
Fixpoint walk (h : Heap) (cur_node : nat) (key : list ascii) : option TrieNode :=
  match key with
  | [] => cells h !! cur_node
  | c :: rest =>
      cur ← cells h !! cur_node;
      child ← children_ cur !! c;
      walk h child rest
  end.

Definition node_at (h : Heap) (tr : t) (key : list ascii) : option TrieNode :=
  r ← root_ tr; walk h r key.

(** The structural invariant of the specification: no node other than the
    root is both childless and valueless. *)
Definition no_dead_node (h : Heap) (tr : t) : Prop :=
  ∀ key n, key ≠ [] → node_at h tr key = Some n →
           children_ n ≠ ∅ ∨ is_value_node_ n = true.

(** The empty trie *)
Definition empty : t := mk None.

(** The characters of a [std::string_view] *)
Fixpoint chars (s : string) : list ascii :=
  match s with
  | EmptyString => []
  | String c s' => c :: chars s'
  end.

End Trie.

(** * Properties *)

Module LRUKFacts.
Import LRUK.

Lemma by_distance_swo : StrictWeakOrder by_distance.
Proof.
  split; unfold by_distance; intros; rewrite ?Z.ltb_lt, ?Z.ltb_ge in *; lia.
Qed.

Lemma mapR_Ok_map {A B} (f : A → result B) (g : A → B) l :
  (∀ x, x ∈ l → f x = Ok (g x)) → mapR f l = Ok (g <$> l).
Proof.
  induction l as [|x l IH]; intros Hf; simpl; [done|].
  rewrite (Hf x) by left. simpl. rewrite IH; [done|].
  intros y Hy. apply Hf. by right.
Qed.

Lemma StronglySorted_impl_elem {A} (R R' : relation A) l :
  (∀ a b, a ∈ l → b ∈ l → R a b → R' a b) →
  StronglySorted R l → StronglySorted R' l.
Proof.
  intros Himp Hl. induction Hl as [|x l Hl IH Hx]; constructor.
  - apply IH. intros a b Ha Hb. apply Himp; by right.
  - rewrite Forall_forall in Hx |- *. intros y Hy.
    apply Himp; [left | by right | by apply Hx].
Qed.

(** The distance [Evict] computes for a node in its first loop, and the key
    it sorts the node by after the second loop. *)
Definition raw_distance (now : Z) (n : Node.t) : Z :=
  to_size_t (now - default 0 (last (Node.history_ n))).

Definition sort_key (now : Z) (r : LRUKReplacer) (n : Node.t) : Z :=
  if decide (Z.of_nat (length (Node.history_ n)) ≠ k_ r) then SIZE_MAX
  else raw_distance now n.

Section Candidates.
Context `{StdLib}.

Lemma candidates_sorted now r :
  map_Forall (λ _ n, Node.history_ n ≠ []) (node_store_ r) →
  ∃ vector,
    candidates now r = Ok vector ∧
    (∀ p, p ∈ vector ↔
          ∃ n, node_store_ r !! p.1 = Some n ∧ p.2 = sort_key now r n) ∧
    StronglySorted
      (stable_order by_distance
         (λ a b, raw_distance now (node_at r b.1) ≤ raw_distance now (node_at r a.1)))
      vector.
Proof.
  intros Hne. unfold candidates.
  set (m := node_store_ r) in *.
  set (g := λ p : Z * Node.t, (p.1, raw_distance now p.2)).
  assert (mapR (distance_of now) (unordered_iter m) = Ok (g <$> unordered_iter m)) as ->.
  { apply mapR_Ok_map. intros [f n] Hin.
    rewrite unordered_iter_perm in Hin. apply elem_of_map_to_list in Hin.
    specialize (Hne f n Hin). unfold distance_of, g, raw_distance. simpl in *.
    destruct (last (Node.history_ n)) eqn:Hl; [done|].
    by apply last_None in Hl. }
  simpl. eexists. split; [done|].
  set (vec0 := g <$> unordered_iter m).
  assert (∀ p, p ∈ vec0 ↔ ∃ n, m !! p.1 = Some n ∧ p.2 = raw_distance now n) as Hvec0.
  { intros [f d]. unfold vec0. rewrite list_elem_of_fmap. simpl. split.
    - intros ([f' n] & [= -> ->] & Hin). rewrite unordered_iter_perm in Hin.
      apply elem_of_map_to_list in Hin. eauto.
    - intros (n & Hn & ->). exists (f, n). split; [done|].
      rewrite unordered_iter_perm. by apply elem_of_map_to_list. }
  set (L1 := std_sort by_distance vec0).
  assert (∀ p, p ∈ L1 ↔ ∃ n, m !! p.1 = Some n ∧ p.2 = raw_distance now n) as HL1.
  { intros p. unfold L1. by rewrite std_sort_perm. }
  split.
  - intros [f d]. rewrite std_stable_sort_perm, list_elem_of_fmap. simpl. split.
    + intros ([f' d'] & Heq & Hin). apply HL1 in Hin as (n & Hn & Hd). simpl in *.
      exists n. unfold mark_infinite, node_at, sort_key in *. simpl in *.
      fold m in Heq. rewrite Hn in Heq. simpl in Heq.
      destruct (decide _); simplify_eq; done.
    + intros (n & Hn & ->). exists (f, raw_distance now n). split.
      * unfold mark_infinite, node_at, sort_key. simpl. fold m. rewrite Hn. simpl.
        by destruct (decide _).
      * apply HL1. eauto.
  - apply std_stable_sort_stable; [apply by_distance_swo|].
    apply (StronglySorted_fmap _
             (λ a b : Z * Z, raw_distance now (node_at r b.1)
                              ≤ raw_distance now (node_at r a.1))).
    { intros a b Hab. unfold mark_infinite.
      repeat destruct (decide _); simpl; exact Hab. }
    eapply StronglySorted_impl_elem; [|apply std_sort_sorted, by_distance_swo].
    intros a b Ha Hb. fold L1 in Ha, Hb.
    apply HL1 in Ha as (na & Hna & Hda). apply HL1 in Hb as (nb & Hnb & Hdb).
    unfold by_distance, node_at. fold m. rewrite Hna, Hnb. simpl.
    rewrite Z.ltb_ge. lia.
Qed.

End Candidates.

Lemma node_ok_distance now k f n :
  now < SIZE_MAX → node_ok now k f n →
  ∃ t, last (Node.history_ n) = Some t ∧ 0 ≤ t ≤ now ∧
       raw_distance now n = now - t ∧
       backward_k_distance now k n =
         (if decide (Z.of_nat (length (Node.history_ n)) ≠ k)
          then Infinite else Finite (now - t)).
Proof.
  intros Hnow (Hf & Hlen & Hk & Hts).
  destruct (last (Node.history_ n)) as [t|] eqn:Hlast.
  2: { apply last_None in Hlast. rewrite Hlast in Hlen. simpl in Hlen. lia. }
  assert (0 ≤ t ≤ now) as Ht.
  { rewrite Forall_forall in Hts. apply Hts.
    rewrite last_lookup in Hlast. by eapply list_elem_of_lookup_2. }
  exists t. split; [done|]. split; [done|]. split.
  - unfold raw_distance, to_size_t. rewrite Hlast. simpl.
    unfold SIZE_MAX in Hnow. rewrite Z.mod_small; lia.
  - unfold backward_k_distance.
    destruct (decide (Z.of_nat (length (Node.history_ n)) < k)) as [Hlt|Hge].
    + by rewrite decide_True by lia.
    + rewrite decide_False by lia.
      rewrite last_lookup in Hlast.
      replace (Z.to_nat (k - 1)) with (pred (length (Node.history_ n))) by lia.
      by rewrite Hlast.
Qed.

Section EvictPolicy.
Context `{StdLib}.

(** C3. In a well-formed state with an evictable frame, [Evict] returns an
    evictable frame whose backward K-distance is largest among the evictable
    frames (a frame with fewer than K accesses counting as infinitely far);
    among frames at infinite distance it returns one whose oldest recorded
    access is earliest; and the victim's node is erased from the replacer. *)
Theorem Evict_victim_has_largest_k_distance (now : Z) (r : LRUKReplacer) :
  well_formed now r →
  (∃ f n, node_store_ r !! f = Some n ∧ Node.is_evictable_ n = true) →
  ∃ v nv,
    Evict now r = Ok (Some v, erase_node v r) ∧
    node_store_ r !! v = Some nv ∧ Node.is_evictable_ nv = true ∧
    node_store_ (erase_node v r) !! v = None ∧
    ∀ f n, node_store_ r !! f = Some n → Node.is_evictable_ n = true →
      distance_le (backward_k_distance now (k_ r) n)
                  (backward_k_distance now (k_ r) nv) ∧
      (backward_k_distance now (k_ r) n = Infinite →
       backward_k_distance now (k_ r) nv = Infinite →
       ∀ tv tf, oldest_access nv = Some tv → oldest_access n = Some tf → tv ≤ tf).
Proof.
  intros [Hnow Hwf] (f0 & n0 & Hn0 & He0).
  destruct (candidates_sorted now r) as (vec & Hc & Helem & Hsorted).
  { intros f n Hn Hnil. destruct (Hwf f n Hn) as (_ & Hlen & _).
    rewrite Hnil in Hlen. simpl in Hlen. lia. }
  set (P := λ p : Z * Z, Node.is_evictable_ (node_at r p.1)).
  assert (∀ f n, node_store_ r !! f = Some n → node_at r f = n) as Hat.
  { intros f n Hn. unfold node_at. by rewrite Hn. }
  destruct (find_is_Some P vec (f0, sort_key now r n0)) as [pv Hfind].
  { apply Helem. eauto. }
  { unfold P. simpl. by rewrite (Hat _ _ Hn0). }
  destruct (find_StronglySorted _ P vec pv Hsorted Hfind) as (Hpv & HPpv & Hfirst).
  apply Helem in Hpv as (nv & Hnv & Hkv).
  unfold P in HPpv. rewrite (Hat _ _ Hnv) in HPpv.
  exists pv.1, nv. split; [|split; [done|split; [done|split]]].
  - unfold Evict. rewrite Hc. simpl. fold P. rewrite Hfind.
    destruct (Hwf _ _ Hnv) as (Hf & _).
    rewrite decide_False; [done|]. unfold INVALID_PAGE_ID. lia.
  - simpl. apply lookup_delete_eq.
  - intros f n Hn He.
    destruct (node_ok_distance now (k_ r) f n Hnow (Hwf _ _ Hn))
      as (tf & Hlf & Htf & Hrf & Hkf).
    destruct (node_ok_distance now (k_ r) pv.1 nv Hnow (Hwf _ _ Hnv))
      as (tv & Hlv & Htv & Hrv & Hkv').
    assert ((f, sort_key now r n) = pv ∨
            stable_order by_distance
              (λ a b, raw_distance now (node_at r b.1) ≤ raw_distance now (node_at r a.1))
              pv (f, sort_key now r n)) as Hcases.
    { apply Hfirst; [apply Helem; eauto|]. unfold P. simpl. by rewrite (Hat _ _ Hn). }
    destruct Hcases as [<-|[Hle Hstable]].
    + simpl in Hnv. rewrite Hn in Hnv. injection Hnv as <-.
      split.
      * destruct (backward_k_distance now (k_ r) n); simpl; lia.
      * intros _ _ tv' tf' Hv' Hf'. rewrite Hv' in Hf'. injection Hf' as ->. lia.
    + unfold by_distance in Hle, Hstable. simpl in Hle, Hstable.
      rewrite (Hat _ _ Hn), (Hat _ _ Hnv), Hkv in Hstable.
      rewrite Hkv in Hle. rewrite Z.ltb_ge in Hle. rewrite Z.ltb_lt in Hstable.
      unfold sort_key in Hle, Hstable. rewrite Hkf, Hkv'.
      unfold oldest_access. rewrite Hlf, Hlv.
      unfold SIZE_MAX in *.
      repeat destruct (decide _); simpl; split; try done; try lia;
        intros; simplify_eq; lia.
Qed.

(** Whatever [Evict] returns is a known, evictable frame, and the state it
    leaves is the one with that node erased. *)
Lemma Evict_Some_inv (now : Z) (r r' : LRUKReplacer) (v : Z) :
  Evict now r = Ok (Some v, r') →
  ∃ n, node_store_ r !! v = Some n ∧ Node.is_evictable_ n = true ∧
       r' = erase_node v r.
Proof.
  unfold Evict. intros Hev.
  apply bind_Ok in Hev as (vec & Hc & Hev).
  destruct (find _ vec) as [p|] eqn:Hfind; simpl in Hev.
  2: { by repeat case_decide. }
  destruct (decide (p.1 = INVALID_PAGE_ID)) as [?|Hvalid]; [done|].
  injection Hev as <- <-.
  apply find_some in Hfind as [Hin Hev].
  unfold node_at in Hev.
  destruct (node_store_ r !! p.1) as [nd|] eqn:Hn; [|done].
  eauto.
Qed.

(** With no evictable node, [Evict] returns [false] and changes nothing. *)
Lemma Evict_nothing_evictable (now : Z) (r : LRUKReplacer) :
  map_Forall (λ _ n, Node.history_ n ≠ [] ∧ Node.is_evictable_ n = false) (node_store_ r) →
  Evict now r = Ok (None, r).
Proof.
  intros Hall.
  destruct (candidates_sorted now r) as (vec & Hc & Helem & _).
  { intros f n Hn. by destruct (Hall f n Hn). }
  unfold Evict. rewrite Hc. simpl.
  destruct (find _ vec) as [p|] eqn:Hfind; [|by rewrite decide_True].
  apply find_some in Hfind as [Hin Hev].
  apply list_elem_of_In, Helem in Hin as (n & Hn & _).
  unfold node_at in Hev. rewrite Hn in Hev. simpl in Hev.
  destruct (Hall _ _ Hn) as [_ Hne]. congruence.
Qed.

End EvictPolicy.

(** *** Well-formedness is kept by the operations

    With a clock that does not run backwards, every state the operations
    reach from [new] is well-formed at the current reading. *)

Lemma well_formed_new (now num_frames k : Z) :
  now < SIZE_MAX → well_formed now (new num_frames k).
Proof. intros Hnow. split; [done|]. apply map_Forall_empty. Qed.

Lemma node_ok_later (now now' k f : Z) (n : Node.t) :
  now ≤ now' → node_ok now k f n → node_ok now' k f n.
Proof.
  intros Hle (Hf & Hlen & Hk & Hts). repeat split; try done.
  eapply Forall_impl; [exact Hts|]. simpl. lia.
Qed.

Lemma push_history_ok (now k ts : Z) (h : list Z) :
  1 ≤ k → 0 ≤ ts ≤ now → Z.of_nat (length h) ≤ k → Forall (λ t, 0 ≤ t ≤ now) h →
  (0 < length (push_history k ts h))%nat ∧
  Z.of_nat (length (push_history k ts h)) ≤ k ∧
  Forall (λ t, 0 ≤ t ≤ now) (push_history k ts h).
Proof.
  intros Hk Hts Hlen Hall. unfold push_history.
  destruct (Z.of_nat (length (ts :: h)) >? k) eqn:Hgt.
  - rewrite removelast_firstn_len. simpl length in *. rewrite Z.gtb_gt in Hgt.
    rewrite length_take. simpl length. split; [lia|]. split; [lia|].
    apply Forall_take. by constructor.
  - rewrite Z.gtb_ltb, Z.ltb_ge in Hgt. simpl length in *.
    split; [lia|]. split; [lia|]. by constructor.
Qed.

Lemma well_formed_RecordAccess (now now' f : Z) (r : LRUKReplacer) :
  well_formed now r → now ≤ now' → 0 ≤ now' → now' < SIZE_MAX →
  1 ≤ k_ r → 0 ≤ f →
  well_formed now' (RecordAccess now' f r).
Proof.
  intros [_ Hwf] Hle Hpos Hmax Hk Hf. split; [done|].
  assert (to_size_t now' = now') as Hts.
  { unfold to_size_t, SIZE_MAX in *. rewrite Z.mod_small; lia. }
  assert (map_Forall (node_ok now' (k_ r)) (node_store_ r)) as Hwf'.
  { intros g n Hn. eapply node_ok_later; [exact Hle|]. by apply Hwf. }
  unfold RecordAccess, AddFrames. simpl. rewrite Hts.
  destruct (decide _) as [Hadd|Hpush]; simpl.
  - apply map_Forall_insert_2; [|done].
    repeat split; simpl; try lia. repeat constructor; lia.
  - apply map_Forall_insert_2; [|done].
    destruct (node_store_ r !! f) as [n|] eqn:Hn; [|by destruct Hpush; right].
    destruct (Hwf' f n Hn) as (_ & Hlen & Hkn & Hall).
    unfold node_at. simpl. rewrite Hn. simpl.
    destruct (push_history_ok now' (k_ r) now' (Node.history_ n)) as (? & ? & ?);
      [done|lia|done|done|by repeat split].
Qed.

Lemma well_formed_SetEvictable (now f : Z) (flag : bool) (r r' : LRUKReplacer) :
  well_formed now r → SetEvictable f flag r = Ok r' → well_formed now r'.
Proof.
  intros [Hnow Hwf] Hs. unfold SetEvictable in Hs.
  destruct (node_store_ r !! f) as [n|] eqn:Hn; [|done].
  assert (∀ e, map_Forall (node_ok now (k_ r))
                 (<[f := Node.set_evictable e n]> (node_store_ r))) as Hins.
  { intros e. apply map_Forall_insert_2; [|done]. apply (Hwf f n Hn). }
  destruct (decide (flag = Node.is_evictable_ n)); [by injection Hs as <-|].
  unfold EnableEvictable, DisableEvictable, node_at in Hs.
  destruct flag, (Node.is_evictable_ n); simpl in Hs; try done;
    rewrite ?Hn in Hs; simpl in Hs.
  - destruct (decide _); [done|]. injection Hs as <-. split; [done|]. apply Hins.
  - injection Hs as <-. split; [done|]. apply Hins.
Qed.

Lemma well_formed_erase_node (now f : Z) (r : LRUKReplacer) :
  well_formed now r → well_formed now (erase_node f r).
Proof. intros [Hnow Hwf]. split; [done|]. simpl. by apply map_Forall_delete. Qed.

Lemma well_formed_Remove (now f : Z) (r r' : LRUKReplacer) :
  well_formed now r → Remove f r = Ok r' → well_formed now r'.
Proof.
  intros Hwf Hr. unfold Remove in Hr.
  destruct (node_store_ r !! f) as [n|]; [|by injection Hr as <-].
  destruct (negb (Node.is_evictable_ n)); [done|]. injection Hr as <-.
  by apply well_formed_erase_node.
Qed.

Lemma well_formed_Evict `{StdLib} (now now' : Z) (r r' : LRUKReplacer) (v : option Z) :
  well_formed now r → Evict now' r = Ok (v, r') → well_formed now r'.
Proof.
  intros Hwf Hev. destruct v as [v|].
  - apply Evict_Some_inv in Hev as (_ & _ & _ & ->). by apply well_formed_erase_node.
  - unfold Evict in Hev. apply bind_Ok in Hev as (vec & _ & Hev).
    destruct (decide _); by simplify_eq.
Qed.

(** *** The counters follow the nodes *)

Definition b2z (b : bool) : Z := if b then 1 else 0.

Lemma evictable_count_le (r : LRUKReplacer) :
  0 ≤ evictable_count r ≤ Z.of_nat (size (node_store_ r)).
Proof.
  unfold evictable_count. split; [lia|]. apply inj_le.
  apply map_subseteq_size, map_filter_subseteq.
Qed.

Lemma counters_ok_size_consistent (r : LRUKReplacer) :
  counters_ok r → size_consistent r.
Proof.
  intros (_ & Hr & Hs). split; [done|]. pose proof (evictable_count_le r). lia.
Qed.

Lemma evictable_size_insert (f : Z) (n : Node.t) (m : gmap Z Node.t) :
  Z.of_nat (size (filter (λ p : Z * Node.t, Node.is_evictable_ p.2 = true) (<[f := n]> m))) =
  Z.of_nat (size (filter (λ p : Z * Node.t, Node.is_evictable_ p.2 = true) m))
  - b2z (from_option Node.is_evictable_ false (m !! f)) + b2z (Node.is_evictable_ n).
Proof.
  set (P := λ p : Z * Node.t, Node.is_evictable_ p.2 = true).
  assert (∀ o, filter P m !! f = Some o ↔ m !! f = Some o ∧ Node.is_evictable_ o = true)
    as Hlook by (intros o; apply map_lookup_filter_Some).
  assert (size (filter P (delete f m)) =
          (size (filter P m) - Z.to_nat (b2z (from_option Node.is_evictable_ false (m !! f))))%nat)
    as Hdel.
  { rewrite map_filter_delete, map_size_delete.
    destruct (m !! f) as [o|] eqn:Ho; simpl.
    - destruct (Node.is_evictable_ o) eqn:He; simpl.
      + rewrite (proj2 (Hlook o)) by done.
        assert (size (filter P m) ≠ 0%nat); [|lia].
        apply (map_size_ne_0_lookup_2 _ f). rewrite (proj2 (Hlook o)); eauto.
      + destruct (filter P m !! f) as [o'|] eqn:Hf; [|simpl; lia].
        destruct (proj1 (Hlook o') eq_refl) as [? ?]. congruence.
    - destruct (filter P m !! f) as [o'|] eqn:Hf; [|simpl; lia].
      destruct (proj1 (Hlook o') eq_refl) as [? ?]. congruence. }
  assert (size (filter P m) ≥ Z.to_nat (b2z (from_option Node.is_evictable_ false (m !! f))))%nat
    as Hge.
  { destruct (m !! f) as [o|] eqn:Ho; simpl; [|lia].
    destruct (Node.is_evictable_ o) eqn:He; simpl; [|lia].
    assert (size (filter P m) ≠ 0%nat); [|lia].
    apply (map_size_ne_0_lookup_2 _ f). rewrite (proj2 (Hlook o)); eauto. }
  rewrite map_filter_insert. destruct (decide (P (f, n))) as [Hn|Hn]; unfold P in Hn; simpl in Hn.
  - rewrite Hn. rewrite <- (insert_delete_eq (filter P m)).
    rewrite map_size_insert_None by apply lookup_delete_eq.
    rewrite <- map_filter_delete, Hdel.
    destruct (from_option Node.is_evictable_ false (m !! f)); simpl in *; lia.
  - apply not_true_is_false in Hn. rewrite Hn, Hdel.
    destruct (from_option Node.is_evictable_ false (m !! f)); simpl in *; lia.
Qed.

Lemma counters_ok_new (num_frames k : Z) : counters_ok (new num_frames k).
Proof.
  unfold counters_ok, evictable_count. simpl.
  rewrite map_filter_empty, map_size_empty. done.
Qed.

Lemma counters_ok_RecordAccess (now f : Z) (r : LRUKReplacer) :
  counters_ok r → Z.of_nat (size (node_store_ r)) + 1 < SIZE_MAX →
  counters_ok (RecordAccess now f r).
Proof.
  intros (Hc & Hr & Hs) Hroom. unfold counters_ok, evictable_count, RecordAccess, AddFrames.
  simpl. destruct (node_store_ r !! f) as [n|] eqn:Hn.
  - assert (size (node_store_ r) ≠ 0%nat) as Hne by (apply (map_size_ne_0_lookup_2 _ f); eauto).
    rewrite decide_False by (intros [?|?]; [lia|done]). simpl.
    rewrite evictable_size_insert, map_size_insert_Some by eauto.
    unfold node_at. simpl. rewrite Hn. simpl.
    unfold evictable_count in Hr. split_and!; [done|lia|done].
  - rewrite decide_True by (by right). simpl.
    rewrite evictable_size_insert, map_size_insert_None by done.
    rewrite Hn. simpl. unfold evictable_count in Hr.
    split_and!; [|lia|lia].
    unfold to_size_t, SIZE_MAX in *. rewrite Z.mod_small; lia.
Qed.

Lemma counters_ok_SetEvictable (f : Z) (flag : bool) (r r' : LRUKReplacer) :
  counters_ok r → SetEvictable f flag r = Ok r' → counters_ok r'.
Proof.
  intros (Hc & Hr & Hs) Hset. unfold SetEvictable in Hset.
  destruct (node_store_ r !! f) as [n|] eqn:Hn; [|done].
  destruct (decide (flag = Node.is_evictable_ n)); [by injection Hset as <-|].
  pose proof (evictable_count_le r) as Hle. unfold evictable_count in Hr, Hle.
  unfold EnableEvictable, DisableEvictable, node_at in Hset.
  destruct flag, (Node.is_evictable_ n) eqn:He; simpl in Hset; try done;
    rewrite ?Hn in Hset; simpl in Hset.
  - destruct (decide _); [done|]. injection Hset as <-.
    unfold counters_ok, evictable_count. simpl.
    rewrite evictable_size_insert, map_size_insert_Some by eauto.
    rewrite Hn. simpl. rewrite He. simpl. split_and!; [done| |done].
    unfold to_size_t, SIZE_MAX in *. rewrite Z.mod_small; lia.
  - injection Hset as <-. unfold counters_ok, evictable_count. simpl.
    rewrite evictable_size_insert, map_size_insert_Some by eauto.
    rewrite Hn. simpl. rewrite He. simpl. split_and!; [done| |done].
    assert (size (filter (λ p : Z * Node.t, Node.is_evictable_ p.2 = true)
                   (node_store_ r)) ≠ 0%nat) as Hne.
    { apply (map_size_ne_0_lookup_2 _ f). rewrite (proj2 (map_lookup_filter_Some _ _ _ n));
        eauto. }
    unfold to_size_t, SIZE_MAX in *. rewrite Z.mod_small; lia.
Qed.

(** A well-formed state that exercises the theorem: K = 2, frame 0 with two
    accesses (finite distance), frames 1 and 2 with one access each (infinite
    distance), frame 2 pinned. *)
Definition sample_replacer : LRUKReplacer :=
  mk (<[0 := Node.mk [5; 1] 2 0 true]>
        (<[1 := Node.mk [7] 2 1 true]>
           (<[2 := Node.mk [3] 2 2 false]> ∅)))
     ∅ 7 3 2 3 2.

Lemma Evict_victim_has_largest_k_distance_witness :
  well_formed 10 sample_replacer ∧
  ∃ v nv,
    Evict 10 sample_replacer = Ok (Some v, erase_node v sample_replacer) ∧
    node_store_ sample_replacer !! v = Some nv ∧ Node.is_evictable_ nv = true ∧
    node_store_ (erase_node v sample_replacer) !! v = None ∧
    ∀ f n, node_store_ sample_replacer !! f = Some n → Node.is_evictable_ n = true →
      distance_le (backward_k_distance 10 (k_ sample_replacer) n)
                  (backward_k_distance 10 (k_ sample_replacer) nv) ∧
      (backward_k_distance 10 (k_ sample_replacer) n = Infinite →
       backward_k_distance 10 (k_ sample_replacer) nv = Infinite →
       ∀ tv tf, oldest_access nv = Some tv → oldest_access n = Some tf → tv ≤ tf).
Proof.
  assert (well_formed 10 sample_replacer) as Hwf.
  { split; [reflexivity|]. simpl.
    assert (∀ f n, 0 ≤ f → (0 < length (Node.history_ n) ≤ 2)%nat →
                   Forall (λ t, 0 ≤ t ≤ 10) (Node.history_ n) → node_ok 10 2 f n) as Hok.
    { intros f n ? ? ?. unfold node_ok. repeat split; try done; lia. }
    apply map_Forall_insert_2; [apply Hok; simpl; [lia|lia|repeat constructor; lia]|].
    apply map_Forall_insert_2; [apply Hok; simpl; [lia|lia|repeat constructor; lia]|].
    apply map_Forall_insert_2; [apply Hok; simpl; [lia|lia|repeat constructor; lia]|].
    apply map_Forall_empty. }
  split; [exact Hwf|].
  apply (Evict_victim_has_largest_k_distance 10 sample_replacer Hwf).
  exists 0, (Node.mk [5; 1] 2 0 true). split; reflexivity.
Defined.

Lemma evictable_count_erase (f : Z) (n : Node.t) (r : LRUKReplacer) :
  node_store_ r !! f = Some n → Node.is_evictable_ n = true →
  1 ≤ evictable_count r ∧ evictable_count (erase_node f r) = evictable_count r - 1.
Proof.
  intros Hn He. unfold evictable_count. simpl.
  rewrite map_filter_delete.
  assert (filter (λ p : Z * Node.t, Node.is_evictable_ p.2 = true) (node_store_ r) !! f
          = Some n) as Hf.
  { by apply map_lookup_filter_Some. }
  rewrite map_size_delete_Some by eauto.
  assert (size (filter (λ p : Z * Node.t, Node.is_evictable_ p.2 = true) (node_store_ r)) ≠ 0%nat).
  { by apply (map_size_ne_0_lookup_2 _ f). }
  lia.
Qed.

Lemma counters_ok_erase_node (f : Z) (n : Node.t) (r : LRUKReplacer) :
  counters_ok r → node_store_ r !! f = Some n → Node.is_evictable_ n = true →
  counters_ok (erase_node f r).
Proof.
  intros (Hc & Hr & Hs) Hn He.
  destruct (evictable_count_erase f n r Hn He) as [Hpos Hcount].
  pose proof (evictable_count_le r) as Hle.
  assert (size (node_store_ r) ≠ 0%nat) as Hne by (apply (map_size_ne_0_lookup_2 _ f); eauto).
  unfold counters_ok. rewrite Hcount. simpl.
  rewrite map_size_delete_Some by eauto.
  unfold to_size_t, SIZE_MAX in *. rewrite !Z.mod_small by lia. lia.
Qed.

Lemma counters_ok_Remove (f : Z) (r r' : LRUKReplacer) :
  counters_ok r → Remove f r = Ok r' → counters_ok r'.
Proof.
  intros Hok Hr. unfold Remove in Hr.
  destruct (node_store_ r !! f) as [n|] eqn:Hn; [|by injection Hr as <-].
  destruct (Node.is_evictable_ n) eqn:He; [|done]. injection Hr as <-.
  by eapply counters_ok_erase_node.
Qed.

Lemma counters_ok_Evict `{StdLib} (now : Z) (r r' : LRUKReplacer) (v : option Z) :
  counters_ok r → Evict now r = Ok (v, r') → counters_ok r'.
Proof.
  intros Hok Hev. destruct v as [v|].
  - apply Evict_Some_inv in Hev as (n & Hn & He & ->). by eapply counters_ok_erase_node.
  - unfold Evict in Hev. apply bind_Ok in Hev as (vec & _ & Hev).
    destruct (decide _); by simplify_eq.
Qed.

(** C8. [Remove] of a known evictable frame erases the node (later calls of
    [Evict] cannot return the frame, and the evictable count stays in step
    with the nodes) and makes [Size] one smaller; [Remove] of an unknown
    frame changes nothing; [Remove] of a known frame that is not evictable
    throws. *)
Theorem Remove_erases_node `{StdLib} (f : Z) (r : LRUKReplacer) :
  (∀ n, node_store_ r !! f = Some n → Node.is_evictable_ n = true →
        size_consistent r →
        ∃ r', Remove f r = Ok r' ∧
              node_store_ r' = delete f (node_store_ r) ∧
              node_store_ r' !! f = None ∧
              Size r' = Size r - 1 ∧
              size_consistent r' ∧
              ∀ now v r'', Evict now r' = Ok (Some v, r'') → v ≠ f) ∧
  (node_store_ r !! f = None → Remove f r = Ok r) ∧
  (∀ n, node_store_ r !! f = Some n → Node.is_evictable_ n = false →
        Remove f r = Throw "non-evictable frame").
Proof.
  split; [|split].
  - intros n Hn He [Hsize Hmax].
    destruct (evictable_count_erase f n r Hn He) as [Hpos Hcount].
    exists (erase_node f r). unfold Remove. rewrite Hn, He. simpl.
    assert (to_size_t (replacer_size_ r - 1) = replacer_size_ r - 1) as Hwrap.
    { unfold to_size_t, SIZE_MAX in *. rewrite Z.mod_small; lia. }
    split; [done|]. split; [done|]. split; [apply lookup_delete_eq|].
    split; [exact Hwrap|]. split.
    + split; [|lia]. simpl. rewrite Hwrap. lia.
    + intros now v r'' Hev ->.
      apply Evict_Some_inv in Hev as (n' & Hn' & _). simpl in Hn'.
      by rewrite lookup_delete_eq in Hn'.
  - intros Hn. unfold Remove. by rewrite Hn.
  - intros n Hn He. unfold Remove. by rewrite Hn, He.
Qed.

Lemma Remove_erases_node_witness :
  (∃ r', Remove 1 sample_replacer = Ok r' ∧
         node_store_ r' = delete 1 (node_store_ sample_replacer) ∧
         node_store_ r' !! 1 = None ∧
         Size r' = Size sample_replacer - 1 ∧
         size_consistent r' ∧
         ∀ now v r'', Evict now r' = Ok (Some v, r'') → v ≠ 1) ∧
  Remove 9 sample_replacer = Ok sample_replacer ∧
  Remove 2 sample_replacer = Throw "non-evictable frame".
Proof.
  split; [|split].
  - apply (proj1 (Remove_erases_node 1 sample_replacer) (Node.mk [7] 2 1 true));
      [reflexivity | reflexivity | split; vm_compute; [reflexivity | discriminate]].
  - apply (proj1 (proj2 (Remove_erases_node 9 sample_replacer))). reflexivity.
  - apply (proj2 (proj2 (Remove_erases_node 2 sample_replacer)) (Node.mk [3] 2 2 false));
      reflexivity.
Defined.

(** The earlier revision of [Remove] keeps the node and the count. *)
Remark Remove_v0_keeps_node :
  ∃ r', LRUKv0.Remove 1 sample_replacer = Ok r' ∧
        node_store_ r' !! 1 = Some (Node.mk [] 2 1 true) ∧
        Size r' = Size sample_replacer.
Proof. eexists. split; [reflexivity|]. split; reflexivity. Qed.

Example Evict_sample : Evict 10 sample_replacer = Ok (Some 1, erase_node 1 sample_replacer).
Proof. vm_compute. reflexivity. Qed.

End LRUKFacts.

Module BPMFacts.
Import BPM.

(** Takes apart a hypothesis saying that monadic code returned. *)
Ltac inv_ok :=
  repeat (simplify_eq/=;
          try match goal with
              | H : (_ ≫= _) = Ok _ |- _ => apply bind_Ok in H as (? & ? & H)
              | H : (if ?c then _ else _) = Ok _ |- _ => destruct c eqn:?
              | H : match ?x with _ => _ end = Ok _ |- _ => destruct x eqn:?
              end).

Section Pool.
Context `{StdLib} `{Clock}.

Lemma Evict_None_inv (now : Z) (r r' : LRUK.LRUKReplacer) :
  LRUK.Evict now r = Ok (None, r') → r' = r.
Proof. unfold LRUK.Evict. intros Hev. by inv_ok. Qed.

Lemma acquire_frame_next_page_id b got b' :
  acquire_frame b = Ok (got, b') → next_page_id_ b' = next_page_id_ b.
Proof.
  unfold acquire_frame, tick. intros Ha. inv_ok; by repeat case_match.
Qed.

Lemma NewFrame_next_page_id page_id b got b' :
  NewFrame page_id b = Ok (got, b') → next_page_id_ b' = next_page_id_ b.
Proof.
  unfold NewFrame, ResetFrame, record_access, tick. intros Hn.
  apply bind_Ok in Hn as ([got0 b0] & Ha & Hn).
  apply acquire_frame_next_page_id in Ha. by inv_ok.
Qed.

Lemma NewPage_next_page_id b got b' :
  NewPage b = Ok (got, b') →
  next_page_id_ b' = next_page_id_ b + 1 ∧
  ∀ page_id frame_id, got = Some (page_id, frame_id) → page_id = next_page_id_ b.
Proof.
  unfold NewPage, AllocatePage. intros Hn.
  apply bind_Ok in Hn as ([got0 b0] & Hf & Hn).
  apply NewFrame_next_page_id in Hf.
  unfold pin, record_access, set_evictable, tick in Hn.
  inv_ok; split; try done; intros; by simplify_eq.
Qed.

Lemma FetchPage_next_page_id page_id b got b' :
  FetchPage page_id b = Ok (got, b') → next_page_id_ b' = next_page_id_ b.
Proof.
  unfold FetchPage, pin_and_record, pin, record_access, set_evictable, tick. intros Hf.
  destruct (page_table_ b !! page_id); [by inv_ok|].
  apply bind_Ok in Hf as ([got0 b0] & Hn & Hf).
  apply NewFrame_next_page_id in Hn. by inv_ok.
Qed.

Lemma UnpinPage_next_page_id page_id is_dirty b ok b' :
  UnpinPage page_id is_dirty b = Ok (ok, b') → next_page_id_ b' = next_page_id_ b.
Proof.
  unfold UnpinPage, set_evictable. intros Hu. by inv_ok.
Qed.

Lemma FlushPage_next_page_id page_id b ok b' :
  FlushPage page_id b = Ok (ok, b') → next_page_id_ b' = next_page_id_ b.
Proof. unfold FlushPage. intros Hf. repeat case_decide; by inv_ok. Qed.

Lemma FlushAllPages_next_page_id b b' :
  FlushAllPages b = Ok b' → next_page_id_ b' = next_page_id_ b.
Proof.
  unfold FlushAllPages. generalize (unordered_iter (page_table_ b)). intros l.
  assert (∀ acc, (∀ b0, acc = Ok b0 → next_page_id_ b0 = next_page_id_ b) →
                 foldl (λ acc (p : Z * Z), b ← acc; '(_, b) ← FlushPage p.1 b; Ok b) acc l
                 = Ok b' → next_page_id_ b' = next_page_id_ b) as Hgen.
  { induction l as [|p l IH]; simpl; intros acc Hacc Hfold; [by apply Hacc|].
    eapply IH; [|exact Hfold]. intros b0 Hb0.
    apply bind_Ok in Hb0 as (b1 & -> & Hb0).
    apply bind_Ok in Hb0 as ([ok b2] & Hfl & Hb0). injection Hb0 as <-.
    apply FlushPage_next_page_id in Hfl. rewrite Hfl. by apply Hacc. }
  apply Hgen. by intros b0 [= <-].
Qed.

Lemma DeletePage_next_page_id page_id b ok b' :
  DeletePage page_id b = Ok (ok, b') → next_page_id_ b' = next_page_id_ b.
Proof.
  unfold DeletePage, ResetFrame. intros Hd. by inv_ok.
Qed.

(** The allocator never moves backwards, and the ids a call hands out lie
    between its value before and its value after the call. *)
Lemma step_next_page_id o b ids b' :
  step o b = Ok (ids, b') →
  next_page_id_ b ≤ next_page_id_ b' ∧
  ∀ id, id ∈ ids → next_page_id_ b ≤ id < next_page_id_ b'.
Proof.
  destruct o; simpl; intros Hs.
  - apply bind_Ok in Hs as ([got b0] & Hn & Hs). injection Hs as <- <-.
    apply NewPage_next_page_id in Hn as [Hnext Hid]. split; [lia|].
    intros id Hin. destruct got as [[p f]|]; [|by apply elem_of_nil in Hin].
    apply list_elem_of_singleton in Hin as ->. rewrite (Hid p f eq_refl). lia.
  - apply bind_Ok in Hs as ([got b0] & Hn & Hs). injection Hs as <- <-.
    apply FetchPage_next_page_id in Hn. split; [lia|]. by intros id Hin%elem_of_nil.
  - apply bind_Ok in Hs as ([got b0] & Hn & Hs). injection Hs as <- <-.
    apply UnpinPage_next_page_id in Hn. split; [lia|]. by intros id Hin%elem_of_nil.
  - apply bind_Ok in Hs as ([got b0] & Hn & Hs). injection Hs as <- <-.
    apply FlushPage_next_page_id in Hn. split; [lia|]. by intros id Hin%elem_of_nil.
  - apply bind_Ok in Hs as (b0 & Hn & Hs). injection Hs as <- <-.
    apply FlushAllPages_next_page_id in Hn. split; [lia|]. by intros id Hin%elem_of_nil.
  - apply bind_Ok in Hs as ([got b0] & Hn & Hs). injection Hs as <- <-.
    apply DeletePage_next_page_id in Hn. split; [lia|]. by intros id Hin%elem_of_nil.
Qed.

Lemma run_next_page_id ops b ids b' :
  run ops b = Ok (ids, b') →
  next_page_id_ b ≤ next_page_id_ b' ∧
  ∀ id, id ∈ ids → next_page_id_ b ≤ id < next_page_id_ b'.
Proof.
  revert b ids. induction ops as [|o ops IH]; simpl; intros b ids Hr.
  - injection Hr as <- <-. split; [lia|]. by intros id Hin%elem_of_nil.
  - apply bind_Ok in Hr as ([ids1 b1] & Hs & Hr).
    apply bind_Ok in Hr as ([ids2 b2] & Hr2 & Hr). injection Hr as <- <-.
    apply step_next_page_id in Hs as [Hle1 Hids1].
    apply IH in Hr2 as [Hle2 Hids2]. split; [lia|].
    intros id Hin. apply elem_of_app in Hin as [Hin|Hin].
    + specialize (Hids1 id Hin). lia.
    + specialize (Hids2 id Hin). lia.
Qed.

(** C10. Every [NewPage] that returns advances [next_page_id_] by one.  When
    it returns [nullptr], the page table, the free list, the frames, the
    replacer and the disk are as before, and no later run of pool operations
    hands out the id that was skipped. *)
Theorem NewPage_failure_skips_page_id (b b' : BufferPoolManager)
    (got : option (Z * Z)) :
  NewPage b = Ok (got, b') →
  next_page_id_ b' = next_page_id_ b + 1 ∧
  (got = None →
   page_table_ b' = page_table_ b ∧ free_list_ b' = free_list_ b ∧
   pages_ b' = pages_ b ∧ replacer_ b' = replacer_ b ∧ disk_ b' = disk_ b ∧
   pool_size_ b' = pool_size_ b ∧
   ∀ ops ids b'', run ops b' = Ok (ids, b'') → next_page_id_ b ∉ ids).
Proof.
  intros Hn. pose proof (NewPage_next_page_id _ _ _ Hn) as [Hnext _].
  split; [done|]. intros ->.
  assert (∀ ops ids b'', run ops b' = Ok (ids, b'') → next_page_id_ b ∉ ids) as Hgap.
  { intros ops ids b'' Hr Hin. apply run_next_page_id in Hr as [_ Hids].
    specialize (Hids _ Hin). lia. }
  unfold NewPage, AllocatePage in Hn.
  apply bind_Ok in Hn as ([got0 b0] & Hf & Hn).
  destruct got0 as [f|].
  { unfold pin, set_evictable in Hn. by inv_ok. }
  injection Hn as <-.
  unfold NewFrame in Hf. apply bind_Ok in Hf as ([got1 b1] & Ha & Hf).
  destruct got1 as [f|]; [by inv_ok|]. injection Hf as <-.
  unfold acquire_frame, tick in Ha. simpl in Ha.
  destruct (free_list_ b) eqn:Hfl; [|done].
  apply bind_Ok in Ha as ([got2 rep] & Hev & Ha).
  destruct got2 as [f|]; [by inv_ok|]. injection Ha as <-.
  apply Evict_None_inv in Hev as ->. simpl. by rewrite Hfl.
Qed.

(** *** Accesses recorded by a page fault and by a hit *)

(** The history [RecordAccess] leaves for the frame it is called on. *)
Lemma RecordAccess_history (now f : Z) (r : LRUK.LRUKReplacer) :
  history_of f (LRUK.RecordAccess now f r) =
  Some (if decide (LRUK.curr_size_ r = 0 ∨ history_of f r = None)
        then [to_size_t now]
        else LRUK.push_history (LRUK.k_ r) (to_size_t now) (default [] (history_of f r))).
Proof.
  unfold history_of, LRUK.RecordAccess, LRUK.AddFrames, LRUK.node_at. simpl.
  destruct (LRUK.node_store_ r !! f) as [n|] eqn:Hn; simpl.
  - destruct (decide (LRUK.curr_size_ r = 0)) as [Hc|Hc].
    + rewrite !decide_True by (by left). simpl. by rewrite lookup_insert_eq.
    + rewrite !decide_False by (by intros [?|?]). simpl.
      by rewrite lookup_insert_eq.
  - rewrite !decide_True by (by right). simpl. by rewrite lookup_insert_eq.
Qed.

Lemma RecordAccess_curr_size_k (now f : Z) (r : LRUK.LRUKReplacer) :
  LRUK.k_ (LRUK.RecordAccess now f r) = LRUK.k_ r ∧
  LRUK.curr_size_ (LRUK.RecordAccess now f r) =
    (if decide (LRUK.curr_size_ r = 0 ∨ history_of f r = None)
     then to_size_t (LRUK.curr_size_ r + 1) else LRUK.curr_size_ r).
Proof.
  unfold history_of, LRUK.RecordAccess, LRUK.AddFrames. simpl.
  destruct (LRUK.node_store_ r !! f) as [n|] eqn:Hn; simpl.
  - destruct (decide (LRUK.curr_size_ r = 0)) as [Hc|Hc].
    + by rewrite !decide_True by (by left).
    + by rewrite !decide_False by (by intros [?|?]).
  - by rewrite !decide_True by (by right).
Qed.

(** [SetEvictable] touches no history and neither [curr_size_] nor [k_]. *)
Lemma SetEvictable_history (f : Z) (flag : bool) (r r' : LRUK.LRUKReplacer) :
  LRUK.SetEvictable f flag r = Ok r' →
  (∀ g, history_of g r' = history_of g r) ∧
  LRUK.curr_size_ r' = LRUK.curr_size_ r ∧ LRUK.k_ r' = LRUK.k_ r.
Proof.
  unfold LRUK.SetEvictable, LRUK.EnableEvictable, LRUK.DisableEvictable, LRUK.node_at.
  intros Hs. destruct (LRUK.node_store_ r !! f) as [n|] eqn:Hn; [|done].
  assert (∀ r0 e, LRUK.node_store_ r0 = <[f := Node.set_evictable e n]> (LRUK.node_store_ r) →
                  ∀ g, history_of g r0 = history_of g r) as Hsame.
  { intros r0 e Hr0 g. unfold history_of. rewrite Hr0.
    destruct (decide (f = g)) as [->|Hne].
    - by rewrite lookup_insert_eq, Hn.
    - by rewrite lookup_insert_ne. }
  simpl in Hs. rewrite ?Hn in Hs. simpl in Hs.
  destruct (decide (flag = Node.is_evictable_ n)); [by inv_ok|].
  unfold LRUK.node_at in Hs.
  destruct flag, (Node.is_evictable_ n) eqn:He; simpl in Hs; try done;
    rewrite ?Hn in Hs; simpl in Hs.
  - destruct (decide _); [done|]. injection Hs as <-.
    split; [|done]. by apply (Hsame _ true).
  - injection Hs as <-. split; [|done]. by apply (Hsame _ false).
Qed.

Lemma NewFrame_records_access page_id b f b1 :
  NewFrame page_id b = Ok (Some f, b1) →
  ∃ b0, acquire_frame b = Ok (Some f, b0) ∧
        clock_ b1 = S (clock_ b0) ∧
        replacer_ b1 = LRUK.RecordAccess (system_clock_now (clock_ b0)) f (replacer_ b0).
Proof.
  unfold NewFrame, ResetFrame, record_access, tick. intros Hn.
  apply bind_Ok in Hn as ([got0 b0] & Ha & Hn). inv_ok. eauto.
Qed.

Lemma RecordAccess_history_congr now f r r' :
  history_of f r' = history_of f r → LRUK.curr_size_ r' = LRUK.curr_size_ r →
  LRUK.k_ r' = LRUK.k_ r →
  history_of f (LRUK.RecordAccess now f r') = history_of f (LRUK.RecordAccess now f r).
Proof. intros Hh Hc Hk. by rewrite !RecordAccess_history, Hh, Hc, Hk. Qed.

(** Two accesses to a frame the replacer did not know leave exactly the two
    timestamps when K is at least two. *)
Lemma two_accesses_history (n : nat) (f : Z) (r : LRUK.LRUKReplacer) :
  history_of f r = None → 2 ≤ LRUK.k_ r → 0 ≤ LRUK.curr_size_ r < SIZE_MAX →
  history_of f (two_accesses n f r) =
  Some [to_size_t (system_clock_now (S n)); to_size_t (system_clock_now n)].
Proof.
  intros Hnew Hk Hc. unfold two_accesses.
  rewrite RecordAccess_history.
  destruct (RecordAccess_curr_size_k (system_clock_now n) f r) as [-> ->].
  rewrite RecordAccess_history.
  rewrite !(decide_True (P := LRUK.curr_size_ r = 0 ∨ history_of f r = None)) by (by right).
  rewrite decide_False.
  - simpl. unfold LRUK.push_history. simpl.
    destruct (Z.of_nat 2 >? LRUK.k_ r) eqn:Hgt; [|done]. rewrite Z.gtb_gt in Hgt. lia.
  - unfold to_size_t, SIZE_MAX in *. rewrite Z.mod_small by lia.
    intros [?|?]; [lia|done].
Qed.

(** *** The calls return

    [NewPage] with a free frame and [FetchPage] of a resident page return a
    page; [NewPage] with no free frame and nothing to evict returns
    [nullptr]. *)

Lemma page_at_in_range (f : Z) (b : BufferPoolManager) :
  0 ≤ f → (Z.to_nat f < length (pages_ b))%nat → ∃ pg, page_at f b = Ok pg.
Proof.
  intros Hf Hlen. unfold page_at. rewrite decide_True by done.
  destruct (pages_ b !! Z.to_nat f) as [pg|] eqn:Hpg; [eauto|].
  apply lookup_ge_None in Hpg. lia.
Qed.

Lemma RecordAccess_known (now f : Z) (r : LRUK.LRUKReplacer) :
  is_Some (LRUK.node_store_ (LRUK.RecordAccess now f r) !! f).
Proof.
  pose proof (RecordAccess_history now f r) as Hh. unfold history_of in Hh.
  destruct (LRUK.node_store_ (LRUK.RecordAccess now f r) !! f) as [n|];
    [by eexists | by simpl in Hh].
Qed.

Lemma NewFrame_with_free_frame (page_id : Z) (b : BufferPoolManager) (f : Z)
    (rest : list Z) :
  free_list_ b = f :: rest → 0 ≤ f → (Z.to_nat f < length (pages_ b))%nat →
  ∃ b', NewFrame page_id b = Ok (Some f, b') ∧
        length (pages_ b') = length (pages_ b) ∧
        is_Some (LRUK.node_store_ (replacer_ b') !! f).
Proof.
  intros Hfree Hf Hlen.
  destruct (page_at_in_range f (with_free_list rest b)) as [pg Hpg]; [done..|].
  eexists. split; [|split].
  - unfold NewFrame, acquire_frame. rewrite Hfree.
    change (Ok (Some f, with_free_list rest b) ≫= ?k) with (k (Some f, with_free_list rest b)).
    cbv beta iota. unfold ResetFrame. rewrite Hpg. reflexivity.
  - unfold record_access, tick, set_page, with_replacer, with_clock, with_pages. cbn [pages_].
    by rewrite !length_insert.
  - unfold record_access, tick. cbn [replacer_ with_replacer].
    apply RecordAccess_known.
Qed.

Lemma pin_in_range (f : Z) (b : BufferPoolManager) :
  0 ≤ f → (Z.to_nat f < length (pages_ b))%nat →
  ∃ b', pin f b = Ok b' ∧ replacer_ b' = replacer_ b ∧ clock_ b' = clock_ b.
Proof.
  intros Hf Hlen. destruct (page_at_in_range f b) as [pg Hpg]; [done..|].
  unfold pin. rewrite Hpg. eexists. split; [reflexivity|]. by split.
Qed.

Lemma SetEvictable_false_known (f : Z) (r : LRUK.LRUKReplacer) :
  is_Some (LRUK.node_store_ r !! f) → ∃ r', LRUK.SetEvictable f false r = Ok r'.
Proof.
  intros [n Hn]. unfold LRUK.SetEvictable. rewrite Hn.
  destruct (decide (false = Node.is_evictable_ n)); [eauto|].
  destruct (Node.is_evictable_ n); [|done]. eexists. reflexivity.
Qed.

Lemma NewPage_with_free_frame (b : BufferPoolManager) (f : Z) (rest : list Z) :
  free_list_ b = f :: rest → 0 ≤ f → (Z.to_nat f < length (pages_ b))%nat →
  ∃ b', NewPage b = Ok (Some (next_page_id_ b, f), b').
Proof.
  intros Hfree Hf Hlen.
  destruct (NewFrame_with_free_frame (next_page_id_ b)
              (with_next_page_id (next_page_id_ b + 1) b) f rest Hfree Hf Hlen)
    as (b1 & Hnf & Hlen1 & Hknown).
  destruct (pin_in_range f b1 Hf) as (b2 & Hpin & Hrep2 & Hclock2).
  { rewrite Hlen1. exact Hlen. }
  assert (is_Some (LRUK.node_store_ (replacer_ (record_access f b2)) !! f)) as Hknown2.
  { unfold record_access, tick. cbn [replacer_ with_replacer with_clock].
    apply RecordAccess_known. }
  destruct (SetEvictable_false_known f _ Hknown2) as [rep Hrep].
  eexists. unfold NewPage, AllocatePage. rewrite Hnf.
  change (Ok (Some f, b1) ≫= ?k) with (k (Some f, b1)). cbv beta iota.
  rewrite Hpin. change (Ok b2 ≫= ?k) with (k b2). cbv beta.
  unfold set_evictable. rewrite Hrep. reflexivity.
Qed.

Lemma FetchPage_resident (b : BufferPoolManager) (page_id f : Z) :
  page_table_ b !! page_id = Some f → 0 ≤ f → (Z.to_nat f < length (pages_ b))%nat →
  ∃ b', FetchPage page_id b = Ok (Some f, b').
Proof.
  intros Hres Hf Hlen. unfold FetchPage, pin_and_record, pin. rewrite Hres.
  destruct (page_at_in_range f b) as [pg ->]; [done..|]. simpl. eauto.
Qed.

Lemma NewPage_without_frame (b : BufferPoolManager) :
  free_list_ b = [] →
  map_Forall (λ _ n, Node.history_ n ≠ [] ∧ Node.is_evictable_ n = false)
             (LRUK.node_store_ (replacer_ b)) →
  ∃ b', NewPage b = Ok (None, b').
Proof.
  intros Hfree Hpinned.
  unfold NewPage, AllocatePage, NewFrame, acquire_frame, tick. simpl. rewrite Hfree. simpl.
  rewrite (LRUKFacts.Evict_nothing_evictable _ _ Hpinned). simpl. eauto.
Qed.

(** C9. A [NewPage] and a [FetchPage] that misses each record two accesses
    for the frame they acquire, one in [NewFrame] and one in the caller, at
    consecutive readings of the clock; with K at least two and a frame the
    replacer did not know, its history then holds exactly these two
    timestamps.  A [FetchPage] that hits records one access. *)
Theorem page_fault_records_two_accesses (b b' : BufferPoolManager) :
  (∀ p f, NewPage b = Ok (Some (p, f), b') →
     ∃ b0, acquire_frame (AllocatePage b).2 = Ok (Some f, b0) ∧
           clock_ b' = S (S (clock_ b0)) ∧
           history_of f (replacer_ b') =
             history_of f (two_accesses (clock_ b0) f (replacer_ b0)) ∧
           (history_of f (replacer_ b0) = None → 2 ≤ LRUK.k_ (replacer_ b0) →
            0 ≤ LRUK.curr_size_ (replacer_ b0) < SIZE_MAX →
            history_of f (replacer_ b') =
              Some [to_size_t (system_clock_now (S (clock_ b0)));
                    to_size_t (system_clock_now (clock_ b0))])) ∧
  (∀ p f, page_table_ b !! p = None → FetchPage p b = Ok (Some f, b') →
     ∃ b0, acquire_frame b = Ok (Some f, b0) ∧
           clock_ b' = S (S (clock_ b0)) ∧
           history_of f (replacer_ b') =
             history_of f (two_accesses (clock_ b0) f (replacer_ b0)) ∧
           (history_of f (replacer_ b0) = None → 2 ≤ LRUK.k_ (replacer_ b0) →
            0 ≤ LRUK.curr_size_ (replacer_ b0) < SIZE_MAX →
            history_of f (replacer_ b') =
              Some [to_size_t (system_clock_now (S (clock_ b0)));
                    to_size_t (system_clock_now (clock_ b0))])) ∧
  (∀ p f f', page_table_ b !! p = Some f → FetchPage p b = Ok (Some f', b') →
     f' = f ∧ clock_ b' = S (clock_ b) ∧
     replacer_ b' = LRUK.RecordAccess (system_clock_now (clock_ b)) f (replacer_ b)).
Proof.
  split; [|split].
  - intros p f Hn. unfold NewPage in Hn.
    destruct (AllocatePage b) as [new_page_id b_alloc] eqn:Halloc. simpl.
    apply bind_Ok in Hn as ([got b1] & Hf & Hn).
    destruct got as [f1|]; [|done].
    apply bind_Ok in Hn as (b2 & Hpin & Hn).
    apply bind_Ok in Hn as (b3 & Hse & Hn). injection Hn as <- <- <-.
    apply NewFrame_records_access in Hf as (b0 & Ha & Hclock & Hrep).
    unfold pin in Hpin. apply bind_Ok in Hpin as (pg & _ & Hpin). injection Hpin as <-.
    unfold set_evictable, record_access, tick in Hse. simpl in Hse.
    apply bind_Ok in Hse as (rep & Hse & Hb3). injection Hb3 as <-.
    apply SetEvictable_history in Hse as (Hh & _ & _).
    exists b0. split; [done|]. split; [simpl; by rewrite Hclock|].
    assert (history_of f1 rep = history_of f1 (two_accesses (clock_ b0) f1 (replacer_ b0)))
      as Hhist.
    { rewrite Hh. unfold two_accesses. by rewrite Hrep, Hclock. }
    split; [exact Hhist|]. intros Hnew Hk Hc.
    rewrite <- (two_accesses_history _ _ _ Hnew Hk Hc). exact Hhist.
  - intros p f Hmiss Hf. unfold FetchPage in Hf. rewrite Hmiss in Hf.
    apply bind_Ok in Hf as ([got b1] & Hnf & Hf).
    destruct got as [f1|]; [|done].
    apply bind_Ok in Hf as (b2 & Hse & Hf).
    apply bind_Ok in Hf as (pg & _ & Hf).
    unfold pin_and_record, pin, record_access, tick in Hf. simpl in Hf.
    apply bind_Ok in Hf as (b3 & Hpin & Hf). injection Hf as <- <-.
    apply bind_Ok in Hpin as (pg' & _ & Hpin). injection Hpin as <-.
    apply NewFrame_records_access in Hnf as (b0 & Ha & Hclock & Hrep).
    unfold set_evictable in Hse. apply bind_Ok in Hse as (rep & Hse & Hb2).
    injection Hb2 as <-. simpl.
    apply SetEvictable_history in Hse as (Hh & Hc & Hk).
    exists b0. split; [done|]. split; [by rewrite Hclock|].
    assert (history_of f1 (LRUK.RecordAccess (system_clock_now (clock_ b1)) f1 rep)
            = history_of f1 (two_accesses (clock_ b0) f1 (replacer_ b0))) as Hhist.
    { unfold two_accesses. rewrite <- Hrep, <- Hclock.
      by apply RecordAccess_history_congr. }
    split; [exact Hhist|]. intros Hnew Hk' Hc'.
    rewrite <- (two_accesses_history _ _ _ Hnew Hk' Hc'). exact Hhist.
  - intros p f f' Hhit Hf. unfold FetchPage in Hf. rewrite Hhit in Hf.
    unfold pin_and_record, pin, record_access, tick in Hf.
    apply bind_Ok in Hf as (b1 & Hpin & Hf). injection Hf as <- <-.
    apply bind_Ok in Hpin as (pg & _ & Hpin). injection Hpin as <-. done.
Qed.

End Pool.

Section Pool.
Context `{StdLib} `{Clock}.

(** In general the dirty flag after a successful [UnpinPage] is the argument,
    whatever it was before. *)
Lemma UnpinPage_assigns_dirty (page_id : Z) (is_dirty : bool) (b b' : BufferPoolManager) :
  UnpinPage page_id is_dirty b = Ok (true, b') →
  ∃ frame_id, page_table_ b !! page_id = Some frame_id ∧
              is_dirty_of frame_id b' = Some is_dirty.
Proof.
  unfold UnpinPage. intros Hu.
  destruct (page_table_ b !! page_id) as [f|]; [|done].
  exists f. split; [done|].
  apply bind_Ok in Hu as (pg & Hpg & Hu).
  destruct (decide (Page.pin_count_ pg ≤ 0)); [done|].
  apply bind_Ok in Hu as (b1 & Hb1 & Hu). injection Hu as <-.
  unfold page_at in Hpg. destruct (decide (0 ≤ f)); [|done].
  destruct (pages_ b !! Z.to_nat f) as [pg'|] eqn:Hlk; [|done].
  assert (length (pages_ b1) = length (pages_ b)) as Hlen.
  { simpl in Hb1. case_decide.
    - unfold set_evictable in Hb1. apply bind_Ok in Hb1 as (rep & _ & Hb1).
      injection Hb1 as <-. simpl. by rewrite length_insert.
    - injection Hb1 as <-. simpl. by rewrite length_insert. }
  unfold is_dirty_of, set_page. simpl.
  rewrite list_lookup_insert_eq; [done|].
  rewrite Hlen. by eapply lookup_lt_Some.
Qed.

End Pool.

(** ** Runs on a concrete pool

    The runs below take the reference implementation of the library
    interface and a clock that advances by one nanosecond per reading. *)
#[local] Instance sample_clock : Clock := λ n, 1000 + Z.of_nat n.

(** A pool of one frame with K = 2 and an empty disk *)
Definition pool1 : BufferPoolManager := new 1 2 ∅.

(** The pool after [NewPage] (page 0 pinned in frame 0), and after a
    [FetchPage] of page 7 on the fresh pool. *)
Definition pool1_new : BufferPoolManager :=
  match NewPage pool1 with Ok (_, b) => b | _ => pool1 end.
Definition pool1_fetched : BufferPoolManager :=
  match FetchPage 7 pool1 with Ok (_, b) => b | _ => pool1 end.
Definition pool1_hit : BufferPoolManager :=
  match FetchPage 0 pool1_new with Ok (_, b) => b | _ => pool1 end.
(** The pool after a second [NewPage], which finds no frame *)
Definition pool1_failed : BufferPoolManager :=
  match NewPage pool1_new with Ok (_, b) => b | _ => pool1 end.

Lemma page_fault_records_two_accesses_witness :
  (NewPage pool1 = Ok (Some (0, 0), pool1_new) ∧
   ∃ b0, acquire_frame (AllocatePage pool1).2 = Ok (Some 0, b0) ∧
         clock_ pool1_new = S (S (clock_ b0)) ∧
         history_of 0 (replacer_ pool1_new) =
           history_of 0 (two_accesses (clock_ b0) 0 (replacer_ b0)) ∧
         (history_of 0 (replacer_ b0) = None → 2 ≤ LRUK.k_ (replacer_ b0) →
          0 ≤ LRUK.curr_size_ (replacer_ b0) < SIZE_MAX →
          history_of 0 (replacer_ pool1_new) =
            Some [to_size_t (system_clock_now (S (clock_ b0)));
                  to_size_t (system_clock_now (clock_ b0))])) ∧
  (page_table_ pool1 !! 7 = None ∧ FetchPage 7 pool1 = Ok (Some 0, pool1_fetched) ∧
   ∃ b0, acquire_frame pool1 = Ok (Some 0, b0) ∧
         clock_ pool1_fetched = S (S (clock_ b0)) ∧
         history_of 0 (replacer_ pool1_fetched) =
           history_of 0 (two_accesses (clock_ b0) 0 (replacer_ b0)) ∧
         (history_of 0 (replacer_ b0) = None → 2 ≤ LRUK.k_ (replacer_ b0) →
          0 ≤ LRUK.curr_size_ (replacer_ b0) < SIZE_MAX →
          history_of 0 (replacer_ pool1_fetched) =
            Some [to_size_t (system_clock_now (S (clock_ b0)));
                  to_size_t (system_clock_now (clock_ b0))])) ∧
  (page_table_ pool1_new !! 0 = Some 0 ∧
   FetchPage 0 pool1_new = Ok (Some 0, pool1_hit) ∧
   0 = 0 ∧ clock_ pool1_hit = S (clock_ pool1_new) ∧
   replacer_ pool1_hit =
     LRUK.RecordAccess (system_clock_now (clock_ pool1_new)) 0 (replacer_ pool1_new)).
Proof.
  assert (NewPage pool1 = Ok (Some (0, 0), pool1_new)) as Hnew
    by (vm_compute; reflexivity).
  assert (FetchPage 7 pool1 = Ok (Some 0, pool1_fetched)) as Hmiss
    by (vm_compute; reflexivity).
  assert (FetchPage 0 pool1_new = Ok (Some 0, pool1_hit)) as Hhit
    by (vm_compute; reflexivity).
  assert (page_table_ pool1_new !! 0 = Some 0) as Hres by (vm_compute; reflexivity).
  split; [|split].
  - split; [exact Hnew|].
    exact (proj1 (page_fault_records_two_accesses pool1 pool1_new) 0 0 Hnew).
  - split; [reflexivity|]. split; [exact Hmiss|].
    exact (proj1 (proj2 (page_fault_records_two_accesses pool1 pool1_fetched))
             7 0 eq_refl Hmiss).
  - split; [exact Hres|]. split; [exact Hhit|].
    exact (proj2 (proj2 (page_fault_records_two_accesses pool1_new pool1_hit))
             0 0 0 Hres Hhit).
Defined.

(** The histories those runs leave for frame 0 *)
Example page_fault_histories :
  history_of 0 (replacer_ pool1_new) = Some [1001; 1000] ∧
  history_of 0 (replacer_ pool1_fetched) = Some [1001; 1000] ∧
  history_of 0 (replacer_ pool1_hit) = Some [1002; 1001].
Proof. vm_compute. done. Qed.

Lemma NewPage_failure_skips_page_id_witness :
  NewPage pool1_new = Ok (None, pool1_failed) ∧
  next_page_id_ pool1_failed = next_page_id_ pool1_new + 1 ∧
  (None = @None (Z * Z) →
   page_table_ pool1_failed = page_table_ pool1_new ∧
   free_list_ pool1_failed = free_list_ pool1_new ∧
   pages_ pool1_failed = pages_ pool1_new ∧
   replacer_ pool1_failed = replacer_ pool1_new ∧
   disk_ pool1_failed = disk_ pool1_new ∧
   pool_size_ pool1_failed = pool_size_ pool1_new ∧
   ∀ ops ids b'', run ops pool1_failed = Ok (ids, b'') → next_page_id_ pool1_new ∉ ids).
Proof.
  assert (NewPage pool1_new = Ok (None, pool1_failed)) as Hfail
    by (vm_compute; reflexivity).
  split; [exact Hfail|].
  exact (NewPage_failure_skips_page_id pool1_new pool1_failed None Hfail).
Defined.

(** C1 fails on the code.  After [NewPage], [UnpinPage] and a [FetchPage]
    that hits, frame 0 has pin count 1 and is still evictable in the
    replacer: the hit path of [FetchPage] never calls [SetEvictable]. *)
Theorem FetchPage_hit_leaves_pinned_frame_evictable :
  ∃ b1 b2 b3,
    NewPage pool1 = Ok (Some (0, 0), b1) ∧
    pin_count_of 0 b1 = Some 1 ∧ evictable_of 0 b1 = Some false ∧
    UnpinPage 0 false b1 = Ok (true, b2) ∧
    pin_count_of 0 b2 = Some 0 ∧ evictable_of 0 b2 = Some true ∧
    FetchPage 0 b2 = Ok (Some 0, b3) ∧
    pin_count_of 0 b3 = Some 1 ∧ evictable_of 0 b3 = Some true ∧
    ¬ pinned_frames_not_evictable b3.
Proof.
  do 3 eexists.
  split; [vm_compute; reflexivity|].
  split; [reflexivity|]. split; [reflexivity|].
  split; [vm_compute; reflexivity|].
  split; [reflexivity|]. split; [reflexivity|].
  split; [vm_compute; reflexivity|].
  split; [reflexivity|]. split; [reflexivity|].
  intros Hinv. by apply (Hinv 0 1).
Qed.

(** With frame 0 pinned and still evictable, the next [NewPage] takes frame 0
    for page 1: the pinned page 0 is evicted and leaves the page table. *)
Example pinned_page_is_evicted :
  ∃ b1 b2 b3 b4,
    NewPage pool1 = Ok (Some (0, 0), b1) ∧
    UnpinPage 0 false b1 = Ok (true, b2) ∧
    FetchPage 0 b2 = Ok (Some 0, b3) ∧
    pin_count_of 0 b3 = Some 1 ∧
    NewPage b3 = Ok (Some (1, 0), b4) ∧
    page_table_ b4 !! 0 = None ∧ page_table_ b4 !! 1 = Some 0.
Proof.
  do 4 eexists.
  split; [vm_compute; reflexivity|].
  split; [vm_compute; reflexivity|].
  split; [vm_compute; reflexivity|].
  split; [reflexivity|].
  split; [vm_compute; reflexivity|].
  split; reflexivity.
Qed.

(** C2 fails on the code.  Page 0 is pinned twice and unpinned with
    [is_dirty = true], which sets the dirty flag; the next [UnpinPage] with
    [is_dirty = false] finds pin count 1 and dirty flag [true], and leaves the
    dirty flag [false]: the flag is assigned, not or-ed. *)
Theorem UnpinPage_clears_dirty_flag :
  ∃ b1 b2 b3 b4,
    NewPage pool1 = Ok (Some (0, 0), b1) ∧
    FetchPage 0 b1 = Ok (Some 0, b2) ∧
    UnpinPage 0 true b2 = Ok (true, b3) ∧
    page_table_ b3 !! 0 = Some 0 ∧
    pin_count_of 0 b3 = Some 1 ∧ is_dirty_of 0 b3 = Some true ∧
    UnpinPage 0 false b3 = Ok (true, b4) ∧
    is_dirty_of 0 b4 = Some false.
Proof.
  do 4 eexists.
  split; [vm_compute; reflexivity|].
  split; [vm_compute; reflexivity|].
  split; [vm_compute; reflexivity|].
  split; [reflexivity|]. split; [reflexivity|]. split; [reflexivity|].
  split; [vm_compute; reflexivity|].
  reflexivity.
Qed.

End BPMFacts.

Module TrieFacts.
Import Trie.

(** C4 fails on the code.  [Put] with the empty key on the empty trie calls
    [Clone] through the null root pointer; no trie is returned, so there is
    nothing [Get] could return the value from. *)
Theorem Put_empty_key_on_empty_trie (v : value) (h : Heap) :
  Put (chars "") v empty h = Undefined "null pointer dereference".
Proof. reflexivity. Qed.

(** C5 fails on the code.  [Remove] on the empty trie calls [Clone] through
    the null root pointer, whatever the key. *)
Theorem Remove_on_empty_trie (key : list ascii) (h : Heap) :
  Remove key empty h = Undefined "null pointer dereference".
Proof. reflexivity. Qed.

(** *** The receiver is not changed

    [Put] and [Remove] write only to nodes they allocated themselves, so every
    node that existed before the call is as it was, and [Get] on the receiver
    returns what it returned before. *)

(** Every node lies below the next address to be handed out. *)
Definition heap_ok (h : Heap) : Prop :=
  ∀ a, is_Some (cells h !! a) → (a < next_addr h)%nat.

(** From [h] to [h'] the nodes below [base] are unchanged. *)
Definition grows (base : nat) (h h' : Heap) : Prop :=
  (next_addr h ≤ next_addr h')%nat ∧
  ∀ a, (a < base)%nat → cells h' !! a = cells h !! a.

Lemma grows_refl base h : grows base h h.
Proof. by split. Qed.

Lemma grows_trans base h1 h2 h3 : grows base h1 h2 → grows base h2 h3 → grows base h1 h3.
Proof.
  intros [Hn1 Hc1] [Hn2 Hc2]. split; [lia|].
  intros a Ha. by rewrite Hc2, Hc1.
Qed.

Lemma alloc_grows base n h :
  (base ≤ next_addr h)%nat →
  grows base h (mkHeap (<[next_addr h := n]> (cells h)) (S (next_addr h))).
Proof.
  intros Hb. split; [simpl; lia|].
  intros a Ha. simpl. apply lookup_insert_ne. lia.
Qed.

Lemma alloc_heap_ok n h :
  heap_ok h → heap_ok (mkHeap (<[next_addr h := n]> (cells h)) (S (next_addr h))).
Proof.
  intros Hok a. simpl.
  destruct (decide (a = next_addr h)) as [->|Hne]; [lia|].
  rewrite lookup_insert_ne by done. intros Ha. specialize (Hok a Ha). lia.
Qed.

Lemma store_grows base a n h : (base ≤ a)%nat → grows base h (store a n h).
Proof.
  intros Hb. split; [done|]. intros a' Ha'. simpl. apply lookup_insert_ne. lia.
Qed.

Lemma store_heap_ok a n h : (a < next_addr h)%nat → heap_ok h → heap_ok (store a n h).
Proof.
  intros Ha Hok a'. simpl.
  destruct (decide (a' = a)) as [->|Hne]; [done|].
  rewrite lookup_insert_ne by done. apply Hok.
Qed.

Lemma clone_grows base h p a h' :
  (base ≤ next_addr h)%nat → heap_ok h → clone h p = Ok (a, h') →
  grows base h h' ∧ heap_ok h' ∧ a = next_addr h ∧ next_addr h' = S a.
Proof.
  unfold clone, alloc. intros Hb Hok Hc. apply bind_Ok in Hc as (n & _ & Hc).
  injection Hc as <- <-.
  split; [by apply alloc_grows|]. split; [by apply alloc_heap_ok|done].
Qed.

Lemma chain_step_grows base v is_last c tmp h tmp' h' :
  (base ≤ next_addr h)%nat → heap_ok h →
  chain_step v is_last c (tmp, h) = Ok (tmp', h') →
  grows base h h' ∧ heap_ok h'.
Proof.
  unfold chain_step, alloc. intros Hb Hok Hstep.
  apply bind_Ok in Hstep as ([child h0] & Hchild & Hstep). simpl in Hstep.
  injection Hstep as <- <-.
  assert (grows base h h0 ∧ heap_ok h0) as [Hg0 Hok0].
  { destruct is_last.
    - injection Hchild as <- <-.
      split; [by apply alloc_grows | by apply alloc_heap_ok].
    - apply bind_Ok in Hchild as (old & _ & Hchild). injection Hchild as <- <-.
      split; [by apply alloc_grows | by apply alloc_heap_ok]. }
  split; [|by apply alloc_heap_ok].
  eapply grows_trans; [exact Hg0|]. apply alloc_grows. destruct Hg0. lia.
Qed.

Lemma chain_loop_grows base v rkey is_last tmp h tmp' h' :
  (base ≤ next_addr h)%nat → heap_ok h →
  chain_loop v rkey is_last (tmp, h) = Ok (tmp', h') →
  grows base h h' ∧ heap_ok h'.
Proof.
  revert is_last tmp h. induction rkey as [|c rkey IH]; simpl; intros is_last tmp h Hb Hok Hc.
  - injection Hc as <- <-. split; [apply grows_refl|done].
  - apply bind_Ok in Hc as ([tmp1 h1] & Hstep & Hc).
    apply chain_step_grows with (base := base) in Hstep as [Hg1 Hok1]; [|done..].
    assert (base ≤ next_addr h1)%nat as Hb1 by (destruct Hg1; lia).
    destruct (IH _ _ _ Hb1 Hok1 Hc) as [Hg Hok']. split; [by eapply grows_trans|done].
Qed.

Lemma graft_grows base cur_node cur c tmp h h' :
  (base ≤ cur_node)%nat → (cur_node < next_addr h)%nat → heap_ok h →
  graft cur_node cur c tmp h = Ok h' → grows base h h' ∧ heap_ok h'.
Proof.
  unfold graft. intros Hb Hc Hok Hg.
  apply bind_Ok in Hg as (tn & _ & Hg). apply bind_Ok in Hg as (sub & _ & Hg).
  injection Hg as <-. split; [by apply store_grows | by apply store_heap_ok].
Qed.

Lemma put_walk_grows base v key cur_node tmp h h' :
  (base ≤ cur_node)%nat → (cur_node < next_addr h)%nat → heap_ok h →
  put_walk v key cur_node tmp h = Ok h' → grows base h h' ∧ heap_ok h'.
Proof.
  revert cur_node tmp h. induction key as [|c key IH]; intros cur_node tmp h Hb Hc Hok Hp.
  - injection Hp as <-. split; [apply grows_refl|done].
  - simpl in Hp. apply bind_Ok in Hp as (cur & _ & Hp).
    destruct (decide (children_ cur = ∅)); [by eapply graft_grows|].
    destruct (children_ cur !! c) as [child|]; [|by eapply graft_grows].
    apply bind_Ok in Hp as ([new_child h1] & Hcl & Hp).
    apply clone_grows with (base := base) in Hcl as (Hg1 & Hok1 & -> & Hn1);
      [|lia|done].
    apply bind_Ok in Hp as (ncn & _ & Hp).
    destruct key as [|c' key'].
    + unfold alloc in Hp. injection Hp as <-.
      split.
      * eapply grows_trans; [exact Hg1|].
        eapply grows_trans; [apply alloc_grows; lia|]. by apply store_grows.
      * apply store_heap_ok; [simpl; lia|]. by apply alloc_heap_ok.
    + apply bind_Ok in Hp as (tn & _ & Hp). apply bind_Ok in Hp as (sub & _ & Hp).
      apply IH in Hp as [Hg Hok']; [| lia | simpl; lia | apply store_heap_ok; [lia|done]].
      split; [|done].
      eapply grows_trans; [exact Hg1|]. eapply grows_trans; [|exact Hg].
      by apply store_grows.
Qed.

Lemma remove_walk_grows base key cur_node tmp_leaf is_empty new_root h returned h' :
  (base ≤ cur_node)%nat → (cur_node < next_addr h)%nat →
  (base ≤ tmp_leaf)%nat → (tmp_leaf < next_addr h)%nat →
  (base ≤ new_root)%nat → (new_root < next_addr h)%nat → heap_ok h →
  remove_walk key cur_node tmp_leaf is_empty new_root h = Ok (returned, h') →
  grows base h h' ∧ heap_ok h'.
Proof.
  revert cur_node tmp_leaf is_empty h.
  induction key as [|c key IH]; intros cur_node tmp_leaf is_empty h Hb Hc Hbl Hl Hbr Hr Hok Hw.
  - injection Hw as <- <-. split; [apply grows_refl|done].
  - simpl in Hw. apply bind_Ok in Hw as (cur & _ & Hw).
    destruct (decide (children_ cur = ∅)).
    { injection Hw as <- <-. split; [apply grows_refl|done]. }
    destruct (children_ cur !! c) as [child|].
    2: { injection Hw as <- <-. split; [apply grows_refl|done]. }
    set (tl1 := if bool_decide (size (children_ cur) = 1%nat) && is_value_node_ cur
                then cur_node else tmp_leaf) in *.
    set (tl2 := if decide (size (children_ cur) ≠ 1%nat) then new_root else tl1) in *.
    assert (base ≤ tl2 ∧ tl2 < next_addr h)%nat as [Hb2 Hl2].
    { unfold tl2, tl1. destruct (decide _); [lia|].
      destruct (_ && _); lia. }
    clearbody tl2. clear tl1.
    set (ie := if bool_decide (size (children_ cur) ≠ 1%nat) || is_value_node_ cur
               then false else is_empty) in *.
    clearbody ie.
    destruct key as [|c' key'];
      apply bind_Ok in Hw as ([hit h1] & Hcl & Hw);
      apply clone_grows with (base := base) in Hcl as (Hg1 & Hok1 & -> & Hn1);
      try lia; try done.
    + apply bind_Ok in Hw as (hitn & _ & Hw).
      destruct (decide (children_ hitn = ∅)).
      * apply bind_Ok in Hw as (h2 & Hleaf & Hw). injection Hw as <- <-.
        set (h1' := store cur_node (set_children (delete c (children_ cur)) cur) h1) in *.
        assert (grows base h1 h1' ∧ heap_ok h1') as [Hg' Hok'].
        { split; [by apply store_grows|]. apply store_heap_ok; [lia|done]. }
        assert (grows base h1' h2 ∧ heap_ok h2) as [Hg2 Hok2].
        { destruct (decide (tl2 ≠ new_root)).
          - apply bind_Ok in Hleaf as (leaf & _ & Hleaf). injection Hleaf as <-.
            split; [by apply store_grows|]. apply store_heap_ok; [simpl; lia|done].
          - injection Hleaf as <-. split; [apply grows_refl|done]. }
        split; [|done].
        eapply grows_trans; [exact Hg1|]. by eapply grows_trans.
      * unfold alloc in Hw. injection Hw as <- <-. split.
        -- eapply grows_trans; [exact Hg1|].
           eapply grows_trans; [apply alloc_grows; lia|]. by apply store_grows.
        -- apply store_heap_ok; [simpl; lia|]. by apply alloc_heap_ok.
    + apply IH in Hw as [Hg Hok'];
        [| lia | simpl; lia | lia | simpl; lia | lia | simpl; lia
         | apply store_heap_ok; [lia|done]].
      split; [|done].
      eapply grows_trans; [exact Hg1|]. eapply grows_trans; [|exact Hg].
      by apply store_grows.
Qed.

Lemma Put_grows key v tr h tr' h' :
  heap_ok h → Put key v tr h = Ok (tr', h') →
  grows (next_addr h) h h' ∧ heap_ok h'.
Proof.
  intros Hok Hp. unfold Put in Hp. destruct key as [|c key].
  - apply bind_Ok in Hp as ([old_root h1] & Hcl & Hp).
    apply clone_grows with (base := next_addr h) in Hcl as (Hg1 & Hok1 & -> & Hn1);
      [|lia|done].
    apply bind_Ok in Hp as (old & _ & Hp). unfold alloc in Hp. injection Hp as <- <-.
    split; [|by apply alloc_heap_ok].
    eapply grows_trans; [exact Hg1|]. apply alloc_grows. lia.
  - apply bind_Ok in Hp as ([tmp_root h1] & Hch & Hp).
    apply chain_loop_grows with (base := next_addr h) in Hch as [Hg1 Hok1]; [|lia|done].
    destruct (root_ tr) as [r|]; [|by injection Hp as <- <-].
    apply bind_Ok in Hp as ([new_root h2] & Hcl & Hp).
    assert (next_addr h ≤ next_addr h1)%nat as Hb1 by (destruct Hg1; lia).
    apply clone_grows with (base := next_addr h) in Hcl as (Hg2 & Hok2 & -> & Hn2);
      [|lia|done].
    apply bind_Ok in Hp as (h3 & Hw & Hp). injection Hp as <- <-.
    apply put_walk_grows with (base := next_addr h) in Hw as [Hg3 Hok3];
      [|lia|lia|done].
    split; [|done]. eapply grows_trans; [exact Hg1|]. by eapply grows_trans.
Qed.

Lemma Remove_grows key tr h tr' h' :
  heap_ok h → Remove key tr h = Ok (tr', h') →
  grows (next_addr h) h h' ∧ heap_ok h'.
Proof.
  intros Hok Hr. unfold Remove in Hr.
  apply bind_Ok in Hr as ([old_root h1] & Hcl & Hr).
  apply clone_grows with (base := next_addr h) in Hcl as (Hg1 & Hok1 & -> & Hn1);
    [|lia|done].
  destruct key as [|c key].
  - apply bind_Ok in Hr as (old & _ & Hr). unfold alloc in Hr. injection Hr as <- <-.
    split; [|by apply alloc_heap_ok].
    eapply grows_trans; [exact Hg1|]. apply alloc_grows. lia.
  - apply bind_Ok in Hr as ([new_root h2] & Hcl & Hr).
    apply clone_grows with (base := next_addr h) in Hcl as (Hg2 & Hok2 & -> & Hn2);
      [|lia|done].
    apply bind_Ok in Hr as ([returned h3] & Hw & Hr).
    apply remove_walk_grows with (base := next_addr h) in Hw as [Hg3 Hok3];
      [|lia..|done].
    assert (grows (next_addr h) h h3) as Hg.
    { eapply grows_trans; [exact Hg1|]. by eapply grows_trans. }
    destruct returned; by injection Hr as <- <-.
Qed.

(** [Get] looks only at nodes that exist. *)
Lemma get_walk_mono T h h' cur_node key r :
  (∀ a n, cells h !! a = Some n → cells h' !! a = Some n) →
  get_walk T h cur_node key = Ok r → get_walk T h' cur_node key = Ok r.
Proof.
  intros Hsub. revert cur_node. induction key as [|c key IH]; intros cur_node Hg; [done|].
  simpl in *. apply bind_Ok in Hg as (cur & Hcur & Hg).
  assert (∀ a n, deref h (Some a) = Ok n → deref h' (Some a) = Ok n) as Hderef.
  { intros a n. unfold deref. destruct (cells h !! a) as [n'|] eqn:Ha; [|done].
    intros [= ->]. by rewrite (Hsub _ _ Ha). }
  rewrite (Hderef _ _ Hcur). simpl.
  destruct (decide (children_ cur = ∅)); [done|].
  destruct (children_ cur !! c) as [child|]; [|done].
  destruct key as [|c' key']; [|by apply IH].
  apply bind_Ok in Hg as (rp & Hrp & Hg). by rewrite (Hderef _ _ Hrp).
Qed.

Lemma Get_mono T key tr h h' r :
  (∀ a n, cells h !! a = Some n → cells h' !! a = Some n) →
  Get T key tr h = Ok r → Get T key tr h' = Ok r.
Proof.
  intros Hsub Hg. unfold Get in *.
  assert (∀ a n, deref h (Some a) = Ok n → deref h' (Some a) = Ok n) as Hderef.
  { intros a n. unfold deref. destruct (cells h !! a) as [n'|] eqn:Ha; [|done].
    intros [= ->]. by rewrite (Hsub _ _ Ha). }
  destruct key as [|c key]; destruct (root_ tr) as [rt|]; try done.
  - apply bind_Ok in Hg as (root & Hroot & Hg). by rewrite (Hderef _ _ Hroot).
  - apply bind_Ok in Hg as (root & Hroot & Hg). rewrite (Hderef _ _ Hroot).
    change (Ok root ≫= ?f) with (f root). cbv beta.
    destruct (decide (children_ root = ∅)); [done|].
    by eapply get_walk_mono.
Qed.

Lemma grows_subheap h h' :
  heap_ok h → grows (next_addr h) h h' →
  ∀ a n, cells h !! a = Some n → cells h' !! a = Some n.
Proof.
  intros Hok [_ Hsame] a n Ha. rewrite Hsame; [done|]. apply Hok. eauto.
Qed.

(** [Put] and [Remove] leave every node of the heap they start from as it
    was, so every [Get] on the receiver returns what it returned before the
    call. *)
Theorem receiver_unchanged (key : list ascii) (tr tr' : t) (h h' : Heap) :
  heap_ok h →
  (∃ v, Put key v tr h = Ok (tr', h')) ∨ Remove key tr h = Ok (tr', h') →
  heap_ok h' ∧
  (∀ a n, cells h !! a = Some n → cells h' !! a = Some n) ∧
  ∀ T key' r, Get T key' tr h = Ok r → Get T key' tr h' = Ok r.
Proof.
  intros Hok Hop.
  assert (grows (next_addr h) h h' ∧ heap_ok h') as [Hg Hok'].
  { destruct Hop as [[v Hp]|Hr]; [by eapply Put_grows | by eapply Remove_grows]. }
  pose proof (grows_subheap h h' Hok Hg) as Hsub.
  split; [done|]. split; [done|]. intros T key' r. by apply Get_mono.
Qed.

(** *** [Put] followed by [Get]

    On a heap without dangling pointers [Put] returns a trie in every case
    but one, the empty key on the empty trie, and [Get] finds the value in
    the trie it returns. *)

(** No node points outside the heap. *)
Definition closed (h : Heap) : Prop :=
  ∀ a n c b, cells h !! a = Some n → children_ n !! c = Some b → is_Some (cells h !! b).

Definition wf (h : Heap) : Prop := heap_ok h ∧ closed h.

Definition root_ok (tr : t) (h : Heap) : Prop :=
  ∀ r, root_ tr = Some r → is_Some (cells h !! r).

Lemma wf_alloc n h :
  wf h → (∀ c b, children_ n !! c = Some b → is_Some (cells h !! b)) →
  wf (mkHeap (<[next_addr h := n]> (cells h)) (S (next_addr h))).
Proof.
  intros [Hok Hcl] Hn. split; [by apply alloc_heap_ok|].
  intros a n' c b. simpl. intros Ha Hb.
  assert (is_Some (cells h !! b)) as [nb Hnb].
  { destruct (decide (a = next_addr h)) as [->|Hne].
    - rewrite lookup_insert_eq in Ha. injection Ha as <-. by eapply Hn.
    - rewrite lookup_insert_ne in Ha by done. by eapply Hcl. }
  destruct (decide (b = next_addr h)) as [->|Hne].
  - rewrite lookup_insert_eq. eauto.
  - rewrite lookup_insert_ne by done. eauto.
Qed.

Lemma wf_store a n h :
  wf h → is_Some (cells h !! a) →
  (∀ c b, children_ n !! c = Some b → is_Some (cells h !! b)) →
  wf (store a n h).
Proof.
  intros [Hok Hcl] Ha Hn. split.
  { apply store_heap_ok; [|done]. by apply Hok. }
  intros a' n' c b. simpl. intros Ha' Hb.
  assert (is_Some (cells h !! b)) as [nb Hnb].
  { destruct (decide (a' = a)) as [->|Hne].
    - rewrite lookup_insert_eq in Ha'. injection Ha' as <-. by eapply Hn.
    - rewrite lookup_insert_ne in Ha' by done. by eapply Hcl. }
  destruct (decide (b = a)) as [->|Hne].
  - rewrite lookup_insert_eq. eauto.
  - rewrite lookup_insert_ne by done. eauto.
Qed.

Section PutGet.
Variable v : value.

(** The path [chain_loop] builds: from the node at [a] the key leads through
    nodes with one child each to a childless node holding [v]; all of them
    lie below [bound]. *)
Fixpoint chain_below (bound : nat) (h : Heap) (a : nat) (key : list ascii) : Prop :=
  (a < bound)%nat ∧
  match key with
  | [] => cells h !! a = Some (with_value ∅ v)
  | c :: rest => ∃ b, cells h !! a = Some (plain {[c := b]}) ∧ chain_below bound h b rest
  end.

Lemma chain_below_grows bound bound' h h' a key :
  (bound ≤ bound')%nat → grows bound h h' →
  chain_below bound h a key → chain_below bound' h' a key.
Proof.
  intros Hb [_ Hsame]. revert a. induction key as [|c key IH]; simpl; intros a [Ha Hk].
  - split; [lia|]. by rewrite Hsame.
  - destruct Hk as (b & Hnode & Hrest). split; [lia|].
    exists b. rewrite Hsame by done. split; [done|]. by apply IH.
Qed.

Lemma chain_below_is_Some bound h a key :
  chain_below bound h a key → is_Some (cells h !! a).
Proof. destruct key; simpl; intros [_ Hk]; [eauto|]. destruct Hk as (b & -> & _). eauto. Qed.

(** What [Get] finds for a value of the type of [v] *)
Definition found (T : value_type) : option value :=
  if decide (type_of v = T) then Some v else None.

Lemma cast_with_value T children : cast T (with_value children v) = found T.
Proof. done. Qed.

Lemma chain_get T bound h a key :
  key ≠ [] → chain_below bound h a key → get_walk T h a key = Ok (found T).
Proof.
  revert a. induction key as [|c key IH]; [done|]. intros a _ [_ (b & Ha & Hrest)].
  simpl. unfold deref. rewrite Ha. simpl.
  rewrite decide_False by (intros Hnil; by apply (f_equal (λ m, m !! c)) in Hnil;
                           rewrite lookup_singleton_eq in Hnil).
  rewrite lookup_singleton_eq.
  destruct key as [|c' key'].
  - destruct Hrest as [_ Hb]. simpl in Hb. rewrite Hb. done.
  - by apply IH.
Qed.

Lemma chain_step_first c h :
  wf h →
  ∃ a h', chain_step v true c (None, h) = Ok (Some a, h') ∧ wf h' ∧
          grows (next_addr h) h h' ∧ chain_below (next_addr h') h' a [c].
Proof.
  intros Hwf. unfold chain_step, alloc. simpl. do 2 eexists. split; [done|].
  set (h1 := mkHeap (<[next_addr h := with_value ∅ v]> (cells h)) (S (next_addr h))).
  assert (wf h1) as Hwf1 by (apply wf_alloc; [done|]; by intros c0 b0 Hb0).
  split.
  { apply (wf_alloc _ h1 Hwf1). intros c0 b0 Hb0. simpl in Hb0.
    apply lookup_singleton_Some in Hb0 as [_ <-]. simpl.
    rewrite lookup_insert_eq. eauto. }
  split.
  { eapply grows_trans; [apply alloc_grows; lia|]. apply (alloc_grows _ _ h1). simpl. lia. }
  simpl. split; [lia|]. exists (next_addr h). rewrite lookup_insert_eq.
  split; [done|]. split; [lia|].
  rewrite lookup_insert_ne by lia. by rewrite lookup_insert_eq.
Qed.

Lemma chain_step_next c h a s :
  wf h → s ≠ [] → chain_below (next_addr h) h a s →
  ∃ a' h', chain_step v false c (Some a, h) = Ok (Some a', h') ∧ wf h' ∧
           grows (next_addr h) h h' ∧ chain_below (next_addr h') h' a' (c :: s).
Proof.
  intros Hwf Hs Hchain. destruct s as [|c' s']; [done|].
  destruct Hchain as [Ha (b & Hnode & Hrest)].
  unfold chain_step, alloc, deref. rewrite Hnode. simpl. do 2 eexists. split; [done|].
  set (h1 := mkHeap (<[next_addr h := plain {[c' := b]}]> (cells h)) (S (next_addr h))).
  assert (is_Some (cells h !! b)) as Hb by (by eapply chain_below_is_Some).
  assert (wf h1) as Hwf1.
  { apply wf_alloc; [done|]. intros c0 b0 Hb0. simpl in Hb0.
    by apply lookup_singleton_Some in Hb0 as [_ <-]. }
  assert (grows (next_addr h) h h1) as Hg1 by (apply alloc_grows; lia).
  split.
  { apply (wf_alloc _ h1 Hwf1). intros c0 b0 Hb0. simpl in Hb0.
    apply lookup_singleton_Some in Hb0 as [_ <-]. simpl.
    rewrite lookup_insert_eq. eauto. }
  split.
  { eapply grows_trans; [exact Hg1|]. apply (alloc_grows _ _ h1). simpl. lia. }
  simpl. split; [lia|]. exists (next_addr h). rewrite lookup_insert_eq.
  split; [done|]. split; [lia|].
  exists b. rewrite lookup_insert_ne by lia. rewrite lookup_insert_eq.
  split; [done|].
  eapply (chain_below_grows (next_addr h)); [| |exact Hrest]; [simpl; lia|].
  eapply grows_trans; [exact Hg1|]. apply (alloc_grows _ _ h1). simpl. lia.
Qed.

Lemma chain_loop_next rk h a s :
  wf h → s ≠ [] → chain_below (next_addr h) h a s →
  ∃ a' h', chain_loop v rk false (Some a, h) = Ok (Some a', h') ∧ wf h' ∧
           grows (next_addr h) h h' ∧
           chain_below (next_addr h') h' a' (reverse rk ++ s).
Proof.
  revert h a s. induction rk as [|c rk IH]; intros h a s Hwf Hs Hchain.
  - exists a, h. simpl. split; [done|]. split; [done|]. split; [apply grows_refl|done].
  - destruct (chain_step_next c h a s Hwf Hs Hchain) as (a1 & h1 & Hstep & Hwf1 & Hg1 & Hc1).
    destruct (IH h1 a1 (c :: s) Hwf1 ltac:(done) Hc1) as (a' & h' & Hloop & Hwf' & Hg' & Hc').
    exists a', h'. split; [cbn [chain_loop]; rewrite Hstep; exact Hloop|]. split; [done|].
    split.
    + eapply grows_trans; [exact Hg1|]. destruct Hg1 as [Hle _].
      destruct Hg' as [Hle' Hsame']. split; [lia|]. intros x Hx. apply Hsame'. lia.
    + rewrite reverse_cons, <- app_assoc. exact Hc'.
Qed.

Lemma chain_loop_spec key h :
  wf h → key ≠ [] →
  ∃ a h', chain_loop v (reverse key) true (None, h) = Ok (Some a, h') ∧ wf h' ∧
          grows (next_addr h) h h' ∧ chain_below (next_addr h') h' a key.
Proof.
  intros Hwf Hkey.
  destruct (reverse key) as [|c rk] eqn:Hrev.
  { apply (f_equal reverse) in Hrev. rewrite reverse_involutive in Hrev. done. }
  destruct (chain_step_first c h Hwf) as (a1 & h1 & Hstep & Hwf1 & Hg1 & Hc1).
  destruct (chain_loop_next rk h1 a1 [c] Hwf1 ltac:(done) Hc1)
    as (a' & h' & Hloop & Hwf' & Hg' & Hc').
  exists a', h'. split; [cbn [chain_loop]; rewrite Hstep; exact Hloop|]. split; [done|].
  split.
  - eapply grows_trans; [exact Hg1|]. destruct Hg1 as [Hle _].
    destruct Hg' as [Hle' Hsame']. split; [lia|]. intros x Hx. apply Hsame'. lia.
  - assert (key = reverse rk ++ [c]) as ->; [|done].
    apply (f_equal reverse) in Hrev. rewrite reverse_involutive in Hrev.
    by rewrite Hrev, reverse_cons.
Qed.

Lemma grows_weaken base base' h h' :
  (base ≤ base')%nat → grows base' h h' → grows base h h'.
Proof. intros Hb [Hn Hsame]. split; [done|]. intros a Ha. apply Hsame. lia. Qed.

Lemma get_walk_step T h cur_node cur c rest :
  cells h !! cur_node = Some cur → children_ cur ≠ ∅ →
  get_walk T h cur_node (c :: rest) =
  match children_ cur !! c with
  | None => Ok None
  | Some child =>
      match rest with
      | [] => result_ptr ← deref h (Some child); Ok (cast T result_ptr)
      | _ => get_walk T h child rest
      end
  end.
Proof.
  intros Hcur Hne. cbn [get_walk]. unfold deref. rewrite Hcur. simpl.
  by rewrite decide_False.
Qed.

Local Arguments get_walk : simpl never.

Lemma put_walk_spec key cur_node a h :
  key ≠ [] → wf h → is_Some (cells h !! cur_node) → chain_below cur_node h a key →
  ∃ h', put_walk v key cur_node (Some a) h = Ok h' ∧ wf h' ∧ grows cur_node h h' ∧
        ∀ T, get_walk T h' cur_node key = Ok (found T).
Proof.
  revert cur_node a h. induction key as [|c rest IH]; [done|].
  intros cur_node a h _ Hwf [cur Hcur] [Ha (b & Hnode & Hrest)].
  pose proof Hwf as [Hok Hcl].
  assert (cur_node < next_addr h)%nat as Hlt by (apply Hok; eauto).
  assert (is_Some (cells h !! b)) as Hb by (by eapply chain_below_is_Some).
  assert (b < cur_node)%nat as Hblt by (destruct rest; by destruct Hrest).
  (* the two rounds that graft the new path into the clone *)
  assert (∃ h', graft cur_node cur c (Some a) h = Ok h' ∧ wf h' ∧ grows cur_node h h' ∧
                ∀ T, get_walk T h' cur_node (c :: rest) = Ok (found T)) as Hgraft.
  { unfold graft, deref, find_child. rewrite Hnode. simpl. rewrite lookup_singleton_eq. simpl.
    eexists. split; [done|].
    set (n' := set_children (<[c := b]> (children_ cur)) cur).
    assert (grows cur_node h (store cur_node n' h)) as Hg by (by apply store_grows).
    split.
    { apply wf_store; [done|eauto|]. intros c0 b0. simpl.
      destruct (decide (c0 = c)) as [->|Hne].
      - rewrite lookup_insert_eq. by intros [= <-].
      - rewrite lookup_insert_ne by done. by apply (Hcl cur_node cur). }
    split; [done|]. intros T.
    rewrite (get_walk_step T _ cur_node n'); [|by simpl; rewrite lookup_insert_eq|].
    2: { simpl. apply insert_non_empty. }
    simpl. rewrite lookup_insert_eq.
    destruct rest as [|c' rest'].
    - destruct Hrest as [_ Hbv]. unfold deref. simpl.
      rewrite lookup_insert_ne by lia. by rewrite Hbv.
    - apply (chain_get T cur_node); [done|].
      apply (chain_below_grows cur_node cur_node h); [lia | exact Hg | exact Hrest]. }
  assert (deref h (Some cur_node) = Ok cur) as Hd by (unfold deref; by rewrite Hcur).
  cbn [put_walk]. rewrite Hd. cbn [mbind result_bind].
  destruct (decide (children_ cur = ∅)); [exact Hgraft|].
  destruct (children_ cur !! c) as [child|] eqn:Hchild; [|exact Hgraft].
  clear Hgraft.
  destruct (Hcl _ _ _ _ Hcur Hchild) as [childn Hchildn].
  unfold clone, deref, alloc. rewrite Hchildn. simpl. rewrite lookup_insert_eq. simpl.
  set (nc := next_addr h).
  set (h1 := mkHeap (<[nc := childn]> (cells h)) (S nc)).
  assert (wf h1) as Hwf1.
  { apply wf_alloc; [done|]. intros c0 b0 Hb0. by apply (Hcl child childn c0). }
  assert (grows cur_node h h1) as Hg1 by (apply alloc_grows; lia).
  assert (cells h1 !! cur_node = Some cur) as Hcur1.
  { simpl. rewrite lookup_insert_ne by lia. done. }
  destruct rest as [|c' rest'].
  - set (leaf := with_value (children_ childn) v).
    set (h2 := mkHeap (<[S nc := leaf]> (cells h1)) (S (S nc))).
    assert (wf h2) as Hwf2.
    { apply (wf_alloc leaf h1 Hwf1). intros c0 b0 Hb0. simpl in Hb0.
      destruct (Hcl child childn c0 b0 Hchildn Hb0) as [nb Hnb]. simpl.
      destruct (decide (b0 = nc)) as [->|Hne].
      - rewrite lookup_insert_eq. eauto.
      - rewrite lookup_insert_ne by done. eauto. }
    set (n' := set_children (<[c := S nc]> (children_ cur)) cur).
    exists (store cur_node n' h2). split; [done|].
    assert (grows cur_node h (store cur_node n' h2)) as Hg.
    { eapply grows_trans; [exact Hg1|].
      eapply grows_trans; [apply (alloc_grows _ leaf h1); simpl; lia|].
      by apply store_grows. }
    split.
    { apply wf_store; [done| |].
      - simpl. rewrite lookup_insert_ne by lia. rewrite lookup_insert_ne by lia. eauto.
      - intros c0 b0. simpl. destruct (decide (c0 = c)) as [->|Hne].
        + rewrite lookup_insert_eq. intros [= <-]. rewrite lookup_insert_eq. eauto.
        + rewrite lookup_insert_ne by done. intros Hb0.
          destruct (Hcl _ _ _ _ Hcur Hb0) as [nb Hnb].
          destruct Hwf2 as [_ Hcl2]. apply (Hcl2 cur_node cur c0); [|done].
          simpl. rewrite lookup_insert_ne by lia. by rewrite lookup_insert_ne by lia. }
    split; [done|]. intros T.
    rewrite (get_walk_step T _ cur_node n'); [|by simpl; rewrite lookup_insert_eq|].
    2: { simpl. apply insert_non_empty. }
    simpl. rewrite lookup_insert_eq. unfold deref. simpl.
    rewrite lookup_insert_ne by lia. rewrite lookup_insert_eq. done.
  - set (n' := set_children (<[c := nc]> (children_ cur)) cur).
    set (h2 := store cur_node n' h1).
    assert (wf h2) as Hwf2.
    { apply wf_store; [done|eauto|]. intros c0 b0. simpl.
      destruct (decide (c0 = c)) as [->|Hne].
      - rewrite lookup_insert_eq. intros [= <-]. rewrite lookup_insert_eq. eauto.
      - rewrite lookup_insert_ne by done. intros Hb0.
        destruct Hwf1 as [_ Hcl1]. by apply (Hcl1 cur_node cur c0). }
    assert (grows cur_node h h2) as Hg2.
    { eapply grows_trans; [exact Hg1|]. by apply store_grows. }
    assert (cells h2 !! a = Some (plain {[c := b]})) as Hnode2.
    { destruct Hg2 as [_ Hsame]. by rewrite Hsame. }
    unfold deref, find_child. simpl in Hnode2. rewrite Hnode2. simpl.
    rewrite lookup_singleton_eq. simpl.
    destruct (IH nc b h2) as (h3 & Hput & Hwf3 & Hg3 & Hget).
    { done. }
    { done. }
    { simpl. rewrite lookup_insert_ne by lia. rewrite lookup_insert_eq. eauto. }
    { apply (chain_below_grows cur_node nc h); [unfold nc; lia | exact Hg2 | exact Hrest]. }
    exists h3. split; [exact Hput|]. split; [done|].
    split.
    { eapply grows_trans; [exact Hg2|]. eapply grows_weaken; [|exact Hg3]. unfold nc. lia. }
    intros T. destruct Hg3 as [_ Hsame3].
    rewrite (get_walk_step T _ cur_node n').
    + simpl. rewrite lookup_insert_eq. apply Hget.
    + rewrite Hsame3 by (unfold nc; lia). simpl. by rewrite lookup_insert_eq.
    + simpl. apply insert_non_empty.
Qed.

End PutGet.

Local Arguments put_walk : simpl never.

Lemma Get_nonempty_key T key r h :
  key ≠ [] → Get T key (mk (Some r)) h = get_walk T h r key.
Proof.
  destruct key as [|c key]; [done|]. intros _. unfold Get. simpl.
  destruct (deref h (Some r)) as [root| |]; simpl; try done.
  by destruct (decide (children_ root = ∅)).
Qed.

(** [Put] returns a trie unless the key and the trie are both empty, and
    [Get] on the returned trie finds the value at the key, under the type it
    was put with. *)
Theorem Put_then_Get (key : list ascii) (v : value) (tr : t) (h : Heap) :
  wf h → root_ok tr h → key ≠ [] ∨ root_ tr ≠ None →
  ∃ tr' h',
    Put key v tr h = Ok (tr', h') ∧ wf h' ∧ root_ok tr' h' ∧
    Get (type_of v) key tr' h' = Ok (Some v) ∧
    ∀ T, T ≠ type_of v → Get T key tr' h' = Ok None.
Proof.
  intros Hwf Hroot Hcase.
  assert (∀ tr' h', (∀ T, Get T key tr' h' = Ok (found v T)) →
                    Get (type_of v) key tr' h' = Ok (Some v) ∧
                    ∀ T, T ≠ type_of v → Get T key tr' h' = Ok None) as Hfound.
  { intros tr' h' Hget. split.
    - rewrite Hget. unfold found. by rewrite decide_True.
    - intros T HT. rewrite Hget. unfold found. by rewrite decide_False. }
  pose proof Hwf as [Hok Hcl].
  destruct key as [|c key].
  - destruct (root_ tr) as [r|] eqn:Hr; [|by destruct Hcase].
    destruct (Hroot r Hr) as [old Hold].
    unfold Put, clone, deref, alloc. rewrite Hr, Hold. simpl.
    rewrite lookup_insert_eq. simpl. do 2 eexists. split; [done|].
    set (h1 := mkHeap (<[next_addr h := old]> (cells h)) (S (next_addr h))).
    assert (wf h1) as Hwf1.
    { apply wf_alloc; [done|]. intros c0 b0 Hb0. by apply (Hcl r old c0). }
    split.
    { apply (wf_alloc _ h1 Hwf1). intros c0 b0 Hb0. simpl in Hb0.
      destruct (Hcl r old c0 b0 Hold Hb0) as [nb Hnb]. simpl.
      destruct (decide (b0 = next_addr h)) as [->|Hne].
      - rewrite lookup_insert_eq. eauto.
      - rewrite lookup_insert_ne by done. eauto. }
    split.
    { intros r' [= <-]. simpl. rewrite lookup_insert_eq. eauto. }
    apply Hfound. intros T. unfold Get, deref. simpl. rewrite lookup_insert_eq. done.
  - destruct (chain_loop_spec v (c :: key) h Hwf ltac:(done))
      as (a & h1 & Hchain & Hwf1 & Hg1 & Hc1).
    unfold Put. rewrite Hchain. simpl.
    destruct (root_ tr) as [r|] eqn:Hr.
    + destruct (Hroot r Hr) as [rn Hrn].
      assert (cells h1 !! r = Some rn) as Hrn1.
      { destruct Hg1 as [_ Hsame]. rewrite Hsame; [done|]. apply Hok. eauto. }
      pose proof Hwf1 as [Hok1 Hcl1].
      unfold clone, deref, alloc. rewrite Hrn1. simpl.
      set (nr := next_addr h1).
      set (h2 := mkHeap (<[nr := rn]> (cells h1)) (S nr)).
      assert (wf h2) as Hwf2.
      { apply wf_alloc; [done|]. intros c0 b0 Hb0. by apply (Hcl1 r rn c0). }
      destruct (put_walk_spec v (c :: key) nr a h2) as (h3 & Hput & Hwf3 & Hg3 & Hget).
      { done. }
      { done. }
      { simpl. rewrite lookup_insert_eq. eauto. }
      { apply (chain_below_grows v nr nr h1); [lia| |exact Hc1].
        apply alloc_grows. unfold nr. lia. }
      fold h2. rewrite Hput. simpl. do 2 eexists. split; [done|]. split; [done|].
      split.
      { intros r' [= <-]. pose proof (Hget TUint32) as Hgw.
        simpl in Hgw. unfold deref in Hgw.
        destruct (cells h3 !! nr); [eauto|done]. }
      apply Hfound. intros T. rewrite Get_nonempty_key by done. apply Hget.
    + do 2 eexists. split; [done|]. split; [done|].
      split.
      { intros r' [= <-]. by eapply chain_below_is_Some. }
      apply Hfound. intros T. rewrite Get_nonempty_key by done.
      by eapply chain_get.
Qed.

(** The empty trie is a trie the code itself returns: removing the only key
    gives a null root, and a second [Remove] on that result fails. *)
Example Remove_twice :
  ∃ t1 h1 h2,
    Put (chars "a") (Uint32 1) empty empty_heap = Ok (t1, h1) ∧
    Remove (chars "a") t1 h1 = Ok (empty, h2) ∧
    Remove (chars "a") empty h2 = Undefined "null pointer dereference".
Proof. do 3 eexists. split; [vm_compute; reflexivity|]. split; vm_compute; reflexivity. Qed.

(** Scenario 5 of the specification: "abc" and "ab" are put, "abc" is
    removed; "ab" keeps its value and the node of 'c' is gone. *)
Example Remove_scenario :
  ∃ t1 h1 t2 h2 t3 h3,
    Put (chars "abc") (Uint32 1) empty empty_heap = Ok (t1, h1) ∧
    Put (chars "ab") (Uint32 2) t1 h1 = Ok (t2, h2) ∧
    Remove (chars "abc") t2 h2 = Ok (t3, h3) ∧
    Get TUint32 (chars "ab") t3 h3 = Ok (Some (Uint32 2)) ∧
    Get TUint32 (chars "abc") t3 h3 = Ok None ∧
    node_at h3 t3 (chars "abc") = None ∧
    Get TUint32 (chars "abc") t2 h3 = Ok (Some (Uint32 1)).
Proof.
  do 6 eexists. split; [vm_compute; reflexivity|]. split; [vm_compute; reflexivity|].
  split; [vm_compute; reflexivity|]. repeat split; vm_compute; reflexivity.
Qed.

(** *** [Remove] on tries with a root: a bounded check

    On every trie with a root that [Put] builds from keys among "a", "b",
    "aa", "ab", "ba", "aab", "aba" and "", [Remove] of each of these keys
    returns a trie in which the key is unmapped and the other keys are
    mapped as before, and leaves the receiver as it was. *)

Definition sample_keys : list (list ascii) :=
  chars <$> ["a"; "b"; "aa"; "ab"; "ba"; "aab"; "aba"; ""]%string.

Fixpoint sublists {A} (l : list A) : list (list A) :=
  match l with
  | [] => [[]]
  | x :: l' => sublists l' ++ (cons x <$> sublists l')
  end.

(** The trie that maps each key of [ks] to its length *)
Definition build (ks : list (list ascii)) : result (t * Heap) :=
  foldl (λ acc k, '(tr, h) ← acc; Put k (Uint32 (Z.of_nat (length k))) tr h)
        (Ok (empty, empty_heap)) ks.

Definition lookups (tr : t) (h : Heap) : list (option (option value)) :=
  (λ k, match Get TUint32 k tr h with Ok r => Some r | _ => None end) <$> sample_keys.

Definition value_eqb (a b : option (option value)) : bool :=
  match a, b with
  | Some None, Some None => true
  | Some (Some (Uint32 x)), Some (Some (Uint32 y)) => x =? y
  | _, _ => false
  end.

Definition lists_eqb (l1 l2 : list (option (option value))) : bool :=
  (length l1 =? length l2)%nat && forallb (λ p, value_eqb p.1 p.2) (zip l1 l2).

(** The tries of the check: those that are built and have a root *)
Definition has_root (ks : list (list ascii)) : bool :=
  match build ks with
  | Ok (tr, _) => bool_decide (is_Some (root_ tr))
  | _ => false
  end.

Definition Remove_behaves (ks : list (list ascii)) (key : list ascii) : bool :=
  match build ks with
  | Ok (tr, h) =>
      match Remove key tr h with
      | Ok (tr', h') =>
          lists_eqb (lookups tr' h')
            ((λ p : list ascii * option (option value),
                if decide (p.1 = key) then Some None else p.2)
               <$> zip sample_keys (lookups tr h))
          && lists_eqb (lookups tr h') (lookups tr h)
      | _ => false
      end
  | _ => false
  end.

Lemma Remove_behaves_on_small_tries :
  length (List.filter has_root (sublists sample_keys)) = 254%nat ∧
  forallb (λ ks, forallb (Remove_behaves ks) sample_keys)
          (List.filter has_root (sublists sample_keys)) = true.
Proof. vm_compute. done. Qed.

(** The trie holding "ac" and "b", built by [Put] from the empty trie *)
Definition trie_ac_b : result (t * Heap) :=
  '(t1, h) ← Put (chars "ac") (Uint32 1) empty empty_heap;
  Put (chars "b") (Uint32 2) t1 h.

(** C7 fails on the code.  In the trie holding "ac" and "b", [Remove] of
    "ac" erases the node of 'c' and keeps the node of 'a', which is left
    without children and without a value under the root. *)
Theorem Remove_leaves_dead_node :
  ∃ t2 h2 t3 h3,
    trie_ac_b = Ok (t2, h2) ∧
    Remove (chars "ac") t2 h2 = Ok (t3, h3) ∧
    node_at h3 t3 (chars "a") = Some (plain ∅) ∧
    Get TUint32 (chars "b") t3 h3 = Ok (Some (Uint32 2)) ∧
    ¬ no_dead_node h3 t3.
Proof.
  do 4 eexists.
  split; [vm_compute; reflexivity|].
  split; [vm_compute; reflexivity|].
  split; [vm_compute; reflexivity|].
  split; [vm_compute; reflexivity|].
  intros Hinv.
  destruct (Hinv (chars "a") (plain ∅)) as [Hc|Hv]; [done|vm_compute; reflexivity| |];
    by vm_compute in *.
Qed.

End TrieFacts.

Module DiskSchedulerFacts.
Import DiskScheduler.

Section Worker.
Context {Disk : Type} `{DiskManager Disk}.

Lemma set_value_inv p v (w w' : World Disk) :
  set_value p v w = Ok w' →
  promises w !! p = None ∧ promises w' = <[p := v]> (promises w).
Proof.
  unfold set_value. destruct (promises w !! p) eqn:Hp; [done|].
  by intros [= <-].
Qed.

Lemma disk_io_promises r (w w1 : World Disk) :
  disk_io r w = Ok w1 → promises w1 = promises w.
Proof.
  unfold disk_io. intros Hio. destruct (DiskRequest.is_write_ r).
  - apply bind_Ok in Hio as (d & _ & Hio). by injection Hio as <-.
  - apply bind_Ok in Hio as ([bytes d] & _ & Hio). by injection Hio as <-.
Qed.

Lemma serve_promises r (w w' : World Disk) :
  serve r w = Ok w' →
  promises w !! DiskRequest.callback_ r = None ∧
  promises w' = <[DiskRequest.callback_ r := true]> (promises w).
Proof.
  unfold serve. intros Hs. apply bind_Ok in Hs as (w1 & Hio & Hset).
  apply set_value_inv in Hset as [Hp ->].
  apply disk_io_promises in Hio. by rewrite Hio in *.
Qed.


(** A worker of the pool that has returned, or waits for an item, has
    resolved the promise of every request it served with [true]. *)
Lemma StartWorkerThread_resolves queue (w w' : World Disk) (e : worker_end) :
  StartWorkerThread queue w = Ok (e, w') →
  (∀ p, promises w !! p = Some true → promises w' !! p = Some true) ∧
  ∀ r, r ∈ served queue → promises w' !! DiskRequest.callback_ r = Some true.
Proof.
  revert w. induction queue as [|[r|] queue IH]; simpl; intros w Hrun.
  - injection Hrun as _ <-. split; [done|]. by intros r Hr%elem_of_nil.
  - apply bind_Ok in Hrun as (w1 & Hs & Hrun).
    apply serve_promises in Hs as [Hp Hw1].
    destruct (IH _ Hrun) as [Hkeep Hall]. split.
    + intros p Hpt. apply Hkeep. rewrite Hw1.
      destruct (decide (p = DiskRequest.callback_ r)) as [->|Hne].
      * apply lookup_insert_eq.
      * by rewrite lookup_insert_ne.
    + intros r' Hr'. apply elem_of_cons in Hr' as [->|Hr'].
      * apply Hkeep. rewrite Hw1. apply lookup_insert_eq.
      * by apply Hall.
  - injection Hrun as _ <-. split; [done|]. by intros r Hr%elem_of_nil.
Qed.

End Worker.

(** A write request for page 3 from buffer 0, with promise 0, and a world in
    which nothing is resolved yet *)
Definition write_request : DiskRequest.t := DiskRequest.mk true 0 3 0.
Definition failing_world : World unit := mkWorld () ∅ ∅.
Definition working_world : World (gmap Z (list Byte.byte)) :=
  mkWorld ∅ {[ 0%nat := [Byte.x01] ]} ∅.



(** Two requests that share a promise: the second [set_value] throws. *)
Example shared_promise_throws :
  ∃ w', serve (H := map_disk_manager) write_request working_world = Ok w' ∧
        serve (H := map_disk_manager) (DiskRequest.mk false 1 3 0) w'
          = Throw "promise already satisfied".
Proof. eexists. split; reflexivity. Qed.

(** A worker of the pool that takes one request and the stop sentinel, and
    a worker of the revision with one thread per request *)
Example StartWorkerThread_sample :
  ∃ w', StartWorkerThread (H := map_disk_manager) [Some write_request; None] working_world
          = Ok (Returned, w') ∧
        StartWorkerThread_single (H := map_disk_manager) [Some write_request] working_world
          = Ok (Returned, w') ∧
        promises w' !! 0%nat = Some true ∧ disk w' !! 3 = Some [Byte.x01].
Proof. eexists. repeat split; reflexivity. Qed.

End DiskSchedulerFacts.

(** * Further properties of the LRU-K replacer *)

Module ReplacerRuns.
Import LRUK LRUKFacts.

(** ** What [Evict] returns *)

Section EvictResults.
Context `{StdLib}.

(** X1. Whatever the state, a frame that [Evict] returns was known and
    evictable and is not the id the loop uses as "nothing found"; its node
    is erased and [Size] is one smaller in [size_t] arithmetic.  When
    [Evict] returns [false], the replacer is as before. *)
Theorem Evict_returns_only_evictable_frames (now : Z) (r r' : LRUKReplacer)
    (got : option Z) :
  Evict now r = Ok (got, r') →
  match got with
  | None => r' = r
  | Some v =>
      v ≠ INVALID_PAGE_ID ∧
      ∃ n, node_store_ r !! v = Some n ∧ Node.is_evictable_ n = true ∧
           node_store_ r' = delete v (node_store_ r) ∧
           Size r' = to_size_t (Size r - 1) ∧
           curr_size_ r' = to_size_t (curr_size_ r - 1)
  end.
Proof.
  intros Hev. destruct got as [v|].
  - split.
    + unfold Evict in Hev. apply bind_Ok in Hev as (vec & _ & Hev).
      destruct (decide _) as [|Hne]; [done|]. by injection Hev as <- _.
    + apply Evict_Some_inv in Hev as (n & Hn & He & ->). exists n. by repeat split.
  - unfold Evict in Hev. apply bind_Ok in Hev as (vec & _ & Hev).
    destruct (decide _); by simplify_eq.
Qed.

Lemma Evict_finds_evictable (now : Z) (r : LRUKReplacer) (f : Z) (n : Node.t) :
  (∀ f n, node_store_ r !! f = Some n → 0 ≤ f ∧ Node.history_ n ≠ []) →
  node_store_ r !! f = Some n → Node.is_evictable_ n = true →
  ∃ v r', Evict now r = Ok (Some v, r').
Proof.
  intros Hok Hn He.
  destruct (candidates_sorted now r) as (vec & Hc & Helem & _).
  { intros g m Hm. by destruct (Hok g m Hm). }
  unfold Evict. rewrite Hc. simpl.
  destruct (find_is_Some (λ p : Z * Z, Node.is_evictable_ (node_at r p.1)) vec
              (f, sort_key now r n)) as [pv Hfind].
  { apply Helem. eauto. }
  { simpl. unfold node_at. by rewrite Hn. }
  rewrite Hfind.
  apply find_some in Hfind as [Hin _].
  apply list_elem_of_In, Helem in Hin as (nv & Hnv & _).
  destruct (Hok _ _ Hnv) as [Hpos _].
  rewrite decide_False by (unfold INVALID_PAGE_ID; lia). eauto.
Qed.

(** X2. In a state whose frame ids are non-negative and whose histories are
    not empty, [Evict] returns [false] and changes nothing exactly when no
    frame is evictable. *)
Theorem Evict_fails_iff_nothing_evictable (now : Z) (r : LRUKReplacer) :
  (∀ f n, node_store_ r !! f = Some n → 0 ≤ f ∧ Node.history_ n ≠ []) →
  Evict now r = Ok (None, r) ↔
  ∀ f n, node_store_ r !! f = Some n → Node.is_evictable_ n = false.
Proof.
  intros Hok. split.
  - intros Hev f n Hn. destruct (Node.is_evictable_ n) eqn:He; [|done]. exfalso.
    destruct (Evict_finds_evictable now r f n Hok Hn He) as (v & r' & Hev').
    by rewrite Hev in Hev'.
  - intros Hnone. apply Evict_nothing_evictable.
    intros f n Hn. split; [by destruct (Hok f n Hn) | by eapply Hnone].
Qed.

(** X3. Once [Evict] has returned a frame, or [Remove] has returned, the
    replacer has forgotten the frame: the next [RecordAccess] for it starts
    a node with that single timestamp, which is not evictable. *)
Theorem forgotten_frame_starts_over (now now' : Z) (r r' : LRUKReplacer) (f : Z) :
  Evict now r = Ok (Some f, r') ∨ Remove f r = Ok r' →
  node_store_ (RecordAccess now' f r') !! f =
    Some (Node.mk [to_size_t now'] (k_ r) f false).
Proof.
  intros Hgone.
  assert (node_store_ r' !! f = None ∧ k_ r' = k_ r) as [Hnone Hk].
  { destruct Hgone as [Hev|Hrm].
    - apply Evict_Some_inv in Hev as (n & _ & _ & ->). simpl.
      split; [apply lookup_delete_eq|done].
    - unfold Remove in Hrm. destruct (node_store_ r !! f) as [n|] eqn:Hn.
      + destruct (negb (Node.is_evictable_ n)); [done|]. injection Hrm as <-. simpl.
        split; [apply lookup_delete_eq|done].
      + by injection Hrm as <-. }
  unfold RecordAccess, AddFrames. simpl.
  rewrite decide_True by (by right). simpl.
  by rewrite lookup_insert_eq, Hk.
Qed.

End EvictResults.

(** ** [SetEvictable] *)

(** X4. [SetEvictable] on a frame the replacer does not know throws.  On a
    known frame, in a state whose counters agree with the nodes, it throws
    when the frame would become the evictable frame number [max_size_ + 1];
    otherwise it sets the flag of that frame, leaves every other node and
    every history as they were, and moves [Size] by the change of the flag. *)
Theorem SetEvictable_sets_flag_and_size (f : Z) (flag : bool) (r : LRUKReplacer) :
  (node_store_ r !! f = None → SetEvictable f flag r = Throw "frame id is invalid") ∧
  (∀ n, node_store_ r !! f = Some n → counters_ok r →
     if decide (flag = true ∧ Node.is_evictable_ n = false ∧ Size r + 1 > max_size_ r)
     then SetEvictable f flag r = Throw "too many evictable frames"
     else ∃ r', SetEvictable f flag r = Ok r' ∧
                node_store_ r' = <[f := Node.set_evictable flag n]> (node_store_ r) ∧
                Size r' = Size r + b2z flag - b2z (Node.is_evictable_ n) ∧
                counters_ok r').
Proof.
  split.
  { intros Hn. unfold SetEvictable. by rewrite Hn. }
  intros n Hn Hok.
  pose proof Hok as (Hc & Hr & Hs).
  pose proof (evictable_count_le r) as Hle.
  assert (Node.is_evictable_ n = false → evictable_count r + 1 ≤ Z.of_nat (size (node_store_ r)))
    as Hroom.
  { intros He. unfold evictable_count.
    assert (filter (λ p : Z * Node.t, Node.is_evictable_ p.2 = true) (node_store_ r)
            ⊆ delete f (node_store_ r)) as Hsub.
    { apply map_subseteq_spec. intros g m Hm.
      apply map_lookup_filter_Some in Hm as [Hm Hem]. simpl in Hem.
      destruct (decide (g = f)) as [->|Hne]; [congruence|].
      by rewrite lookup_delete_ne. }
    apply map_subseteq_size in Hsub. rewrite map_size_delete_Some in Hsub by eauto.
    assert (size (node_store_ r) ≠ 0%nat) by (apply (map_size_ne_0_lookup_2 _ f); eauto).
    lia. }
  destruct (decide _) as [(-> & He & Hfull)|Hfits].
  - unfold SetEvictable, EnableEvictable. rewrite Hn, He. simpl.
    rewrite decide_True; [done|].
    unfold Size in Hfull. specialize (Hroom He).
    unfold to_size_t, SIZE_MAX in *. rewrite Z.mod_small; lia.
  - destruct (SetEvictable f flag r) as [r'|msg|w] eqn:Hset.
    + exists r'. split; [done|].
      pose proof (counters_ok_SetEvictable f flag r r' Hok Hset) as Hok'.
      unfold SetEvictable in Hset. rewrite Hn in Hset.
      destruct (decide (flag = Node.is_evictable_ n)) as [->|Hflag].
      * injection Hset as <-. split; [|split; [|done]].
        -- rewrite insert_id; [done|]. rewrite Hn. by destruct n.
        -- lia.
      * unfold EnableEvictable, DisableEvictable, node_at in Hset.
        destruct flag, (Node.is_evictable_ n) eqn:He; simpl in Hset; try done;
          rewrite ?Hn in Hset; simpl in Hset.
        -- destruct (decide _); [done|]. injection Hset as <-. simpl.
           split; [done|]. split; [|done]. unfold Size. simpl.
           specialize (Hroom eq_refl).
           unfold to_size_t, SIZE_MAX in *. rewrite Z.mod_small; lia.
        -- injection Hset as <-. simpl. split; [done|]. split; [|done].
           unfold Size. simpl.
           destruct (evictable_count_erase f n r Hn He) as [Hpos _].
           unfold to_size_t, SIZE_MAX in *. rewrite Z.mod_small; lia.
    + exfalso. unfold SetEvictable in Hset. rewrite Hn in Hset.
      destruct (decide (flag = Node.is_evictable_ n)); [done|].
      unfold EnableEvictable in Hset.
      destruct flag, (Node.is_evictable_ n) eqn:He; simpl in Hset; try done.
      destruct (decide _) as [Hgt|]; [|done]. apply Hfits. split; [done|]. split; [done|].
      unfold Size. specialize (Hroom eq_refl).
      unfold to_size_t, SIZE_MAX in *. rewrite Z.mod_small in Hgt; lia.
    + exfalso. unfold SetEvictable in Hset. rewrite Hn in Hset.
      destruct (decide (flag = Node.is_evictable_ n)); [done|].
      unfold EnableEvictable in Hset.
      destruct flag, (Node.is_evictable_ n) eqn:He; simpl in Hset; try done.
      by destruct (decide _).
Qed.

(** ** States reached from a new replacer *)

(** [SetEvictable] taken apart: it returns the state it was given, or the one
    in which the flag of the frame is the other way round. *)
Lemma SetEvictable_inv (f : Z) (flag : bool) (r r' : LRUKReplacer) :
  SetEvictable f flag r = Ok r' →
  ∃ n, node_store_ r !! f = Some n ∧
    (r' = r ∧ flag = Node.is_evictable_ n ∨
     flag ≠ Node.is_evictable_ n ∧
     r' = mk (<[f := Node.set_evictable flag n]> (node_store_ r))
             (if flag then <[f := Node.set_evictable true n]> (evictable_node_ r)
              else delete f (evictable_node_ r))
             (current_timestamp_ r) (curr_size_ r)
             (to_size_t (replacer_size_ r + (if flag then 1 else -1)))
             (max_size_ r) (k_ r) ∧
     (flag = true → to_size_t (replacer_size_ r + 1) ≤ max_size_ r)).
Proof.
  unfold SetEvictable. intros Hs.
  destruct (node_store_ r !! f) as [n|] eqn:Hn; [|done]. exists n. split; [done|].
  destruct (decide (flag = Node.is_evictable_ n)) as [?|Hne].
  { injection Hs as <-. by left. }
  right. split; [done|].
  unfold EnableEvictable, DisableEvictable, node_at in Hs.
  destruct flag, (Node.is_evictable_ n) eqn:He; simpl in Hs; try done;
    rewrite ?Hn in Hs; simpl in Hs.
  - destruct (decide _) as [|Hle]; [done|]. injection Hs as <-. split; [done|].
    intros _. lia.
  - injection Hs as <-. split; [done|]. done.
Qed.

(** Each node records between one and K timestamps (one when K is below
    one) and carries the K of the replacer and its own frame id. *)
Definition node_shape (k f : Z) (n : Node.t) : Prop :=
  (1 ≤ length (Node.history_ n))%nat ∧
  Z.of_nat (length (Node.history_ n)) ≤ Z.max 1 k ∧
  Node.k_ n = k ∧ Node.fid_ n = f.

(** The counters agree with the nodes, [Size] is within [max_size_], and
    [evictable_node_] has an entry for exactly the evictable frames. *)
Definition counters_inv (r : LRUKReplacer) : Prop :=
  counters_ok r ∧
  replacer_size_ r ≤ Z.max 0 (max_size_ r) ∧
  ∀ f, is_Some (evictable_node_ r !! f) ↔
       ∃ n, node_store_ r !! f = Some n ∧ Node.is_evictable_ n = true.

Lemma push_history_length (k ts : Z) (h : list Z) :
  (1 ≤ length h)%nat → Z.of_nat (length h) ≤ Z.max 1 k →
  (1 ≤ length (push_history k ts h))%nat ∧
  Z.of_nat (length (push_history k ts h)) ≤ Z.max 1 k.
Proof.
  intros Hpos Hle. unfold push_history.
  destruct (Z.of_nat (length (ts :: h)) >? k) eqn:Hgt.
  - rewrite removelast_firstn_len, length_take. simpl length in *. lia.
  - rewrite Z.gtb_ltb, Z.ltb_ge in Hgt. simpl length in *. lia.
Qed.

Section Reachable.
Context `{StdLib}.

Lemma step_parameters (o : Op) (r r' : LRUKReplacer) :
  step o r = Ok r' → k_ r' = k_ r ∧ max_size_ r' = max_size_ r.
Proof.
  destruct o as [now f|f flag|f|now]; simpl; intros Hs.
  - injection Hs as <-. unfold RecordAccess, AddFrames. simpl.
    by destruct (decide _).
  - apply SetEvictable_inv in Hs as (n & _ & [[-> _]|(_ & -> & _)]); done.
  - unfold Remove in Hs. destruct (node_store_ r !! f) as [n|]; [|by injection Hs as <-].
    destruct (negb _); [done|]. by injection Hs as <-.
  - apply bind_Ok in Hs as ([got r1] & Hev & Hs). injection Hs as <-.
    destruct got as [v|].
    + by apply Evict_Some_inv in Hev as (_ & _ & _ & ->).
    + unfold Evict in Hev. apply bind_Ok in Hev as (vec & _ & Hev).
      destruct (decide _); by simplify_eq.
Qed.

Lemma step_node_shape (o : Op) (r r' : LRUKReplacer) :
  map_Forall (node_shape (k_ r)) (node_store_ r) → step o r = Ok r' →
  map_Forall (node_shape (k_ r')) (node_store_ r').
Proof.
  intros Hshape Hs. destruct (step_parameters o r r' Hs) as [-> _].
  destruct o as [now f|f flag|f|now]; simpl in Hs.
  - injection Hs as <-. unfold RecordAccess, AddFrames. simpl.
    destruct (decide _) as [Hnew|Hold]; simpl.
    + apply map_Forall_insert_2; [|done]. unfold node_shape. simpl. lia.
    + apply map_Forall_insert_2; [|done].
      destruct (node_store_ r !! f) as [n|] eqn:Hn; [|by destruct Hold; right].
      destruct (Hshape f n Hn) as (Hpos & Hle & Hk & Hfid).
      unfold node_at. simpl. rewrite Hn. simpl.
      destruct (push_history_length (k_ r) (to_size_t now) (Node.history_ n) Hpos Hle).
      by split_and!.
  - apply SetEvictable_inv in Hs as (n & Hn & [[-> _]|(_ & -> & _)]); [done|]. simpl.
    apply map_Forall_insert_2; [|done]. apply (Hshape f n Hn).
  - unfold Remove in Hs. destruct (node_store_ r !! f) as [n|]; [|by injection Hs as <-].
    destruct (negb _); [done|]. injection Hs as <-. simpl. by apply map_Forall_delete.
  - apply bind_Ok in Hs as ([got r1] & Hev & Hs). injection Hs as <-.
    destruct got as [v|].
    + apply Evict_Some_inv in Hev as (_ & _ & _ & ->). simpl. by apply map_Forall_delete.
    + unfold Evict in Hev. apply bind_Ok in Hev as (vec & _ & Hev).
      destruct (decide _); by simplify_eq.
Qed.

Lemma run_node_shape (ops : list Op) (r r' : LRUKReplacer) :
  map_Forall (node_shape (k_ r)) (node_store_ r) → run ops r = Ok r' →
  map_Forall (node_shape (k_ r')) (node_store_ r').
Proof.
  revert r. induction ops as [|o ops IH]; simpl; intros r Hshape Hrun.
  - by injection Hrun as <-.
  - apply bind_Ok in Hrun as (r1 & Hs & Hrun).
    eapply IH; [|exact Hrun]. by eapply step_node_shape.
Qed.

(** X5. In every state that calls of the replacer reach from a new
    replacer, each node records at least one timestamp and at most K of
    them, under its own frame id; so [Evict] never asks for the last
    element of an empty history: it returns at every clock reading. *)
Theorem reachable_histories_hold_1_to_K (ops : list Op) (num_frames k : Z)
    (r : LRUKReplacer) :
  run ops (new num_frames k) = Ok r →
  (∀ f n, node_store_ r !! f = Some n →
     (1 ≤ length (Node.history_ n))%nat ∧
     Z.of_nat (length (Node.history_ n)) ≤ Z.max 1 k ∧
     Node.k_ n = k ∧ Node.fid_ n = f) ∧
  ∀ now, is_Ok (Evict now r).
Proof.
  intros Hrun.
  assert (k_ r = k) as Hk.
  { clear -Hrun. change k with (k_ (new num_frames k)).
    revert Hrun. generalize (new num_frames k). intros r0. revert r0.
    induction ops as [|o ops IH]; simpl; intros r0 Hrun; [by injection Hrun as <-|].
    apply bind_Ok in Hrun as (r1 & Hs & Hrun).
    rewrite (IH _ Hrun). by apply step_parameters in Hs as [-> _]. }
  pose proof (run_node_shape ops (new num_frames k) r) as Hshape.
  rewrite Hk in Hshape. specialize (Hshape (map_Forall_empty _) Hrun).
  split; [exact Hshape|]. intros now.
  destruct (candidates_sorted now r) as (vec & Hc & _).
  { intros f n Hn Hnil. destruct (Hshape f n Hn) as (Hpos & _).
    rewrite Hnil in Hpos. simpl in Hpos. lia. }
  unfold Evict. rewrite Hc. simpl. destruct (decide _); by eexists.
Qed.

Lemma counters_inv_erase_node (f : Z) (n : Node.t) (r : LRUKReplacer) :
  counters_inv r → node_store_ r !! f = Some n → Node.is_evictable_ n = true →
  counters_inv (erase_node f r).
Proof.
  intros (Hok & Hmax & Hdom) Hn He. split; [by eapply counters_ok_erase_node|].
  split.
  - simpl. destruct Hok as (_ & Hr & Hs).
    destruct (evictable_count_erase f n r Hn He) as [Hpos _].
    pose proof (evictable_count_le r).
    unfold to_size_t, SIZE_MAX in *. rewrite Z.mod_small; lia.
  - intros g. simpl. destruct (decide (g = f)) as [->|Hne].
    + rewrite !lookup_delete_eq. split; [by intros [? ?]|by intros (? & ? & _)].
    + rewrite !lookup_delete_ne by done. apply Hdom.
Qed.

Lemma step_counters_inv (o : Op) (r r' : LRUKReplacer) :
  counters_inv r → Z.of_nat (size (node_store_ r)) + 1 < SIZE_MAX →
  step o r = Ok r' →
  counters_inv r' ∧ (size (node_store_ r') ≤ S (size (node_store_ r)))%nat.
Proof.
  intros Hinv Hroom Hs. pose proof Hinv as (Hok & Hmax & Hdom).
  destruct o as [now f|f flag|f|now]; simpl in Hs.
  - injection Hs as <-. split.
    + split; [by apply counters_ok_RecordAccess|].
      destruct Hok as (Hc & _ & _).
      unfold RecordAccess, AddFrames. simpl.
      destruct (node_store_ r !! f) as [n|] eqn:Hn.
      * assert (size (node_store_ r) ≠ 0%nat)
          by (apply (map_size_ne_0_lookup_2 _ f); eauto).
        rewrite decide_False by (intros [?|?]; [lia|done]). simpl.
        split; [done|]. intros g. rewrite Hdom.
        unfold node_at. simpl. rewrite Hn. simpl.
        destruct (decide (g = f)) as [->|Hne].
        -- rewrite lookup_insert_eq, Hn. split.
           ++ intros (m & [= <-] & He). eauto.
           ++ intros (m & [= <-] & He). eauto.
        -- by rewrite lookup_insert_ne.
      * rewrite decide_True by (by right). simpl.
        split; [done|]. intros g. rewrite Hdom.
        destruct (decide (g = f)) as [->|Hne].
        -- rewrite lookup_insert_eq, Hn. split.
           ++ by intros (m & ? & _).
           ++ by intros (m & [= <-] & ?).
        -- by rewrite lookup_insert_ne.
    + unfold RecordAccess, AddFrames. simpl. destruct (decide _); simpl.
      * destruct (node_store_ r !! f) eqn:Hn.
        -- rewrite map_size_insert_Some by eauto. lia.
        -- rewrite map_size_insert_None by done. lia.
      * destruct (node_store_ r !! f) eqn:Hn.
        -- rewrite map_size_insert_Some by eauto. lia.
        -- rewrite map_size_insert_None by done. lia.
  - pose proof (counters_ok_SetEvictable f flag r r' Hok Hs) as Hok'.
    apply SetEvictable_inv in Hs as (n & Hn & [[-> _]|(Hflag & -> & Hfits)]).
    { split; [done|lia]. }
    split.
    + split; [done|]. simpl. split.
      * destruct flag; [specialize (Hfits eq_refl); lia|].
        destruct Hok as (_ & Hr & _).
        assert (Node.is_evictable_ n = true) as He by (by destruct (Node.is_evictable_ n)).
        destruct (evictable_count_erase f n r Hn He) as [Hpos _].
        pose proof (evictable_count_le r).
        unfold to_size_t, SIZE_MAX in *. rewrite Z.mod_small; lia.
      * intros g. destruct (decide (g = f)) as [->|Hne].
        -- rewrite lookup_insert_eq. destruct flag.
           ++ rewrite lookup_insert_eq. split; [eauto|]. intros _. eauto.
           ++ rewrite lookup_delete_eq. split; [by intros [? ?]|].
              by intros (m & [= <-] & ?).
        -- rewrite lookup_insert_ne by done.
           destruct flag; [rewrite lookup_insert_ne by done|rewrite lookup_delete_ne by done];
             apply Hdom.
    + simpl. rewrite map_size_insert_Some by eauto. lia.
  - unfold Remove in Hs. destruct (node_store_ r !! f) as [n|] eqn:Hn.
    2: { injection Hs as <-. split; [done|lia]. }
    destruct (Node.is_evictable_ n) eqn:He; [|done]. injection Hs as <-.
    split; [by eapply counters_inv_erase_node|].
    simpl. rewrite map_size_delete_Some by eauto. lia.
  - apply bind_Ok in Hs as ([got r1] & Hev & Hs). injection Hs as <-.
    destruct got as [v|].
    + apply Evict_Some_inv in Hev as (n & Hn & He & ->).
      split; [by eapply counters_inv_erase_node|].
      simpl. rewrite map_size_delete_Some by eauto. lia.
    + unfold Evict in Hev. apply bind_Ok in Hev as (vec & _ & Hev).
      destruct (decide _); simplify_eq. split; [done|lia].
Qed.

Lemma run_counters_inv (ops : list Op) (r r' : LRUKReplacer) :
  counters_inv r → Z.of_nat (size (node_store_ r)) + Z.of_nat (length ops) < SIZE_MAX →
  run ops r = Ok r' → counters_inv r'.
Proof.
  revert r. induction ops as [|o ops IH]; simpl; intros r Hinv Hroom Hrun.
  - by injection Hrun as <-.
  - apply bind_Ok in Hrun as (r1 & Hs & Hrun).
    apply step_counters_inv in Hs as [Hinv1 Hsize]; [|done|lia].
    apply (IH r1); [done|lia|done].
Qed.

(** X6. In every state that fewer than 2^64 - 1 calls reach from a new
    replacer, [Size] is the number of evictable nodes and lies between 0 and
    the number of frames the replacer was made for, [curr_size_] is the
    number of nodes, and [evictable_node_] has an entry for exactly the
    evictable frames. *)
Theorem Size_counts_evictable_frames (ops : list Op) (num_frames k : Z)
    (r : LRUKReplacer) :
  Z.of_nat (length ops) < SIZE_MAX →
  run ops (new num_frames k) = Ok r →
  Size r = evictable_count r ∧
  0 ≤ Size r ≤ Z.max 0 num_frames ∧
  curr_size_ r = Z.of_nat (size (node_store_ r)) ∧
  ∀ f, is_Some (evictable_node_ r !! f) ↔
       ∃ n, node_store_ r !! f = Some n ∧ Node.is_evictable_ n = true.
Proof.
  intros Hlen Hrun.
  assert (max_size_ r = num_frames) as Hmax.
  { clear -Hrun. change num_frames with (max_size_ (new num_frames k)).
    revert Hrun. generalize (new num_frames k). intros r0. revert r0.
    induction ops as [|o ops IH]; simpl; intros r0 Hrun; [by injection Hrun as <-|].
    apply bind_Ok in Hrun as (r1 & Hs & Hrun).
    rewrite (IH _ Hrun). by apply step_parameters in Hs as [_ ->]. }
  destruct (run_counters_inv ops (new num_frames k) r) as ((Hc & Hr & _) & Hle & Hdom).
  - split; [apply counters_ok_new|]. split; [simpl; lia|].
    intros f. simpl. rewrite !lookup_empty. split; [by intros [? ?]|by intros (? & ? & _)].
  - simpl. rewrite map_size_empty. lia.
  - done.
  - unfold Size. rewrite Hmax in Hle. pose proof (evictable_count_le r).
    split; [done|]. split; [lia|]. by split.
Qed.

Lemma run_parameters (ops : list Op) (r r' : LRUKReplacer) :
  run ops r = Ok r' → k_ r' = k_ r ∧ max_size_ r' = max_size_ r.
Proof.
  revert r. induction ops as [|o ops IH]; simpl; intros r Hrun; [by injection Hrun as <-|].
  apply bind_Ok in Hrun as (r1 & Hs & Hrun).
  destruct (IH _ Hrun) as [-> ->]. by apply step_parameters in Hs.
Qed.

Lemma push_history_take (k ts : Z) (h : list Z) :
  (1 ≤ length h)%nat → Z.of_nat (length h) ≤ Z.max 1 k →
  push_history k ts h = take (Z.to_nat (Z.max 1 k)) (ts :: h).
Proof.
  intros Hpos Hle. unfold push_history.
  destruct (Z.of_nat (length (ts :: h)) >? k) eqn:Hgt.
  - rewrite Z.gtb_ltb, Z.ltb_lt in Hgt. rewrite removelast_firstn_len.
    simpl length in *. f_equal. lia.
  - rewrite Z.gtb_ltb, Z.ltb_ge in Hgt. symmetry. apply take_ge.
    simpl length in *. lia.
Qed.

(** X7. In a state reached from a new replacer, [RecordAccess] puts the
    clock reading in front of the history of the frame and keeps the
    max(1, K) newest timestamps, so a full history loses its oldest one; a
    frame the replacer does not know gets a node with that one timestamp,
    not evictable.  The other frames, the evictable flags and [Size] are as
    before. *)
Theorem RecordAccess_keeps_newest_timestamps (ops : list Op) (num_frames k : Z)
    (r : LRUKReplacer) (now f : Z) :
  Z.of_nat (length ops) < SIZE_MAX →
  run ops (new num_frames k) = Ok r →
  node_store_ (RecordAccess now f r) !! f =
    Some (match node_store_ r !! f with
          | Some n =>
              Node.set_history
                (take (Z.to_nat (Z.max 1 k)) (to_size_t now :: Node.history_ n)) n
          | None => Node.mk [to_size_t now] k f false
          end) ∧
  (∀ g, g ≠ f → node_store_ (RecordAccess now f r) !! g = node_store_ r !! g) ∧
  Size (RecordAccess now f r) = Size r ∧
  evictable_node_ (RecordAccess now f r) = evictable_node_ r.
Proof.
  intros Hlen Hrun.
  destruct (run_parameters _ _ _ Hrun) as [Hk _]. simpl in Hk.
  pose proof (run_node_shape ops (new num_frames k) r (map_Forall_empty _) Hrun) as Hshape.
  rewrite Hk in Hshape.
  destruct (run_counters_inv ops (new num_frames k) r) as ((Hc & _) & _); [| |done|].
  { split; [apply counters_ok_new|]. split; [simpl; lia|].
    intros g. simpl. rewrite !lookup_empty. split; [by intros [? ?]|by intros (? & ? & _)]. }
  { simpl. rewrite map_size_empty. lia. }
  unfold RecordAccess, AddFrames, with_nodes, node_at, Size. simpl.
  destruct (decide (curr_size_ r = 0 ∨ node_store_ r !! f = None)) as [Hnew|Hknown]; simpl.
  - assert (node_store_ r !! f = None) as ->.
    { destruct Hnew as [Hzero|]; [|done]. rewrite Hc in Hzero.
      assert (node_store_ r = ∅) as -> by (apply map_size_empty_inv; lia).
      apply lookup_empty. }
    rewrite lookup_insert_eq, Hk. split; [done|]. split; [|done].
    intros g Hg. by rewrite lookup_insert_ne.
  - destruct (node_store_ r !! f) as [n|] eqn:Hn; [|by destruct Hknown; right].
    destruct (Hshape f n Hn) as (Hpos & Hle & _).
    rewrite lookup_insert_eq. simpl. rewrite Hk, push_history_take by done.
    split; [done|]. split; [|done]. intros g Hg. by rewrite lookup_insert_ne.
Qed.

End Reachable.

(** ** The earlier revision of [Remove] *)

Lemma mapR_Undefined {A B} (f : A → result B) (l : list A) (x : A) (what : string) :
  x ∈ l → f x = Undefined what →
  (∀ y, y ∈ l → f y = Undefined what ∨ is_Ok (f y)) →
  mapR f l = Undefined what.
Proof.
  induction l as [|y l IH]; intros Hx Hfx Hall; [by apply elem_of_nil in Hx|].
  simpl. destruct (Hall y) as [->|[b Hb]]; [by left|done|].
  rewrite Hb. simpl. rewrite IH; [done| |done|].
  - apply elem_of_cons in Hx as [->|Hx]; [|done]. by rewrite Hfx in Hb.
  - intros z Hz. apply Hall. by right.
Qed.

Section EarlierRemove.
Context `{StdLib}.

(** X8. The earlier revision of [Remove] clears the history of a known
    evictable frame and keeps its node, still evictable, and [Size] as it
    was.  An [Evict] on the replacer that [Remove] returned (its first loop
    is the same in both revisions) asks, whatever the clock reads, for the
    last element of the empty history, which is undefined behaviour.  Calls
    in between are not covered: a [RecordAccess] of the frame gives it a
    history again. *)
Theorem Remove_v0_leaves_Evict_undefined (f : Z) (r : LRUKReplacer) (n : Node.t) :
  node_store_ r !! f = Some n → Node.is_evictable_ n = true →
  ∃ r', LRUKv0.Remove f r = Ok r' ∧
        node_store_ r' !! f = Some (Node.set_history [] n) ∧
        Size r' = Size r ∧
        ∀ now, Evict now r' = Undefined "history_.back() on an empty list".
Proof.
  intros Hn He. unfold LRUKv0.Remove. rewrite Hn, He. simpl.
  eexists. split; [done|]. split; [by simpl; rewrite lookup_insert_eq|]. split; [done|].
  intros now. unfold Evict, candidates. simpl.
  rewrite (mapR_Undefined (distance_of now) _ (f, Node.set_history [] n)
             "history_.back() on an empty list"); [done| |done|].
  - rewrite unordered_iter_perm. apply elem_of_map_to_list. apply lookup_insert_eq.
  - intros [g m] _. unfold distance_of. simpl.
    destruct (last (Node.history_ m)); [right; by eexists|by left].
Qed.

End EarlierRemove.

(** ** The theorems on concrete states

    The runs below take the reference implementation of the library
    interface. *)

Lemma Evict_returns_only_evictable_frames_witness :
  Evict 10 sample_replacer = Ok (Some 1, erase_node 1 sample_replacer) ∧
  1 ≠ INVALID_PAGE_ID ∧
  ∃ n, node_store_ sample_replacer !! 1 = Some n ∧ Node.is_evictable_ n = true ∧
       node_store_ (erase_node 1 sample_replacer) = delete 1 (node_store_ sample_replacer) ∧
       Size (erase_node 1 sample_replacer) = to_size_t (Size sample_replacer - 1) ∧
       curr_size_ (erase_node 1 sample_replacer) = to_size_t (curr_size_ sample_replacer - 1).
Proof.
  assert (Evict 10 sample_replacer = Ok (Some 1, erase_node 1 sample_replacer)) as Hev
    by (vm_compute; reflexivity).
  split; [exact Hev|].
  exact (Evict_returns_only_evictable_frames 10 sample_replacer _ (Some 1) Hev).
Defined.

(** The sample state with every frame pinned *)
Definition pinned_replacer : LRUKReplacer :=
  mk (<[0 := Node.mk [5; 1] 2 0 false]> (<[2 := Node.mk [3] 2 2 false]> ∅)) ∅ 7 2 0 3 2.

Lemma Evict_fails_iff_nothing_evictable_witness :
  (∀ f n, node_store_ pinned_replacer !! f = Some n → 0 ≤ f ∧ Node.history_ n ≠ []) ∧
  (Evict 10 pinned_replacer = Ok (None, pinned_replacer) ↔
   ∀ f n, node_store_ pinned_replacer !! f = Some n → Node.is_evictable_ n = false).
Proof.
  assert (∀ f n, node_store_ pinned_replacer !! f = Some n → 0 ≤ f ∧ Node.history_ n ≠ [])
    as Hok.
  { change (map_Forall (λ f n, 0 ≤ f ∧ Node.history_ n ≠ []) (node_store_ pinned_replacer)).
    simpl. repeat (apply map_Forall_insert_2; [split; [lia|done]|]). apply map_Forall_empty. }
  split; [exact Hok|].
  exact (Evict_fails_iff_nothing_evictable 10 pinned_replacer Hok).
Defined.

Lemma forgotten_frame_starts_over_witness :
  (Evict 10 sample_replacer = Ok (Some 1, erase_node 1 sample_replacer) ∨
   Remove 1 sample_replacer = Ok (erase_node 1 sample_replacer)) ∧
  node_store_ (RecordAccess 11 1 (erase_node 1 sample_replacer)) !! 1 =
    Some (Node.mk [to_size_t 11] (k_ sample_replacer) 1 false).
Proof.
  assert (Remove 1 sample_replacer = Ok (erase_node 1 sample_replacer)) as Hrm
    by reflexivity.
  split; [by right|].
  exact (forgotten_frame_starts_over 10 11 sample_replacer _ 1 (or_intror Hrm)).
Defined.

Lemma SetEvictable_sets_flag_and_size_witness :
  SetEvictable 9 true sample_replacer = Throw "frame id is invalid" ∧
  ∃ r', SetEvictable 2 true sample_replacer = Ok r' ∧
        node_store_ r' =
          <[2 := Node.set_evictable true (Node.mk [3] 2 2 false)]> (node_store_ sample_replacer) ∧
        Size r' = Size sample_replacer + b2z true - b2z false ∧
        counters_ok r'.
Proof.
  assert (counters_ok sample_replacer) as Hok.
  { unfold counters_ok, evictable_count. vm_compute. by repeat split. }
  split.
  - exact (proj1 (SetEvictable_sets_flag_and_size 9 true sample_replacer) eq_refl).
  - pose proof (proj2 (SetEvictable_sets_flag_and_size 2 true sample_replacer)
                  (Node.mk [3] 2 2 false) eq_refl Hok) as Hset.
    rewrite decide_False in Hset; [exact Hset|].
    intros (_ & _ & Hfull). vm_compute in Hfull. discriminate Hfull.
Defined.

(** A run: two frames are accessed, frame 0 is unpinned, accessed again and
    evicted; frame 2 is accessed, unpinned and removed. *)
Definition sample_ops : list Op :=
  [OpRecordAccess 1 0; OpRecordAccess 2 1; OpSetEvictable 0 true; OpRecordAccess 3 0;
   OpEvict 4; OpRecordAccess 5 2; OpSetEvictable 2 true; OpRemove 2; OpRecordAccess 6 1;
   OpSetEvictable 1 true].

Definition sample_run : LRUKReplacer :=
  match run sample_ops (new 3 2) with Ok r => r | _ => new 3 2 end.

Lemma reachable_histories_hold_1_to_K_witness :
  run sample_ops (new 3 2) = Ok sample_run ∧
  (∀ f n, node_store_ sample_run !! f = Some n →
     (1 ≤ length (Node.history_ n))%nat ∧
     Z.of_nat (length (Node.history_ n)) ≤ Z.max 1 2 ∧
     Node.k_ n = 2 ∧ Node.fid_ n = f) ∧
  ∀ now, is_Ok (Evict now sample_run).
Proof.
  assert (run sample_ops (new 3 2) = Ok sample_run) as Hrun by (vm_compute; reflexivity).
  split; [exact Hrun|].
  exact (reachable_histories_hold_1_to_K sample_ops 3 2 sample_run Hrun).
Defined.

Lemma Size_counts_evictable_frames_witness :
  Z.of_nat (length sample_ops) < SIZE_MAX ∧
  run sample_ops (new 3 2) = Ok sample_run ∧
  Size sample_run = evictable_count sample_run ∧
  0 ≤ Size sample_run ≤ Z.max 0 3 ∧
  curr_size_ sample_run = Z.of_nat (size (node_store_ sample_run)) ∧
  ∀ f, is_Some (evictable_node_ sample_run !! f) ↔
       ∃ n, node_store_ sample_run !! f = Some n ∧ Node.is_evictable_ n = true.
Proof.
  assert (Z.of_nat (length sample_ops) < SIZE_MAX) as Hlen by reflexivity.
  assert (run sample_ops (new 3 2) = Ok sample_run) as Hrun by (vm_compute; reflexivity).
  split; [exact Hlen|]. split; [exact Hrun|].
  exact (Size_counts_evictable_frames sample_ops 3 2 sample_run Hlen Hrun).
Defined.

(** The state that run ends in: frame 1 alone, evictable, with both of its
    accesses. *)
Example sample_run_state :
  node_store_ sample_run = {[ 1 := Node.mk [6; 2] 2 1 true ]} ∧ Size sample_run = 1.
Proof. vm_compute. done. Qed.

Lemma RecordAccess_keeps_newest_timestamps_witness :
  Z.of_nat (length sample_ops) < SIZE_MAX ∧
  run sample_ops (new 3 2) = Ok sample_run ∧
  node_store_ (RecordAccess 9 1 sample_run) !! 1 =
    Some (match node_store_ sample_run !! 1 with
          | Some n =>
              Node.set_history
                (take (Z.to_nat (Z.max 1 2)) (to_size_t 9 :: Node.history_ n)) n
          | None => Node.mk [to_size_t 9] 2 1 false
          end) ∧
  (∀ g, g ≠ 1 → node_store_ (RecordAccess 9 1 sample_run) !! g = node_store_ sample_run !! g) ∧
  Size (RecordAccess 9 1 sample_run) = Size sample_run ∧
  evictable_node_ (RecordAccess 9 1 sample_run) = evictable_node_ sample_run.
Proof.
  assert (Z.of_nat (length sample_ops) < SIZE_MAX) as Hlen by reflexivity.
  assert (run sample_ops (new 3 2) = Ok sample_run) as Hrun by (vm_compute; reflexivity).
  split; [exact Hlen|]. split; [exact Hrun|].
  exact (RecordAccess_keeps_newest_timestamps sample_ops 3 2 sample_run 9 1 Hlen Hrun).
Defined.

(** A third access to frame 1 pushes out the oldest of its two timestamps. *)
Example sample_third_access :
  node_store_ (RecordAccess 9 1 sample_run) !! 1 = Some (Node.mk [9; 6] 2 1 true).
Proof. vm_compute. done. Qed.

Lemma Remove_v0_leaves_Evict_undefined_witness :
  node_store_ sample_replacer !! 1 = Some (Node.mk [7] 2 1 true) ∧
  Node.is_evictable_ (Node.mk [7] 2 1 true) = true ∧
  ∃ r', LRUKv0.Remove 1 sample_replacer = Ok r' ∧
        node_store_ r' !! 1 = Some (Node.set_history [] (Node.mk [7] 2 1 true)) ∧
        Size r' = Size sample_replacer ∧
        ∀ now, Evict now r' = Undefined "history_.back() on an empty list".
Proof.
  assert (node_store_ sample_replacer !! 1 = Some (Node.mk [7] 2 1 true)) as Hn
    by reflexivity.
  split; [exact Hn|]. split; [reflexivity|].
  exact (Remove_v0_leaves_Evict_undefined 1 sample_replacer (Node.mk [7] 2 1 true)
           Hn eq_refl).
Defined.

End ReplacerRuns.

(** * Further properties of the buffer pool manager *)

Module PoolInvariant.
Import BPM BPMFacts.

(** ** The invariant of the pool

    Frame ids index [pages_].  A resident page sits in a frame that carries
    its page id, has a pin count that is not negative, and has a node in the
    replacer; when that node is not evictable the page is pinned.  The
    replacer knows valid frames only, each with a history, its counters agree
    with its nodes, and it was made for as many frames as the pool has.

    Of the free list only the front counts, up to the first id that does
    not index [pages_]: a call that takes such an id from the list does not
    return, so nothing behind it is ever taken.  The ids in front of it
    hold no resident page and are listed once.  (The constructor leaves
    such ids in the list of a pool of more than [INT_MAX] + 1 frames.) *)

Definition in_range (len : nat) (f : Z) : Prop := 0 ≤ f ∧ (Z.to_nat f < len)%nat.

Definition frame_ok (pages : list Page.t) (f : Z) : Prop := in_range (length pages) f.

Global Instance in_range_dec (len : nat) (f : Z) : Decision (in_range len f).
Proof. unfold in_range. apply _. Defined.

(** The front of the free list that can be taken *)
Fixpoint usable (len : nat) (free : list Z) : list Z :=
  match free with
  | [] => []
  | f :: rest => if decide (in_range len f) then f :: usable len rest else []
  end.

Definition resident_ok (pages : list Page.t) (rep : LRUK.LRUKReplacer) (p f : Z) : Prop :=
  0 ≤ f ∧
  ∃ pg n, pages !! Z.to_nat f = Some pg ∧ Page.page_id_ pg = p ∧
          0 ≤ Page.pin_count_ pg ∧
          LRUK.node_store_ rep !! f = Some n ∧
          (Node.is_evictable_ n = false → 0 < Page.pin_count_ pg).

Definition pool_ok (pages : list Page.t) (rep : LRUK.LRUKReplacer) (table : gmap Z Z)
    (free : list Z) : Prop :=
  (∀ p f, table !! p = Some f → resident_ok pages rep p f) ∧
  (∀ f, f ∈ usable (length pages) free → ∀ p, table !! p ≠ Some f) ∧
  NoDup (usable (length pages) free) ∧
  (∀ f n, LRUK.node_store_ rep !! f = Some n → frame_ok pages f ∧ Node.history_ n ≠ []) ∧
  LRUK.counters_ok rep ∧
  LRUK.max_size_ rep = Z.of_nat (length pages) ∧
  Z.of_nat (length pages) + 1 < SIZE_MAX.

Definition pool_inv (b : BufferPoolManager) : Prop :=
  pool_ok (pages_ b) (replacer_ b) (page_table_ b) (free_list_ b).

(** The id at the front of the free list, if there is one, indexes
    [pages_]. *)
Definition ready (b : BufferPoolManager) : Prop :=
  match free_list_ b with
  | f :: _ => frame_ok (pages_ b) f
  | [] => True
  end.

(** Every id in the free list indexes [pages_]. *)
Definition clean (b : BufferPoolManager) : Prop :=
  Forall (frame_ok (pages_ b)) (free_list_ b).

Lemma usable_in_range (len : nat) (free : list Z) (f : Z) :
  f ∈ usable len free → in_range len f.
Proof.
  induction free as [|g free IH]; simpl; [by intros ?%elem_of_nil|].
  destruct (decide (in_range len g)); [|by intros ?%elem_of_nil].
  intros [->|Hf]%elem_of_cons; [done|by apply IH].
Qed.

Lemma usable_clean (len : nat) (free : list Z) :
  Forall (in_range len) free → usable len free = free.
Proof.
  induction 1 as [|g free Hg _ IH]; simpl; [done|]. by rewrite decide_True, IH.
Qed.

(** An id put at the back is usable when everything in front of it is. *)
Lemma usable_snoc (len : nat) (free : list Z) (f : Z) :
  usable len (free ++ [f]) = usable len free ∨
  usable len (free ++ [f]) = usable len free ++ [f].
Proof.
  induction free as [|g free IH]; simpl.
  - destruct (decide (in_range len f)); [by right|by left].
  - destruct (decide (in_range len g)); [|by left].
    destruct IH as [->| ->]; [by left|by right].
Qed.

Lemma clean_ready (b : BufferPoolManager) : clean b → ready b.
Proof. unfold clean, ready. destruct (free_list_ b); [done|]. by intros [? _]%Forall_cons. Qed.

(** *** The replacer inside the pool *)

Lemma nodes_bounded {A} (m : gmap Z A) (len : nat) :
  (∀ f n, m !! f = Some n → 0 ≤ f ∧ (Z.to_nat f < len)%nat) → (size m ≤ len)%nat.
Proof.
  intros Hin.
  assert (dom m ⊆ (list_to_set (seqZ 0 (Z.of_nat len)) : gset Z)) as Hsub.
  { intros f Hf. apply elem_of_dom in Hf as [n Hn]. destruct (Hin f n Hn).
    apply elem_of_list_to_set, elem_of_seqZ. lia. }
  apply subseteq_size in Hsub. rewrite size_dom in Hsub.
  rewrite size_list_to_set in Hsub by apply NoDup_seqZ.
  rewrite length_seqZ in Hsub. lia.
Qed.

Lemma RecordAccess_nodes (now f : Z) (r : LRUK.LRUKReplacer) :
  LRUK.counters_ok r →
  (∀ n, LRUK.node_store_ r !! f = Some n → Node.history_ n ≠ []) →
  ∃ n', LRUK.node_store_ (LRUK.RecordAccess now f r) = <[f := n']> (LRUK.node_store_ r) ∧
        Node.history_ n' ≠ [] ∧
        Node.is_evictable_ n' =
          from_option Node.is_evictable_ false (LRUK.node_store_ r !! f) ∧
        LRUK.max_size_ (LRUK.RecordAccess now f r) = LRUK.max_size_ r.
Proof.
  intros (Hc & _ & _) Hne. unfold LRUK.RecordAccess, LRUK.AddFrames. simpl.
  destruct (LRUK.node_store_ r !! f) as [n|] eqn:Hn.
  - assert (size (LRUK.node_store_ r) ≠ 0%nat)
      by (apply (map_size_ne_0_lookup_2 _ f); eauto).
    rewrite decide_False by (intros [?|?]; [lia|done]). simpl.
    eexists. split; [done|]. unfold LRUK.node_at. simpl. rewrite Hn. simpl.
    split; [|done]. unfold LRUK.push_history.
    destruct (_ >? _).
    + specialize (Hne n eq_refl). by destruct (Node.history_ n) as [|t1 [|t2 h]].
    + done.
  - rewrite decide_True by (by right). simpl. eexists. by split_and!.
Qed.

Lemma SetEvictable_cases (f : Z) (flag : bool) (r r' : LRUK.LRUKReplacer) :
  LRUK.SetEvictable f flag r = Ok r' →
  ∃ n, LRUK.node_store_ r !! f = Some n ∧
       LRUK.max_size_ r' = LRUK.max_size_ r ∧
       (r' = r ∧ flag = Node.is_evictable_ n ∨
        LRUK.node_store_ r' = <[f := Node.set_evictable flag n]> (LRUK.node_store_ r)).
Proof.
  unfold LRUK.SetEvictable. intros Hs.
  destruct (LRUK.node_store_ r !! f) as [n|] eqn:Hn; [|done]. exists n. split; [done|].
  destruct (decide (flag = Node.is_evictable_ n)) as [?|Hne].
  { injection Hs as <-. split; [done|]. by left. }
  unfold LRUK.EnableEvictable, LRUK.DisableEvictable, LRUK.node_at in Hs.
  destruct flag, (Node.is_evictable_ n) eqn:He; simpl in Hs; try done;
    rewrite ?Hn in Hs; simpl in Hs.
  - destruct (decide _) as [|Hle]; [done|]. injection Hs as <-. split; [done|]. by right.
  - injection Hs as <-. split; [done|]. by right.
Qed.

(** In the pool, [SetEvictable] on a frame the replacer knows returns: the
    evictable frames never outnumber the frames. *)
Lemma SetEvictable_returns (f : Z) (flag : bool) (pages : list Page.t)
    (r : LRUK.LRUKReplacer) :
  (∀ g n, LRUK.node_store_ r !! g = Some n → frame_ok pages g ∧ Node.history_ n ≠ []) →
  LRUK.counters_ok r → LRUK.max_size_ r = Z.of_nat (length pages) →
  Z.of_nat (length pages) + 1 < SIZE_MAX →
  is_Some (LRUK.node_store_ r !! f) →
  ∃ r', LRUK.SetEvictable f flag r = Ok r'.
Proof.
  intros Hnodes (Hc & Hr & Hs) Hmax Hsmall [n Hn].
  unfold LRUK.SetEvictable. rewrite Hn.
  destruct (decide (flag = Node.is_evictable_ n)); [eauto|].
  destruct flag, (Node.is_evictable_ n) eqn:He; simpl; try done; [|eauto].
  unfold LRUK.EnableEvictable.
  assert (size (LRUK.node_store_ r) ≤ length pages)%nat as Hbound.
  { apply nodes_bounded. intros g m Hm. by destruct (Hnodes g m Hm) as [[? ?] _]. }
  assert (LRUK.evictable_count r + 1 ≤ Z.of_nat (size (LRUK.node_store_ r))) as Hroom.
  { unfold LRUK.evictable_count.
    assert (filter (λ p : Z * Node.t, Node.is_evictable_ p.2 = true) (LRUK.node_store_ r)
            ⊆ delete f (LRUK.node_store_ r)) as Hsub.
    { apply map_subseteq_spec. intros g m Hm.
      apply map_lookup_filter_Some in Hm as [Hm Hem]. simpl in Hem.
      destruct (decide (g = f)) as [->|Hne]; [congruence|].
      by rewrite lookup_delete_ne. }
    apply map_subseteq_size in Hsub. rewrite map_size_delete_Some in Hsub by eauto.
    assert (size (LRUK.node_store_ r) ≠ 0%nat) by (apply (map_size_ne_0_lookup_2 _ f); eauto).
    lia. }
  pose proof (LRUKFacts.evictable_count_le r).
  rewrite decide_False; [eauto|].
  unfold to_size_t, SIZE_MAX in *. rewrite Z.mod_small; lia.
Qed.

(** *** How the steps of the member functions act on the invariant *)

Section Steps.
Variables (pages : list Page.t) (rep : LRUK.LRUKReplacer) (table : gmap Z Z)
          (free : list Z).
Hypothesis Hinv : pool_ok pages rep table free.

Lemma pool_ok_set_page (f : Z) (pg' : Page.t) :
  frame_ok pages f →
  (∀ p, table !! p = Some f →
        Page.page_id_ pg' = p ∧ 0 ≤ Page.pin_count_ pg' ∧
        ∀ n, LRUK.node_store_ rep !! f = Some n → Node.is_evictable_ n = false →
             0 < Page.pin_count_ pg') →
  pool_ok (<[Z.to_nat f := pg']> pages) rep table free.
Proof.
  destruct Hinv as (Hres & Hfree & Hnodup & Hnodes & Hcount & Hmax & Hsmall).
  intros [Hf Hlt] Hnew. unfold pool_ok, frame_ok. rewrite !length_insert.
  split_and!; try done.
  intros p g Hg. destruct (Hres p g Hg) as (Hg0 & pg & n & Hpg & Hid & Hpin & Hn & Hev).
  split; [done|]. destruct (decide (g = f)) as [->|Hne].
  - destruct (Hnew p Hg) as (Hid' & Hpin' & Hev').
    exists pg', n. rewrite list_lookup_insert_eq by done. split_and!; try done.
    by apply Hev'.
  - exists pg, n. rewrite list_lookup_insert_ne by lia. by split_and!.
Qed.

Lemma pool_ok_RecordAccess (now f : Z) :
  frame_ok pages f → pool_ok pages (LRUK.RecordAccess now f rep) table free.
Proof.
  destruct Hinv as (Hres & Hfree & Hnodup & Hnodes & Hcount & Hmax & Hsmall).
  intros Hf.
  destruct (RecordAccess_nodes now f rep Hcount) as (n' & Hstore & Hhist & Hev' & Hmax').
  { intros n Hn. by destruct (Hnodes f n Hn). }
  assert (size (LRUK.node_store_ rep) ≤ length pages)%nat as Hbound.
  { apply nodes_bounded. intros g m Hm. by destruct (Hnodes g m Hm) as [[? ?] _]. }
  unfold pool_ok, resident_ok. rewrite Hstore, Hmax'. split_and!; try done.
  - intros p g Hg. destruct (Hres p g Hg) as (Hg0 & pg & n & Hpg & Hid & Hpin & Hn & Hev).
    split; [done|]. destruct (decide (g = f)) as [->|Hne].
    + exists pg, n'. rewrite lookup_insert_eq. split_and!; try done.
      rewrite Hev', Hn. simpl. exact Hev.
    + exists pg, n. rewrite lookup_insert_ne by done. by split_and!.
  - intros g m Hm. destruct (decide (g = f)) as [->|Hne].
    + rewrite lookup_insert_eq in Hm. by injection Hm as <-.
    + rewrite lookup_insert_ne in Hm by done. by eapply Hnodes.
  - apply LRUKFacts.counters_ok_RecordAccess; [done|]. lia.
Qed.

Lemma pool_ok_SetEvictable (f : Z) (flag : bool) (rep' : LRUK.LRUKReplacer) :
  LRUK.SetEvictable f flag rep = Ok rep' →
  (flag = false → ∀ p pg, table !! p = Some f → pages !! Z.to_nat f = Some pg →
                          0 < Page.pin_count_ pg) →
  pool_ok pages rep' table free.
Proof.
  destruct Hinv as (Hres & Hfree & Hnodup & Hnodes & Hcount & Hmax & Hsmall).
  intros Hset Hpinned.
  pose proof (LRUKFacts.counters_ok_SetEvictable f flag rep rep' Hcount Hset) as Hcount'.
  destruct (SetEvictable_cases f flag rep rep' Hset) as (n & Hn & Hmax' & [[-> _]|Hstore]).
  { done. }
  unfold pool_ok, resident_ok. rewrite Hstore, Hmax'. split_and!; try done.
  - intros p g Hg. destruct (Hres p g Hg) as (Hg0 & pg & m & Hpg & Hid & Hpin & Hm & Hev).
    split; [done|]. destruct (decide (g = f)) as [->|Hne].
    + exists pg, (Node.set_evictable flag n). rewrite lookup_insert_eq.
      split_and!; try done. simpl. intros ->. by eapply Hpinned.
    + exists pg, m. rewrite lookup_insert_ne by done. by split_and!.
  - intros g m Hm. destruct (decide (g = f)) as [->|Hne].
    + rewrite lookup_insert_eq in Hm. injection Hm as <-. simpl. by eapply Hnodes.
    + rewrite lookup_insert_ne in Hm by done. by eapply Hnodes.
Qed.

Lemma pool_ok_table_insert (p f : Z) (pg : Page.t) (n : Node.t) :
  0 ≤ f → pages !! Z.to_nat f = Some pg → Page.page_id_ pg = p →
  0 ≤ Page.pin_count_ pg →
  LRUK.node_store_ rep !! f = Some n →
  (Node.is_evictable_ n = false → 0 < Page.pin_count_ pg) →
  f ∉ usable (length pages) free →
  pool_ok pages rep (<[p := f]> table) free.
Proof.
  destruct Hinv as (Hres & Hfree & Hnodup & Hnodes & Hcount & Hmax & Hsmall).
  intros Hf Hpg Hid Hpin Hn Hev Hnotfree. unfold pool_ok. split_and!; try done.
  - intros q g Hg. destruct (decide (q = p)) as [->|Hne].
    + rewrite lookup_insert_eq in Hg. injection Hg as <-.
      split; [done|]. exists pg, n. by split_and!.
    + rewrite lookup_insert_ne in Hg by done. by apply Hres.
  - intros g Hg q Hq. destruct (decide (q = p)) as [->|Hne].
    + rewrite lookup_insert_eq in Hq. injection Hq as ->. done.
    + rewrite lookup_insert_ne in Hq by done. by eapply Hfree.
Qed.

Lemma pool_ok_table_delete (p : Z) : pool_ok pages rep (delete p table) free.
Proof.
  destruct Hinv as (Hres & Hfree & Hnodup & Hnodes & Hcount & Hmax & Hsmall).
  unfold pool_ok. split_and!; try done.
  - intros q g Hg. apply lookup_delete_Some in Hg as [_ Hg]. by apply Hres.
  - intros g Hg q Hq. apply lookup_delete_Some in Hq as [_ Hq]. by eapply Hfree.
Qed.

Lemma pool_ok_free_pop (f : Z) (rest : list Z) :
  free = f :: rest → frame_ok pages f →
  pool_ok pages rep table rest ∧ (∀ p, table !! p ≠ Some f) ∧
  f ∉ usable (length pages) rest.
Proof.
  destruct Hinv as (Hres & Hfree & Hnodup & Hnodes & Hcount & Hmax & Hsmall).
  intros -> Hf. simpl in Hfree, Hnodup. rewrite decide_True in Hfree, Hnodup by done.
  apply NoDup_cons in Hnodup as [Hnotin Hnodup].
  split; [|split; [|done]].
  - unfold pool_ok. split_and!; try done. intros g Hg. apply Hfree. by right.
  - apply Hfree. by left.
Qed.

Lemma pool_ok_free_push (f : Z) :
  (∀ p, table !! p ≠ Some f) → f ∉ usable (length pages) free →
  pool_ok pages rep table (free ++ [f]).
Proof.
  destruct Hinv as (Hres & Hfree & Hnodup & Hnodes & Hcount & Hmax & Hsmall).
  intros Hnot Hnotin. unfold pool_ok.
  destruct (usable_snoc (length pages) free f) as [-> | ->]; split_and!; try done.
  - intros g Hg. apply elem_of_app in Hg as [Hg|Hg]; [by apply Hfree|].
    apply list_elem_of_singleton in Hg as ->. done.
  - apply NoDup_app. split; [done|]. split; [|apply NoDup_singleton].
    intros g Hg Hg'. apply list_elem_of_singleton in Hg' as ->. done.
Qed.

Lemma pool_ok_erase_node (f : Z) (n : Node.t) :
  LRUK.node_store_ rep !! f = Some n → Node.is_evictable_ n = true →
  (∀ p, table !! p ≠ Some f) →
  pool_ok pages (LRUK.erase_node f rep) table free.
Proof.
  destruct Hinv as (Hres & Hfree & Hnodup & Hnodes & Hcount & Hmax & Hsmall).
  intros Hn He Hnot. unfold pool_ok. split_and!; try done.
  - intros p g Hg. destruct (Hres p g Hg) as (Hg0 & pg & m & Hpg & Hid & Hpin & Hm & Hev).
    split; [done|]. exists pg, m. split_and!; try done.
    simpl. rewrite lookup_delete_ne; [done|]. intros ->. by eapply Hnot.
  - intros g m Hm. simpl in Hm. apply lookup_delete_Some in Hm as [_ Hm]. by eapply Hnodes.
  - by eapply LRUKFacts.counters_ok_erase_node.
Qed.

End Steps.

(** *** The member functions keep the invariant and return *)

Section Pool.
Context `{StdLib} `{Clock}.

Lemma page_at_frame_ok (f : Z) (b : BufferPoolManager) :
  frame_ok (pages_ b) f →
  ∃ pg, page_at f b = Ok pg ∧ pages_ b !! Z.to_nat f = Some pg.
Proof.
  intros [Hf Hlt]. unfold page_at. rewrite decide_True by done.
  destruct (pages_ b !! Z.to_nat f) as [pg|] eqn:Hpg; [eauto|].
  apply lookup_ge_None in Hpg. lia.
Qed.

Lemma page_at_Ok (f : Z) (b : BufferPoolManager) (pg : Page.t) :
  page_at f b = Ok pg → frame_ok (pages_ b) f ∧ pages_ b !! Z.to_nat f = Some pg.
Proof.
  unfold page_at. destruct (decide (0 ≤ f)); [|done].
  destruct (pages_ b !! Z.to_nat f) as [pg'|] eqn:Hpg; [|done].
  intros [= ->]. split; [|done]. split; [done|]. by eapply lookup_lt_Some.
Qed.

Lemma Evict_returns (now : Z) (r : LRUK.LRUKReplacer) :
  (∀ f n, LRUK.node_store_ r !! f = Some n → Node.history_ n ≠ []) →
  ∃ got r', LRUK.Evict now r = Ok (got, r').
Proof.
  intros Hne. destruct (LRUKFacts.candidates_sorted now r) as (vec & Hc & _).
  { exact Hne. }
  unfold LRUK.Evict. rewrite Hc. simpl. destruct (decide _); eauto.
Qed.

Lemma clean_same (b b' : BufferPoolManager) :
  length (pages_ b') = length (pages_ b) → free_list_ b' = free_list_ b →
  clean b → clean b'.
Proof. unfold clean, frame_ok. by intros -> ->. Qed.

Lemma acquire_frame_pool (b : BufferPoolManager) :
  pool_inv b → ready b →
  ∃ got b', acquire_frame b = Ok (got, b') ∧ pool_inv b' ∧
            pages_ b' = pages_ b ∧ (clean b → clean b') ∧
            match got with
            | None => True
            | Some f => frame_ok (pages_ b) f ∧ (∀ p, page_table_ b' !! p ≠ Some f) ∧
                        f ∉ usable (length (pages_ b')) (free_list_ b')
            end.
Proof.
  intros Hinv Hready. unfold acquire_frame. unfold ready in Hready.
  destruct (free_list_ b) as [|f rest] eqn:Hfree.
  - unfold tick.
    pose proof Hinv as (Hres & _ & _ & Hnodes & _).
    destruct (Evict_returns (system_clock_now (clock_ b)) (replacer_ b)) as (got & r' & Hev).
    { intros f n Hn. by destruct (Hnodes f n Hn). }
    cbn [replacer_ with_clock]. rewrite Hev. cbn [mbind result_bind].
    destruct got as [v|].
    + apply LRUKFacts.Evict_Some_inv in Hev as (n & Hn & He & ->).
      destruct (Hnodes v n Hn) as [Hv _].
      destruct (page_at_frame_ok v (with_replacer (LRUK.erase_node v (replacer_ b))
                                      (with_clock (S (clock_ b)) b)) Hv) as (pg & -> & Hpg).
      cbn [mbind result_bind]. do 2 eexists. split; [reflexivity|].
      assert (∀ p, delete (Page.page_id_ pg) (page_table_ b) !! p ≠ Some v) as Hnot.
      { intros p Hp. apply lookup_delete_Some in Hp as [Hne Hp].
        destruct (Hres p v Hp) as (_ & pg' & _ & Hpg' & Hid & _).
        simpl in Hpg. congruence. }
      split; [|split; [|split]].
      * assert (pool_ok (pages_ b) (LRUK.erase_node v (replacer_ b))
                  (delete (Page.page_id_ pg) (page_table_ b)) (free_list_ b)) as Hok.
        { eapply pool_ok_erase_node; [|done..]. by apply pool_ok_table_delete. }
        unfold pool_inv. destruct (Page.is_dirty_ pg); exact Hok.
      * by destruct (Page.is_dirty_ pg).
      * intros _. unfold clean.
        destruct (Page.is_dirty_ pg); simpl; rewrite Hfree; constructor.
      * split; [done|]. split; [by destruct (Page.is_dirty_ pg)|].
        destruct (Page.is_dirty_ pg); simpl; rewrite Hfree; apply not_elem_of_nil.
    + apply Evict_None_inv in Hev as ->. do 2 eexists. split; [reflexivity|].
      split; [exact Hinv|]. split; [done|]. split; [|done].
      intros _. unfold clean. simpl. rewrite Hfree. constructor.
  - do 2 eexists. split; [reflexivity|].
    destruct (pool_ok_free_pop _ _ _ _ Hinv f rest Hfree Hready) as (Hok & Hnot & Hnotin).
    split; [exact Hok|]. split; [done|]. split; [|by split_and!].
    unfold clean. rewrite Hfree. simpl. by intros [_ ?]%Forall_cons.
Qed.

(** Taking an id that does not index [pages_] from the free list is the
    end of the call: [ResetFrame] indexes the array with it. *)
Lemma NewFrame_unready (page_id : Z) (b : BufferPoolManager) :
  ¬ ready b → NewFrame page_id b = Undefined "pages_ index out of range".
Proof.
  unfold ready, NewFrame, acquire_frame. intros Hbad.
  destruct (free_list_ b) as [|f rest]; [done|]. cbn [mbind result_bind].
  unfold ResetFrame, page_at. cbn [pages_ with_free_list].
  destruct (decide (0 ≤ f)) as [Hf|]; [|done].
  destruct (pages_ b !! Z.to_nat f) as [pg|] eqn:Hpg; [|done].
  destruct Hbad. split; [done|]. by eapply lookup_lt_Some.
Qed.

Global Instance ready_dec (b : BufferPoolManager) : Decision (ready b).
Proof. unfold ready, frame_ok. destruct (free_list_ b); apply _. Defined.

Lemma NewFrame_pool (page_id : Z) (b : BufferPoolManager) :
  pool_inv b → ready b →
  ∃ got b', NewFrame page_id b = Ok (got, b') ∧ pool_inv b' ∧ (clean b → clean b') ∧
            match got with
            | None => True
            | Some f => frame_ok (pages_ b') f ∧
                        pages_ b' !! Z.to_nat f = Some (Page.set_page_id page_id Page.blank) ∧
                        is_Some (LRUK.node_store_ (replacer_ b') !! f) ∧
                        (∀ p, page_table_ b' !! p ≠ Some f) ∧
                        f ∉ usable (length (pages_ b')) (free_list_ b')
            end.
Proof.
  intros Hinv Hready. unfold NewFrame.
  destruct (acquire_frame_pool b Hinv Hready) as (got & b0 & -> & Hinv0 & Hpages & Hclean & Hgot).
  cbn [mbind result_bind]. destruct got as [f|]; [|by eauto 10].
  destruct Hgot as (Hf & Hnot & Hnotin). rewrite <- Hpages in Hf.
  unfold ResetFrame. destruct (page_at_frame_ok f b0 Hf) as (pg & -> & Hpg).
  cbn [mbind result_bind]. do 2 eexists. split; [reflexivity|].
  unfold record_access, tick, set_page. cbn [pages_ replacer_ page_table_ free_list_
    with_pages with_replacer with_clock clock_].
  assert (frame_ok (<[Z.to_nat f := Page.blank]> (pages_ b0)) f) as Hf1.
  { destruct Hf. split; [done|]. by rewrite length_insert. }
  assert (frame_ok (<[Z.to_nat f := Page.set_page_id page_id Page.blank]>
                      (<[Z.to_nat f := Page.blank]> (pages_ b0))) f) as Hf2.
  { destruct Hf1. split; [done|]. by rewrite length_insert. }
  split; [|split; [|split_and!; try done]].
  - unfold pool_inv. cbn [pages_ replacer_ page_table_ free_list_].
    apply pool_ok_RecordAccess; [|done].
    apply pool_ok_set_page; [|done|by intros p Hp; destruct (Hnot p)].
    apply pool_ok_set_page; [exact Hinv0|done|by intros p Hp; destruct (Hnot p)].
  - intros Hc. apply (clean_same b0); [simpl; by rewrite !length_insert|done|by apply Hclean].
  - apply list_lookup_insert_eq. destruct Hf1. done.
  - apply RecordAccess_known.
  - by rewrite !length_insert.
Qed.

Lemma pin_pool (f : Z) (b : BufferPoolManager) :
  pool_inv b → frame_ok (pages_ b) f →
  ∃ pg, pages_ b !! Z.to_nat f = Some pg ∧
        pin f b = Ok (set_page f (Page.set_pin_count (Page.pin_count_ pg + 1) pg) b) ∧
        pool_inv (set_page f (Page.set_pin_count (Page.pin_count_ pg + 1) pg) b).
Proof.
  intros Hinv Hf. unfold pin.
  destruct (page_at_frame_ok f b Hf) as (pg & -> & Hpg). exists pg.
  split; [done|]. split; [done|].
  apply pool_ok_set_page; [exact Hinv|done|].
  intros p Hp. destruct Hinv as (Hres & _).
  destruct (Hres p f Hp) as (_ & pg' & n & Hpg' & Hid & Hpin & _).
  rewrite Hpg in Hpg'. injection Hpg' as <-. simpl. split_and!; [done|lia|]. intros. lia.
Qed.

Lemma record_access_pool (f : Z) (b : BufferPoolManager) :
  pool_inv b → frame_ok (pages_ b) f → pool_inv (record_access f b).
Proof. intros Hinv Hf. by apply pool_ok_RecordAccess. Qed.

Lemma set_evictable_pool (f : Z) (flag : bool) (b : BufferPoolManager) :
  pool_inv b → is_Some (LRUK.node_store_ (replacer_ b) !! f) →
  (flag = false → ∀ p pg, page_table_ b !! p = Some f →
                          pages_ b !! Z.to_nat f = Some pg → 0 < Page.pin_count_ pg) →
  ∃ rep n, set_evictable f flag b = Ok (with_replacer rep b) ∧
           pool_inv (with_replacer rep b) ∧
           LRUK.node_store_ rep !! f = Some n ∧ Node.is_evictable_ n = flag.
Proof.
  intros Hinv Hknown Hpinned. unfold set_evictable.
  pose proof Hinv as (_ & _ & _ & Hnodes & Hcount & Hmax & Hsmall).
  destruct (SetEvictable_returns f flag (pages_ b) (replacer_ b) Hnodes Hcount Hmax Hsmall
              Hknown) as [rep Hset].
  rewrite Hset. cbn [mbind result_bind].
  destruct (SetEvictable_cases f flag _ _ Hset) as (n & Hn & _ & [[-> ->]|Hstore]).
  - exists (replacer_ b), n. split; [done|]. split; [|done]. exact Hinv.
  - exists rep, (Node.set_evictable flag n). split; [done|]. split.
    + by eapply pool_ok_SetEvictable.
    + rewrite Hstore, lookup_insert_eq. done.
Qed.

Lemma NewPage_pool (b : BufferPoolManager) :
  pool_inv b → ready b →
  ∃ got b', NewPage b = Ok (got, b') ∧ pool_inv b' ∧ (clean b → clean b').
Proof.
  intros Hinv Hready. unfold NewPage, AllocatePage.
  destruct (NewFrame_pool (next_page_id_ b) (with_next_page_id (next_page_id_ b + 1) b)
              Hinv Hready) as (got & b1 & -> & Hinv1 & Hclean & Hgot).
  cbn [mbind result_bind]. destruct got as [f|]; [|by eauto].
  destruct Hgot as (Hf & Hpg & Hknown & Hnot & Hnotin).
  destruct (pin_pool f b1 Hinv1 Hf) as (pg & Hpg' & -> & Hinv2).
  rewrite Hpg in Hpg'. injection Hpg' as <-.
  cbn [mbind result_bind].
  set (pg1 := Page.set_pin_count _ _) in *.
  set (b2 := set_page f pg1 b1) in *.
  assert (frame_ok (pages_ b2) f) as Hf2.
  { destruct Hf. split; [done|]. unfold b2. simpl. by rewrite length_insert. }
  pose proof (record_access_pool f b2 Hinv2 Hf2) as Hinv3.
  destruct (set_evictable_pool f false (record_access f b2) Hinv3) as (rep & n & -> & Hinv4 & Hn & He).
  { apply RecordAccess_known. }
  { intros _ p pg Hp. by destruct (Hnot p). }
  cbn [mbind result_bind]. do 2 eexists. split; [reflexivity|]. split.
  - unfold pool_inv. cbn [pages_ replacer_ page_table_ free_list_ with_page_table].
    apply (pool_ok_table_insert _ _ _ _ Hinv4 (next_page_id_ b) f pg1 n);
      [by destruct Hf| |done| |exact Hn| |].
    + simpl. apply list_lookup_insert_eq. by destruct Hf.
    + unfold pg1, Page.blank. simpl. lia.
    + intros _. unfold pg1, Page.blank. simpl. lia.
    + simpl. by rewrite length_insert.
  - intros Hc. apply (clean_same b1); [simpl; by rewrite length_insert|done|by apply Hclean].
Qed.

Lemma FetchPage_pool (page_id : Z) (b : BufferPoolManager) :
  pool_inv b → (page_table_ b !! page_id = None → ready b) →
  ∃ got b', FetchPage page_id b = Ok (got, b') ∧ pool_inv b' ∧ (clean b → clean b').
Proof.
  intros Hinv Hready. unfold FetchPage.
  destruct (page_table_ b !! page_id) as [f|] eqn:Hres.
  - pose proof Hinv as (Hresident & _).
    destruct (Hresident page_id f Hres) as (Hf0 & pg0 & n0 & Hpg0 & _).
    assert (frame_ok (pages_ b) f) as Hf.
    { split; [done|]. by eapply lookup_lt_Some. }
    unfold pin_and_record.
    destruct (pin_pool f b Hinv Hf) as (pg & Hpg & -> & Hinv1).
    cbn [mbind result_bind]. do 2 eexists. split; [reflexivity|]. split.
    + apply record_access_pool; [done|].
      destruct Hf. split; [done|]. simpl. by rewrite length_insert.
    + apply clean_same; [simpl; by rewrite length_insert|done].
  - destruct (NewFrame_pool page_id b Hinv (Hready eq_refl))
      as (got & b1 & -> & Hinv1 & Hclean & Hgot).
    cbn [mbind result_bind]. destruct got as [f|]; [|by eauto].
    destruct Hgot as (Hf & Hpg & Hknown & Hnot & Hnotin).
    destruct (set_evictable_pool f false b1 Hinv1 Hknown) as (rep & n & -> & Hinv2 & Hn & He).
    { intros _ p pg Hp. by destruct (Hnot p). }
    cbn [mbind result_bind].
    destruct (page_at_frame_ok f (with_replacer rep b1) Hf) as (pg & -> & Hpg').
    simpl in Hpg'. rewrite Hpg in Hpg'. injection Hpg' as <-.
    cbn [mbind result_bind]. cbn [Page.page_id_ Page.set_page_id].
    set (data := ReadPage _ _ _).
    set (pg1 := Page.set_data data (Page.set_page_id page_id Page.blank)).
    set (b2 := set_page f pg1 (with_replacer rep b1)).
    assert (pool_inv b2) as Hinv3.
    { apply pool_ok_set_page; [exact Hinv2|done|]. intros p Hp. by destruct (Hnot p). }
    assert (frame_ok (pages_ b2) f) as Hf2.
    { destruct Hf. split; [done|]. unfold b2. simpl. by rewrite length_insert. }
    assert (pages_ b2 !! Z.to_nat f = Some pg1) as Hpg2.
    { unfold b2. simpl. apply list_lookup_insert_eq. by destruct Hf. }
    set (b3 := with_page_table (<[page_id := f]> (page_table_ b2)) b2).
    unfold pin_and_record, pin.
    destruct (page_at_frame_ok f b3 Hf2) as (pg & -> & Hpg3).
    change (pages_ b3) with (pages_ b2) in Hpg3. rewrite Hpg2 in Hpg3. injection Hpg3 as <-.
    cbn [mbind result_bind]. do 2 eexists. split; [reflexivity|].
    set (pg2 := Page.set_pin_count (Page.pin_count_ pg1 + 1) pg1). split.
    + apply record_access_pool.
      2: { destruct Hf. split; [done|]. simpl. by rewrite !length_insert. }
      assert (pool_inv (set_page f pg2 b2)) as Hinv4.
      { apply pool_ok_set_page; [exact Hinv3|done|]. intros p Hp. by destruct (Hnot p). }
      apply (pool_ok_table_insert _ _ _ _ Hinv4 page_id f pg2 n);
        [by destruct Hf| |done| |exact Hn| |].
      * simpl. apply list_lookup_insert_eq. rewrite length_insert. by destruct Hf.
      * unfold pg2, pg1, Page.blank. simpl. lia.
      * intros _. unfold pg2, pg1, Page.blank. simpl. lia.
      * simpl. by rewrite !length_insert.
    + intros Hc. apply (clean_same b1); [simpl; by rewrite !length_insert|done|by apply Hclean].
Qed.

Lemma UnpinPage_pool (page_id : Z) (is_dirty : bool) (b : BufferPoolManager) :
  pool_inv b →
  ∃ ok b', UnpinPage page_id is_dirty b = Ok (ok, b') ∧ pool_inv b' ∧ (clean b → clean b').
Proof.
  intros Hinv. unfold UnpinPage.
  destruct (page_table_ b !! page_id) as [f|] eqn:Hres; [|by eauto].
  pose proof Hinv as (Hresident & _).
  destruct (Hresident page_id f Hres) as (Hf0 & pg & n & Hpg & Hid & Hpin & Hn & Hev).
  assert (frame_ok (pages_ b) f) as Hf.
  { split; [done|]. by eapply lookup_lt_Some. }
  destruct (page_at_frame_ok f b Hf) as (pg' & -> & Hpg'). rewrite Hpg in Hpg'.
  injection Hpg' as <-. cbn [mbind result_bind].
  destruct (decide (Page.pin_count_ pg ≤ 0)); [by eauto|].
  set (pg1 := Page.set_pin_count (Page.pin_count_ pg - 1) pg).
  set (b1 := set_page f pg1 b).
  assert (frame_ok (pages_ b1) f) as Hf1.
  { destruct Hf. split; [done|]. unfold b1. simpl. by rewrite length_insert. }
  destruct (decide (Page.pin_count_ pg1 = 0)) as [Hzero|Hpos].
  - (* the last pin goes: the frame becomes evictable *)
    assert (∃ rep n', LRUK.SetEvictable f true (replacer_ b) = Ok rep ∧
                      pool_ok (pages_ b) rep (page_table_ b) (free_list_ b) ∧
                      LRUK.node_store_ rep !! f = Some n' ∧ Node.is_evictable_ n' = true)
      as (rep & n' & Hset & Hinv1 & Hn' & He').
    { destruct (set_evictable_pool f true b Hinv) as (rep & n' & Hset & Hinv1 & Hn' & He');
        [eauto|done|].
      exists rep, n'. unfold set_evictable in Hset.
      destruct (LRUK.SetEvictable f true (replacer_ b)) as [rep'| |]; [|done..].
      cbn [mbind result_bind] in Hset. injection Hset as ->.
      by split_and!. }
    unfold set_evictable. change (replacer_ b1) with (replacer_ b). rewrite Hset.
    cbn [mbind result_bind]. do 2 eexists. split; [reflexivity|]. split.
    2: { apply clean_same; [simpl; by rewrite !length_insert|done]. }
    unfold pool_inv, set_page, b1, set_page.
    cbn [pages_ replacer_ page_table_ free_list_ with_pages with_replacer].
    apply pool_ok_set_page.
    + apply pool_ok_set_page; [exact Hinv1|done|].
      intros p Hp. assert (p = page_id) as ->.
      { destruct (Hresident p f Hp) as (_ & pg' & _ & Hpg' & Hid' & _). congruence. }
      unfold pg1. simpl. split_and!; [done|lia|]. intros m Hm. congruence.
    + destruct Hf. split; [done|]. by rewrite length_insert.
    + intros p Hp. assert (p = page_id) as ->.
      { destruct (Hresident p f Hp) as (_ & pg' & _ & Hpg' & Hid' & _). congruence. }
      unfold pg1. simpl. split_and!; [done|lia|]. intros m Hm. congruence.
  - cbn [mbind result_bind]. do 2 eexists. split; [reflexivity|]. split.
    2: { apply clean_same; [simpl; by rewrite !length_insert|done]. }
    unfold pool_inv, set_page, b1, set_page.
    cbn [pages_ replacer_ page_table_ free_list_ with_pages].
    assert (∀ p, page_table_ b !! p = Some f → p = page_id) as Honly.
    { intros p Hp. destruct (Hresident p f Hp) as (_ & pg' & _ & Hpg' & Hid' & _). congruence. }
    unfold pg1 in Hpos. simpl in Hpos.
    apply pool_ok_set_page.
    + apply pool_ok_set_page; [exact Hinv|done|].
      intros p Hp. rewrite (Honly p Hp). unfold pg1. simpl. split_and!; [done|lia|].
      intros. lia.
    + destruct Hf. split; [done|]. by rewrite length_insert.
    + intros p Hp. rewrite (Honly p Hp). unfold pg1. simpl. split_and!; [done|lia|].
      intros. lia.
Qed.

Lemma FlushPage_pool (page_id : Z) (b : BufferPoolManager) :
  pool_inv b →
  ∃ ok b', FlushPage page_id b = Ok (ok, b') ∧ pool_inv b' ∧
           page_table_ b' = page_table_ b ∧ (clean b → clean b').
Proof.
  intros Hinv. unfold FlushPage.
  destruct (decide (page_id = INVALID_PAGE_ID)) as [|Hvalid]; [by eauto 10|].
  destruct (page_table_ b !! page_id) as [f|] eqn:Hres; [|by eauto 10].
  pose proof Hinv as (Hresident & _).
  destruct (Hresident page_id f Hres) as (Hf0 & pg & n & Hpg & Hid & Hpin & Hn & Hev).
  assert (frame_ok (pages_ b) f) as Hf.
  { split; [done|]. by eapply lookup_lt_Some. }
  destruct (page_at_frame_ok f b Hf) as (pg' & -> & Hpg'). rewrite Hpg in Hpg'.
  injection Hpg' as <-. cbn [mbind result_bind].
  do 2 eexists. split; [reflexivity|]. split; [|split; [done|]].
  2: { apply clean_same; [simpl; by rewrite !length_insert|done]. }
  apply pool_ok_set_page; [exact Hinv|done|].
  intros p Hp. assert (p = page_id) as ->.
  { destruct (Hresident p f Hp) as (_ & pg' & _ & Hpg' & Hid' & _).
    simpl in Hpg'. congruence. }
  simpl. split_and!; try done. intros m Hm. rewrite Hn in Hm. injection Hm as <-. exact Hev.
Qed.

Lemma FlushAllPages_pool (b : BufferPoolManager) :
  pool_inv b → ∃ b', FlushAllPages b = Ok b' ∧ pool_inv b' ∧ (clean b → clean b').
Proof.
  intros Hinv. unfold FlushAllPages. generalize (unordered_iter (page_table_ b)).
  intros l. revert b Hinv. induction l as [|p l IH]; intros b Hinv; simpl; [by eauto|].
  destruct (FlushPage_pool p.1 b Hinv) as (ok & b1 & -> & Hinv1 & _ & Hclean).
  cbn [mbind result_bind]. destruct (IH b1 Hinv1) as (b' & Hb' & Hinv' & Hclean').
  exists b'. split; [done|]. split; [done|]. intros Hc. by apply Hclean', Hclean.
Qed.

Lemma DeletePage_pool (page_id : Z) (b : BufferPoolManager) :
  pool_inv b →
  ∃ ok b', DeletePage page_id b = Ok (ok, b') ∧ pool_inv b' ∧ (clean b → clean b').
Proof.
  intros Hinv. unfold DeletePage.
  destruct (page_table_ b !! page_id) as [f|] eqn:Hres; [|by eauto].
  pose proof Hinv as (Hresident & Hfree & _).
  destruct (Hresident page_id f Hres) as (Hf0 & pg & n & Hpg & Hid & Hpin & Hn & Hev).
  assert (frame_ok (pages_ b) f) as Hf.
  { split; [done|]. by eapply lookup_lt_Some. }
  destruct (page_at_frame_ok f b Hf) as (pg' & -> & Hpg'). rewrite Hpg in Hpg'.
  injection Hpg' as <-. cbn [mbind result_bind].
  destruct (decide (Page.pin_count_ pg > 0)); [by eauto|].
  assert (Node.is_evictable_ n = true) as He.
  { destruct (Node.is_evictable_ n); [done|]. specialize (Hev eq_refl). lia. }
  cbn [replacer_ with_page_table]. unfold LRUK.Remove. rewrite Hn, He.
  cbn [negb mbind result_bind].
  unfold ResetFrame.
  match goal with |- context [page_at f ?b0] =>
    destruct (page_at_frame_ok f b0 Hf) as (pg' & -> & _) end.
  cbn [mbind result_bind]. do 2 eexists. split; [reflexivity|].
  assert (∀ p, delete page_id (page_table_ b) !! p ≠ Some f) as Hnot.
  { intros p Hp. apply lookup_delete_Some in Hp as [Hne Hp].
    destruct (Hresident p f Hp) as (_ & pg'' & _ & Hpg'' & Hid' & _). congruence. }
  assert (f ∉ usable (length (pages_ b)) (free_list_ b)) as Hnotin.
  { intros Hin. by destruct (Hfree f Hin page_id). }
  split.
  - unfold pool_inv, set_page.
    cbn [pages_ replacer_ page_table_ free_list_ with_pages with_replacer with_free_list
         with_page_table].
    apply pool_ok_set_page; [|done|by intros p Hp; destruct (Hnot p)].
    apply pool_ok_free_push; [|done|done].
    eapply pool_ok_erase_node; [|done..].
    by apply pool_ok_table_delete.
  - unfold clean, frame_ok. simpl. rewrite length_insert. intros Hc.
    apply Forall_app. split; [done|]. by apply Forall_singleton.
Qed.

(** A call of a client returns, keeping the invariant, unless it has to take
    a frame and finds at the front of the free list an id that does not
    index [pages_]. *)
Lemma step_pool (o : Op) (b : BufferPoolManager) :
  pool_inv b → ready b →
  ∃ ids b', step o b = Ok (ids, b') ∧ pool_inv b' ∧ (clean b → clean b').
Proof.
  intros Hinv Hready. destruct o as [|p|p d|p| |p]; simpl.
  - destruct (NewPage_pool b Hinv Hready) as (got & b' & -> & Hinv'). simpl. eauto.
  - destruct (FetchPage_pool p b Hinv) as (got & b' & -> & Hinv'); [done|]. simpl. eauto.
  - destruct (UnpinPage_pool p d b Hinv) as (got & b' & -> & Hinv'). simpl. eauto.
  - destruct (FlushPage_pool p b Hinv) as (got & b' & -> & Hinv' & _ & Hc). simpl. eauto.
  - destruct (FlushAllPages_pool b Hinv) as (b' & -> & Hinv'). simpl. eauto.
  - destruct (DeletePage_pool p b Hinv) as (got & b' & -> & Hinv'). simpl. eauto.
Qed.

(** Every call that returns keeps the invariant. *)
Lemma step_keeps_pool (o : Op) (b b' : BufferPoolManager) (ids : list Z) :
  pool_inv b → step o b = Ok (ids, b') → pool_inv b'.
Proof.
  intros Hinv Hstep. destruct (decide (ready b)) as [Hready|Hbad].
  - destruct (step_pool o b Hinv Hready) as (ids' & b'' & Hstep' & Hinv' & _).
    rewrite Hstep in Hstep'. by injection Hstep' as _ ->.
  - destruct o as [|p|p d|p| |p]; simpl in Hstep.
    + unfold NewPage, AllocatePage in Hstep.
      rewrite (NewFrame_unready _ (with_next_page_id _ b)) in Hstep by exact Hbad. done.
    + destruct (page_table_ b !! p) as [f|] eqn:Hp.
      * destruct (FetchPage_pool p b Hinv) as (got & b'' & Hf & Hinv' & _).
        { intros Hnone. by rewrite Hp in Hnone. }
        rewrite Hf in Hstep. simpl in Hstep. by injection Hstep as _ <-.
      * unfold FetchPage in Hstep. rewrite Hp in Hstep.
        rewrite (NewFrame_unready _ b) in Hstep by exact Hbad. done.
    + destruct (UnpinPage_pool p d b Hinv) as (got & b'' & Hf & Hinv' & _).
      rewrite Hf in Hstep. simpl in Hstep. by injection Hstep as _ <-.
    + destruct (FlushPage_pool p b Hinv) as (got & b'' & Hf & Hinv' & _).
      rewrite Hf in Hstep. simpl in Hstep. by injection Hstep as _ <-.
    + destruct (FlushAllPages_pool b Hinv) as (b'' & Hf & Hinv' & _).
      rewrite Hf in Hstep. simpl in Hstep. by injection Hstep as _ <-.
    + destruct (DeletePage_pool p b Hinv) as (got & b'' & Hf & Hinv' & _).
      rewrite Hf in Hstep. simpl in Hstep. by injection Hstep as _ <-.
Qed.

Lemma run_keeps_pool (ops : list Op) (b b' : BufferPoolManager) (ids : list Z) :
  pool_inv b → run ops b = Ok (ids, b') → pool_inv b'.
Proof.
  revert b ids. induction ops as [|o ops IH]; intros b ids Hinv Hrun; simpl in Hrun.
  - by injection Hrun as _ <-.
  - apply bind_Ok in Hrun as ([ids1 b1] & Hstep & Hrun).
    apply bind_Ok in Hrun as ([ids2 b2] & Hrun & Hret). injection Hret as _ <-.
    eapply IH; [|exact Hrun]. by eapply step_keeps_pool.
Qed.

(** With a free list of ids that index [pages_], every call returns. *)
Lemma run_pool (ops : list Op) (b : BufferPoolManager) :
  pool_inv b → clean b → ∃ ids b', run ops b = Ok (ids, b') ∧ pool_inv b' ∧ clean b'.
Proof.
  revert b. induction ops as [|o ops IH]; intros b Hinv Hclean; simpl; [by eauto|].
  destruct (step_pool o b Hinv (clean_ready b Hclean)) as (ids1 & b1 & -> & Hinv1 & Hc1).
  cbn [mbind result_bind].
  destruct (IH b1 Hinv1 (Hc1 Hclean)) as (ids2 & b2 & -> & Hinv2 & Hclean2). simpl. eauto.
Qed.

End Pool.

(** *** The free list the constructor makes *)

Lemma to_int_small (z : Z) : 0 ≤ z ≤ INT_MAX → to_int z = z.
Proof. unfold to_int, INT_MAX. intros Hz. rewrite Z.mod_small; lia. Qed.

(** The ids up to the index 2^31 are the indexes themselves; the id put in
    for the index 2^31 is negative. *)
Lemma usable_new (len : nat) (n : nat) (a : Z) :
  0 ≤ a ≤ 2 ^ 31 → a + Z.of_nat n ≤ Z.of_nat len →
  usable len (to_int <$> seqZ a (Z.of_nat n)) = seqZ a (Z.min (Z.of_nat n) (2 ^ 31 - a)).
Proof.
  revert a. induction n as [|n IH]; intros a Ha Hlen.
  - rewrite Z.min_l by lia. done.
  - rewrite seqZ_cons by lia. rewrite fmap_cons. cbn [usable].
    destruct (decide (a = 2 ^ 31)) as [->|Hne].
    + rewrite decide_False.
      * rewrite Z.min_r by lia. by rewrite Z.sub_diag.
      * intros [Hneg _]. by vm_compute in Hneg.
    + rewrite to_int_small by (unfold INT_MAX; lia).
      rewrite decide_True by (split; lia).
      replace (Z.pred (Z.of_nat (S n))) with (Z.of_nat n) by lia.
      rewrite IH by lia. rewrite (seqZ_cons a) by lia. f_equal. f_equal. lia.
Qed.

(** A new pool satisfies the invariant. *)
Lemma pool_inv_new (pool_size replacer_k : Z) (disk : gmap Z (list Byte.byte)) :
  0 ≤ pool_size → pool_size + 1 < SIZE_MAX → pool_inv (new pool_size replacer_k disk).
Proof.
  intros Hpos Hsmall. unfold pool_inv, pool_ok, new. simpl.
  rewrite length_replicate. rewrite <- (Z2Nat.id pool_size) at 2 3 by done.
  rewrite usable_new by lia. rewrite Z2Nat.id by done. split_and!; try done.
  apply NoDup_seqZ.
Qed.

(** A pool of at most [INT_MAX] frames starts with a free list of ids that
    index [pages_]. *)
Lemma clean_new (pool_size replacer_k : Z) (disk : gmap Z (list Byte.byte)) :
  0 ≤ pool_size → pool_size ≤ INT_MAX → clean (new pool_size replacer_k disk).
Proof.
  intros Hpos Hsmall. unfold clean, frame_ok, new. simpl. rewrite length_replicate.
  apply Forall_fmap, Forall_forall. intros i Hi%elem_of_seqZ. simpl.
  rewrite to_int_small by lia. split; lia.
Qed.

(** [RecordAccess] on a frame the replacer knows keeps its flag, unless the
    counter of nodes says the replacer is empty. *)
Lemma RecordAccess_flag (now f : Z) (r : LRUK.LRUKReplacer) (n : Node.t) :
  LRUK.node_store_ r !! f = Some n →
  ∃ n', LRUK.node_store_ (LRUK.RecordAccess now f r) !! f = Some n' ∧
        (LRUK.curr_size_ r ≠ 0 → Node.is_evictable_ n' = Node.is_evictable_ n) ∧
        (LRUK.curr_size_ r = 0 → Node.is_evictable_ n' = false).
Proof.
  intros Hn. unfold LRUK.RecordAccess, LRUK.AddFrames, LRUK.node_at. simpl.
  destruct (decide (LRUK.curr_size_ r = 0)) as [Hz|Hnz].
  - rewrite decide_True by (by left). simpl. rewrite lookup_insert_eq.
    eexists. split; [done|]. by split.
  - rewrite decide_False by (intros [?|?]; [done|congruence]). simpl.
    rewrite lookup_insert_eq, Hn. eexists. split; [done|]. by split.
Qed.

(** ** What the member functions do to the pool *)

Section What.
Context `{StdLib} `{Clock}.

Lemma acquire_frame_inv (b b0 : BufferPoolManager) (f : Z) :
  acquire_frame b = Ok (Some f, b0) →
  (∃ rest, free_list_ b = f :: rest ∧ b0 = with_free_list rest b) ∨
  (free_list_ b = [] ∧
   ∃ n pg, LRUK.node_store_ (replacer_ b) !! f = Some n ∧ Node.is_evictable_ n = true ∧
           0 ≤ f ∧ pages_ b !! Z.to_nat f = Some pg ∧
           b0 = with_page_table (delete (Page.page_id_ pg) (page_table_ b))
                  ((if Page.is_dirty_ pg
                    then WritePage (Page.page_id_ pg) (Page.data_ pg) else id)
                     (with_replacer (LRUK.erase_node f (replacer_ b))
                        (with_clock (S (clock_ b)) b)))).
Proof.
  unfold acquire_frame. destruct (free_list_ b) as [|g rest] eqn:Hfree.
  - unfold tick. intros Ha. right. split; [done|].
    apply bind_Ok in Ha as ([got rep] & Hev & Ha). cbn [replacer_ with_clock] in Hev.
    destruct got as [v|]; [|done].
    apply bind_Ok in Ha as (pg & Hpg & Ha).
    apply LRUKFacts.Evict_Some_inv in Hev as (n & Hn & He & ->).
    apply page_at_Ok in Hpg as [[Hv _] Hpg]. simpl in Hpg.
    assert (v = f) as -> by (by destruct (Page.is_dirty_ pg); injection Ha).
    exists n, pg. split_and!; try done.
    by destruct (Page.is_dirty_ pg); injection Ha as <-.
  - intros [= -> <-]. left. eauto.
Qed.

Lemma NewFrame_inv (page_id : Z) (b b' : BufferPoolManager) (f : Z) :
  NewFrame page_id b = Ok (Some f, b') →
  ∃ b0, acquire_frame b = Ok (Some f, b0) ∧ frame_ok (pages_ b0) f ∧
        b' = record_access f
               (set_page f (Page.set_page_id page_id Page.blank) (set_page f Page.blank b0)).
Proof.
  unfold NewFrame. intros Hn. apply bind_Ok in Hn as ([got b0] & Ha & Hn).
  destruct got as [g|]; [|done]. unfold ResetFrame in Hn.
  apply bind_Ok in Hn as (b1 & Hr & Hn). apply bind_Ok in Hr as (pg & Hpg & Hr).
  injection Hr as <-. injection Hn as -> <-.
  apply page_at_Ok in Hpg as [Hf _]. eauto.
Qed.

(** X9. [NewFrame] takes the frame at the front of the free list when there
    is one, and then evicts nothing and touches neither the disk nor the page
    table.  With an empty free list the frame it returns was evictable in
    the replacer; the page that was in it is written to the disk when it is
    dirty, and only then, and its id leaves the page table.  Either way the
    frame ends up blank under the new page id, and its history restarts with
    the access [NewFrame] records when the frame was evicted. *)
Theorem NewFrame_takes_free_frame_or_victim (page_id : Z) (b b' : BufferPoolManager)
    (f : Z) :
  NewFrame page_id b = Ok (Some f, b') →
  pages_ b' !! Z.to_nat f = Some (Page.set_page_id page_id Page.blank) ∧
  match free_list_ b with
  | g :: rest =>
      f = g ∧ free_list_ b' = rest ∧ disk_ b' = disk_ b ∧
      page_table_ b' = page_table_ b ∧
      replacer_ b' = LRUK.RecordAccess (system_clock_now (clock_ b)) f (replacer_ b)
  | [] =>
      ∃ pg, pages_ b !! Z.to_nat f = Some pg ∧
            evictable_of f b = Some true ∧
            disk_ b' = (if Page.is_dirty_ pg
                        then <[Page.page_id_ pg := Page.data_ pg]> (disk_ b)
                        else disk_ b) ∧
            page_table_ b' = delete (Page.page_id_ pg) (page_table_ b) ∧
            free_list_ b' = [] ∧
            history_of f (replacer_ b') = Some [to_size_t (system_clock_now (S (clock_ b)))]
  end.
Proof.
  intros Hn. apply NewFrame_inv in Hn as (b0 & Ha & Hf & ->).
  split.
  { unfold record_access, tick, set_page. simpl.
    apply list_lookup_insert_eq. rewrite length_insert. by destruct Hf. }
  apply acquire_frame_inv in Ha as [(rest & Hfree & ->)|(Hfree & n & pg & Hn & He & Hf0 & Hpg & ->)];
    rewrite Hfree.
  - by split_and!.
  - exists pg. split; [done|]. split; [by unfold evictable_of; rewrite Hn; simpl; rewrite He|].
    split; [by destruct (Page.is_dirty_ pg)|]. split; [by destruct (Page.is_dirty_ pg)|].
    split; [by destruct (Page.is_dirty_ pg)|].
    unfold record_access, tick. cbn [replacer_ with_replacer].
    rewrite RecordAccess_history. unfold history_of.
    assert (∀ b1, replacer_ b1 = LRUK.erase_node f (replacer_ b) →
                  LRUK.node_store_ (replacer_ b1) !! f = None) as Hgone.
    { intros b1 ->. simpl. apply lookup_delete_eq. }
    rewrite decide_True.
    + f_equal. f_equal. f_equal. by destruct (Page.is_dirty_ pg).
    + right. rewrite Hgone; [done|]. by destruct (Page.is_dirty_ pg).
Qed.

Lemma pin_inv (f : Z) (b b' : BufferPoolManager) :
  pin f b = Ok b' →
  ∃ pg, frame_ok (pages_ b) f ∧ pages_ b !! Z.to_nat f = Some pg ∧
        b' = set_page f (Page.set_pin_count (Page.pin_count_ pg + 1) pg) b.
Proof.
  unfold pin. intros Hpin. apply bind_Ok in Hpin as (pg & Hpg & Hpin).
  injection Hpin as <-. apply page_at_Ok in Hpg as [Hf Hpg]. eauto.
Qed.

Lemma SetEvictable_flag (f : Z) (flag : bool) (r r' : LRUK.LRUKReplacer) :
  LRUK.SetEvictable f flag r = Ok r' →
  ∃ n', LRUK.node_store_ r' !! f = Some n' ∧ Node.is_evictable_ n' = flag.
Proof.
  intros Hset.
  destruct (SetEvictable_cases f flag r r' Hset) as (n & Hn & _ & [[-> ->]|Hstore]).
  - eauto.
  - exists (Node.set_evictable flag n). by rewrite Hstore, lookup_insert_eq.
Qed.

Lemma set_evictable_inv (f : Z) (flag : bool) (b b' : BufferPoolManager) :
  set_evictable f flag b = Ok b' →
  ∃ rep n', b' = with_replacer rep b ∧
            LRUK.SetEvictable f flag (replacer_ b) = Ok rep ∧
            LRUK.node_store_ rep !! f = Some n' ∧ Node.is_evictable_ n' = flag.
Proof.
  unfold set_evictable. intros Hse. apply bind_Ok in Hse as (rep & Hse & Hb).
  injection Hb as <-. destruct (SetEvictable_flag f flag _ _ Hse) as (n' & Hn' & He').
  eauto 10.
Qed.

Lemma set_page_lookup (f : Z) (pg : Page.t) (b : BufferPoolManager) :
  frame_ok (pages_ b) f → pages_ (set_page f pg b) !! Z.to_nat f = Some pg.
Proof. intros [_ Hlt]. simpl. by apply list_lookup_insert_eq. Qed.

Lemma set_page_frame_ok (f g : Z) (pg : Page.t) (b : BufferPoolManager) :
  frame_ok (pages_ b) f → frame_ok (pages_ (set_page g pg b)) f.
Proof. intros [Hf Hlt]. split; [done|]. simpl. by rewrite length_insert. Qed.

(** X10. The page [NewPage] returns: its id is the value of the allocator
    before the call, which has moved on by one; the frame holds a zeroed
    page under that id, pinned once and clean; the page table maps the id to
    the frame; and the frame is not evictable. *)
Theorem NewPage_returns_blank_pinned_page (b b' : BufferPoolManager) (p f : Z) :
  NewPage b = Ok (Some (p, f), b') →
  p = next_page_id_ b ∧ next_page_id_ b' = p + 1 ∧
  pages_ b' !! Z.to_nat f = Some (Page.set_pin_count 1 (Page.set_page_id p Page.blank)) ∧
  page_table_ b' !! p = Some f ∧
  evictable_of f b' = Some false.
Proof.
  unfold NewPage, AllocatePage. intros Hn.
  apply bind_Ok in Hn as ([got b1] & Hf & Hn). destruct got as [g|]; [|done].
  apply bind_Ok in Hn as (b2 & Hpin & Hn). apply bind_Ok in Hn as (b3 & Hse & Hn).
  injection Hn as <- <- <-.
  pose proof (NewFrame_next_page_id _ _ _ _ Hf) as Hnext.
  apply NewFrame_inv in Hf as (b0 & _ & Hg & Hb1).
  assert (frame_ok (pages_ b1) g ∧
          pages_ b1 !! Z.to_nat g = Some (Page.set_page_id (next_page_id_ b) Page.blank))
    as [Hg1 Hpg1].
  { rewrite Hb1. split.
    - by do 2 apply set_page_frame_ok.
    - apply (set_page_lookup g _ (set_page g Page.blank b0)). by apply set_page_frame_ok. }
  clear Hb1.
  apply pin_inv in Hpin as (pg & _ & Hpg & ->).
  rewrite Hpg1 in Hpg. injection Hpg as <-.
  apply set_evictable_inv in Hse as (rep & n' & -> & _ & Hn' & He').
  split; [done|]. split; [exact Hnext|]. split; [|split].
  - apply (set_page_lookup g _ b1 Hg1).
  - apply lookup_insert_eq.
  - unfold evictable_of. cbn [replacer_ with_page_table with_replacer].
    rewrite Hn'. simpl. by rewrite He'.
Qed.

Lemma FetchPage_Some_inv (page_id : Z) (b b' : BufferPoolManager) (f : Z) :
  FetchPage page_id b = Ok (Some f, b') →
  match page_table_ b !! page_id with
  | Some g =>
      f = g ∧
      ∃ pg, pages_ b !! Z.to_nat g = Some pg ∧
            pages_ b' = <[Z.to_nat g := Page.set_pin_count (Page.pin_count_ pg + 1) pg]> (pages_ b) ∧
            page_table_ b' = page_table_ b ∧ disk_ b' = disk_ b ∧
            free_list_ b' = free_list_ b
  | None =>
      pages_ b' !! Z.to_nat f =
        Some (Page.set_pin_count 1
                (Page.set_data (default (Page.data_ Page.blank) (disk_ b' !! page_id))
                   (Page.set_page_id page_id Page.blank))) ∧
      page_table_ b' !! page_id = Some f ∧
      evictable_of f b' = Some false ∧
      (free_list_ b ≠ [] → disk_ b' = disk_ b)
  end.
Proof.
  unfold FetchPage. intros Hfetch.
  destruct (page_table_ b !! page_id) as [g|] eqn:Hres.
  - unfold pin_and_record in Hfetch.
    apply bind_Ok in Hfetch as (b1 & Hpin & Hfetch). injection Hfetch as <- <-.
    apply pin_inv in Hpin as (pg & _ & Hpg & ->).
    split; [done|]. exists pg. by split_and!.
  - apply bind_Ok in Hfetch as ([got b1] & Hf & Hfetch). destruct got as [g|]; [|done].
    apply bind_Ok in Hfetch as (b2 & Hse & Hfetch).
    apply bind_Ok in Hfetch as (pg & Hpg & Hfetch).
    unfold pin_and_record in Hfetch.
    apply bind_Ok in Hfetch as (b3 & Hpin & Hfetch). injection Hfetch as <- <-.
    apply NewFrame_inv in Hf as (b0 & Ha & Hg & Hb1).
    assert (frame_ok (pages_ b1) g ∧
            pages_ b1 !! Z.to_nat g = Some (Page.set_page_id page_id Page.blank))
      as [Hg1 Hpg1].
    { rewrite Hb1. split.
      - by do 2 apply set_page_frame_ok.
      - apply (set_page_lookup g _ (set_page g Page.blank b0)). by apply set_page_frame_ok. }
    assert (free_list_ b ≠ [] → disk_ b1 = disk_ b) as Hdisk.
    { intros Hfree. rewrite Hb1.
      apply acquire_frame_inv in Ha as [(rest & _ & ->)|(Hnil & _)]; done. }
    clear Hb1 Ha.
    apply set_evictable_inv in Hse as (rep & n' & -> & _ & Hn' & He').
    apply page_at_Ok in Hpg as [_ Hpg]. cbn [pages_ with_replacer] in Hpg.
    rewrite Hpg1 in Hpg. injection Hpg as <-.
    cbn [Page.page_id_ Page.set_page_id Page.data_] in Hpin.
    set (data := ReadPage page_id (Page.data_ Page.blank) (with_replacer rep b1)) in *.
    set (pg1 := Page.set_data data (Page.set_page_id page_id Page.blank)) in *.
    set (b2 := with_page_table _ (set_page g pg1 (with_replacer rep b1))) in *.
    assert (frame_ok (pages_ b2) g ∧ pages_ b2 !! Z.to_nat g = Some pg1) as [Hg2 Hpg2].
    { split; [by apply (set_page_frame_ok g g pg1 (with_replacer rep b1))|].
      by apply (set_page_lookup g pg1 (with_replacer rep b1)). }
    apply pin_inv in Hpin as (pg & _ & Hpg & ->).
    rewrite Hpg2 in Hpg. injection Hpg as <-.
    split; [|split; [|split]].
    + unfold record_access, tick. cbn [pages_ with_replacer with_clock].
      by rewrite (set_page_lookup g _ b2 Hg2).
    + apply lookup_insert_eq.
    + unfold evictable_of, record_access, tick.
      cbn [replacer_ with_replacer with_clock set_page with_pages b2 with_page_table].
      match goal with |- context [LRUK.RecordAccess ?now g rep] =>
        destruct (RecordAccess_flag now g rep n' Hn') as (n'' & -> & Hsame & Hfresh) end.
      simpl.
      destruct (decide (LRUK.curr_size_ rep = 0)) as [Hz|Hnz].
      * by rewrite (Hfresh Hz).
      * by rewrite (Hsame Hnz), He'.
    + exact Hdisk.
Qed.

(** X11. The page [FetchPage] returns.  On a hit the frame of the page is
    pinned once more and nothing else in the pool, the page table or on the
    disk changes.  On a miss the frame holds what the disk holds for the
    page, or zeroes when the disk has nothing for it, under the page id,
    pinned once and clean; the page table maps the id to the frame, the
    frame is not evictable, and the disk is as before when a free frame was
    there to take. *)
Theorem FetchPage_returns_pinned_page (page_id : Z) (b b' : BufferPoolManager) (f : Z) :
  FetchPage page_id b = Ok (Some f, b') →
  match page_table_ b !! page_id with
  | Some g =>
      f = g ∧
      ∃ pg, pages_ b !! Z.to_nat g = Some pg ∧
            pages_ b' = <[Z.to_nat g := Page.set_pin_count (Page.pin_count_ pg + 1) pg]> (pages_ b) ∧
            page_table_ b' = page_table_ b ∧ disk_ b' = disk_ b ∧
            free_list_ b' = free_list_ b
  | None =>
      pages_ b' !! Z.to_nat f =
        Some (Page.set_pin_count 1
                (Page.set_data (default (Page.data_ Page.blank) (disk_ b' !! page_id))
                   (Page.set_page_id page_id Page.blank))) ∧
      page_table_ b' !! page_id = Some f ∧
      evictable_of f b' = Some false ∧
      (free_list_ b ≠ [] → disk_ b' = disk_ b)
  end.
Proof. apply FetchPage_Some_inv. Qed.

Lemma UnpinPage_inv (page_id : Z) (is_dirty : bool) (b b' : BufferPoolManager) (ok : bool) :
  UnpinPage page_id is_dirty b = Ok (ok, b') →
  match page_table_ b !! page_id with
  | None => ok = false ∧ b' = b
  | Some f =>
      ∃ pg, pages_ b !! Z.to_nat f = Some pg ∧
        if decide (Page.pin_count_ pg ≤ 0) then ok = false ∧ b' = b
        else ok = true ∧
             pages_ b' =
               <[Z.to_nat f := Page.set_is_dirty is_dirty
                                 (Page.set_pin_count (Page.pin_count_ pg - 1) pg)]> (pages_ b) ∧
             page_table_ b' = page_table_ b ∧ disk_ b' = disk_ b ∧
             free_list_ b' = free_list_ b ∧ next_page_id_ b' = next_page_id_ b ∧
             if decide (Page.pin_count_ pg = 1) then evictable_of f b' = Some true
             else replacer_ b' = replacer_ b
  end.
Proof.
  unfold UnpinPage. intros Hu.
  destruct (page_table_ b !! page_id) as [f|]; [|by injection Hu as <- <-].
  apply bind_Ok in Hu as (pg & Hpg & Hu). apply page_at_Ok in Hpg as [_ Hpg].
  exists pg. split; [done|].
  destruct (decide (Page.pin_count_ pg ≤ 0)); [by injection Hu as <- <-|].
  apply bind_Ok in Hu as (b1 & Hb1 & Hu). injection Hu as <- <-.
  cbn [Page.pin_count_ Page.set_pin_count] in Hb1.
  split; [done|].
  destruct (decide (Page.pin_count_ pg - 1 = 0)) as [Hz|Hnz].
  - apply set_evictable_inv in Hb1 as (rep & n' & -> & _ & Hn' & He').
    simpl. rewrite list_insert_insert_eq. split_and!; try done.
    rewrite decide_True by lia. unfold evictable_of. simpl. rewrite Hn'. simpl. by rewrite He'.
  - injection Hb1 as <-. simpl. rewrite list_insert_insert_eq. split_and!; try done.
    by rewrite decide_False by lia.
Qed.

Lemma FlushPage_inv (page_id : Z) (b b' : BufferPoolManager) (ok : bool) :
  FlushPage page_id b = Ok (ok, b') →
  if decide (page_id = INVALID_PAGE_ID) then ok = false ∧ b' = b
  else match page_table_ b !! page_id with
       | None => ok = false ∧ b' = b
       | Some f =>
           ok = true ∧
           ∃ pg, pages_ b !! Z.to_nat f = Some pg ∧
                 disk_ b' = <[Page.page_id_ pg := Page.data_ pg]> (disk_ b) ∧
                 pages_ b' = <[Z.to_nat f := Page.set_is_dirty false pg]> (pages_ b) ∧
                 page_table_ b' = page_table_ b ∧ replacer_ b' = replacer_ b ∧
                 free_list_ b' = free_list_ b ∧ next_page_id_ b' = next_page_id_ b
       end.
Proof.
  unfold FlushPage. intros Hf.
  destruct (decide (page_id = INVALID_PAGE_ID)); [by injection Hf as <- <-|].
  destruct (page_table_ b !! page_id) as [f|]; [|by injection Hf as <- <-].
  apply bind_Ok in Hf as (pg & Hpg & Hf). apply page_at_Ok in Hpg as [_ Hpg].
  injection Hf as <- <-. split; [done|]. exists pg. by split_and!.
Qed.

Lemma DeletePage_inv (page_id : Z) (b b' : BufferPoolManager) (ok : bool) :
  DeletePage page_id b = Ok (ok, b') →
  match page_table_ b !! page_id with
  | None => ok = true ∧ b' = b
  | Some f =>
      ∃ pg, pages_ b !! Z.to_nat f = Some pg ∧
        if decide (Page.pin_count_ pg > 0) then ok = false ∧ b' = b
        else ok = true ∧
             page_table_ b' = delete page_id (page_table_ b) ∧
             free_list_ b' = free_list_ b ++ [f] ∧
             pages_ b' = <[Z.to_nat f := Page.blank]> (pages_ b) ∧
             disk_ b' = disk_ b ∧ next_page_id_ b' = next_page_id_ b ∧
             evictable_of f b ≠ Some false ∧
             LRUK.node_store_ (replacer_ b') !! f = None
  end.
Proof.
  unfold DeletePage. intros Hd.
  destruct (page_table_ b !! page_id) as [f|]; [|by injection Hd as <- <-].
  apply bind_Ok in Hd as (pg & Hpg & Hd). apply page_at_Ok in Hpg as [_ Hpg].
  exists pg. split; [done|].
  destruct (decide (Page.pin_count_ pg > 0)) as [|Hunpinned]; [by injection Hd as <- <-|].
  apply bind_Ok in Hd as (rep & Hrm & Hd). cbn [replacer_ with_page_table] in Hrm.
  unfold ResetFrame in Hd. apply bind_Ok in Hd as (b1 & Hb1 & Hd).
  apply bind_Ok in Hb1 as (pg' & _ & Hb1). injection Hb1 as <-. injection Hd as <- <-.
  split; [done|]. simpl. split_and!; try done.
  - unfold evictable_of. unfold LRUK.Remove in Hrm.
    destruct (LRUK.node_store_ (replacer_ b) !! f) as [n|]; [|done]. simpl.
    destruct (Node.is_evictable_ n); done.
  - unfold LRUK.Remove in Hrm.
    destruct (LRUK.node_store_ (replacer_ b) !! f) as [n|] eqn:Hn.
    + destruct (negb (Node.is_evictable_ n)); [done|]. injection Hrm as <-.
      simpl. apply lookup_delete_eq.
    + by injection Hrm as <-.
Qed.

(** X12. [UnpinPage] returns [false] and changes nothing when the page is
    not resident or its pin count is not positive.  Otherwise it takes one
    pin away and sets the dirty flag to its argument; the frame becomes
    evictable when that was the last pin, and only then is the replacer
    touched.  Page table, free list and disk stay as they were. *)
Theorem UnpinPage_releases_one_pin (page_id : Z) (is_dirty : bool)
    (b b' : BufferPoolManager) (ok : bool) :
  UnpinPage page_id is_dirty b = Ok (ok, b') →
  match page_table_ b !! page_id with
  | None => ok = false ∧ b' = b
  | Some f =>
      ∃ pg, pages_ b !! Z.to_nat f = Some pg ∧
        if decide (Page.pin_count_ pg ≤ 0) then ok = false ∧ b' = b
        else ok = true ∧
             pages_ b' =
               <[Z.to_nat f := Page.set_is_dirty is_dirty
                                 (Page.set_pin_count (Page.pin_count_ pg - 1) pg)]> (pages_ b) ∧
             page_table_ b' = page_table_ b ∧ disk_ b' = disk_ b ∧
             free_list_ b' = free_list_ b ∧ next_page_id_ b' = next_page_id_ b ∧
             if decide (Page.pin_count_ pg = 1) then evictable_of f b' = Some true
             else replacer_ b' = replacer_ b
  end.
Proof. apply UnpinPage_inv. Qed.

(** X13. [FlushPage] returns [false] and changes nothing for the invalid
    page id and for a page that is not resident.  For a resident page it
    writes the data of the frame to the disk under the page id the frame
    carries, whether the page is dirty or not, and clears the dirty flag;
    pin count, page table, replacer and free list stay as they were. *)
Theorem FlushPage_writes_frame_to_disk (page_id : Z) (b b' : BufferPoolManager)
    (ok : bool) :
  FlushPage page_id b = Ok (ok, b') →
  if decide (page_id = INVALID_PAGE_ID) then ok = false ∧ b' = b
  else match page_table_ b !! page_id with
       | None => ok = false ∧ b' = b
       | Some f =>
           ok = true ∧
           ∃ pg, pages_ b !! Z.to_nat f = Some pg ∧
                 disk_ b' = <[Page.page_id_ pg := Page.data_ pg]> (disk_ b) ∧
                 pages_ b' = <[Z.to_nat f := Page.set_is_dirty false pg]> (pages_ b) ∧
                 page_table_ b' = page_table_ b ∧ replacer_ b' = replacer_ b ∧
                 free_list_ b' = free_list_ b ∧ next_page_id_ b' = next_page_id_ b
       end.
Proof. apply FlushPage_inv. Qed.

(** X14. [DeletePage] returns [true] and changes nothing for a page that is
    not resident, and [false], changing nothing, for a pinned page.
    Otherwise the page leaves the page table, its frame is blanked and goes
    to the back of the free list, and the replacer forgets the frame; the
    disk is not written, so what a dirty page held is dropped, and the
    allocator does not take the id back. *)
Theorem DeletePage_frees_frame_without_writing (page_id : Z) (b b' : BufferPoolManager)
    (ok : bool) :
  DeletePage page_id b = Ok (ok, b') →
  match page_table_ b !! page_id with
  | None => ok = true ∧ b' = b
  | Some f =>
      ∃ pg, pages_ b !! Z.to_nat f = Some pg ∧
        if decide (Page.pin_count_ pg > 0) then ok = false ∧ b' = b
        else ok = true ∧
             page_table_ b' = delete page_id (page_table_ b) ∧
             free_list_ b' = free_list_ b ++ [f] ∧
             pages_ b' = <[Z.to_nat f := Page.blank]> (pages_ b) ∧
             disk_ b' = disk_ b ∧ next_page_id_ b' = next_page_id_ b ∧
             evictable_of f b ≠ Some false ∧
             LRUK.node_store_ (replacer_ b') !! f = None
  end.
Proof. apply DeletePage_inv. Qed.

End What.

(** *** The number of frames never changes *)

Section Frames.
Context `{StdLib} `{Clock}.

Lemma acquire_frame_pages b got b' :
  acquire_frame b = Ok (got, b') → pages_ b' = pages_ b.
Proof.
  unfold acquire_frame, tick. intros Ha. inv_ok; by repeat case_match.
Qed.

Lemma NewFrame_length page_id b got b' :
  NewFrame page_id b = Ok (got, b') → length (pages_ b') = length (pages_ b).
Proof.
  unfold NewFrame. intros Hn. apply bind_Ok in Hn as ([got0 b0] & Ha & Hn).
  apply acquire_frame_pages in Ha. destruct got0 as [f|].
  - unfold ResetFrame in Hn. apply bind_Ok in Hn as (b1 & Hr & Hn).
    apply bind_Ok in Hr as (pg & _ & Hr). injection Hr as <-. injection Hn as <- <-.
    simpl. by rewrite !length_insert, Ha.
  - injection Hn as <- <-. by rewrite Ha.
Qed.

Lemma step_length o b ids b' :
  step o b = Ok (ids, b') → length (pages_ b') = length (pages_ b).
Proof.
  destruct o as [|p|p d|p| |p]; simpl; intros Hs.
  - apply bind_Ok in Hs as ([got b0] & Hn & Hs). injection Hs as <- <-.
    unfold NewPage, AllocatePage in Hn.
    apply bind_Ok in Hn as ([got0 b1] & Hf & Hn). apply NewFrame_length in Hf.
    destruct got0 as [f|]; [|by injection Hn as <- <-].
    apply bind_Ok in Hn as (b2 & Hpin & Hn). apply bind_Ok in Hn as (b3 & Hse & Hn).
    injection Hn as <- <-.
    apply pin_inv in Hpin as (pg & _ & _ & ->).
    apply set_evictable_inv in Hse as (rep & n' & -> & _). simpl.
    by rewrite length_insert.
  - apply bind_Ok in Hs as ([got b0] & Hn & Hs). injection Hs as <- <-.
    unfold FetchPage in Hn. destruct (page_table_ b !! p).
    + unfold pin_and_record in Hn. apply bind_Ok in Hn as (b1 & Hpin & Hn).
      injection Hn as <- <-. apply pin_inv in Hpin as (pg & _ & _ & ->).
      simpl. by rewrite length_insert.
    + apply bind_Ok in Hn as ([got0 b1] & Hf & Hn). apply NewFrame_length in Hf.
      destruct got0 as [f|]; [|by injection Hn as <- <-].
      apply bind_Ok in Hn as (b2 & Hse & Hn). apply bind_Ok in Hn as (pg & _ & Hn).
      unfold pin_and_record in Hn. apply bind_Ok in Hn as (b3 & Hpin & Hn).
      injection Hn as <- <-.
      apply set_evictable_inv in Hse as (rep & n' & -> & _).
      apply pin_inv in Hpin as (pg' & _ & _ & ->). simpl.
      by rewrite !length_insert.
  - apply bind_Ok in Hs as ([ok b0] & Hu & Hs). injection Hs as <- <-.
    apply UnpinPage_inv in Hu. destruct (page_table_ b !! p); [|by destruct Hu as [_ ->]].
    destruct Hu as (pg & _ & Hu). destruct (decide _); [by destruct Hu as [_ ->]|].
    destruct Hu as (_ & -> & _). by rewrite length_insert.
  - apply bind_Ok in Hs as ([ok b0] & Hf & Hs). injection Hs as <- <-.
    apply FlushPage_inv in Hf. destruct (decide _); [by destruct Hf as [_ ->]|].
    destruct (page_table_ b !! p); [|by destruct Hf as [_ ->]].
    destruct Hf as (_ & pg & _ & _ & -> & _). by rewrite length_insert.
  - apply bind_Ok in Hs as (b0 & Hf & Hs). injection Hs as <- <-.
    unfold FlushAllPages in Hf. revert Hf. generalize (unordered_iter (page_table_ b)).
    intros l. revert b. induction l as [|x l IH]; simpl; intros b Hf; [by injection Hf as <-|].
    destruct (FlushPage x.1 b) as [[ok b1]| |] eqn:Hfl; cbn [mbind result_bind] in Hf.
    + rewrite (IH b1 Hf).
      apply FlushPage_inv in Hfl. destruct (decide _); [by destruct Hfl as [_ ->]|].
      destruct (page_table_ b !! x.1); [|by destruct Hfl as [_ ->]].
      destruct Hfl as (_ & pg & _ & _ & -> & _). by rewrite length_insert.
    + exfalso. clear -Hf. induction l; simpl in Hf; [done|]. by apply IHl.
    + exfalso. clear -Hf. induction l; simpl in Hf; [done|]. by apply IHl.
  - apply bind_Ok in Hs as ([ok b0] & Hd & Hs). injection Hs as <- <-.
    apply DeletePage_inv in Hd. destruct (page_table_ b !! p); [|by destruct Hd as [_ ->]].
    destruct Hd as (pg & _ & Hd). destruct (decide _); [by destruct Hd as [_ ->]|].
    destruct Hd as (_ & _ & _ & -> & _). by rewrite length_insert.
Qed.

Lemma run_length ops b ids b' :
  run ops b = Ok (ids, b') → length (pages_ b') = length (pages_ b).
Proof.
  revert b ids. induction ops as [|o ops IH]; simpl; intros b ids Hr.
  - by injection Hr as <- <-.
  - apply bind_Ok in Hr as ([ids1 b1] & Hs & Hr).
    apply bind_Ok in Hr as ([ids2 b2] & Hr2 & Hr). injection Hr as <- <-.
    rewrite (IH _ _ Hr2). by eapply step_length.
Qed.

End Frames.

(** ** States reached from a new pool *)

Section Reachable.
Context `{StdLib} `{Clock}.

Lemma INT_MAX_small (pool_size : Z) : pool_size ≤ INT_MAX → pool_size + 1 < SIZE_MAX.
Proof. unfold INT_MAX, SIZE_MAX. lia. Qed.

(** X15. No call of a client fails.  Whatever calls are made on a pool made
    for at most [INT_MAX] frames, with whatever K, disk contents, clock and
    iteration order, every one of them returns: none throws, indexes
    [pages_] outside its bounds or asks the replacer about a frame it does
    not know.  (In a pool of more than [INT_MAX] + 1 frames the constructor
    leaves ids in the free list that do not index [pages_].) *)
Theorem pool_calls_always_return (pool_size replacer_k : Z)
    (disk : gmap Z (list Byte.byte)) (ops : list Op) :
  0 ≤ pool_size → pool_size ≤ INT_MAX →
  is_Ok (run ops (new pool_size replacer_k disk)).
Proof.
  intros Hpos Hsmall.
  destruct (run_pool ops (new pool_size replacer_k disk)) as (ids & b & Hrun & _).
  { apply pool_inv_new; [done|]. by apply INT_MAX_small. }
  { by apply clean_new. }
  by exists (ids, b).
Qed.

Lemma reachable_pool_inv (pool_size replacer_k : Z) (disk : gmap Z (list Byte.byte))
    (ops : list Op) (ids : list Z) (b : BufferPoolManager) :
  0 ≤ pool_size → pool_size + 1 < SIZE_MAX →
  run ops (new pool_size replacer_k disk) = Ok (ids, b) →
  pool_inv b ∧ length (pages_ b) = Z.to_nat pool_size.
Proof.
  intros Hpos Hsmall Hrun. split.
  - eapply run_keeps_pool; [|exact Hrun]. by apply pool_inv_new.
  - rewrite (run_length _ _ _ _ Hrun). simpl. apply length_replicate.
Qed.

Lemma reachable_clean (pool_size replacer_k : Z) (disk : gmap Z (list Byte.byte))
    (ops : list Op) (ids : list Z) (b : BufferPoolManager) :
  0 ≤ pool_size → pool_size ≤ INT_MAX →
  run ops (new pool_size replacer_k disk) = Ok (ids, b) →
  clean b.
Proof.
  intros Hpos Hsmall Hrun.
  destruct (run_pool ops (new pool_size replacer_k disk)) as (ids' & b' & Hrun' & _ & Hclean).
  { apply pool_inv_new; [done|]. by apply INT_MAX_small. }
  { by apply clean_new. }
  rewrite Hrun in Hrun'. by injection Hrun' as _ <-.
Qed.

(** X16. In every state that calls of a client reach from a new pool, the
    page table and the frames agree: a resident page sits in a valid frame
    that carries its page id, with a pin count that is not negative, and no
    two pages share a frame.  In a pool of at most [INT_MAX] frames the free
    frames are valid, listed once, and hold no resident page. *)
Theorem page_table_and_frames_agree (pool_size replacer_k : Z)
    (disk : gmap Z (list Byte.byte)) (ops : list Op) (ids : list Z)
    (b : BufferPoolManager) :
  0 ≤ pool_size → pool_size + 1 < SIZE_MAX →
  run ops (new pool_size replacer_k disk) = Ok (ids, b) →
  (∀ p f, page_table_ b !! p = Some f →
     0 ≤ f < pool_size ∧
     ∃ pg, pages_ b !! Z.to_nat f = Some pg ∧ Page.page_id_ pg = p ∧
           0 ≤ Page.pin_count_ pg) ∧
  (∀ p q f, page_table_ b !! p = Some f → page_table_ b !! q = Some f → p = q) ∧
  length (pages_ b) = Z.to_nat pool_size ∧
  (pool_size ≤ INT_MAX →
   (∀ f, f ∈ free_list_ b → 0 ≤ f < pool_size ∧ ∀ p, page_table_ b !! p ≠ Some f) ∧
   NoDup (free_list_ b)).
Proof.
  intros Hpos Hsmall Hrun.
  destruct (reachable_pool_inv _ _ _ _ _ _ Hpos Hsmall Hrun)
    as ((Hres & Hfree & Hnodup & _) & Hlen).
  split_and!; try done.
  - intros p f Hp. destruct (Hres p f Hp) as (Hf & pg & n & Hpg & Hid & Hpin & _).
    split; [|eauto]. apply lookup_lt_Some in Hpg. lia.
  - intros p q f Hp Hq.
    destruct (Hres p f Hp) as (_ & pg & _ & Hpg & Hid & _).
    destruct (Hres q f Hq) as (_ & pg' & _ & Hpg' & Hid' & _). congruence.
  - intros Hint. pose proof (reachable_clean _ _ _ _ _ _ Hpos Hint Hrun) as Hclean.
    rewrite (usable_clean _ _ Hclean) in Hfree, Hnodup. split; [|done].
    intros f Hf. split; [|by apply Hfree].
    apply (proj1 (Forall_forall _ _) Hclean) in Hf as [Hf0 Hlt]. lia.
Qed.

(** X17. In every state that calls of a client reach from a new pool, the
    replacer knows every frame that holds a resident page; such a frame is
    evictable whenever its pin count is zero, and is pinned whenever it is
    not evictable. *)
Theorem unpinned_resident_frames_are_evictable (pool_size replacer_k : Z)
    (disk : gmap Z (list Byte.byte)) (ops : list Op) (ids : list Z)
    (b : BufferPoolManager) :
  0 ≤ pool_size → pool_size + 1 < SIZE_MAX →
  run ops (new pool_size replacer_k disk) = Ok (ids, b) →
  ∀ p f, page_table_ b !! p = Some f →
    ∃ c e, pin_count_of f b = Some c ∧ evictable_of f b = Some e ∧
           (c = 0 → e = true) ∧ (e = false → 0 < c).
Proof.
  intros Hpos Hsmall Hrun p f Hp.
  destruct (reachable_pool_inv _ _ _ _ _ _ Hpos Hsmall Hrun) as ((Hres & _) & _).
  destruct (Hres p f Hp) as (_ & pg & n & Hpg & _ & Hpin & Hn & Hev).
  exists (Page.pin_count_ pg), (Node.is_evictable_ n).
  unfold pin_count_of, evictable_of. rewrite Hpg, Hn. split_and!; try done.
  intros Hz. destruct (Node.is_evictable_ n); [done|]. specialize (Hev eq_refl). lia.
Qed.

End Reachable.

(** *** Flushing every page *)

Section Flush.
Context `{StdLib} `{Clock}.

(** The loop of [FlushAllPages] over any list of entries of the page table *)
Lemma flush_loop (l : list (Z * Z)) (b : BufferPoolManager) :
  pool_inv b → (∀ x, x ∈ l → page_table_ b !! x.1 = Some x.2) →
  ∃ b', foldl (λ acc (p : Z * Z), b ← acc; '(_, b) ← FlushPage p.1 b; Ok b) (Ok b) l = Ok b' ∧
        pool_inv b' ∧ page_table_ b' = page_table_ b ∧ replacer_ b' = replacer_ b ∧
        free_list_ b' = free_list_ b ∧
        (∀ q, q ∉ l.*1 ∨ q = INVALID_PAGE_ID → disk_ b' !! q = disk_ b !! q) ∧
        ∀ p f pg, page_table_ b !! p = Some f → pages_ b !! Z.to_nat f = Some pg →
          (pages_ b' !! Z.to_nat f = Some pg ∨
           pages_ b' !! Z.to_nat f = Some (Page.set_is_dirty false pg)) ∧
          (p ∈ l.*1 → p ≠ INVALID_PAGE_ID →
           pages_ b' !! Z.to_nat f = Some (Page.set_is_dirty false pg) ∧
           disk_ b' !! p = Some (Page.data_ pg)).
Proof.
  revert b. induction l as [|[q g] l IH]; intros b Hinv Hl.
  { exists b. simpl. split_and!; try done. intros p f pg _ Hpg. split; [by left|].
    by intros Hin%elem_of_nil. }
  assert (page_table_ b !! q = Some g) as Hq by (apply (Hl (q, g)); left).
  destruct (FlushPage_pool q b Hinv) as (ok & b1 & Hfl & Hinv1 & Htable1 & _).
  cbn [foldl fst mbind result_bind]. rewrite Hfl. cbn [mbind result_bind].
  destruct (IH b1 Hinv1) as (b' & -> & Hinv' & Htable' & Hrep' & Hfree' & Hdisk' & Hpages').
  { intros x Hx. rewrite Htable1. apply Hl. by right. }
  apply FlushPage_inv in Hfl. rewrite Hq in Hfl.
  pose proof Hinv as (Hres & _).
  exists b'. split; [done|]. split; [done|].
  destruct (decide (q = INVALID_PAGE_ID)) as [Hinvalid|Hvalid].
  - (* the entry of the invalid id is skipped *)
    destruct Hfl as [_ ->]. split_and!; try done.
    + intros q' [Hq'|Hq']; apply Hdisk'; [left|by right].
      intros Hin. apply Hq'. simpl. by right.
    + intros p f pg Hp Hpg. destruct (Hpages' p f pg Hp Hpg) as [Hcase Hin]. split; [done|].
      intros Hp' Hpv. apply Hin; [|done]. simpl in Hp'.
      apply elem_of_cons in Hp' as [->|Hp']; [done|done].
  - destruct Hfl as (_ & pgq & Hpgq & Hdisk1 & Hpages1 & _ & Hrep1 & Hfree1 & _).
    destruct (Hres q g Hq) as (Hg0 & pgq' & _ & Hpgq' & Hidq & _).
    rewrite Hpgq in Hpgq'. injection Hpgq' as <-. rewrite Hidq in Hdisk1.
    assert (∀ p f pg, page_table_ b !! p = Some f → pages_ b !! Z.to_nat f = Some pg →
                      pages_ b1 !! Z.to_nat f =
                        Some (if decide (p = q) then Page.set_is_dirty false pg else pg))
      as Hpg1.
    { intros p f pg Hp Hpg. rewrite Hpages1.
      destruct (Hres p f Hp) as (Hf0 & pg' & _ & Hpg' & Hid & _).
      rewrite Hpg in Hpg'. injection Hpg' as <-.
      destruct (decide (p = q)) as [->|Hne].
      - rewrite Hq in Hp. injection Hp as ->.
        rewrite list_lookup_insert_eq by (by eapply lookup_lt_Some). congruence.
      - rewrite list_lookup_insert_ne; [done|]. intros Heq.
        assert (f = g) as -> by lia. congruence. }
    split_and!; try congruence.
    + intros q' Hq'. rewrite Hdisk'.
      * rewrite Hdisk1. apply lookup_insert_ne. intros <-.
        destruct Hq' as [Hq'|Hq']; [|done]. apply Hq'. simpl. left.
      * destruct Hq' as [Hq'|Hq']; [left|by right].
        intros Hin. apply Hq'. simpl. by right.
    + intros p f pg Hp Hpg. rewrite <- Htable1 in Hp.
      pose proof (Hpg1 p f pg ltac:(by rewrite <- Htable1) Hpg) as Hb1.
      destruct (Hpages' p f _ Hp Hb1) as [Hcase Hin].
      split.
      * destruct (decide (p = q)); destruct Hcase as [->| ->]; eauto.
      * intros Hp' Hpv. simpl in Hp'.
        destruct (decide (p ∈ l.*1)) as [Hinl|Hnotin].
        -- destruct (Hin Hinl Hpv) as [-> ->]. by destruct (decide (p = q)).
        -- apply elem_of_cons in Hp' as [->|Hp']; [|done].
           rewrite decide_True in Hcase, Hb1 by done.
           assert (pg = pgq) as ->.
           { rewrite Htable1, Hq in Hp. injection Hp as <-. congruence. }
           split.
           ++ by destruct Hcase as [->| ->].
           ++ rewrite Hdisk' by (by left). rewrite Hdisk1. apply lookup_insert_eq.
Qed.

(** X18. In a state reached from a new pool, [FlushAllPages] returns and
    leaves every resident page clean and on the disk, whatever the order in
    which it goes through the page table; the page table, the replacer and
    the free list are as before.  The one exception is a page resident under
    the invalid id, which [FlushPage] refuses. *)
Theorem FlushAllPages_writes_every_resident_page (pool_size replacer_k : Z)
    (disk : gmap Z (list Byte.byte)) (ops : list Op) (ids : list Z)
    (b : BufferPoolManager) :
  0 ≤ pool_size → pool_size + 1 < SIZE_MAX →
  run ops (new pool_size replacer_k disk) = Ok (ids, b) →
  ∃ b', FlushAllPages b = Ok b' ∧
        page_table_ b' = page_table_ b ∧ replacer_ b' = replacer_ b ∧
        free_list_ b' = free_list_ b ∧
        ∀ p f pg, page_table_ b !! p = Some f → pages_ b !! Z.to_nat f = Some pg →
                  p ≠ INVALID_PAGE_ID →
                  pages_ b' !! Z.to_nat f = Some (Page.set_is_dirty false pg) ∧
                  disk_ b' !! p = Some (Page.data_ pg).
Proof.
  intros Hpos Hsmall Hrun.
  destruct (reachable_pool_inv _ _ _ _ _ _ Hpos Hsmall Hrun) as [Hinv _].
  destruct (flush_loop (unordered_iter (page_table_ b)) b Hinv)
    as (b' & Hfl & _ & Htable & Hrep & Hfree & _ & Hpages).
  { intros [q g] Hx. rewrite unordered_iter_perm in Hx. by apply elem_of_map_to_list in Hx. }
  exists b'. split; [exact Hfl|]. split_and!; try done.
  intros p f pg Hp Hpg Hvalid. apply (Hpages p f pg Hp Hpg); [|done].
  apply list_elem_of_fmap. exists (p, f). split; [done|].
  rewrite unordered_iter_perm. by apply elem_of_map_to_list.
Qed.

End Flush.

(** *** A page goes to the disk and comes back *)

Section RoundTrip.
Context `{StdLib} `{Clock}.

(** X19. In a state reached from a new pool of at most [INT_MAX] frames, a
    resident page that is not pinned can be flushed, deleted and fetched
    again, and comes back with the data it had: [FlushPage] and [DeletePage] return [true], [FetchPage]
    returns a frame, and that frame holds the data under the page id, pinned
    once and clean. *)
Theorem flushed_page_comes_back (pool_size replacer_k : Z)
    (disk : gmap Z (list Byte.byte)) (ops : list Op) (ids : list Z)
    (b : BufferPoolManager) (p f : Z) (pg : Page.t) :
  0 ≤ pool_size → pool_size ≤ INT_MAX →
  run ops (new pool_size replacer_k disk) = Ok (ids, b) →
  page_table_ b !! p = Some f → pages_ b !! Z.to_nat f = Some pg →
  p ≠ INVALID_PAGE_ID → Page.pin_count_ pg = 0 →
  ∃ b1 b2 b3 f',
    FlushPage p b = Ok (true, b1) ∧
    DeletePage p b1 = Ok (true, b2) ∧
    FetchPage p b2 = Ok (Some f', b3) ∧
    pages_ b3 !! Z.to_nat f' =
      Some (Page.set_pin_count 1
              (Page.set_data (Page.data_ pg) (Page.set_page_id p Page.blank))).
Proof.
  intros Hpos Hsmall Hrun Hp Hpg Hvalid Hunpinned.
  destruct (reachable_pool_inv _ _ _ _ _ _ Hpos (INT_MAX_small _ Hsmall) Hrun) as [Hinv _].
  pose proof (reachable_clean _ _ _ _ _ _ Hpos Hsmall Hrun) as Hclean.
  pose proof Hinv as (Hres & _).
  destruct (Hres p f Hp) as (Hf0 & pg' & _ & Hpg' & Hid & _).
  rewrite Hpg in Hpg'. injection Hpg' as <-.
  (* FlushPage *)
  destruct (FlushPage_pool p b Hinv) as (ok1 & b1 & Hflush & Hinv1 & Htable1 & Hclean1).
  specialize (Hclean1 Hclean).
  pose proof (FlushPage_inv _ _ _ _ Hflush) as Hf1.
  rewrite decide_False, Hp in Hf1 by done.
  destruct Hf1 as (-> & pg' & Hpg' & Hdisk1 & Hpages1 & _).
  rewrite Hpg in Hpg'. injection Hpg' as <-. rewrite Hid in Hdisk1.
  (* DeletePage *)
  destruct (DeletePage_pool p b1 Hinv1) as (ok2 & b2 & Hdelete & Hinv2 & Hclean2).
  specialize (Hclean2 Hclean1).
  pose proof (DeletePage_inv _ _ _ _ Hdelete) as Hd2.
  rewrite Htable1, Hp in Hd2. destruct Hd2 as (pg1 & Hpg1 & Hd2).
  rewrite Hpages1, list_lookup_insert_eq in Hpg1 by (by eapply lookup_lt_Some).
  injection Hpg1 as <-.
  rewrite decide_False in Hd2 by (simpl; lia).
  destruct Hd2 as (-> & Htable2 & Hfree2 & _ & Hdisk2 & _).
  (* FetchPage *)
  destruct (FetchPage_pool p b2 Hinv2) as (got & b3 & Hfetch & _).
  { intros _. by apply clean_ready. }
  assert (page_table_ b2 !! p = None) as Hmiss.
  { rewrite Htable2. apply lookup_delete_eq. }
  assert (∃ f', got = Some f') as [f' ->].
  { destruct got as [f'|]; [eauto|]. exfalso.
    unfold FetchPage in Hfetch. rewrite Hmiss in Hfetch.
    apply bind_Ok in Hfetch as ([got1 b21] & Hnf & Hfetch).
    destruct got1 as [g|].
    - apply bind_Ok in Hfetch as (? & _ & Hfetch).
      apply bind_Ok in Hfetch as (? & _ & Hfetch). unfold pin_and_record in Hfetch.
      apply bind_Ok in Hfetch as (? & _ & Hfetch). done.
    - unfold NewFrame in Hnf. apply bind_Ok in Hnf as ([got2 b22] & Ha & Hnf).
      destruct got2 as [g|].
      + apply bind_Ok in Hnf as (? & _ & Hnf). done.
      + unfold acquire_frame in Ha. rewrite Hfree2 in Ha.
        destruct (free_list_ b1 ++ [f]) eqn:Happ; [|done].
        by apply app_nil in Happ as [_ ?]. }
  exists b1, b2, b3, f'. split_and!; try done.
  apply FetchPage_Some_inv in Hfetch. rewrite Hmiss in Hfetch.
  destruct Hfetch as (Hpg3 & _ & _ & Hdisk3).
  rewrite Hpg3, Hdisk3, Hdisk2, Hdisk1, lookup_insert_eq; [done|].
  rewrite Hfree2. intros Happ. by apply app_nil in Happ as [_ ?].
Qed.

End RoundTrip.

(** *** The page ids of a run *)

Section Ids.
Context `{StdLib} `{Clock}.

(** X20. The page ids that [NewPage] hands out in a run are strictly
    increasing, so none is handed out twice, also not after [DeletePage];
    all of them lie between the values of the allocator before and after
    the run. *)
Theorem page_ids_strictly_increase (ops : list Op) (b b' : BufferPoolManager)
    (ids : list Z) :
  run ops b = Ok (ids, b') →
  StronglySorted Z.lt ids ∧ NoDup ids ∧
  ∀ id, id ∈ ids → next_page_id_ b ≤ id < next_page_id_ b'.
Proof.
  intros Hrun.
  assert (StronglySorted Z.lt ids) as Hsorted.
  { revert b b' ids Hrun. induction ops as [|o ops IH]; simpl; intros b b' ids Hrun.
    - injection Hrun as <- _. constructor.
    - apply bind_Ok in Hrun as ([ids1 b1] & Hs & Hrun).
      apply bind_Ok in Hrun as ([ids2 b2] & Hr2 & Hrun). injection Hrun as <- _.
      pose proof (IH _ _ _ Hr2) as Hsorted2.
      apply run_next_page_id in Hr2 as [_ Hids2].
      pose proof (step_next_page_id _ _ _ _ Hs) as [_ Hids1].
      assert (ids1 = [] ∨ ∃ id, ids1 = [id]) as [->|[id ->]].
      { destruct o; simpl in Hs; apply bind_Ok in Hs as (x & _ & Hs);
          try (destruct x; injection Hs as <- _; by left).
        destruct x as [[[? ?]|] ?]; injection Hs as <- _; [right; eauto|by left]. }
      + done.
      + simpl. constructor; [done|]. apply Forall_forall. intros id2 Hid2.
        specialize (Hids1 id ltac:(left)). specialize (Hids2 id2 Hid2). lia. }
  split; [done|]. split.
  - clear -Hsorted. induction Hsorted as [|x l Hl IH Hx]; constructor; [|done].
    intros Hin. rewrite Forall_forall in Hx. specialize (Hx x Hin). lia.
  - by apply run_next_page_id in Hrun as [_ ?].
Qed.

End Ids.

(** ** When no frame can be had *)

Section Full.
Context `{StdLib} `{Clock}.

Lemma acquire_frame_None_iff (b : BufferPoolManager) :
  pool_inv b →
  (∃ b', acquire_frame b = Ok (None, b')) ↔
  free_list_ b = [] ∧ ∀ f, evictable_of f b ≠ Some true.
Proof.
  intros (_ & _ & _ & Hnodes & _). unfold acquire_frame, tick, evictable_of.
  destruct (free_list_ b) as [|g rest] eqn:Hfree.
  - cbn [replacer_ with_clock]. split.
    + intros [b' Ha]. split; [done|]. intros f Hf.
      destruct (LRUK.node_store_ (replacer_ b) !! f) as [n|] eqn:Hn; [|done].
      injection Hf as He.
      destruct (ReplacerRuns.Evict_finds_evictable (system_clock_now (clock_ b))
                  (replacer_ b) f n) as (v & r' & Hev); [|done|done|].
      { intros g m Hm. destruct (Hnodes g m Hm) as [[Hg _] Hh]. done. }
      rewrite Hev in Ha. cbn [mbind result_bind] in Ha.
      apply bind_Ok in Ha as (pg & _ & Ha). by destruct (Page.is_dirty_ pg).
    + intros [_ Hnone]. rewrite (LRUKFacts.Evict_nothing_evictable _ (replacer_ b)).
      * simpl. eauto.
      * intros f n Hn. split; [by destruct (Hnodes f n Hn)|].
        specialize (Hnone f). rewrite Hn in Hnone. simpl in Hnone.
        by destruct (Node.is_evictable_ n).
  - split; [by intros [b' Ha]|by intros [? _]].
Qed.

Lemma NewFrame_None_iff (page_id : Z) (b : BufferPoolManager) :
  pool_inv b →
  (∃ b', NewFrame page_id b = Ok (None, b')) ↔
  free_list_ b = [] ∧ ∀ f, evictable_of f b ≠ Some true.
Proof.
  intros Hinv. rewrite <- (acquire_frame_None_iff b Hinv). unfold NewFrame. split.
  - intros [b' Hn]. apply bind_Ok in Hn as ([got b0] & Ha & Hn).
    destruct got as [f|]; [|eauto].
    apply bind_Ok in Hn as (b1 & _ & Hn). done.
  - intros [b' Ha]. rewrite Ha. simpl. eauto.
Qed.

(** X21. In a state reached from a new pool, [NewPage] returns [nullptr]
    exactly when the free list is empty and the replacer holds no evictable
    frame, and so does [FetchPage] for a page that is not resident; for a
    resident page [FetchPage] never returns [nullptr]. *)
Theorem nullptr_iff_no_frame_to_take (pool_size replacer_k : Z)
    (disk : gmap Z (list Byte.byte)) (ops : list Op) (ids : list Z)
    (b : BufferPoolManager) :
  0 ≤ pool_size → pool_size + 1 < SIZE_MAX →
  run ops (new pool_size replacer_k disk) = Ok (ids, b) →
  ((∃ b', NewPage b = Ok (None, b')) ↔
   free_list_ b = [] ∧ ∀ f, evictable_of f b ≠ Some true) ∧
  ∀ page_id,
    (∃ b', FetchPage page_id b = Ok (None, b')) ↔
    page_table_ b !! page_id = None ∧
    free_list_ b = [] ∧ ∀ f, evictable_of f b ≠ Some true.
Proof.
  intros Hpos Hsmall Hrun.
  destruct (reachable_pool_inv _ _ _ _ _ _ Hpos Hsmall Hrun) as [Hinv _]. split.
  - rewrite <- (NewFrame_None_iff (next_page_id_ b) (AllocatePage b).2) by exact Hinv.
    unfold NewPage. cbn [AllocatePage snd]. split.
    + intros [b' Hn]. apply bind_Ok in Hn as ([got b0] & Hf & Hn).
      destruct got as [f|]; [|eauto].
      apply bind_Ok in Hn as (b1 & _ & Hn). apply bind_Ok in Hn as (b2 & _ & Hn). done.
    + intros [b' Hf]. rewrite Hf. simpl. eauto.
  - intros page_id. unfold FetchPage.
    destruct (page_table_ b !! page_id) as [f|] eqn:Hp.
    + split; [|by intros [? _]]. intros [b' Hf]. unfold pin_and_record in Hf.
      apply bind_Ok in Hf as (b1 & _ & Hf). done.
    + rewrite <- (NewFrame_None_iff page_id b Hinv). split.
      * intros [b' Hn]. split; [done|]. apply bind_Ok in Hn as ([got b0] & Hf & Hn).
        destruct got as [f|]; [|eauto].
        apply bind_Ok in Hn as (b1 & _ & Hn). apply bind_Ok in Hn as (pg & _ & Hn).
        unfold pin_and_record in Hn. apply bind_Ok in Hn as (b2 & _ & Hn). done.
      * intros [_ [b' Hf]]. rewrite Hf. simpl. eauto.
Qed.

End Full.

(** ** The theorems on concrete pools

    The runs below take the reference implementation of the library
    interface and the clock that advances by one nanosecond per reading. *)

#[local] Existing Instance sample_clock.

(** The pool of one frame after [NewFrame] for page 5; after [NewPage] and
    [UnpinPage] with [is_dirty = true]; after [FlushPage] of that page; and
    after [DeletePage] of it. *)
Definition pool1_frame : BufferPoolManager :=
  match NewFrame 5 pool1 with Ok (_, b) => b | _ => pool1 end.
Definition pool1_unpinned : BufferPoolManager :=
  match UnpinPage 0 true pool1_new with Ok (_, b) => b | _ => pool1 end.
Definition pool1_flushed : BufferPoolManager :=
  match FlushPage 0 pool1_unpinned with Ok (_, b) => b | _ => pool1 end.
Definition pool1_deleted : BufferPoolManager :=
  match DeletePage 0 pool1_flushed with Ok (_, b) => b | _ => pool1 end.

Lemma NewFrame_takes_free_frame_or_victim_witness :
  NewFrame 5 pool1 = Ok (Some 0, pool1_frame) ∧
  pages_ pool1_frame !! Z.to_nat 0 = Some (Page.set_page_id 5 Page.blank) ∧
  match free_list_ pool1 with
  | g :: rest =>
      0 = g ∧ free_list_ pool1_frame = rest ∧ disk_ pool1_frame = disk_ pool1 ∧
      page_table_ pool1_frame = page_table_ pool1 ∧
      replacer_ pool1_frame =
        LRUK.RecordAccess (system_clock_now (clock_ pool1)) 0 (replacer_ pool1)
  | [] =>
      ∃ pg, pages_ pool1 !! Z.to_nat 0 = Some pg ∧
            evictable_of 0 pool1 = Some true ∧
            disk_ pool1_frame = (if Page.is_dirty_ pg
                                 then <[Page.page_id_ pg := Page.data_ pg]> (disk_ pool1)
                                 else disk_ pool1) ∧
            page_table_ pool1_frame = delete (Page.page_id_ pg) (page_table_ pool1) ∧
            free_list_ pool1_frame = [] ∧
            history_of 0 (replacer_ pool1_frame) =
              Some [to_size_t (system_clock_now (S (clock_ pool1)))]
  end.
Proof.
  assert (NewFrame 5 pool1 = Ok (Some 0, pool1_frame)) as Hnf by (vm_compute; reflexivity).
  split; [exact Hnf|].
  exact (NewFrame_takes_free_frame_or_victim 5 pool1 pool1_frame 0 Hnf).
Defined.

Lemma NewPage_returns_blank_pinned_page_witness :
  NewPage pool1 = Ok (Some (0, 0), pool1_new) ∧
  0 = next_page_id_ pool1 ∧ next_page_id_ pool1_new = 0 + 1 ∧
  pages_ pool1_new !! Z.to_nat 0 = Some (Page.set_pin_count 1 (Page.set_page_id 0 Page.blank)) ∧
  page_table_ pool1_new !! 0 = Some 0 ∧
  evictable_of 0 pool1_new = Some false.
Proof.
  assert (NewPage pool1 = Ok (Some (0, 0), pool1_new)) as Hnew by (vm_compute; reflexivity).
  split; [exact Hnew|].
  exact (NewPage_returns_blank_pinned_page pool1 pool1_new 0 0 Hnew).
Defined.

Lemma FetchPage_returns_pinned_page_witness :
  FetchPage 7 pool1 = Ok (Some 0, pool1_fetched) ∧
  match page_table_ pool1 !! 7 with
  | Some g =>
      0 = g ∧
      ∃ pg, pages_ pool1 !! Z.to_nat g = Some pg ∧
            pages_ pool1_fetched =
              <[Z.to_nat g := Page.set_pin_count (Page.pin_count_ pg + 1) pg]> (pages_ pool1) ∧
            page_table_ pool1_fetched = page_table_ pool1 ∧
            disk_ pool1_fetched = disk_ pool1 ∧
            free_list_ pool1_fetched = free_list_ pool1
  | None =>
      pages_ pool1_fetched !! Z.to_nat 0 =
        Some (Page.set_pin_count 1
                (Page.set_data (default (Page.data_ Page.blank) (disk_ pool1_fetched !! 7))
                   (Page.set_page_id 7 Page.blank))) ∧
      page_table_ pool1_fetched !! 7 = Some 0 ∧
      evictable_of 0 pool1_fetched = Some false ∧
      (free_list_ pool1 ≠ [] → disk_ pool1_fetched = disk_ pool1)
  end.
Proof.
  assert (FetchPage 7 pool1 = Ok (Some 0, pool1_fetched)) as Hmiss
    by (vm_compute; reflexivity).
  split; [exact Hmiss|].
  exact (FetchPage_returns_pinned_page 7 pool1 pool1_fetched 0 Hmiss).
Defined.

Lemma UnpinPage_releases_one_pin_witness :
  UnpinPage 0 true pool1_new = Ok (true, pool1_unpinned) ∧
  match page_table_ pool1_new !! 0 with
  | None => true = false ∧ pool1_unpinned = pool1_new
  | Some f =>
      ∃ pg, pages_ pool1_new !! Z.to_nat f = Some pg ∧
        if decide (Page.pin_count_ pg ≤ 0) then true = false ∧ pool1_unpinned = pool1_new
        else true = true ∧
             pages_ pool1_unpinned =
               <[Z.to_nat f := Page.set_is_dirty true
                                 (Page.set_pin_count (Page.pin_count_ pg - 1) pg)]>
                 (pages_ pool1_new) ∧
             page_table_ pool1_unpinned = page_table_ pool1_new ∧
             disk_ pool1_unpinned = disk_ pool1_new ∧
             free_list_ pool1_unpinned = free_list_ pool1_new ∧
             next_page_id_ pool1_unpinned = next_page_id_ pool1_new ∧
             if decide (Page.pin_count_ pg = 1) then evictable_of f pool1_unpinned = Some true
             else replacer_ pool1_unpinned = replacer_ pool1_new
  end.
Proof.
  assert (UnpinPage 0 true pool1_new = Ok (true, pool1_unpinned)) as Hunpin
    by (vm_compute; reflexivity).
  split; [exact Hunpin|].
  exact (UnpinPage_releases_one_pin 0 true pool1_new pool1_unpinned true Hunpin).
Defined.

Lemma FlushPage_writes_frame_to_disk_witness :
  FlushPage 0 pool1_unpinned = Ok (true, pool1_flushed) ∧
  if decide (0 = INVALID_PAGE_ID) then true = false ∧ pool1_flushed = pool1_unpinned
  else match page_table_ pool1_unpinned !! 0 with
       | None => true = false ∧ pool1_flushed = pool1_unpinned
       | Some f =>
           true = true ∧
           ∃ pg, pages_ pool1_unpinned !! Z.to_nat f = Some pg ∧
                 disk_ pool1_flushed =
                   <[Page.page_id_ pg := Page.data_ pg]> (disk_ pool1_unpinned) ∧
                 pages_ pool1_flushed =
                   <[Z.to_nat f := Page.set_is_dirty false pg]> (pages_ pool1_unpinned) ∧
                 page_table_ pool1_flushed = page_table_ pool1_unpinned ∧
                 replacer_ pool1_flushed = replacer_ pool1_unpinned ∧
                 free_list_ pool1_flushed = free_list_ pool1_unpinned ∧
                 next_page_id_ pool1_flushed = next_page_id_ pool1_unpinned
       end.
Proof.
  assert (FlushPage 0 pool1_unpinned = Ok (true, pool1_flushed)) as Hflush
    by (vm_compute; reflexivity).
  split; [exact Hflush|].
  exact (FlushPage_writes_frame_to_disk 0 pool1_unpinned pool1_flushed true Hflush).
Defined.

Lemma DeletePage_frees_frame_without_writing_witness :
  DeletePage 0 pool1_flushed = Ok (true, pool1_deleted) ∧
  match page_table_ pool1_flushed !! 0 with
  | None => true = true ∧ pool1_deleted = pool1_flushed
  | Some f =>
      ∃ pg, pages_ pool1_flushed !! Z.to_nat f = Some pg ∧
        if decide (Page.pin_count_ pg > 0) then true = false ∧ pool1_deleted = pool1_flushed
        else true = true ∧
             page_table_ pool1_deleted = delete 0 (page_table_ pool1_flushed) ∧
             free_list_ pool1_deleted = free_list_ pool1_flushed ++ [f] ∧
             pages_ pool1_deleted = <[Z.to_nat f := Page.blank]> (pages_ pool1_flushed) ∧
             disk_ pool1_deleted = disk_ pool1_flushed ∧
             next_page_id_ pool1_deleted = next_page_id_ pool1_flushed ∧
             evictable_of f pool1_flushed ≠ Some false ∧
             LRUK.node_store_ (replacer_ pool1_deleted) !! f = None
  end.
Proof.
  assert (DeletePage 0 pool1_flushed = Ok (true, pool1_deleted)) as Hdelete
    by (vm_compute; reflexivity).
  split; [exact Hdelete|].
  exact (DeletePage_frees_frame_without_writing 0 pool1_flushed pool1_deleted true Hdelete).
Defined.

(** A run on a pool of two frames: page 0 is made and unpinned dirty, page 7
    is fetched, everything is flushed, page 0 is deleted, and two more pages
    are made, the second of which finds no frame. *)
Definition pool2_ops : list Op :=
  [OpNewPage; OpUnpinPage 0 true; OpFetchPage 7; OpFlushAllPages; OpDeletePage 0;
   OpNewPage; OpNewPage; OpUnpinPage 1 false].

Definition pool2_ids : list Z :=
  match run pool2_ops (new 2 2 ∅) with Ok (ids, _) => ids | _ => [] end.
Definition pool2 : BufferPoolManager :=
  match run pool2_ops (new 2 2 ∅) with Ok (_, b) => b | _ => new 2 2 ∅ end.

Lemma pool2_run : run pool2_ops (new 2 2 ∅) = Ok (pool2_ids, pool2).
Proof. vm_compute. reflexivity. Qed.

Lemma pool_calls_always_return_witness :
  0 ≤ 2 ∧ 2 ≤ INT_MAX ∧ is_Ok (run pool2_ops (new 2 2 ∅)).
Proof.
  assert (0 ≤ 2) as Hpos by lia.
  assert (2 ≤ INT_MAX) as Hsmall by (vm_compute; discriminate).
  split; [exact Hpos|]. split; [exact Hsmall|].
  exact (pool_calls_always_return 2 2 ∅ pool2_ops Hpos Hsmall).
Defined.

Lemma page_table_and_frames_agree_witness :
  0 ≤ 2 ∧ 2 + 1 < SIZE_MAX ∧ run pool2_ops (new 2 2 ∅) = Ok (pool2_ids, pool2) ∧
  (∀ p f, page_table_ pool2 !! p = Some f →
     0 ≤ f < 2 ∧
     ∃ pg, pages_ pool2 !! Z.to_nat f = Some pg ∧ Page.page_id_ pg = p ∧
           0 ≤ Page.pin_count_ pg) ∧
  (∀ p q f, page_table_ pool2 !! p = Some f → page_table_ pool2 !! q = Some f → p = q) ∧
  length (pages_ pool2) = Z.to_nat 2 ∧
  2 ≤ INT_MAX ∧
  (∀ f, f ∈ free_list_ pool2 → 0 ≤ f < 2 ∧ ∀ p, page_table_ pool2 !! p ≠ Some f) ∧
  NoDup (free_list_ pool2).
Proof.
  assert (0 ≤ 2) as Hpos by lia.
  assert (2 + 1 < SIZE_MAX) as Hsmall by reflexivity.
  assert (2 ≤ INT_MAX) as Hint by (vm_compute; discriminate).
  split; [exact Hpos|]. split; [exact Hsmall|]. split; [exact pool2_run|].
  destruct (page_table_and_frames_agree 2 2 ∅ pool2_ops pool2_ids pool2 Hpos Hsmall pool2_run)
    as (Hres & Hinj & Hlen & Hfree).
  split; [exact Hres|]. split; [exact Hinj|]. split; [exact Hlen|]. split; [exact Hint|].
  exact (Hfree Hint).
Defined.

Lemma unpinned_resident_frames_are_evictable_witness :
  0 ≤ 2 ∧ 2 + 1 < SIZE_MAX ∧ run pool2_ops (new 2 2 ∅) = Ok (pool2_ids, pool2) ∧
  ∀ p f, page_table_ pool2 !! p = Some f →
    ∃ c e, pin_count_of f pool2 = Some c ∧ evictable_of f pool2 = Some e ∧
           (c = 0 → e = true) ∧ (e = false → 0 < c).
Proof.
  assert (0 ≤ 2) as Hpos by lia.
  assert (2 + 1 < SIZE_MAX) as Hsmall by reflexivity.
  split; [exact Hpos|]. split; [exact Hsmall|]. split; [exact pool2_run|].
  exact (unpinned_resident_frames_are_evictable 2 2 ∅ pool2_ops pool2_ids pool2
           Hpos Hsmall pool2_run).
Defined.

Lemma FlushAllPages_writes_every_resident_page_witness :
  0 ≤ 2 ∧ 2 + 1 < SIZE_MAX ∧ run pool2_ops (new 2 2 ∅) = Ok (pool2_ids, pool2) ∧
  ∃ b', FlushAllPages pool2 = Ok b' ∧
        page_table_ b' = page_table_ pool2 ∧ replacer_ b' = replacer_ pool2 ∧
        free_list_ b' = free_list_ pool2 ∧
        ∀ p f pg, page_table_ pool2 !! p = Some f → pages_ pool2 !! Z.to_nat f = Some pg →
                  p ≠ INVALID_PAGE_ID →
                  pages_ b' !! Z.to_nat f = Some (Page.set_is_dirty false pg) ∧
                  disk_ b' !! p = Some (Page.data_ pg).
Proof.
  assert (0 ≤ 2) as Hpos by lia.
  assert (2 + 1 < SIZE_MAX) as Hsmall by reflexivity.
  split; [exact Hpos|]. split; [exact Hsmall|]. split; [exact pool2_run|].
  exact (FlushAllPages_writes_every_resident_page 2 2 ∅ pool2_ops pool2_ids pool2
           Hpos Hsmall pool2_run).
Defined.

(** The page in frame 0 at the end of that run: page 1, made by the second
    [NewPage] and unpinned since *)
Definition pool2_page : Page.t := default Page.blank (pages_ pool2 !! 0%nat).

Lemma flushed_page_comes_back_witness :
  0 ≤ 2 ∧ 2 ≤ INT_MAX ∧ run pool2_ops (new 2 2 ∅) = Ok (pool2_ids, pool2) ∧
  page_table_ pool2 !! 1 = Some 0 ∧ pages_ pool2 !! Z.to_nat 0 = Some pool2_page ∧
  1 ≠ INVALID_PAGE_ID ∧ Page.pin_count_ pool2_page = 0 ∧
  ∃ b1 b2 b3 f',
    FlushPage 1 pool2 = Ok (true, b1) ∧
    DeletePage 1 b1 = Ok (true, b2) ∧
    FetchPage 1 b2 = Ok (Some f', b3) ∧
    pages_ b3 !! Z.to_nat f' =
      Some (Page.set_pin_count 1
              (Page.set_data (Page.data_ pool2_page) (Page.set_page_id 1 Page.blank))).
Proof.
  assert (0 ≤ 2) as Hpos by lia.
  assert (2 ≤ INT_MAX) as Hsmall by (vm_compute; discriminate).
  assert (page_table_ pool2 !! 1 = Some 0) as Hres by (vm_compute; reflexivity).
  assert (pages_ pool2 !! Z.to_nat 0 = Some pool2_page) as Hpg by (vm_compute; reflexivity).
  assert (1 ≠ INVALID_PAGE_ID) as Hvalid by done.
  assert (Page.pin_count_ pool2_page = 0) as Hpin by (vm_compute; reflexivity).
  split; [exact Hpos|]. split; [exact Hsmall|]. split; [exact pool2_run|].
  split; [exact Hres|]. split; [exact Hpg|]. split; [exact Hvalid|]. split; [exact Hpin|].
  exact (flushed_page_comes_back 2 2 ∅ pool2_ops pool2_ids pool2 1 0 pool2_page
           Hpos Hsmall pool2_run Hres Hpg Hvalid Hpin).
Defined.

Lemma page_ids_strictly_increase_witness :
  run pool2_ops (new 2 2 ∅) = Ok (pool2_ids, pool2) ∧
  StronglySorted Z.lt pool2_ids ∧ NoDup pool2_ids ∧
  ∀ id, id ∈ pool2_ids → next_page_id_ (new 2 2 ∅) ≤ id < next_page_id_ pool2.
Proof.
  split; [exact pool2_run|].
  exact (page_ids_strictly_increase pool2_ops (new 2 2 ∅) pool2 pool2_ids pool2_run).
Defined.

(** What that run leaves: pages 7 and 1 are resident, page 0 is gone, two
    ids were handed out and the allocator stands at 3. *)
Lemma nullptr_iff_no_frame_to_take_witness :
  0 ≤ 2 ∧ 2 + 1 < SIZE_MAX ∧ run pool2_ops (new 2 2 ∅) = Ok (pool2_ids, pool2) ∧
  ((∃ b', NewPage pool2 = Ok (None, b')) ↔
   free_list_ pool2 = [] ∧ ∀ f, evictable_of f pool2 ≠ Some true) ∧
  ∀ page_id,
    (∃ b', FetchPage page_id pool2 = Ok (None, b')) ↔
    page_table_ pool2 !! page_id = None ∧
    free_list_ pool2 = [] ∧ ∀ f, evictable_of f pool2 ≠ Some true.
Proof.
  assert (0 ≤ 2) as Hpos by lia.
  assert (2 + 1 < SIZE_MAX) as Hsmall by reflexivity.
  split; [exact Hpos|]. split; [exact Hsmall|]. split; [exact pool2_run|].
  exact (nullptr_iff_no_frame_to_take 2 2 ∅ pool2_ops pool2_ids pool2
           Hpos Hsmall pool2_run).
Defined.

Example pool2_state :
  pool2_ids = [0; 1] ∧ next_page_id_ pool2 = 3 ∧
  page_table_ pool2 !! 7 = Some 1 ∧ page_table_ pool2 !! 1 = Some 0 ∧
  page_table_ pool2 !! 0 = None ∧ free_list_ pool2 = [].
Proof. vm_compute. done. Qed.

End PoolInvariant.

(** * Further properties of the persistent trie *)

Module TrieMap.
Import Trie TrieFacts.

(** ** What [Get] returns

    [Get] follows the key from the root and returns the value of the node it
    ends at, when that node holds a value of the requested type.  For the
    empty key it asks the root whether it is a value node first. *)

(** The value of type [T] that the key leads to from the node at [a] *)
Definition sem (T : value_type) (h : Heap) (a : nat) (key : list ascii) : option value :=
  n ← walk h a key; cast T n.

(** The value of type [T] that the trie holds for the key *)
Definition lookup (T : value_type) (h : Heap) (tr : t) (key : list ascii) : option value :=
  match root_ tr with
  | None => None
  | Some r =>
      match key with
      | [] => n ← cells h !! r; if is_value_node_ n then cast T n else None
      | _ => sem T h r key
      end
  end.

Lemma get_walk_sem (T : value_type) (h : Heap) (a : nat) (key : list ascii) :
  closed h → is_Some (cells h !! a) → key ≠ [] →
  get_walk T h a key = Ok (sem T h a key).
Proof.
  intros Hcl. revert a. induction key as [|c rest IH]; [done|].
  intros a [cur Hcur] _. unfold sem. cbn [get_walk walk]. unfold deref. rewrite Hcur.
  cbn [mbind result_bind option_bind].
  destruct (decide (children_ cur = ∅)) as [Hempty|Hne].
  { rewrite Hempty, lookup_empty. done. }
  destruct (children_ cur !! c) as [child|] eqn:Hchild; [|done].
  cbn [mbind option_bind].
  destruct (Hcl _ _ _ _ Hcur Hchild) as [childn Hchildn].
  destruct rest as [|c' rest'].
  - cbn [walk]. rewrite Hchildn. done.
  - rewrite IH by eauto. done.
Qed.

Lemma Get_lookup (T : value_type) (key : list ascii) (tr : t) (h : Heap) :
  wf h → root_ok tr h → Get T key tr h = Ok (lookup T h tr key).
Proof.
  intros [_ Hcl] Hroot. unfold Get, lookup.
  destruct (root_ tr) as [r|] eqn:Hr; [|by destruct key].
  destruct (Hroot r Hr) as [root Hrootn]. unfold deref. rewrite Hrootn.
  cbn [mbind result_bind option_bind].
  destruct key as [|c rest]; [by destruct (is_value_node_ root)|].
  destruct (decide (children_ root = ∅)) as [Hempty|Hne].
  - unfold sem. cbn [walk]. rewrite Hrootn. cbn [mbind option_bind].
    by rewrite Hempty, lookup_empty.
  - apply get_walk_sem; [done|eauto|done].
Qed.

(** X22. On a heap without dangling pointers [Get] returns, and what it
    returns is the value of the node the key leads to from the root, under
    the requested type: nothing when the trie is empty, when the path breaks
    off, when the node holds no value, or when the value is of another
    type. *)
Theorem Get_returns_value_at_key (T : value_type) (key : list ascii) (tr : t) (h : Heap) :
  wf h → root_ok tr h → Get T key tr h = Ok (lookup T h tr key).
Proof. apply Get_lookup. Qed.

(** ** [Put] changes one key *)

Lemma sem_nil (T : value_type) (h : Heap) (a : nat) :
  sem T h a [] = n ← cells h !! a; cast T n.
Proof. done. Qed.

Lemma sem_cons (T : value_type) (h : Heap) (a : nat) (n : TrieNode) (c : ascii)
    (rest : list ascii) :
  cells h !! a = Some n →
  sem T h a (c :: rest) =
    match children_ n !! c with Some b => sem T h b rest | None => None end.
Proof.
  intros Ha. unfold sem. cbn [walk]. rewrite Ha. cbn [mbind option_bind].
  by destruct (children_ n !! c).
Qed.

(** The nodes below [base] only point to nodes below [base]. *)
Definition old_closed (base : nat) (h : Heap) : Prop :=
  ∀ a n c b, (a < base)%nat → cells h !! a = Some n → children_ n !! c = Some b →
             (b < base)%nat.

Lemma wf_old_closed (h : Heap) : wf h → old_closed (next_addr h) h.
Proof.
  intros [Hok Hcl] a n c b _ Ha Hb. apply Hok. by eapply Hcl.
Qed.

Lemma old_closed_grows (base : nat) (h h' : Heap) :
  old_closed base h → grows base h h' → old_closed base h'.
Proof.
  intros Hold [_ Hsame] a n c b Ha Hn Hb. rewrite Hsame in Hn by done. by eapply Hold.
Qed.

Lemma sem_old (T : value_type) (base : nat) (h h' : Heap) (a : nat) (key : list ascii) :
  old_closed base h → grows base h h' → (a < base)%nat →
  sem T h' a key = sem T h a key.
Proof.
  intros Hold [_ Hsame]. revert a. induction key as [|c rest IH]; intros a Ha.
  - by rewrite !sem_nil, Hsame.
  - unfold sem. cbn [walk]. rewrite Hsame by done.
    destruct (cells h !! a) as [n|] eqn:Hn; [|done]. cbn [mbind option_bind].
    destruct (children_ n !! c) as [b|] eqn:Hb; [|done]. cbn [mbind option_bind].
    apply IH. by eapply Hold.
Qed.

(** A copy of a node whose children are old leads where the node led. *)
Lemma sem_copy (T : value_type) (base : nat) (h h' : Heap) (x y : nat) (n n' : TrieNode)
    (key : list ascii) :
  old_closed base h → grows base h h' →
  cells h !! y = Some n → cells h' !! x = Some n' →
  children_ n' = children_ n → (key = [] → value_ n' = value_ n) →
  (∀ c b, children_ n !! c = Some b → (b < base)%nat) →
  sem T h' x key = sem T h y key.
Proof.
  intros Hold Hg Hy Hx Hch Hval Hchildren. destruct key as [|c rest].
  - rewrite !sem_nil, Hx, Hy. unfold cast. cbn [mbind option_bind]. by rewrite Hval.
  - rewrite (sem_cons T h' x n') by done. rewrite (sem_cons T h y n) by done.
    rewrite Hch. destruct (children_ n !! c) as [b|] eqn:Hb; [|done].
    eapply sem_old; [done..|]. by eapply Hchildren.
Qed.

Lemma deref_Some (h : Heap) (a : nat) (n : TrieNode) :
  deref h (Some a) = Ok n → cells h !! a = Some n.
Proof. unfold deref. destruct (cells h !! a); [by intros [= ->]|done]. Qed.

Section PutOther.
Variable v : value.

(** The path [chain_loop] builds leads to the new value and to nothing
    else. *)
Lemma chain_sem (T : value_type) (bound : nat) (h : Heap) (a : nat)
    (key key' : list ascii) :
  chain_below v bound h a key →
  sem T h a key' = if decide (key' = key) then found v T else None.
Proof.
  revert a key'. induction key as [|c rest IH]; intros a key' [_ Hk].
  - destruct key' as [|c' rest'].
    + rewrite sem_nil, Hk. done.
    + rewrite (sem_cons _ _ _ _ _ _ Hk). simpl. by rewrite lookup_empty.
  - destruct Hk as (b & Hnode & Hrest). destruct key' as [|c' rest'].
    + rewrite sem_nil, Hnode. done.
    + rewrite (sem_cons _ _ _ _ _ _ Hnode). simpl.
      destruct (decide (c' = c)) as [->|Hne].
      * rewrite lookup_singleton_eq, (IH b rest' Hrest).
        destruct (decide (rest' = rest)) as [->|Hr].
        -- by rewrite decide_True.
        -- rewrite decide_False; [done|]. by intros [= ?].
      * rewrite lookup_singleton_ne by done.
        rewrite decide_False; [done|]. by intros [= ? ?].
Qed.

Lemma put_walk_other (base : nat) (key : list ascii) (cur_node a : nat) (h h' : Heap)
    (cur : TrieNode) :
  key ≠ [] → heap_ok h → old_closed base h → (base ≤ cur_node)%nat →
  cells h !! cur_node = Some cur →
  (∀ c b, children_ cur !! c = Some b → (b < base)%nat) →
  chain_below v cur_node h a key →
  put_walk v key cur_node (Some a) h = Ok h' →
  (∃ cur', cells h' !! cur_node = Some cur' ∧ value_ cur' = value_ cur ∧
           is_value_node_ cur' = is_value_node_ cur) ∧
  ∀ T key', key' ≠ [] → key' ≠ key → sem T h' cur_node key' = sem T h cur_node key'.
Proof.
  revert cur_node a h cur. induction key as [|c rest IH]; [done|].
  intros cur_node a h cur _ Hok Hold Hbase Hcur Hchildren [Ha (b & Hnode & Hrest)] Hput.
  assert (cur_node < next_addr h)%nat as Hlt by (apply Hok; eauto).
  assert (b < cur_node)%nat as Hblt by (destruct rest; by destruct Hrest).
  cbn [put_walk] in Hput. apply bind_Ok in Hput as (cur0 & Hcur0 & Hput).
  apply deref_Some in Hcur0. rewrite Hcur in Hcur0. injection Hcur0 as <-.
  (* the round that puts the rest of the new path under the clone *)
  assert (∀ h1, graft cur_node cur c (Some a) h = Ok h1 → children_ cur !! c = None →
    (∃ cur', cells h1 !! cur_node = Some cur' ∧ value_ cur' = value_ cur ∧
             is_value_node_ cur' = is_value_node_ cur) ∧
    ∀ T key', key' ≠ [] → key' ≠ c :: rest →
              sem T h1 cur_node key' = sem T h cur_node key') as Hgraft.
  { intros h1 Hg Hnone. unfold graft in Hg.
    apply bind_Ok in Hg as (tmp & Htmp & Hg). apply deref_Some in Htmp.
    rewrite Hnode in Htmp. injection Htmp as <-.
    unfold find_child in Hg. simpl in Hg. rewrite lookup_singleton_eq in Hg.
    simpl in Hg. injection Hg as <-.
    set (n' := set_children (<[c := b]> (children_ cur)) cur).
    assert (cells (store cur_node n' h) !! cur_node = Some n') as Hn'
      by (simpl; apply lookup_insert_eq).
    assert (grows cur_node h (store cur_node n' h)) as Hg by (by apply store_grows).
    split; [by exists n'|].
    intros T [|c' rest'] Hne Hkey; [done|].
    rewrite (sem_cons _ _ _ _ _ _ Hn'), (sem_cons _ _ _ _ _ _ Hcur). simpl.
    destruct (decide (c' = c)) as [->|Hc].
    - rewrite lookup_insert_eq, Hnone.
      rewrite (chain_sem T cur_node _ b rest rest').
      + rewrite decide_False; [done|]. by intros ->.
      + apply (chain_below_grows v cur_node cur_node h); [lia|done|done].
    - rewrite lookup_insert_ne by done.
      destruct (children_ cur !! c') as [b'|] eqn:Hb'; [|done].
      eapply sem_old; [done| |by eapply Hchildren].
      eapply grows_weaken; [|exact Hg]. done. }
  destruct (decide (children_ cur = ∅)) as [Hempty|Hnonempty].
  { apply Hgraft; [done|]. by rewrite Hempty, lookup_empty. }
  destruct (children_ cur !! c) as [child|] eqn:Hchild; [|by apply Hgraft].
  clear Hgraft.
  apply bind_Ok in Hput as ([nc h1] & Hclone & Hput).
  unfold clone in Hclone. apply bind_Ok in Hclone as (childn & Hchildn & Hclone).
  apply deref_Some in Hchildn. unfold alloc in Hclone. injection Hclone as <- <-.
  set (nc := next_addr h) in *.
  set (h1 := mkHeap (<[nc := childn]> (cells h)) (S nc)) in *.
  apply bind_Ok in Hput as (ncn & Hncn & Hput). apply deref_Some in Hncn.
  simpl in Hncn. rewrite lookup_insert_eq in Hncn. injection Hncn as <-.
  assert (child < base)%nat as Hchildold by (by eapply Hchildren).
  assert (∀ c2 b2, children_ childn !! c2 = Some b2 → (b2 < base)%nat) as Hgrand.
  { intros c2 b2 Hb2. by eapply (Hold child childn). }
  assert (grows base h h1) as Hg1 by (apply alloc_grows; unfold nc; lia).
  destruct rest as [|c1 rest1].
  - (* the last character: a value node takes the place of the child *)
    unfold alloc in Hput. injection Hput as <-.
    set (leaf := with_value (children_ childn) v).
    set (h2 := mkHeap (<[S nc := leaf]> (cells h1)) (S (S nc))).
    set (n' := set_children (<[c := S nc]> (children_ cur)) cur).
    assert (cells (store cur_node n' h2) !! cur_node = Some n') as Hn'
      by (simpl; apply lookup_insert_eq).
    assert (grows base h (store cur_node n' h2)) as Hg.
    { eapply grows_trans; [exact Hg1|].
      eapply grows_trans; [apply (alloc_grows _ leaf h1); simpl; unfold nc; lia|].
      by apply store_grows. }
    split; [by exists n'|].
    intros T [|c' rest'] Hne Hkey; [done|].
    rewrite (sem_cons _ _ _ _ _ _ Hn'), (sem_cons _ _ _ _ _ _ Hcur). simpl.
    destruct (decide (c' = c)) as [->|Hc].
    + rewrite lookup_insert_eq, Hchild.
      destruct rest' as [|c2 rest2]; [done|].
      assert (cells (store cur_node n' h2) !! S nc = Some leaf) as Hleaf.
      { simpl. rewrite lookup_insert_ne by (unfold nc; lia). apply lookup_insert_eq. }
      apply (sem_copy T base h _ (S nc) child childn leaf); try done.
    + rewrite lookup_insert_ne by done.
      destruct (children_ cur !! c') as [b'|] eqn:Hb'; [|done].
      eapply sem_old; [done|done|by eapply Hchildren].
  - (* further down: the clone of the child is the next node to work on *)
    set (n' := set_children (<[c := nc]> (children_ cur)) cur) in *.
    set (h2 := store cur_node n' h1) in *.
    apply bind_Ok in Hput as (tmp & Htmp & Hput). apply deref_Some in Htmp.
    assert (cells h2 !! a = Some (plain {[c := b]})) as Hnode2.
    { simpl. rewrite lookup_insert_ne by lia. rewrite lookup_insert_ne by (unfold nc; lia).
      done. }
    rewrite Hnode2 in Htmp. injection Htmp as <-.
    unfold find_child in Hput. simpl in Hput. rewrite lookup_singleton_eq in Hput.
    cbn [mbind result_bind] in Hput.
    assert (heap_ok h2) as Hok2.
    { apply store_heap_ok; [simpl; lia|]. by apply alloc_heap_ok. }
    assert (grows cur_node h h2) as Hgc.
    { eapply grows_trans; [apply alloc_grows; unfold nc; lia|]. by apply store_grows. }
    assert (grows base h h2) as Hg2 by (by eapply grows_weaken).
    assert (cells h2 !! nc = Some childn) as Hnc2.
    { simpl. rewrite lookup_insert_ne by (unfold nc; lia). apply lookup_insert_eq. }
    destruct (IH nc b h2 childn ltac:(done) Hok2) as [Hcur' Hsem'];
      [by eapply old_closed_grows|unfold nc; lia|done|done| |exact Hput|].
    { apply (chain_below_grows v cur_node nc h); [unfold nc; lia|done|done]. }
    destruct (put_walk_grows nc v (c1 :: rest1) nc (Some b) h2 h') as [Hg3 _];
      [lia|simpl; lia|done|done|].
    assert (grows base h h') as Hg.
    { eapply grows_trans; [exact Hg2|]. eapply grows_weaken; [|exact Hg3]. unfold nc. lia. }
    assert (cells h' !! cur_node = Some n') as Hn'.
    { destruct Hg3 as [_ Hsame]. rewrite Hsame by (unfold nc; lia). simpl.
      apply lookup_insert_eq. }
    split; [by exists n'|].
    intros T [|c' rest'] Hne Hkey; [done|].
    rewrite (sem_cons _ _ _ _ _ _ Hn'), (sem_cons _ _ _ _ _ _ Hcur). simpl.
    destruct (decide (c' = c)) as [->|Hc].
    + rewrite lookup_insert_eq, Hchild.
      destruct Hcur' as (childn' & Hchildn' & Hval' & _).
      destruct rest' as [|c2 rest2].
      * rewrite !sem_nil, Hchildn', Hchildn. unfold cast. cbn [mbind option_bind].
        by rewrite Hval'.
      * rewrite Hsem'; [|done|by intros Heq; apply Hkey; rewrite Heq].
        apply (sem_copy T base h h2 nc child childn childn); try done.
    + rewrite lookup_insert_ne by done.
      destruct (children_ cur !! c') as [b'|] eqn:Hb'; [|done].
      eapply sem_old; [done|done|by eapply Hchildren].
Qed.

End PutOther.

Lemma Put_Ok_inv (key : list ascii) (v : value) (tr tr' : t) (h h' : Heap) :
  wf h → root_ok tr h → Put key v tr h = Ok (tr', h') →
  wf h' ∧ root_ok tr' h' ∧ (key ≠ [] ∨ root_ tr ≠ None).
Proof.
  intros Hwf Hroot Hput.
  assert (key ≠ [] ∨ root_ tr ≠ None) as Hcase.
  { destruct key as [|c key]; [|by left]. right. intros Hnone.
    unfold Put, clone in Hput. by rewrite Hnone in Hput. }
  destruct (Put_then_Get key v tr h Hwf Hroot Hcase) as (tr2 & h2 & Hput2 & Hwf2 & Hroot2 & _).
  rewrite Hput in Hput2. by injection Hput2 as <- <-.
Qed.

Lemma root_children_old (h : Heap) (r : nat) (rn : TrieNode) :
  wf h → cells h !! r = Some rn →
  ∀ c b, children_ rn !! c = Some b → (b < next_addr h)%nat.
Proof. intros [Hok Hcl] Hrn c b Hb. apply Hok. by eapply Hcl. Qed.

Lemma Put_lookup_other (T : value_type) (key key' : list ascii) (v : value) (tr tr' : t)
    (h h' : Heap) :
  wf h → root_ok tr h → Put key v tr h = Ok (tr', h') → key' ≠ key →
  lookup T h' tr' key' = lookup T h tr key'.
Proof.
  intros Hwf Hroot Hput Hne. pose proof Hwf as [Hok Hcl].
  pose proof (wf_old_closed h Hwf) as Hold.
  destruct key as [|c key].
  - (* the root is replaced by a value node with the same children *)
    unfold Put in Hput. apply bind_Ok in Hput as ([nr h1] & Hclone & Hput).
    unfold clone in Hclone. apply bind_Ok in Hclone as (rn & Hrn & Hclone).
    destruct (root_ tr) as [r|] eqn:Hr; [|done]. apply deref_Some in Hrn.
    unfold alloc in Hclone. injection Hclone as <- <-.
    apply bind_Ok in Hput as (old & Hnr & Hput). apply deref_Some in Hnr.
    simpl in Hnr. rewrite lookup_insert_eq in Hnr. injection Hnr as <-.
    unfold alloc in Hput. simpl in Hput. injection Hput as <- <-.
    unfold lookup. rewrite Hr. simpl. destruct key' as [|c' rest']; [done|].
    set (nr := next_addr h).
    apply (sem_copy T (next_addr h) h _ (S nr) r rn (with_value (children_ rn) v));
      try done.
    + eapply grows_trans; [apply (alloc_grows _ rn h); lia|].
      apply (alloc_grows _ _ (mkHeap _ _)). simpl. lia.
    + simpl. apply lookup_insert_eq.
    + by apply (root_children_old h r rn).
  - destruct (chain_loop_spec v (c :: key) h Hwf ltac:(done))
      as (a & h1 & Hchain & Hwf1 & Hg1 & Hc1).
    unfold Put in Hput. rewrite Hchain in Hput. cbn [mbind result_bind] in Hput.
    destruct (root_ tr) as [r|] eqn:Hr.
    + (* the root is cloned and the new path put under the clone *)
      apply bind_Ok in Hput as ([nr h2] & Hclone & Hput).
      unfold clone in Hclone. apply bind_Ok in Hclone as (rn1 & Hrn1 & Hclone).
      apply deref_Some in Hrn1. unfold alloc in Hclone. injection Hclone as <- <-.
      apply bind_Ok in Hput as (h3 & Hwalk & Hput). injection Hput as <- <-.
      set (nr := next_addr h1) in *.
      set (h2 := mkHeap (<[nr := rn1]> (cells h1)) (S nr)) in *.
      destruct (Hroot r Hr) as [rn Hrn].
      assert (r < next_addr h)%nat as Hrlt by (apply Hok; eauto).
      assert (rn1 = rn) as ->.
      { destruct Hg1 as [_ Hsame]. rewrite Hsame, Hrn in Hrn1 by done. by injection Hrn1. }
      assert (next_addr h ≤ nr)%nat as Hle by (destruct Hg1; unfold nr; lia).
      assert (grows (next_addr h) h h2) as Hg2.
      { eapply grows_trans; [exact Hg1|]. by apply alloc_grows. }
      assert (cells h2 !! nr = Some rn) as Hnr by (simpl; apply lookup_insert_eq).
      destruct (put_walk_other v (next_addr h) (c :: key) nr a h2 h3 rn)
        as [(rn' & Hrn' & Hval & Hisv) Hsem]; try done.
      { destruct Hwf1. by apply alloc_heap_ok. }
      { by eapply old_closed_grows. }
      { by apply (root_children_old h r rn). }
      { apply (chain_below_grows v nr nr h1); [lia| |exact Hc1].
        apply alloc_grows. unfold nr. lia. }
      unfold lookup. rewrite Hr. cbn [root_]. destruct key' as [|c' rest'].
      * rewrite Hrn', Hrn. cbn [mbind option_bind]. rewrite Hisv. unfold cast.
        by rewrite Hval.
      * rewrite Hsem by done.
        apply (sem_copy T (next_addr h) h h2 nr r rn rn); try done.
        by apply (root_children_old h r rn).
    + (* the empty trie: the new path is the trie *)
      injection Hput as <- <-. unfold lookup. rewrite Hr. cbn [root_].
      pose proof Hc1 as [_ (b & Hnode & _)]. destruct key' as [|c' rest'].
      * by rewrite Hnode.
      * rewrite (chain_sem v T (next_addr h1) h1 a (c :: key)) by exact Hc1.
        by rewrite decide_False.
Qed.


(** ** Value nodes and plain nodes

    A node of the class [TrieNode] holds no value; only a
    [TrieNodeWithValue<T>] does.  The record of the model has both fields in
    every node, and the functions keep them in step. *)

Definition node_tagged (n : TrieNode) : Prop :=
  is_value_node_ n = false → value_ n = None.

Definition tagged (h : Heap) : Prop :=
  ∀ a n, cells h !! a = Some n → node_tagged n.

Lemma tagged_alloc (n : TrieNode) (h : Heap) :
  tagged h → node_tagged n →
  tagged (mkHeap (<[next_addr h := n]> (cells h)) (S (next_addr h))).
Proof.
  intros Ht Hn a n'. simpl. destruct (decide (a = next_addr h)) as [->|Hne].
  - rewrite lookup_insert_eq. by intros [= <-].
  - rewrite lookup_insert_ne by done. apply Ht.
Qed.

Lemma tagged_store (a : nat) (n : TrieNode) (h : Heap) :
  tagged h → node_tagged n → tagged (store a n h).
Proof.
  intros Ht Hn a' n'. simpl. destruct (decide (a' = a)) as [->|Hne].
  - rewrite lookup_insert_eq. by intros [= <-].
  - rewrite lookup_insert_ne by done. apply Ht.
Qed.

Lemma tagged_deref (h : Heap) (p : option nat) (n : TrieNode) :
  tagged h → deref h p = Ok n → node_tagged n.
Proof.
  intros Ht Hd. destruct p as [a|]; [|done]. apply deref_Some in Hd. by eapply Ht.
Qed.

Lemma tagged_clone (h h' : Heap) (p : option nat) (a : nat) :
  tagged h → clone h p = Ok (a, h') → tagged h'.
Proof.
  intros Ht Hc. unfold clone in Hc. apply bind_Ok in Hc as (n & Hn & Hc).
  unfold alloc in Hc. injection Hc as <- <-. apply tagged_alloc; [done|].
  by eapply tagged_deref.
Qed.

Lemma tagged_chain_loop (v : value) (rkey : list ascii) (is_last : bool)
    (tmp tmp' : option nat) (h h' : Heap) :
  tagged h → chain_loop v rkey is_last (tmp, h) = Ok (tmp', h') → tagged h'.
Proof.
  revert is_last tmp h. induction rkey as [|c rkey IH]; simpl; intros is_last tmp h Ht Hc.
  - by injection Hc as <- <-.
  - apply bind_Ok in Hc as ([tmp1 h1] & Hstep & Hc). eapply IH; [|exact Hc].
    unfold chain_step, alloc in Hstep.
    apply bind_Ok in Hstep as ([child h0] & Hchild & Hstep). simpl in Hstep.
    injection Hstep as <- <-. apply tagged_alloc; [|done].
    destruct is_last.
    + injection Hchild as <- <-. by apply tagged_alloc.
    + apply bind_Ok in Hchild as (old & _ & Hchild). injection Hchild as <- <-.
      by apply tagged_alloc.
Qed.

Lemma tagged_graft (cur_node : nat) (cur : TrieNode) (c : ascii) (tmp : option nat)
    (h h' : Heap) :
  tagged h → node_tagged cur → graft cur_node cur c tmp h = Ok h' → tagged h'.
Proof.
  unfold graft. intros Ht Hcur Hg.
  apply bind_Ok in Hg as (tn & _ & Hg). apply bind_Ok in Hg as (sub & _ & Hg).
  injection Hg as <-. by apply tagged_store.
Qed.

Lemma tagged_put_walk (v : value) (key : list ascii) (cur_node : nat) (tmp : option nat)
    (h h' : Heap) :
  tagged h → put_walk v key cur_node tmp h = Ok h' → tagged h'.
Proof.
  revert cur_node tmp h. induction key as [|c key IH]; intros cur_node tmp h Ht Hp.
  - by injection Hp as <-.
  - simpl in Hp. apply bind_Ok in Hp as (cur & Hcur & Hp).
    pose proof (tagged_deref _ _ _ Ht Hcur) as Htc.
    destruct (decide (children_ cur = ∅)); [by eapply tagged_graft|].
    destruct (children_ cur !! c) as [child|]; [|by eapply tagged_graft].
    apply bind_Ok in Hp as ([new_child h1] & Hcl & Hp).
    apply tagged_clone in Hcl; [|done].
    apply bind_Ok in Hp as (ncn & _ & Hp).
    destruct key as [|c' key'].
    + unfold alloc in Hp. injection Hp as <-.
      apply tagged_store; [|done]. by apply tagged_alloc.
    + apply bind_Ok in Hp as (tn & _ & Hp). apply bind_Ok in Hp as (sub & _ & Hp).
      eapply IH; [|exact Hp]. by apply tagged_store.
Qed.

Lemma tagged_Put (key : list ascii) (v : value) (tr tr' : t) (h h' : Heap) :
  tagged h → Put key v tr h = Ok (tr', h') → tagged h'.
Proof.
  intros Ht Hp. unfold Put in Hp. destruct key as [|c key].
  - apply bind_Ok in Hp as ([old_root h1] & Hcl & Hp).
    apply tagged_clone in Hcl; [|done].
    apply bind_Ok in Hp as (old & _ & Hp). unfold alloc in Hp. injection Hp as <- <-.
    by apply tagged_alloc.
  - apply bind_Ok in Hp as ([tmp_root h1] & Hch & Hp).
    apply tagged_chain_loop in Hch; [|done].
    destruct (root_ tr) as [r|]; [|by injection Hp as <- <-].
    apply bind_Ok in Hp as ([new_root h2] & Hcl & Hp).
    apply tagged_clone in Hcl; [|done].
    apply bind_Ok in Hp as (h3 & Hw & Hp). injection Hp as <- <-.
    by eapply tagged_put_walk.
Qed.

(** With the tags in step, [Get] with the empty key is no special case. *)
Lemma lookup_sem (T : value_type) (h : Heap) (r : nat) (key : list ascii) :
  tagged h → lookup T h (mk (Some r)) key = sem T h r key.
Proof.
  intros Ht. unfold lookup. simpl. destruct key as [|c rest]; [|done].
  rewrite sem_nil. destruct (cells h !! r) as [n|] eqn:Hn; [|done]. simpl.
  destruct (is_value_node_ n) eqn:Hv; [done|]. unfold cast.
  by rewrite (Ht _ _ Hn Hv).
Qed.

(** X23. [Put] changes what one key leads to and nothing else: in the trie
    it returns, [Get] finds the new value at the key (under the type it was
    put with) and returns for every other key what it returned on the
    receiver.  [Put] returns a trie unless the key and the trie are both
    empty; the heap stays without dangling pointers, and stays one in which
    only value nodes hold values. *)
Theorem Put_updates_one_key (key : list ascii) (v : value) (tr : t) (h : Heap) :
  wf h → root_ok tr h → key ≠ [] ∨ root_ tr ≠ None →
  ∃ tr' h',
    Put key v tr h = Ok (tr', h') ∧ wf h' ∧ root_ok tr' h' ∧ (tagged h → tagged h') ∧
    ∀ T key',
      Get T key' tr' h' =
        if decide (key' = key)
        then Ok (if decide (type_of v = T) then Some v else None)
        else Get T key' tr h.
Proof.
  intros Hwf Hroot Hcase.
  destruct (Put_then_Get key v tr h Hwf Hroot Hcase)
    as (tr' & h' & Hput & Hwf' & Hroot' & Hsame & Hother).
  exists tr', h'. split; [done|]. split; [done|]. split; [done|].
  split; [intros Htag; by eapply tagged_Put|].
  intros T key'. destruct (decide (key' = key)) as [->|Hne].
  - destruct (decide (type_of v = T)) as [<-|HT]; [done|]. by apply Hother.
  - rewrite !Get_lookup by done. f_equal. by eapply Put_lookup_other.
Qed.

(** ** [Remove] takes one key away *)

(** From the node at [a] the key leads through nodes that have one child and
    no value: the nodes [Remove] passes without touching [tmp_leaf] and
    [is_empty_trie]. *)
Fixpoint thin (h : Heap) (a : nat) (key : list ascii) : bool :=
  match key with
  | [] => true
  | c :: rest =>
      match cells h !! a with
      | None => false
      | Some n =>
          bool_decide (size (children_ n) = 1%nat) && negb (is_value_node_ n) &&
          match children_ n !! c with
          | Some b => thin h b rest
          | None => false
          end
      end
  end.

Lemma only_child (m : gmap ascii nat) (c c' : ascii) (b : nat) :
  size m = 1%nat → m !! c = Some b → c' ≠ c → m !! c' = None.
Proof.
  intros Hsize Hc Hne.
  assert (delete c m = ∅) as Hempty.
  { apply map_size_empty_inv. rewrite map_size_delete_Some by eauto. by rewrite Hsize. }
  rewrite <- (lookup_delete_ne m c c') by done. by rewrite Hempty, lookup_empty.
Qed.

(** When the key leads through thin nodes to a childless node, no other key
    leads to a value. *)
Lemma thin_sem (T : value_type) (h : Heap) (a : nat) (key s : list ascii) (hit : TrieNode) :
  tagged h → walk h a key = Some hit → children_ hit = ∅ → thin h a key = true →
  s ≠ key → sem T h a s = None.
Proof.
  intros Ht. revert a s. induction key as [|c rest IH]; intros a s Hwalk Hhit Hthin Hs.
  - simpl in Hwalk. destruct s as [|c' s']; [done|].
    rewrite (sem_cons _ _ _ _ _ _ Hwalk). by rewrite Hhit, lookup_empty.
  - simpl in Hwalk, Hthin. destruct (cells h !! a) as [n|] eqn:Hn; [|done].
    simpl in Hwalk. destruct (children_ n !! c) as [b|] eqn:Hb; [|done].
    simpl in Hwalk. apply andb_prop in Hthin as [Hthin Hrest].
    apply andb_prop in Hthin as [Hsize Hval]. apply bool_decide_eq_true in Hsize.
    apply negb_true_iff in Hval. destruct s as [|c' s'].
    + rewrite sem_nil, Hn. simpl. unfold cast. by rewrite (Ht _ _ Hn Hval).
    + rewrite (sem_cons _ _ _ _ _ _ Hn). destruct (decide (c' = c)) as [->|Hne].
      * rewrite Hb. apply IH; [done..|]. by intros ->.
      * by rewrite (only_child _ c c' b).
Qed.

Lemma deref_lookup (h : Heap) (a : nat) (n : TrieNode) :
  cells h !! a = Some n → deref h (Some a) = Ok n.
Proof. intros Ha. unfold deref. by rewrite Ha. Qed.

Section RemoveWalk.
Variable h0 : Heap.
Hypothesis Hwf0 : wf h0.
Hypothesis Htag0 : tagged h0.

(** The node at [cur_node] is a copy of the old node at [o] in which the
    child for [c] has been replaced; the other children are old. *)
Lemma sem_replace_child (T : value_type) (h' : Heap) (o cur_node : nat)
    (cur0 n' : TrieNode) (c : ascii) (rest : list ascii) (child : nat) :
  grows (next_addr h0) h0 h' →
  cells h0 !! o = Some cur0 → children_ cur0 !! c = Some child →
  cells h' !! cur_node = Some n' → value_ n' = value_ cur0 →
  (∀ c', c' ≠ c → children_ n' !! c' = children_ cur0 !! c') →
  (∀ s', match children_ n' !! c with Some b => sem T h' b s' | None => None end
         = if decide (s' = rest) then None else sem T h0 child s') →
  ∀ s, sem T h' cur_node s = if decide (s = c :: rest) then None else sem T h0 o s.
Proof.
  intros Hg Hcur0 Hchild Hn' Hval Hothers Hsub [|c' s'].
  - rewrite decide_False by done. rewrite !sem_nil, Hn', Hcur0. simpl. unfold cast.
    by rewrite Hval.
  - rewrite (sem_cons _ _ _ _ _ _ Hn'), (sem_cons _ _ _ _ _ _ Hcur0).
    destruct (decide (c' = c)) as [->|Hne].
    + rewrite Hsub, Hchild. destruct (decide (s' = rest)) as [->|Hs].
      * by rewrite decide_True.
      * rewrite decide_False; [done|]. by intros [= ?].
    + rewrite decide_False by (by intros [= ? ?]). rewrite Hothers by done.
      destruct (children_ cur0 !! c') as [b|] eqn:Hb; [|done].
      apply (sem_old T (next_addr h0)); [by apply wf_old_closed|done|].
      by apply (root_children_old h0 o cur0 Hwf0 Hcur0 c').
Qed.

(** The node of the key is childless and everything above it, from [o] on,
    is thin: the loop arrives at the last character with [tmp_leaf] and
    [is_empty_trie] as they were at [o]. *)
Definition pruned (o : nat) (key : list ascii) (hit : TrieNode) : bool :=
  bool_decide (children_ hit = ∅) && thin h0 o key.

(** The loop of [Remove], entered at the clone [cur_node] of the old node
    [o] with the rest of the key.  It returns; it leaves through [break]
    exactly when the key leads nowhere; otherwise the key is gone below
    [cur_node], the other keys lead where they led from [o], and of the
    nodes above only [tmp_leaf] may have lost its children. *)
Lemma remove_walk_spec (key : list ascii) :
  ∀ (o cur_node tl : nat) (ie : bool) (nr : nat) (h : Heap) (cur0 : TrieNode),
    key ≠ [] → wf h → tagged h → grows (next_addr h0) h0 h →
    cells h0 !! o = Some cur0 → cells h !! cur_node = Some cur0 →
    (next_addr h0 ≤ nr)%nat → (nr ≤ cur_node)%nat → (next_addr h0 ≤ tl)%nat →
    (tl < cur_node)%nat ∨ tl = nr →
    is_Some (cells h !! tl) → is_Some (cells h !! nr) →
    ∃ ret h',
      remove_walk key cur_node tl ie nr h = Ok (ret, h') ∧
      wf h' ∧ tagged h' ∧ grows (next_addr h0) h0 h' ∧
      match walk h0 o key with
      | None => ret = None
      | Some hit =>
          ret = Some (if pruned o key hit && ie then None else Some nr) ∧
          (∀ T s, sem T h' cur_node s = if decide (s = key) then None else sem T h0 o s) ∧
          (∀ a, (a < cur_node)%nat →
             cells h' !! a =
               if bool_decide (a = tl) && pruned o key hit && negb (bool_decide (tl = nr))
               then set_children ∅ <$> cells h !! a else cells h !! a)
      end.
Proof.
  induction key as [|c rest IH]; [done|].
  intros o cur_node tl ie nr h cur0 _ Hwf Htag Hg Hcur0 Hcur Hnr1 Hnr2 Htl1 Htl2
    [tln Htln] [nrn Hnrn].
  pose proof Hwf as [Hok Hcl]. pose proof Hwf0 as [Hok0 Hcl0].
  assert (cur_node < next_addr h)%nat as Hlt by (apply Hok; eauto).
  unfold pruned. cbn [remove_walk walk thin]. rewrite (deref_lookup _ _ _ Hcur).
  rewrite Hcur0. cbn [mbind result_bind option_bind].
  destruct (decide (children_ cur0 = ∅)) as [Hempty|Hnonempty].
  { rewrite Hempty, lookup_empty. by exists None, h. }
  destruct (children_ cur0 !! c) as [child|] eqn:Hchild; [|by exists None, h].
  destruct (Hcl0 o cur0 c child Hcur0 Hchild) as [childn Hchildn0].
  assert (child < next_addr h0)%nat as Hchildlt by (apply Hok0; eauto).
  assert (cells h !! child = Some childn) as Hchildn.
  { destruct Hg as [_ Hsame]. by rewrite Hsame. }
  set (tl1 := if bool_decide (size (children_ cur0) = 1%nat) && is_value_node_ cur0
              then cur_node else tl).
  set (tl' := if decide (size (children_ cur0) ≠ 1%nat) then nr else tl1).
  set (ie' := if bool_decide (size (children_ cur0) ≠ 1%nat) || is_value_node_ cur0
              then false else ie).
  set (here := bool_decide (size (children_ cur0) = 1%nat) && negb (is_value_node_ cur0)).
  assert (tl' = nr ∧ ie' = false ∧ here = false ∨
          tl' = cur_node ∧ ie' = false ∧ here = false ∧ size (children_ cur0) = 1%nat ∨
          tl' = tl ∧ ie' = ie ∧ here = true ∧ size (children_ cur0) = 1%nat) as Hround.
  { unfold tl', tl1, ie', here.
    destruct (decide (size (children_ cur0) = 1%nat)) as [Hs|Hs].
    - rewrite decide_False by (by intros ?). rewrite (bool_decide_eq_true_2 _ Hs).
      rewrite bool_decide_eq_false_2 by (by intros ?).
      destruct (is_value_node_ cur0); simpl; [right; left|right; right]; done.
    - rewrite decide_True by done. rewrite (bool_decide_eq_false_2 _ Hs).
      rewrite bool_decide_eq_true_2 by done. by left. }
  clearbody tl' ie' here. clear tl1.
  unfold clone. rewrite (deref_lookup _ _ _ Hchildn). cbn [mbind result_bind]. unfold alloc.
  set (nc := next_addr h).
  set (h1 := mkHeap (<[nc := childn]> (cells h)) (S nc)).
  assert (next_addr h0 ≤ nc)%nat as Hnc by (destruct Hg; unfold nc; lia).
  assert (grows (next_addr h0) h0 h1) as Hg1.
  { eapply grows_trans; [exact Hg|]. by apply alloc_grows. }
  assert (wf h1) as Hwf1.
  { apply wf_alloc; [done|]. intros c0 b0 Hb0. by apply (Hcl child childn c0). }
  assert (tagged h1) as Htag1 by (apply tagged_alloc; [done|by eapply Htag]).
  assert (node_tagged cur0) as Htagcur by (by eapply Htag).
  assert (∀ m, (∀ c0 b0, m !! c0 = Some b0 → is_Some (cells h1 !! b0)) →
               wf (store cur_node (set_children m cur0) h1) ∧
               tagged (store cur_node (set_children m cur0) h1) ∧
               grows (next_addr h0) h0 (store cur_node (set_children m cur0) h1))
    as Hstore.
  { intros m Hm. split; [|split].
    - apply wf_store; [done| |done]. simpl. rewrite lookup_insert_ne by (unfold nc; lia).
      eauto.
    - by apply tagged_store.
    - eapply grows_trans; [exact Hg1|]. apply store_grows. lia. }
  assert (∀ c0 b0, children_ cur0 !! c0 = Some b0 → is_Some (cells h1 !! b0)) as Hkids.
  { intros c0 b0 Hb0. destruct (Hcl cur_node cur0 c0 b0 Hcur Hb0) as [n Hn].
    assert (b0 < next_addr h)%nat by (apply Hok; eauto).
    simpl. rewrite lookup_insert_ne by (unfold nc; lia). eauto. }
  assert (∀ T s', s' ≠ [] → children_ childn = ∅ → sem T h0 child s' = None) as Hleafsem.
  { intros T [|c2 s2] Hs2 Hnokids; [done|].
    rewrite (sem_cons _ _ _ _ _ _ Hchildn0). by rewrite Hnokids, lookup_empty. }
  destruct rest as [|c1 rest1].
  - (* the last character of the key *)
    rewrite (deref_lookup h1 nc childn) by (simpl; apply lookup_insert_eq).
    cbn [mbind result_bind option_bind walk thin]. rewrite Hchildn0. rewrite andb_true_r.
    destruct (decide (children_ childn = ∅)) as [Hleaf|Hinner].
    + (* the node of the key has no children: it is taken out *)
      rewrite (bool_decide_eq_true_2 _ Hleaf). cbn [andb].
      set (n2 := set_children (delete c (children_ cur0)) cur0).
      set (h2 := store cur_node n2 h1).
      destruct (Hstore (delete c (children_ cur0))) as (Hwf2 & Htag2 & Hg2).
      { intros c0 b0 [_ Hb0]%lookup_delete_Some. by eapply Hkids. }
      fold n2 in Hwf2, Htag2, Hg2. fold h2 in Hwf2, Htag2, Hg2.
      assert (cells h2 !! cur_node = Some n2) as Hn2 by (simpl; apply lookup_insert_eq).
      assert (∀ a, (a < cur_node)%nat → cells h2 !! a = cells h !! a) as Hbelow.
      { intros a Ha. simpl. rewrite lookup_insert_ne by lia.
        apply lookup_insert_ne. unfold nc. lia. }
      destruct (decide (tl' ≠ nr)) as [Hclear|Hkeep].
      * destruct Hround as [(-> & _)|[(-> & -> & -> & Hsize)|(-> & -> & -> & Hsize)]];
          [done| |].
        -- (* [tmp_leaf] is the node itself *)
           rewrite (deref_lookup h2 cur_node n2 Hn2). cbn [mbind result_bind andb].
           do 2 eexists. split; [done|].
           split. { apply wf_store; [done|eauto|]. intros c0 b0 Hb0. simpl in Hb0.
                    by rewrite lookup_empty in Hb0. }
           split. { apply tagged_store; [done|]. by apply Htag2 in Hn2. }
           split. { eapply grows_trans; [exact Hg2|]. apply store_grows. lia. }
           split; [done|]. split.
           ++ intros T. apply (sem_replace_child T _ o cur_node cur0
                                 (set_children ∅ n2) c [] child); try done.
              ** eapply grows_trans; [exact Hg2|]. apply store_grows. lia.
              ** simpl. apply lookup_insert_eq.
              ** intros c' Hc'. simpl. rewrite lookup_empty.
                 symmetry. by eapply only_child.
              ** intros s'. simpl. rewrite lookup_empty.
                 destruct (decide (s' = [])); [done|]. symmetry. by apply Hleafsem.
           ++ intros a Ha. rewrite andb_false_r. cbn [andb]. simpl.
              rewrite lookup_insert_ne by lia. by apply Hbelow.
        -- (* [tmp_leaf] is a value node further up *)
           destruct Htl2 as [Htl2|Htl2]; [|done].
           assert (cells h2 !! tl = Some tln) as Htln2 by (by rewrite Hbelow).
           rewrite (deref_lookup h2 tl tln Htln2). cbn [mbind result_bind andb].
           do 2 eexists. split; [done|].
           split. { apply wf_store; [done|eauto|]. intros c0 b0 Hb0. simpl in Hb0.
                    by rewrite lookup_empty in Hb0. }
           split. { apply tagged_store; [done|]. by apply Htag2 in Htln2. }
           split. { eapply grows_trans; [exact Hg2|]. apply store_grows. lia. }
           split; [done|]. split.
           ++ intros T. apply (sem_replace_child T _ o cur_node cur0 n2 c [] child);
                try done.
              ** eapply grows_trans; [exact Hg2|]. apply store_grows. lia.
              ** simpl. rewrite lookup_insert_ne by lia. apply lookup_insert_eq.
              ** intros c' Hc'. simpl. by apply lookup_delete_ne.
              ** intros s'. simpl. rewrite lookup_delete_eq.
                 destruct (decide (s' = [])); [done|]. symmetry. by apply Hleafsem.
           ++ intros a Ha. rewrite (bool_decide_eq_false_2 (tl = nr)) by done.
              rewrite andb_true_r. cbn [negb]. rewrite andb_true_r. simpl.
              destruct (decide (a = tl)) as [->|Hne].
              ** rewrite bool_decide_eq_true_2 by done. rewrite lookup_insert_eq.
                 by rewrite Htln.
              ** rewrite bool_decide_eq_false_2 by done. rewrite lookup_insert_ne by done.
                 by apply Hbelow.
      * (* [tmp_leaf] is the new root: nothing else is cut *)
        apply dec_stable in Hkeep. cbn [mbind result_bind].
        do 2 eexists. split; [done|]. split; [done|]. split; [done|]. split; [done|].
        split; [|split].
        -- destruct Hround as [(_ & -> & ->)|[(_ & -> & -> & _)|(_ & -> & -> & _)]]; done.
        -- intros T. apply (sem_replace_child T _ o cur_node cur0 n2 c [] child);
             try done.
           ++ intros c' Hc'. simpl. by apply lookup_delete_ne.
           ++ intros s'. simpl. rewrite lookup_delete_eq.
              destruct (decide (s' = [])); [done|]. symmetry. by apply Hleafsem.
        -- intros a Ha. rewrite Hbelow by done.
           destruct Hround as [(_ & _ & ->)|[(_ & _ & -> & _)|(-> & _ & _ & _)]].
           ++ by rewrite andb_false_r.
           ++ by rewrite andb_false_r.
           ++ rewrite (bool_decide_eq_true_2 (tl = nr)) by done. by rewrite andb_false_r.
    + (* the node of the key has children: a plain node takes its place *)
      rewrite (bool_decide_eq_false_2 _ Hinner). cbn [andb].
      change (next_addr h1) with (S nc).
      set (h2 := mkHeap (<[S nc := plain (children_ childn)]> (cells h1)) (S (S nc))).
      set (n2 := set_children (<[c := S nc]> (children_ cur0)) cur0).
      assert (grows (next_addr h0) h0 h2) as Hg2.
      { eapply grows_trans; [exact Hg1|]. apply (alloc_grows _ _ h1). simpl. lia. }
      assert (wf h2) as Hwf2.
      { apply (wf_alloc _ h1 Hwf1). intros c0 b0 Hb0. simpl in Hb0.
        destruct (Hcl child childn c0 b0 Hchildn Hb0) as [n Hn].
        assert (b0 < next_addr h)%nat by (apply Hok; eauto).
        simpl. rewrite lookup_insert_ne by (unfold nc; lia). eauto. }
      assert (grows (next_addr h0) h0 (store cur_node n2 h2)) as Hg3.
      { eapply grows_trans; [exact Hg2|]. apply store_grows. lia. }
      do 2 eexists. split; [done|].
      split. { apply wf_store; [done| |].
               - simpl. rewrite !lookup_insert_ne by (unfold nc; lia). eauto.
               - intros c0 b0 Hb0. simpl in Hb0.
                 destruct (decide (c0 = c)) as [->|Hne].
                 + rewrite lookup_insert_eq in Hb0. injection Hb0 as <-. simpl.
                   rewrite lookup_insert_eq. eauto.
                 + rewrite lookup_insert_ne in Hb0 by done.
                   destruct (Hkids c0 b0 Hb0) as [n Hn].
                   assert (b0 < next_addr h1)%nat by (destruct Hwf1 as [Hok1 _]; apply Hok1; eauto).
                   simpl. simpl in Hn, H. rewrite lookup_insert_ne by lia. eauto. }
      split. { apply tagged_store; [|done]. by apply (tagged_alloc _ h1). }
      split; [done|]. split; [done|]. split.
      * intros T. apply (sem_replace_child T _ o cur_node cur0 n2 c [] child); try done.
        -- simpl. apply lookup_insert_eq.
        -- intros c' Hc'. simpl. by apply lookup_insert_ne.
        -- intros s'. change (children_ n2) with (<[c := S nc]> (children_ cur0)).
           rewrite lookup_insert_eq.
           assert (cells (store cur_node n2 h2) !! S nc = Some (plain (children_ childn)))
             as Hplain.
           { simpl. rewrite lookup_insert_ne by lia. apply lookup_insert_eq. }
           destruct (decide (s' = [])) as [->|Hs'].
           ++ by rewrite sem_nil, Hplain.
           ++ apply (sem_copy T (next_addr h0) h0 _ (S nc) child childn
                       (plain (children_ childn))); try done.
              ** by apply wf_old_closed.
              ** by apply (root_children_old h0 child childn).
      * intros a Ha. rewrite andb_false_r. cbn [andb]. simpl. rewrite !lookup_insert_ne by (unfold nc; lia). done.
  - (* further down: the clone of the child is the next node to work on *)
    change (option_bind nat TrieNode ?f (Some child)) with (f child). cbv beta.
    set (n2 := set_children (<[c := nc]> (children_ cur0)) cur0).
    set (h2 := store cur_node n2 h1).
    destruct (Hstore (<[c := nc]> (children_ cur0))) as (Hwf2 & Htag2 & Hg2).
    { intros c0 b0 Hb0. destruct (decide (c0 = c)) as [->|Hne].
      - rewrite lookup_insert_eq in Hb0. injection Hb0 as <-. simpl.
        rewrite lookup_insert_eq. eauto.
      - rewrite lookup_insert_ne in Hb0 by done. by eapply Hkids. }
    fold n2 in Hwf2, Htag2, Hg2. fold h2 in Hwf2, Htag2, Hg2.
    assert (cells h2 !! cur_node = Some n2) as Hn2 by (simpl; apply lookup_insert_eq).
    assert (cells h2 !! nc = Some childn) as Hnc2.
    { simpl. rewrite lookup_insert_ne by (unfold nc; lia). apply lookup_insert_eq. }
    assert (∀ a, (a < cur_node)%nat → cells h2 !! a = cells h !! a) as Hbelow.
    { intros a Ha. simpl. rewrite lookup_insert_ne by lia.
      apply lookup_insert_ne. unfold nc. lia. }
    destruct (IH child nc tl' ie' nr h2 childn ltac:(done) Hwf2 Htag2 Hg2 Hchildn0 Hnc2)
      as (ret & h' & Heq & Hwf' & Htag' & Hg' & Hspec).
    { done. }
    { unfold nc. lia. }
    { destruct Hround as [(-> & _)|[(-> & _)|(-> & _)]]; lia. }
    { destruct Hround as [(-> & _)|[(-> & _)|(-> & _)]];
        [by right|left; unfold nc; lia|].
      destruct Htl2; [left; unfold nc; lia|by right]. }
    { destruct Hround as [(-> & _)|[(-> & _)|(-> & _)]].
      - destruct (decide (nr = cur_node)) as [->|Hne]; [eauto|].
        rewrite Hbelow by lia. eauto.
      - eauto.
      - destruct Htl2 as [Htl2| ->].
        + rewrite Hbelow by lia. eauto.
        + destruct (decide (nr = cur_node)) as [->|Hne]; [eauto|].
          rewrite Hbelow by lia. eauto. }
    { destruct (decide (nr = cur_node)) as [->|Hne]; [eauto|].
      rewrite Hbelow by lia. eauto. }
    exists ret, h'. split; [exact Heq|]. split; [done|]. split; [done|]. split; [done|].
    unfold pruned in Hspec.
    destruct (walk h0 child (c1 :: rest1)) as [hit|] eqn:Hwalk; [|done].
    destruct Hspec as (Hret & Hsem & Hcells).
    set (leaf := bool_decide (children_ hit = ∅)) in *.
    set (below := thin h0 child (c1 :: rest1)) in *.
    split; [|split].
    + rewrite Hret.
      destruct Hround as [(_ & -> & ->)|[(_ & -> & -> & _)|(_ & -> & -> & _)]];
        by destruct leaf, below, ie.
    + intros T. specialize (Hcells cur_node ltac:(unfold nc; lia)). rewrite Hn2 in Hcells.
      destruct (bool_decide (cur_node = tl') && (leaf && below) && negb (bool_decide (tl' = nr)))
        eqn:Hcut.
      * (* the clone is the value node whose children are cut *)
        apply andb_prop in Hcut as [Hcut Hnr]. apply andb_prop in Hcut as [Htl' Hpruned].
        apply andb_prop in Hpruned as [Hleaf Hthin].
        apply bool_decide_eq_true in Htl', Hleaf. apply negb_true_iff in Hnr.
        apply bool_decide_eq_false in Hnr. subst tl'.
        assert (size (children_ cur0) = 1%nat) as Hsize.
        { destruct Hround as [(? & _)|[(_ & _ & _ & ?)|(-> & _ & _ & ?)]]; done. }
        apply (sem_replace_child T _ o cur_node cur0 (set_children ∅ n2) c (c1 :: rest1) child);
          try done.
        -- intros c' Hc'. simpl. rewrite lookup_empty. symmetry. by eapply only_child.
        -- intros s'. simpl. rewrite lookup_empty.
           destruct (decide (s' = c1 :: rest1)) as [|Hs']; [done|]. symmetry.
           by apply (thin_sem T h0 child (c1 :: rest1) s' hit).
      * apply (sem_replace_child T _ o cur_node cur0 n2 c (c1 :: rest1) child); try done.
        -- intros c' Hc'. simpl. by apply lookup_insert_ne.
        -- intros s'. change (children_ n2) with (<[c := nc]> (children_ cur0)).
           rewrite lookup_insert_eq. apply Hsem.
    + intros a Ha. rewrite (Hcells a) by (unfold nc; lia). rewrite (Hbelow a Ha).
      assert (bool_decide (a = tl') && (leaf && below) && negb (bool_decide (tl' = nr))
              = bool_decide (a = tl) && (leaf && (here && below)) && negb (bool_decide (tl = nr)))
        as ->; [|done].
      destruct Hround as [(-> & _ & ->)|[(-> & _ & -> & _)|(-> & _ & -> & _)]].
      * rewrite (bool_decide_eq_true_2 (nr = nr)) by done. cbn [negb andb].
        by rewrite !andb_false_r.
      * rewrite (bool_decide_eq_false_2 (a = cur_node)) by lia. cbn [andb].
        by rewrite !andb_false_r.
      * done.
Qed.

End RemoveWalk.

Lemma lookup_insert_is_Some_keep (m : gmap nat TrieNode) (a b : nat) (n : TrieNode) :
  is_Some (m !! a) → is_Some (<[b := n]> m !! a).
Proof.
  intros Ha. destruct (decide (a = b)) as [->|Hne].
  - rewrite lookup_insert_eq. eauto.
  - by rewrite lookup_insert_ne.
Qed.

(** [Remove] takes no node out of the heap. *)
Lemma remove_walk_keeps (key : list ascii) (cur_node tl : nat) (ie : bool) (nr : nat)
    (h h' : Heap) (ret : option (option nat)) (a : nat) :
  remove_walk key cur_node tl ie nr h = Ok (ret, h') →
  is_Some (cells h !! a) → is_Some (cells h' !! a).
Proof.
  revert cur_node tl ie h. induction key as [|c key IH]; intros cur_node tl ie h Hw Ha.
  - by injection Hw as <- <-.
  - simpl in Hw. apply bind_Ok in Hw as (cur & _ & Hw).
    destruct (decide (children_ cur = ∅)); [by injection Hw as <- <-|].
    destruct (children_ cur !! c) as [child|]; [|by injection Hw as <- <-].
    destruct key as [|c' key'];
      apply bind_Ok in Hw as ([hit h1] & Hcl & Hw);
      unfold clone in Hcl; apply bind_Ok in Hcl as (childn & _ & Hcl);
      unfold alloc in Hcl; injection Hcl as <- <-.
    + apply bind_Ok in Hw as (hitn & _ & Hw).
      destruct (decide (children_ hitn = ∅)).
      * apply bind_Ok in Hw as (h2 & Hleaf & Hw). injection Hw as <- <-.
        destruct (decide (_ ≠ nr)).
        -- apply bind_Ok in Hleaf as (leaf & _ & Hleaf). injection Hleaf as <-. simpl.
           by do 3 apply lookup_insert_is_Some_keep.
        -- injection Hleaf as <-. simpl. by do 2 apply lookup_insert_is_Some_keep.
      * unfold alloc in Hw. injection Hw as <- <-. simpl.
        by do 3 apply lookup_insert_is_Some_keep.
    + eapply IH; [exact Hw|]. simpl. by do 2 apply lookup_insert_is_Some_keep.
Qed.

Lemma Get_empty_trie (T : value_type) (key : list ascii) (h : Heap) :
  Get T key (mk None) h = Ok None.
Proof. by destruct key. Qed.

Lemma Remove_spec (key : list ascii) (tr : t) (h : Heap) :
  wf h → tagged h → root_ok tr h → root_ tr ≠ None →
  ∃ tr' h',
    Remove key tr h = Ok (tr', h') ∧ wf h' ∧ tagged h' ∧ root_ok tr' h' ∧
    (node_at h tr key = None → tr' = tr) ∧
    ∀ T key', Get T key' tr' h' = if decide (key' = key) then Ok None else Get T key' tr h.
Proof.
  intros Hwf Htag Hroot Hnonnull. destruct tr as [[r|]]; [|done]. clear Hnonnull.
  destruct (Hroot r eq_refl) as [rn Hrn]. pose proof Hwf as [Hok Hcl].
  assert (r < next_addr h)%nat as Hrlt by (apply Hok; eauto).
  assert (∀ T key', Get T key' (mk (Some r)) h = Ok (sem T h r key')) as Hget.
  { intros T key'. rewrite Get_lookup by done. by rewrite lookup_sem. }
  unfold Remove, clone. cbn [root_]. rewrite (deref_lookup _ _ _ Hrn).
  cbn [mbind result_bind]. unfold alloc.
  set (nr0 := next_addr h).
  set (h1 := mkHeap (<[nr0 := rn]> (cells h)) (S nr0)).
  assert (∀ c0 b0, children_ rn !! c0 = Some b0 → is_Some (cells h !! b0)) as Hkids
    by (intros c0 b0; apply (Hcl r rn c0 b0 Hrn)).
  assert (wf h1) as Hwf1 by (by apply wf_alloc).
  assert (tagged h1) as Htag1 by (apply tagged_alloc; [done|by eapply Htag]).
  assert (grows (next_addr h) h h1) as Hg1 by (by apply alloc_grows).
  assert (∀ c0 b0, children_ rn !! c0 = Some b0 → is_Some (cells h1 !! b0)) as Hkids1.
  { intros c0 b0 Hb0. destruct (Hkids c0 b0 Hb0) as [n Hn].
    assert (b0 < next_addr h)%nat by (apply Hok; eauto).
    simpl. rewrite lookup_insert_ne by (unfold nr0; lia). eauto. }
  destruct key as [|c key].
  - (* the empty key: a plain node with the children of the root *)
    rewrite (deref_lookup h1 nr0 rn) by (simpl; apply lookup_insert_eq).
    cbn [mbind result_bind]. change (next_addr h1) with (S nr0).
    set (h2 := mkHeap (<[S nr0 := plain (children_ rn)]> (cells h1)) (S (S nr0))).
    assert (wf h2) as Hwf2 by (by apply (wf_alloc _ h1)).
    assert (tagged h2) as Htag2 by (by apply (tagged_alloc _ h1)).
    assert (cells h2 !! S nr0 = Some (plain (children_ rn))) as Hnew
      by (simpl; apply lookup_insert_eq).
    do 2 eexists. split; [done|]. split; [done|]. split; [done|].
    split. { intros r' [= <-]. eauto. }
    split. { unfold node_at. simpl. by rewrite Hrn. }
    intros T key'. rewrite Hget, Get_lookup; [|done|by intros r' [= <-]; eauto].
    rewrite lookup_sem by done. destruct (decide (key' = [])) as [->|Hne].
    + by rewrite sem_nil, Hnew.
    + f_equal. apply (sem_copy T (next_addr h) h h2 (S nr0) r rn (plain (children_ rn)));
        try done.
      * by apply wf_old_closed.
      * eapply grows_trans; [exact Hg1|]. apply (alloc_grows _ _ h1). simpl. lia.
      * by apply (root_children_old h r rn).
  - (* the loop *)
    assert (cells h1 !! r = Some rn) as Hrn1.
    { simpl. rewrite lookup_insert_ne by (unfold nr0; lia). done. }
    rewrite (deref_lookup _ _ _ Hrn1).
    cbn [mbind result_bind]. change (next_addr h1) with (S nr0).
    set (nr := S nr0).
    set (h2 := mkHeap (<[nr := rn]> (cells h1)) (S nr)).
    assert (wf h2) as Hwf2 by (by apply (wf_alloc _ h1)).
    assert (tagged h2) as Htag2 by (apply (tagged_alloc _ h1); [done|by eapply Htag]).
    assert (grows (next_addr h) h h2) as Hg2.
    { eapply grows_trans; [exact Hg1|]. apply (alloc_grows _ _ h1). simpl. lia. }
    assert (cells h2 !! nr = Some rn) as Hnr by (simpl; apply lookup_insert_eq).
    destruct (remove_walk_spec h Hwf Htag (c :: key) r nr nr true nr h2 rn)
      as (ret & h' & Hwalk & Hwf' & Htag' & Hg' & Hspec);
      [done|done|done|done|done|done|unfold nr, nr0; lia|lia|unfold nr, nr0; lia
      |by right|eauto|eauto|].
    rewrite Hwalk. cbn [mbind result_bind].
    assert (is_Some (cells h' !! nr)) as Hnr'.
    { eapply remove_walk_keeps; [exact Hwalk|eauto]. }
    assert (∀ T key', Get T key' (mk (Some r)) h' = Ok (sem T h r key')) as Hget'.
    { intros T key'. rewrite Get_lookup; [|done|].
      - rewrite lookup_sem by done. f_equal.
        apply (sem_old T (next_addr h)); [by apply wf_old_closed|done|done].
      - intros r' [= <-]. destruct Hg' as [_ Hsame]. rewrite Hsame by done. eauto. }
    unfold node_at. cbn [root_ mbind option_bind].
    destruct (walk h r (c :: key)) as [hit|] eqn:Hpath.
    + destruct Hspec as (-> & Hsem & _). rewrite andb_true_r.
      destruct (pruned h r (c :: key) hit) eqn:Hpruned.
      * (* the trie has become empty *)
        do 2 eexists. split; [done|]. split; [done|]. split; [done|].
        split; [done|]. split; [done|].
        intros T key'. rewrite Get_empty_trie, Hget.
        destruct (decide (key' = c :: key)) as [|Hne]; [done|]. f_equal. symmetry.
        unfold pruned in Hpruned. apply andb_prop in Hpruned as [Hleaf Hthin].
        apply bool_decide_eq_true in Hleaf.
        by apply (thin_sem T h r (c :: key) key' hit).
      * do 2 eexists. split; [done|]. split; [done|]. split; [done|].
        split. { by intros r' [= <-]. }
        split; [done|].
        intros T key'. rewrite Hget, Get_lookup; [|done|by intros r' [= <-]].
        rewrite lookup_sem by done. rewrite Hsem. by destruct (decide (key' = c :: key)).
    + (* the key leads nowhere: the receiver is returned *)
      subst ret. do 2 eexists. split; [done|]. split; [done|]. split; [done|].
      split. { intros r' [= <-]. destruct Hg' as [_ Hsame]. rewrite Hsame by done. eauto. }
      split; [done|].
      intros T key'. rewrite Hget', Hget.
      destruct (decide (key' = c :: key)) as [->|Hne]; [|done].
      unfold sem. by rewrite Hpath.
Qed.


(** X24. On a trie with a root, in a heap without dangling pointers in
    which only value nodes hold values, [Remove] returns; in the trie it
    returns [Get] finds nothing at the key and, at every other key, what it
    found on the receiver.  When the key leads to no node, the trie returned
    is the receiver itself. *)
Theorem Remove_takes_one_key_away (key : list ascii) (tr : t) (h : Heap) :
  wf h → tagged h → root_ok tr h → root_ tr ≠ None →
  ∃ tr' h',
    Remove key tr h = Ok (tr', h') ∧ wf h' ∧ tagged h' ∧ root_ok tr' h' ∧
    (node_at h tr key = None → tr' = tr) ∧
    ∀ T key', Get T key' tr' h' = if decide (key' = key) then Ok None else Get T key' tr h.
Proof. apply Remove_spec. Qed.

Lemma wf_empty_heap : wf empty_heap ∧ root_ok empty empty_heap.
Proof. split; [split|]; [by intros a [n Ha]|by intros a n c b Ha|done]. Qed.

(** ** Runs of [Put] and [Remove] *)

Inductive Op :=
  | OpPut (key : list ascii) (v : value)
  | OpRemove (key : list ascii).

Definition step (o : Op) (st : t * Heap) : result (t * Heap) :=
  match o with
  | OpPut key v => Put key v st.1 st.2
  | OpRemove key => Remove key st.1 st.2
  end.

(** Each call is made on the trie the call before it returned. *)
Fixpoint run (ops : list Op) (st : t * Heap) : result (t * Heap) :=
  match ops with
  | [] => Ok st
  | o :: ops' => st ← step o st; run ops' st
  end.

(** The finite map a run of calls describes *)
Definition apply_op (m : gmap (list ascii) value) (o : Op) : gmap (list ascii) value :=
  match o with
  | OpPut key v => <[key := v]> m
  | OpRemove key => delete key m
  end.

Definition contents (ops : list Op) : gmap (list ascii) value := foldl apply_op ∅ ops.

(** What [Get<T>] makes of an entry *)
Definition typed (T : value_type) (entry : option value) : option value :=
  v ← entry; if decide (type_of v = T) then Some v else None.

Definition holds (tr : t) (h : Heap) (m : gmap (list ascii) value) : Prop :=
  wf h ∧ tagged h ∧ root_ok tr h ∧ ∀ T key, Get T key tr h = Ok (typed T (m !! key)).

Lemma holds_empty : holds empty empty_heap ∅.
Proof.
  destruct wf_empty_heap as [Hwf Hroot]. split; [done|]. split; [by intros a n Ha|].
  split; [done|]. intros T key. rewrite lookup_empty. by destruct key.
Qed.

Lemma step_holds (o : Op) (tr tr' : t) (h h' : Heap) (m : gmap (list ascii) value) :
  holds tr h m → step o (tr, h) = Ok (tr', h') → holds tr' h' (apply_op m o).
Proof.
  intros (Hwf & Htag & Hroot & Hget) Hstep. destruct o as [key v|key]; simpl in Hstep.
  - pose proof (tagged_Put _ _ _ _ _ _ Htag Hstep) as Htag'.
    destruct (Put_Ok_inv _ _ _ _ _ _ Hwf Hroot Hstep) as (_ & _ & Hcase).
    destruct (Put_then_Get key v tr h Hwf Hroot Hcase)
      as (tr2 & h2 & Hput & Hwf' & Hroot' & Hsame & Hother).
    rewrite Hstep in Hput. injection Hput as <- <-.
    split; [done|]. split; [done|]. split; [done|].
    intros T key'. simpl. destruct (decide (key' = key)) as [->|Hne].
    + rewrite lookup_insert_eq. simpl.
      destruct (decide (type_of v = T)) as [<-|HT]; [done|]. by apply Hother.
    + rewrite lookup_insert_ne by done. rewrite <- Hget.
      rewrite !Get_lookup by done. f_equal. by eapply Put_lookup_other.
  - assert (root_ tr ≠ None) as Hnonnull.
    { intros Hnone. destruct tr as [r]. simpl in Hnone. subst r. done. }
    destruct (Remove_spec key tr h Hwf Htag Hroot Hnonnull)
      as (tr2 & h2 & Hrem & Hwf' & Htag' & Hroot' & _ & Hget').
    rewrite Hstep in Hrem. injection Hrem as <- <-.
    split; [done|]. split; [done|]. split; [done|].
    intros T key'. simpl. rewrite Hget'. destruct (decide (key' = key)) as [->|Hne].
    + by rewrite lookup_delete_eq.
    + rewrite lookup_delete_ne by done. apply Hget.
Qed.

Lemma run_holds (ops : list Op) (tr tr' : t) (h h' : Heap) (m : gmap (list ascii) value) :
  holds tr h m → run ops (tr, h) = Ok (tr', h') → holds tr' h' (foldl apply_op m ops).
Proof.
  revert tr h m. induction ops as [|o ops IH]; intros tr h m Hholds Hrun.
  - by injection Hrun as <- <-.
  - simpl in Hrun. apply bind_Ok in Hrun as ([tr1 h1] & Hstep & Hrun).
    simpl. eapply IH; [|exact Hrun]. by eapply step_holds.
Qed.

(** X25. The trie is a finite map.  When a run of [Put] and [Remove] calls
    that starts from the empty trie returns, [Get<T>] on the trie it ends
    with returns, for every key, the entry that the same inserts and
    deletes leave in a finite map, if its value is of type [T], and nothing
    otherwise. *)
Theorem Get_after_run_is_map_lookup (ops : list Op) (tr : t) (h : Heap) :
  run ops (empty, empty_heap) = Ok (tr, h) →
  ∀ T key, Get T key tr h = Ok (typed T (contents ops !! key)).
Proof.
  intros Hrun. by destruct (run_holds ops _ _ _ _ ∅ holds_empty Hrun) as (_ & _ & _ & Hget).
Qed.

Lemma step_grows (o : Op) (tr tr' : t) (h h' : Heap) :
  heap_ok h → step o (tr, h) = Ok (tr', h') → grows (next_addr h) h h' ∧ heap_ok h'.
Proof.
  intros Hok Hstep. destruct o as [key v|key]; simpl in Hstep.
  - by eapply Put_grows.
  - by eapply Remove_grows.
Qed.

Lemma run_grows (ops : list Op) (tr tr' : t) (h h' : Heap) :
  heap_ok h → run ops (tr, h) = Ok (tr', h') → grows (next_addr h) h h' ∧ heap_ok h'.
Proof.
  revert tr h. induction ops as [|o ops IH]; intros tr h Hok Hrun.
  - injection Hrun as <- <-. split; [apply grows_refl|done].
  - simpl in Hrun. apply bind_Ok in Hrun as ([tr1 h1] & Hstep & Hrun).
    destruct (step_grows _ _ _ _ _ Hok Hstep) as [Hg1 Hok1].
    destruct (IH _ _ Hok1 Hrun) as [Hg Hok']. split; [|done].
    eapply grows_trans; [exact Hg1|]. eapply grows_weaken; [|exact Hg].
    by destruct Hg1.
Qed.

(** X26. Old versions stay readable.  Whatever [Put] and [Remove] calls
    follow, every node that was in the heap is as it was, so [Get] on a trie
    obtained earlier returns what it returned then. *)
Theorem old_versions_stay_readable (ops : list Op) (tr tr' : t) (h h' : Heap) :
  heap_ok h → run ops (tr, h) = Ok (tr', h') →
  (∀ a n, cells h !! a = Some n → cells h' !! a = Some n) ∧
  ∀ T key r, Get T key tr h = Ok r → Get T key tr h' = Ok r.
Proof.
  intros Hok Hrun. destruct (run_grows _ _ _ _ _ Hok Hrun) as [Hg _].
  pose proof (grows_subheap h h' Hok Hg) as Hsub. split; [done|].
  intros T key r. by apply Get_mono.
Qed.

(** ** A sample trie *)

(** The trie holding "ac" and "b", and the heap it lives in *)
Definition sample_build : result (t * Heap) :=
  '(t1, h) ← Put (chars "ac") (Uint32 1) empty empty_heap;
  Put (chars "b") (Uint32 2) t1 h.

Definition sample_trie : t :=
  match sample_build with Ok (tr, _) => tr | _ => empty end.
Definition sample_heap : Heap :=
  match sample_build with Ok (_, h) => h | _ => empty_heap end.

Lemma sample_wf : wf sample_heap ∧ tagged sample_heap ∧ root_ok sample_trie sample_heap.
Proof.
  assert (holds sample_trie sample_heap
            (foldl apply_op ∅ [OpPut (chars "ac") (Uint32 1); OpPut (chars "b") (Uint32 2)]))
    as (Hwf & Htag & Hroot & _).
  { apply (run_holds _ empty _ empty_heap); [apply holds_empty|]. vm_compute. reflexivity. }
  done.
Qed.

Lemma Get_returns_value_at_key_witness :
  wf sample_heap ∧ root_ok sample_trie sample_heap ∧
  Get TUint32 (chars "ac") sample_trie sample_heap =
    Ok (lookup TUint32 sample_heap sample_trie (chars "ac")).
Proof.
  destruct sample_wf as (Hwf & _ & Hroot). split; [exact Hwf|]. split; [exact Hroot|].
  exact (Get_returns_value_at_key TUint32 (chars "ac") sample_trie sample_heap Hwf Hroot).
Defined.

Example sample_lookups :
  lookup TUint32 sample_heap sample_trie (chars "ac") = Some (Uint32 1) ∧
  lookup TUint64 sample_heap sample_trie (chars "ac") = None ∧
  lookup TUint32 sample_heap sample_trie (chars "a") = None ∧
  lookup TUint32 sample_heap sample_trie (chars "acd") = None.
Proof. repeat split; vm_compute; reflexivity. Qed.

Lemma Put_updates_one_key_witness :
  wf sample_heap ∧ root_ok sample_trie sample_heap ∧
  (chars "a" ≠ [] ∨ root_ sample_trie ≠ None) ∧
  ∃ tr' h',
    Put (chars "a") (String_ "x") sample_trie sample_heap = Ok (tr', h') ∧ wf h' ∧
    root_ok tr' h' ∧ (tagged sample_heap → tagged h') ∧
    ∀ T key',
      Get T key' tr' h' =
        if decide (key' = chars "a")
        then Ok (if decide (type_of (String_ "x") = T) then Some (String_ "x") else None)
        else Get T key' sample_trie sample_heap.
Proof.
  destruct sample_wf as (Hwf & _ & Hroot).
  assert (chars "a" ≠ [] ∨ root_ sample_trie ≠ None) as Hcase by (by left).
  split; [exact Hwf|]. split; [exact Hroot|]. split; [exact Hcase|].
  exact (Put_updates_one_key (chars "a") (String_ "x") sample_trie sample_heap
           Hwf Hroot Hcase).
Defined.

Lemma Remove_takes_one_key_away_witness :
  wf sample_heap ∧ tagged sample_heap ∧ root_ok sample_trie sample_heap ∧
  root_ sample_trie ≠ None ∧
  ∃ tr' h',
    Remove (chars "ac") sample_trie sample_heap = Ok (tr', h') ∧ wf h' ∧ tagged h' ∧
    root_ok tr' h' ∧
    (node_at sample_heap sample_trie (chars "ac") = None → tr' = sample_trie) ∧
    ∀ T key', Get T key' tr' h' =
              if decide (key' = chars "ac") then Ok None
              else Get T key' sample_trie sample_heap.
Proof.
  destruct sample_wf as (Hwf & Htag & Hroot).
  assert (root_ sample_trie ≠ None) as Hnonnull by (vm_compute; discriminate).
  split; [exact Hwf|]. split; [exact Htag|]. split; [exact Hroot|].
  split; [exact Hnonnull|].
  exact (Remove_takes_one_key_away (chars "ac") sample_trie sample_heap
           Hwf Htag Hroot Hnonnull).
Defined.

(** A run that overwrites a value with one of another type, puts a value at
    the empty key, and removes a key that is there and one that is not *)
Definition sample_ops : list Op :=
  [OpPut (chars "ac") (Uint32 1); OpPut (chars "b") (String_ "x");
   OpPut (chars "") (Uint64 7); OpRemove (chars "ac");
   OpPut (chars "b") (Uint32 2); OpRemove (chars "zz")].

Definition sample_end : t * Heap :=
  match run sample_ops (empty, empty_heap) with
  | Ok st => st
  | _ => (empty, empty_heap)
  end.

Lemma Get_after_run_is_map_lookup_witness :
  run sample_ops (empty, empty_heap) = Ok (sample_end.1, sample_end.2) ∧
  ∀ T key, Get T key sample_end.1 sample_end.2
           = Ok (typed T (contents sample_ops !! key)).
Proof.
  assert (run sample_ops (empty, empty_heap) = Ok (sample_end.1, sample_end.2)) as Hrun
    by (vm_compute; reflexivity).
  split; [exact Hrun|].
  exact (Get_after_run_is_map_lookup sample_ops sample_end.1 sample_end.2 Hrun).
Defined.

Example sample_contents :
  contents sample_ops = {[ chars "" := Uint64 7; chars "b" := Uint32 2 ]} ∧
  Get TUint32 (chars "b") sample_end.1 sample_end.2 = Ok (Some (Uint32 2)) ∧
  Get TString (chars "b") sample_end.1 sample_end.2 = Ok None ∧
  Get TUint32 (chars "ac") sample_end.1 sample_end.2 = Ok None.
Proof. repeat split; vm_compute; reflexivity. Qed.

(** Two more calls on the sample trie *)
Definition later_ops : list Op := [OpRemove (chars "ac"); OpPut (chars "b") (Uint64 9)].

Definition sample_later : t * Heap :=
  match run later_ops (sample_trie, sample_heap) with
  | Ok st => st
  | _ => (empty, empty_heap)
  end.

Lemma old_versions_stay_readable_witness :
  heap_ok sample_heap ∧
  run later_ops (sample_trie, sample_heap) = Ok (sample_later.1, sample_later.2) ∧
  (∀ a n, cells sample_heap !! a = Some n → cells sample_later.2 !! a = Some n) ∧
  ∀ T key r, Get T key sample_trie sample_heap = Ok r →
             Get T key sample_trie sample_later.2 = Ok r.
Proof.
  destruct sample_wf as ([Hok _] & _ & _).
  assert (run later_ops (sample_trie, sample_heap) = Ok (sample_later.1, sample_later.2))
    as Hrun by (vm_compute; reflexivity).
  split; [exact Hok|]. split; [exact Hrun|].
  exact (old_versions_stay_readable later_ops sample_trie sample_later.1 sample_heap
           sample_later.2 Hok Hrun).
Defined.

Example sample_versions :
  Get TUint32 (chars "ac") sample_trie sample_later.2 = Ok (Some (Uint32 1)) ∧
  Get TUint32 (chars "ac") sample_later.1 sample_later.2 = Ok None ∧
  Get TUint32 (chars "b") sample_trie sample_later.2 = Ok (Some (Uint32 2)) ∧
  Get TUint64 (chars "b") sample_later.1 sample_later.2 = Ok (Some (Uint64 9)).
Proof. repeat split; vm_compute; reflexivity. Qed.

End TrieMap.

(** * The worker pool of the disk scheduler under every interleaving

    The constructor of the pool revision starts [num_threads + 1] threads
    on one shared queue; [Schedule] and the destructor put items in from
    other threads.  The pool is a transition system here: an event is a
    call of [Schedule], one [Put] of the stop sentinel by the destructor,
    or the next step of one worker thread, and a run is any list of
    events, that is any interleaving of the threads.

    A step of a worker is enabled in the model whenever the code can take
    it: the model lets a worker go on to [Get] without asking whether
    [cv_] was notified, so every run of the code is a run of the model.
    What holds in every run of the model (that nothing is resolved twice,
    that no exception but the disk manager's arises) therefore holds of
    the code; that a request is taken at all is not claimed. *)

Module WorkerPool.
Import DiskScheduler DiskSchedulerFacts.

(** Where a worker thread stands in [StartWorkerThread]: in [cv_.wait] or
    [request_queue_.Get], before the call of the disk manager for the
    request it took, before [r->callback_.set_value(true)], or after its
    [return]. *)
Inductive Thread :=
  | AtGet
  | AtDisk (r : DiskRequest.t)
  | AtSetValue (r : DiskRequest.t)
  | Finished.

(** The scheduler: the queue, the worker threads, and what they act on.

    Modelled from the spec: [request_queue_] is a [Channel]
    (common/channel.h is not among the sources), taken as a queue of
    which [Put] fills the back and [Get] takes the front, waiting while
    it is empty. *)
Record Pool (Disk : Type) := mkPool {
  request_queue_ : list (option DiskRequest.t);
  background_thread_ : list Thread;
  world_ : World Disk
}.
Arguments mkPool {Disk} _ _ _.
Arguments request_queue_ {Disk} _.
Arguments background_thread_ {Disk} _.
Arguments world_ {Disk} _.

(** A call of [Schedule], one [request_queue_.Put(std::nullopt)] of the
    destructor, or the next step of worker [i] *)
Inductive Event :=
  | CallSchedule (r : DiskRequest.t)
  | PutStop
  | Run (i : nat).

(** [size_t num_threads = 32] *)
Definition num_threads : nat := 32.

(** How many items of a list pass a test *)
Fixpoint count {A : Type} (f : A → bool) (l : list A) : nat :=
  match l with
  | [] => 0
  | x :: l => (if f x then 1 else 0) + count f l
  end.

Definition has_returned (t : Thread) : bool :=
  match t with Finished => true | _ => false end.
Definition is_stop (x : option DiskRequest.t) : bool :=
  match x with None => true | Some _ => false end.
Definition is_put_stop (e : Event) : bool :=
  match e with PutStop => true | _ => false end.

(** The request a worker has taken and not yet answered *)
Definition held (t : Thread) : option DiskRequest.t :=
  match t with
  | AtDisk r | AtSetValue r => Some r
  | AtGet | Finished => None
  end.

(** The requests handed to [Schedule] in a run *)
Definition scheduled (evs : list Event) : list DiskRequest.t :=
  omap (λ e, match e with CallSchedule r => Some r | _ => None end) evs.

Section Steps.
Context {Disk : Type} `{DiskManager Disk}.

(** [DiskScheduler::DiskScheduler]: the loop runs for [i <= num_threads],
    with [n] for the value of that global (it is not [const]). *)
Definition new (n : nat) (w : World Disk) : Pool Disk :=
  mkPool [] (replicate (S n) AtGet) w.

(** [DiskScheduler::Schedule] *)
Definition Schedule (r : DiskRequest.t) (s : Pool Disk) : Pool Disk :=
  mkPool (request_queue_ s ++ [Some r]) (background_thread_ s) (world_ s).

(** One round of the loop of [DiskScheduler::~DiskScheduler] *)
Definition put_stop (s : Pool Disk) : Pool Disk :=
  mkPool (request_queue_ s ++ [None]) (background_thread_ s) (world_ s).

Definition set_thread (i : nat) (t : Thread) (s : Pool Disk) (w : World Disk) : Pool Disk :=
  mkPool (request_queue_ s) (<[i := t]> (background_thread_ s)) w.

(** The next step of worker [i] in [DiskScheduler::StartWorkerThread].  A
    worker at [Get] with an empty queue, and a worker that has returned,
    stay as they are.  An exception leaves the thread function. *)
Definition thread_step (i : nat) (s : Pool Disk) : result (Pool Disk) :=
  match background_thread_ s !! i with
  | Some AtGet =>
      match request_queue_ s with
      | [] => Ok s
      | None :: queue =>
          Ok (mkPool queue (<[i := Finished]> (background_thread_ s)) (world_ s))
      | Some r :: queue =>
          Ok (mkPool queue (<[i := AtDisk r]> (background_thread_ s)) (world_ s))
      end
  | Some (AtDisk r) =>
      w ← disk_io r (world_ s);
      Ok (set_thread i (AtSetValue r) s w)
  | Some (AtSetValue r) =>
      w ← set_value (DiskRequest.callback_ r) true (world_ s);
      Ok (set_thread i AtGet s w)
  | Some Finished | None => Ok s
  end.

Definition step (e : Event) (s : Pool Disk) : result (Pool Disk) :=
  match e with
  | CallSchedule r => Ok (Schedule r s)
  | PutStop => Ok (put_stop s)
  | Run i => thread_step i s
  end.

Fixpoint run (evs : list Event) (s : Pool Disk) : result (Pool Disk) :=
  match evs with
  | [] => Ok s
  | e :: evs => s ← step e s; run evs s
  end.

(** The requests in the queue, and the ones with a worker *)
Definition queued (s : Pool Disk) : list DiskRequest.t := omap id (request_queue_ s).

Definition in_flight (s : Pool Disk) : list DiskRequest.t :=
  omap held (background_thread_ s).

Definition unserved (s : Pool Disk) : list DiskRequest.t := queued s ++ in_flight s.

(** The invariant of a run in which the requests [S] were scheduled, on
    the unserved requests [u] and the promises [pr]: every scheduled
    request is unserved with its promise unresolved, or its promise holds
    [true]; the unserved ones have promises of their own; no other
    promise has changed. *)
Definition inv_on (w0 : World Disk) (S u : list DiskRequest.t) (pr : gmap nat bool) : Prop :=
  NoDup (DiskRequest.callback_ <$> u) ∧
  (∀ r, r ∈ u → r ∈ S ∧ pr !! DiskRequest.callback_ r = None) ∧
  (∀ r, r ∈ S → r ∈ u ∨ pr !! DiskRequest.callback_ r = Some true) ∧
  (∀ p, p ∉ DiskRequest.callback_ <$> S → pr !! p = promises w0 !! p).

Definition inv (w0 : World Disk) (S : list DiskRequest.t) (s : Pool Disk) : Prop :=
  inv_on w0 S (unserved s) (promises (world_ s)).

(** ** The invariant is kept *)

Lemma inv_on_perm (w0 : World Disk) (S u u' : list DiskRequest.t) (pr : gmap nat bool) :
  u ≡ₚ u' → inv_on w0 S u pr → inv_on w0 S u' pr.
Proof.
  intros Hperm (Hnodup & Hu & HS & Hother). split_and!.
  - by rewrite <- Hperm.
  - intros r Hr. apply Hu. by rewrite Hperm.
  - intros r Hr. destruct (HS r Hr) as [Hin|Hdone]; [left|by right]. by rewrite <- Hperm.
  - done.
Qed.

Lemma inv_on_schedule (w0 : World Disk) (S u : list DiskRequest.t) (pr : gmap nat bool)
    (r : DiskRequest.t) :
  inv_on w0 S u pr →
  DiskRequest.callback_ r ∉ DiskRequest.callback_ <$> S →
  promises w0 !! DiskRequest.callback_ r = None →
  inv_on w0 (S ++ [r]) (r :: u) pr.
Proof.
  intros (Hnodup & Hu & HS & Hother) Hnew Hfresh. split_and!.
  - rewrite fmap_cons. constructor; [|done].
    intros (r' & Heq & Hr')%list_elem_of_fmap. apply Hnew.
    apply list_elem_of_fmap. exists r'. split; [done|]. by apply Hu.
  - intros r' [->|Hr']%elem_of_cons.
    + split; [apply elem_of_app; right; by left|]. by rewrite Hother.
    + destruct (Hu r' Hr') as [Hin Hnone]. split; [|done]. apply elem_of_app. by left.
  - intros r' [Hr'|Hr']%elem_of_app.
    + destruct (HS r' Hr') as [Hin|Hdone]; [left; by right|by right].
    + apply list_elem_of_singleton in Hr' as ->. left. by left.
  - intros p Hp. apply Hother. intros Hin. apply Hp. rewrite fmap_app.
    apply elem_of_app. by left.
Qed.

Lemma inv_on_resolve (w0 : World Disk) (S u : list DiskRequest.t) (pr : gmap nat bool)
    (r : DiskRequest.t) :
  inv_on w0 S (r :: u) pr →
  pr !! DiskRequest.callback_ r = None ∧
  inv_on w0 S u (<[DiskRequest.callback_ r := true]> pr).
Proof.
  intros (Hnodup & Hu & HS & Hother).
  rewrite fmap_cons in Hnodup. apply NoDup_cons in Hnodup as [Hnotin Hnodup].
  destruct (Hu r) as [HrS Hnone]; [by left|]. split; [done|]. split_and!.
  - done.
  - intros r' Hr'. destruct (Hu r') as [Hin Hn]; [by right|]. split; [done|].
    rewrite lookup_insert_ne; [done|]. intros Heq. apply Hnotin.
    apply list_elem_of_fmap. by exists r'.
  - intros r' Hr'.
    destruct (decide (DiskRequest.callback_ r' = DiskRequest.callback_ r)) as [Heq|Hne].
    { right. rewrite Heq. apply lookup_insert_eq. }
    destruct (HS r' Hr') as [[->|Hin]%elem_of_cons|Hdone]; [done|by left|].
    right. by rewrite lookup_insert_ne.
  - intros p Hp. rewrite lookup_insert_ne; [by apply Hother|].
    intros <-. apply Hp. apply list_elem_of_fmap. by exists r.
Qed.

(** Putting another state in the place of one thread *)
Lemma omap_insert_perm {A B : Type} (f : A → option B) (l : list A) (i : nat) (x y : A) :
  l !! i = Some x →
  option_list (f x) ++ omap f (<[i := y]> l) ≡ₚ option_list (f y) ++ omap f l.
Proof.
  revert i. induction l as [|a l IH]; intros [|i] Hi; simplify_eq/=.
  - destruct (f x), (f y); simpl; try done. apply perm_swap.
  - specialize (IH i Hi). destruct (f a) as [b|]; [|done].
    rewrite <- !Permutation_middle. by rewrite IH.
Qed.

Lemma in_flight_insert (s : Pool Disk) (i : nat) (t t' : Thread) :
  background_thread_ s !! i = Some t →
  option_list (held t) ++ omap held (<[i := t']> (background_thread_ s))
    ≡ₚ option_list (held t') ++ in_flight s.
Proof. apply omap_insert_perm. Qed.

Lemma count_insert {A : Type} (f : A → bool) (l : list A) (i : nat) (x y : A) :
  l !! i = Some x →
  ((if f x then 1 else 0) + count f (<[i := y]> l) = (if f y then 1 else 0) + count f l)%nat.
Proof.
  revert i. induction l as [|a l IH]; intros [|i] Hi; simplify_eq/=; [lia|].
  specialize (IH i Hi). lia.
Qed.

Lemma count_app {A : Type} (f : A → bool) (l k : list A) :
  count f (l ++ k) = (count f l + count f k)%nat.
Proof. induction l as [|a l IH]; simpl; [done|]. rewrite IH. lia. Qed.

Lemma count_replicate {A : Type} (f : A → bool) (n : nat) (x : A) :
  f x = false → count f (replicate n x) = 0%nat.
Proof. intros Hx. induction n as [|n IH]; simpl; [done|]. by rewrite Hx, IH. Qed.

(** A step keeps the invariant; the one exception that can arise comes out
    of the disk manager, called for a scheduled request. *)
Lemma step_inv (w0 : World Disk) (S : list DiskRequest.t) (e : Event) (s : Pool Disk) :
  inv w0 S s →
  (∀ r, e = CallSchedule r →
        (DiskRequest.callback_ r ∉ DiskRequest.callback_ <$> S) ∧
        promises w0 !! DiskRequest.callback_ r = None) →
  match step e s with
  | Ok s' => inv w0 (S ++ scheduled [e]) s'
  | Throw msg => ∃ r, r ∈ S ∧ disk_io r (world_ s) = Throw msg
  | Undefined what => ∃ r, r ∈ S ∧ disk_io r (world_ s) = Undefined what
  end.
Proof.
  intros Hinv Hnew. unfold inv in *. destruct e as [r| |i]; simpl.
  - destruct (Hnew r eq_refl) as [Hnotin Hfresh].
    eapply inv_on_perm; [|by apply inv_on_schedule].
    unfold unserved, queued, in_flight, Schedule. simpl. rewrite omap_app. simpl.
    rewrite <- app_assoc. apply Permutation_middle.
  - rewrite app_nil_r. unfold unserved, queued, in_flight, put_stop in *. simpl.
    rewrite omap_app. simpl. by rewrite app_nil_r.
  - rewrite app_nil_r. unfold thread_step.
    destruct (background_thread_ s !! i) as [[|r|r|]|] eqn:Hi; [| | |done|done].
    + (* the worker takes an item *)
      destruct (request_queue_ s) as [|[r|] queue] eqn:Hq; [done| |].
      * eapply inv_on_perm; [|exact Hinv].
        unfold unserved, queued, in_flight. simpl. rewrite Hq. simpl.
        pose proof (in_flight_insert s i AtGet (AtDisk r) Hi) as Hperm. simpl in Hperm.
        rewrite Hperm. unfold in_flight. by rewrite <- Permutation_middle.
      * eapply inv_on_perm; [|exact Hinv].
        unfold unserved, queued, in_flight. simpl. rewrite Hq. simpl.
        pose proof (in_flight_insert s i AtGet Finished Hi) as Hperm. simpl in Hperm.
        by rewrite Hperm.
    + (* the call of the disk manager *)
      assert (r ∈ S) as HrS.
      { destruct Hinv as (_ & Hu & _). apply Hu. unfold unserved. apply elem_of_app. right.
        unfold in_flight. apply list_elem_of_omap. exists (AtDisk r). split; [|done].
        by eapply list_elem_of_lookup_2. }
      destruct (disk_io r (world_ s)) as [w|msg|what] eqn:Hio; simpl; [|by eauto..].
      rewrite (disk_io_promises _ _ _ Hio).
      eapply inv_on_perm; [|exact Hinv].
      unfold unserved, queued, in_flight. simpl.
      pose proof (in_flight_insert s i (AtDisk r) (AtSetValue r) Hi) as Hperm. simpl in Hperm.
      apply (inj (cons r)) in Hperm. by rewrite Hperm.
    + (* set_value *)
      pose proof (in_flight_insert s i (AtSetValue r) AtGet Hi) as Hperm. simpl in Hperm.
      assert (inv_on w0 S (r :: queued s ++ omap held (<[i := AtGet]> (background_thread_ s)))
                (promises (world_ s))) as Hinv'.
      { eapply inv_on_perm; [|exact Hinv]. unfold unserved.
        rewrite <- Hperm. by rewrite <- Permutation_middle. }
      apply inv_on_resolve in Hinv' as [Hnone Hinv'].
      unfold set_value. rewrite Hnone. simpl. exact Hinv'.
Qed.

Lemma scheduled_cons (e : Event) (evs : list Event) :
  scheduled (e :: evs) = scheduled [e] ++ scheduled evs.
Proof. unfold scheduled. simpl. by destruct e. Qed.

Lemma run_inv (w0 : World Disk) (evs : list Event) (S : list DiskRequest.t) (s : Pool Disk) :
  inv w0 S s →
  NoDup (DiskRequest.callback_ <$> (S ++ scheduled evs)) →
  (∀ r, r ∈ scheduled evs → promises w0 !! DiskRequest.callback_ r = None) →
  match run evs s with
  | Ok s' => inv w0 (S ++ scheduled evs) s'
  | Throw msg => ∃ r w, r ∈ S ++ scheduled evs ∧ disk_io r w = Throw msg
  | Undefined what => ∃ r w, r ∈ S ++ scheduled evs ∧ disk_io r w = Undefined what
  end.
Proof.
  revert S s. induction evs as [|e evs IH]; intros S s Hinv Hnodup Hfresh.
  { simpl. unfold scheduled. simpl. by rewrite app_nil_r. }
  rewrite scheduled_cons in Hnodup, Hfresh. rewrite scheduled_cons.
  assert (∀ r, e = CallSchedule r →
               (DiskRequest.callback_ r ∉ DiskRequest.callback_ <$> S) ∧
               promises w0 !! DiskRequest.callback_ r = None) as Hnew.
  { intros r ->. simpl in *. split.
    - rewrite fmap_app, fmap_cons in Hnodup.
      apply NoDup_app in Hnodup as (_ & Hdisj & _).
      intros Hin. apply (Hdisj _ Hin). by left.
    - apply Hfresh. by left. }
  pose proof (step_inv w0 S e s Hinv Hnew) as Hstep. cbn [run].
  destruct (step e s) as [s1|msg|what]; cbn [mbind result_bind].
  - rewrite app_assoc.
    assert (NoDup (DiskRequest.callback_ <$> ((S ++ scheduled [e]) ++ scheduled evs))) as Hnodup'
      by (by rewrite <- app_assoc).
    assert (∀ r, r ∈ scheduled evs → promises w0 !! DiskRequest.callback_ r = None) as Hfresh'.
    { intros r Hr. apply Hfresh. apply elem_of_app. by right. }
    pose proof (IH (S ++ scheduled [e]) s1 Hstep Hnodup' Hfresh') as Hrest.
    destruct (run evs s1) as [s'|msg|what]; [done|..].
    + destruct Hrest as (r & w & Hr & Hio). by exists r, w.
    + destruct Hrest as (r & w & Hr & Hio). by exists r, w.
  - destruct Hstep as (r & Hr & Hio).
    exists r, (world_ s). split; [|done]. apply elem_of_app. by left.
  - destruct Hstep as (r & Hr & Hio).
    exists r, (world_ s). split; [|done]. apply elem_of_app. by left.
Qed.

Lemma in_flight_new (n : nat) (w0 : World Disk) : in_flight (new n w0) = [].
Proof.
  unfold in_flight, new. cbn [background_thread_].
  induction (S n) as [|m IH]; [done|]. exact IH.
Qed.

Lemma inv_new (n : nat) (w0 : World Disk) : inv w0 [] (new n w0).
Proof.
  unfold inv, inv_on, unserved. rewrite in_flight_new. unfold queued. simpl.
  split_and!.
  - constructor.
  - by intros r Hr%elem_of_nil.
  - by intros r Hr%elem_of_nil.
  - done.
Qed.

(** X27. Requests are answered at most once, under every interleaving of
    the worker threads with each other, with calls of [Schedule] and with
    the destructor.  When the scheduled requests carry promises of their
    own that were unresolved at the start, then at every point of a run
    each of them is in one of two states: unserved, that is in the queue
    or taken by a worker and its promise still unresolved, or answered,
    its promise holding [true].  No request is in the queue or with a
    worker twice, and a promise that belongs to no scheduled request is
    as at the start. *)
Theorem scheduled_requests_resolve_once (n : nat) (w0 : World Disk) (evs : list Event)
    (s : Pool Disk) :
  NoDup (DiskRequest.callback_ <$> scheduled evs) →
  (∀ r, r ∈ scheduled evs → promises w0 !! DiskRequest.callback_ r = None) →
  run evs (new n w0) = Ok s →
  (∀ r, r ∈ scheduled evs →
        (r ∈ unserved s ∧ promises (world_ s) !! DiskRequest.callback_ r = None) ∨
        ((r ∉ unserved s) ∧ promises (world_ s) !! DiskRequest.callback_ r = Some true)) ∧
  (∀ r, r ∈ unserved s → r ∈ scheduled evs) ∧
  NoDup (unserved s) ∧
  (∀ p, p ∉ DiskRequest.callback_ <$> scheduled evs →
        promises (world_ s) !! p = promises w0 !! p).
Proof.
  intros Hnodup Hfresh Hrun.
  pose proof (run_inv w0 evs [] (new n w0) (inv_new n w0) Hnodup Hfresh) as Hinv.
  rewrite Hrun in Hinv. simpl in Hinv. destruct Hinv as (Hnd & Hu & HS & Hother).
  split_and!.
  - intros r Hr. destruct (HS r Hr) as [Hin|Hdone].
    + left. split; [done|]. by apply Hu.
    + right. split; [|done]. intros Hin. apply Hu in Hin as [_ Hnone]. congruence.
  - intros r Hr. by apply Hu.
  - by apply NoDup_fmap_1 in Hnd.
  - done.
Qed.

(** X28. Under every interleaving, the only exception that can leave a
    worker is one the disk manager throws.  When the scheduled requests
    carry promises of their own that were unresolved at the start, a run
    goes through, or ends with what a call of the disk manager for a
    scheduled request threw: [set_value] does not throw.  With a disk
    manager whose calls return, every run goes through. *)
Theorem only_the_disk_manager_throws (n : nat) (w0 : World Disk) (evs : list Event) :
  NoDup (DiskRequest.callback_ <$> scheduled evs) →
  (∀ r, r ∈ scheduled evs → promises w0 !! DiskRequest.callback_ r = None) →
  match run evs (new n w0) with
  | Ok s => True
  | Throw msg => ∃ r w, r ∈ scheduled evs ∧ disk_io r w = Throw msg
  | Undefined what => ∃ r w, r ∈ scheduled evs ∧ disk_io r w = Undefined what
  end ∧
  ((∀ r w, is_Ok (disk_io r w)) → is_Ok (run evs (new n w0))).
Proof.
  intros Hnodup Hfresh.
  pose proof (run_inv w0 evs [] (new n w0) (inv_new n w0) Hnodup Hfresh) as Hinv.
  simpl in Hinv. split.
  - by destruct (run evs (new n w0)).
  - intros Hret. destruct (run evs (new n w0)) as [s|msg|what]; [by eexists|..].
    + destruct Hinv as (r & w & _ & Hio). destruct (Hret r w) as [? ?]. congruence.
    + destruct Hinv as (r & w & _ & Hio). destruct (Hret r w) as [? ?]. congruence.
Qed.

(** ** Workers and stop sentinels *)

Lemma step_stops (e : Event) (s s' : Pool Disk) :
  step e s = Ok s' →
  length (background_thread_ s') = length (background_thread_ s) ∧
  (count has_returned (background_thread_ s') + count is_stop (request_queue_ s')
   = count has_returned (background_thread_ s) + count is_stop (request_queue_ s)
     + (if is_put_stop e then 1 else 0))%nat.
Proof.
  destruct e as [r| |i]; simpl.
  - intros [= <-]. simpl. rewrite count_app. simpl. lia.
  - intros [= <-]. simpl. rewrite count_app. simpl. lia.
  - unfold thread_step.
    destruct (background_thread_ s !! i) as [[|r|r|]|] eqn:Hi.
    + destruct (request_queue_ s) as [|[r|] queue] eqn:Hq; intros [= <-]; simpl.
      * rewrite Hq. simpl. lia.
      * rewrite length_insert.
        pose proof (count_insert has_returned _ i AtGet (AtDisk r) Hi). simpl in *. lia.
      * rewrite length_insert.
        pose proof (count_insert has_returned _ i AtGet Finished Hi). simpl in *. lia.
    + intros (w & _ & [= <-])%bind_Ok. simpl. rewrite length_insert.
      pose proof (count_insert has_returned _ i (AtDisk r) (AtSetValue r) Hi). simpl in *. lia.
    + intros (w & _ & [= <-])%bind_Ok. simpl. rewrite length_insert.
      pose proof (count_insert has_returned _ i (AtSetValue r) AtGet Hi). simpl in *. lia.
    + intros [= <-]. lia.
    + intros [= <-]. lia.
Qed.

Lemma run_stops (evs : list Event) (s s' : Pool Disk) :
  run evs s = Ok s' →
  length (background_thread_ s') = length (background_thread_ s) ∧
  (count has_returned (background_thread_ s') + count is_stop (request_queue_ s')
   = count has_returned (background_thread_ s) + count is_stop (request_queue_ s)
     + count is_put_stop evs)%nat.
Proof.
  revert s. induction evs as [|e evs IH]; intros s Hrun; simpl in Hrun.
  { injection Hrun as <-. simpl. lia. }
  apply bind_Ok in Hrun as (s1 & Hstep & Hrun).
  apply step_stops in Hstep as [Hlen Hcount]. apply IH in Hrun as [Hlen' Hcount'].
  simpl. split; [congruence|]. lia.
Qed.

(** X29. A worker returns only by taking a stop sentinel, and a sentinel
    stops one worker.  At every point of a run, under every interleaving,
    the pool has the [num_threads + 1] threads the constructor started,
    and the workers that have returned, together with the sentinels still
    in the queue, are as many as the sentinels the destructor has put in:
    before the destructor runs no worker returns, and no more workers
    return than sentinels were put in. *)
Theorem workers_return_on_stop_sentinels (n : nat) (w0 : World Disk) (evs : list Event)
    (s : Pool Disk) :
  run evs (new n w0) = Ok s →
  length (background_thread_ s) = S n ∧
  (count has_returned (background_thread_ s) + count is_stop (request_queue_ s)
   = count is_put_stop evs)%nat.
Proof.
  intros Hrun. apply run_stops in Hrun as [Hlen Hcount]. simpl in *.
  rewrite length_replicate in Hlen. split; [by rewrite Hlen|].
  rewrite (count_replicate has_returned n AtGet eq_refl) in Hcount. lia.
Qed.

End Steps.

(** ** A run of a pool of two workers *)

Definition read_request : DiskRequest.t := DiskRequest.mk false 1 3 1.

(** Two requests are scheduled; the workers take one each and the second
    worker is the first to finish; then the destructor puts in its two
    sentinels and both workers return. *)
Definition sample_events : list Event :=
  [CallSchedule write_request; Run 0; CallSchedule read_request; Run 1; Run 0;
   Run 1; Run 1; Run 0; Run 1; PutStop; Run 0; PutStop; Run 1].

Definition sample_pool : Pool (gmap Z (list Byte.byte)) :=
  match run (H := map_disk_manager) sample_events (new 1 working_world) with
  | Ok s => s
  | _ => new 1 working_world
  end.

Lemma sample_run :
  run (H := map_disk_manager) sample_events (new 1 working_world) = Ok sample_pool.
Proof. vm_compute. reflexivity. Qed.

Lemma sample_promises_distinct : NoDup (DiskRequest.callback_ <$> scheduled sample_events).
Proof.
  simpl. apply NoDup_cons. split; [|apply NoDup_singleton].
  intros Hin%list_elem_of_singleton. discriminate Hin.
Qed.

Lemma sample_promises_fresh (r : DiskRequest.t) :
  r ∈ scheduled sample_events → promises working_world !! DiskRequest.callback_ r = None.
Proof.
  intros Hr. simpl in Hr. apply elem_of_cons in Hr as [->|Hr]; [done|].
  apply elem_of_cons in Hr as [->|Hr]; [done|]. by apply elem_of_nil in Hr.
Qed.

Lemma scheduled_requests_resolve_once_witness :
  NoDup (DiskRequest.callback_ <$> scheduled sample_events) ∧
  (∀ r, r ∈ scheduled sample_events →
        promises working_world !! DiskRequest.callback_ r = None) ∧
  run (H := map_disk_manager) sample_events (new 1 working_world) = Ok sample_pool ∧
  (∀ r, r ∈ scheduled sample_events →
        (r ∈ unserved sample_pool ∧
         promises (world_ sample_pool) !! DiskRequest.callback_ r = None) ∨
        ((r ∉ unserved sample_pool) ∧
         promises (world_ sample_pool) !! DiskRequest.callback_ r = Some true)) ∧
  (∀ r, r ∈ unserved sample_pool → r ∈ scheduled sample_events) ∧
  NoDup (unserved sample_pool) ∧
  (∀ p, p ∉ DiskRequest.callback_ <$> scheduled sample_events →
        promises (world_ sample_pool) !! p = promises working_world !! p).
Proof.
  split; [exact sample_promises_distinct|]. split; [exact sample_promises_fresh|].
  split; [exact sample_run|].
  exact (scheduled_requests_resolve_once (H := map_disk_manager) 1 working_world
           sample_events sample_pool sample_promises_distinct sample_promises_fresh
           sample_run).
Defined.

Lemma map_disk_manager_returns (r : DiskRequest.t) (w : World (gmap Z (list Byte.byte))) :
  is_Ok (disk_io (H := map_disk_manager) r w).
Proof. unfold disk_io. destruct (DiskRequest.is_write_ r); by eexists. Qed.

(** A run that ends in the call of a disk manager that fails *)
Definition failing_events : list Event := [CallSchedule write_request; Run 0; Run 0].

Lemma failing_promises_distinct : NoDup (DiskRequest.callback_ <$> scheduled failing_events).
Proof. simpl. apply NoDup_singleton. Qed.

Lemma failing_promises_fresh (r : DiskRequest.t) :
  r ∈ scheduled failing_events → promises failing_world !! DiskRequest.callback_ r = None.
Proof. intros Hr. simpl in Hr. by apply list_elem_of_singleton in Hr as ->. Qed.

Lemma only_the_disk_manager_throws_witness :
  (NoDup (DiskRequest.callback_ <$> scheduled sample_events) ∧
   (∀ r, r ∈ scheduled sample_events →
         promises working_world !! DiskRequest.callback_ r = None) ∧
   (∀ r w, is_Ok (disk_io (H := map_disk_manager) r w)) ∧
   is_Ok (run (H := map_disk_manager) sample_events (new 1 working_world))) ∧
  (NoDup (DiskRequest.callback_ <$> scheduled failing_events) ∧
   (∀ r, r ∈ scheduled failing_events →
         promises failing_world !! DiskRequest.callback_ r = None) ∧
   run (H := failing_disk_manager) failing_events (new num_threads failing_world)
     = Throw "I/O error while writing" ∧
   ∃ r w, r ∈ scheduled failing_events ∧
          disk_io (H := failing_disk_manager) r w = Throw "I/O error while writing").
Proof.
  split.
  - split; [exact sample_promises_distinct|]. split; [exact sample_promises_fresh|].
    split; [exact map_disk_manager_returns|].
    exact (proj2 (only_the_disk_manager_throws (H := map_disk_manager) 1 working_world
                    sample_events sample_promises_distinct sample_promises_fresh)
             map_disk_manager_returns).
  - split; [exact failing_promises_distinct|]. split; [exact failing_promises_fresh|].
    split; [reflexivity|].
    exact (proj1 (only_the_disk_manager_throws (H := failing_disk_manager) num_threads
                    failing_world failing_events failing_promises_distinct
                    failing_promises_fresh)).
Defined.

Lemma workers_return_on_stop_sentinels_witness :
  run (H := map_disk_manager) sample_events (new 1 working_world) = Ok sample_pool ∧
  length (background_thread_ sample_pool) = 2%nat ∧
  (count has_returned (background_thread_ sample_pool)
   + count is_stop (request_queue_ sample_pool)
   = count is_put_stop sample_events)%nat.
Proof.
  split; [exact sample_run|].
  exact (workers_return_on_stop_sentinels (H := map_disk_manager) 1 working_world
           sample_events sample_pool sample_run).
Defined.

(** What the run leaves: both promises hold [true], page 3 is on the disk,
    the buffer of the read holds it, both workers have returned and the
    queue is empty. *)
Example sample_pool_state :
  promises (world_ sample_pool) !! 0%nat = Some true ∧
  promises (world_ sample_pool) !! 1%nat = Some true ∧
  disk (world_ sample_pool) !! 3 = Some [Byte.x01] ∧
  memory (world_ sample_pool) !! 1%nat = Some [Byte.x01] ∧
  background_thread_ sample_pool = [Finished; Finished] ∧
  request_queue_ sample_pool = [].
Proof. vm_compute. repeat split; reflexivity. Qed.

(** Two scheduled requests with one promise: the second [set_value]
    throws. *)
Example sample_shared_promise :
  run (H := map_disk_manager)
      [CallSchedule write_request; CallSchedule (DiskRequest.mk false 1 3 0);
       Run 0; Run 0; Run 0; Run 0; Run 0; Run 0]
      (new num_threads working_world)
  = Throw "promise already satisfied".
Proof. vm_compute. reflexivity. Qed.

End WorkerPool.
